(** * Sprut module kernel: lifecycle, registry, scheduler, supervisor

    A shallow embedding of the core of the repository
    (src/core/Module.ts, src/core/ModuleManager.ts,
    src/core/ModuleUpdater.ts, src/core/ModuleMemoryInspector.ts)
    together with the properties its specification states about it.

    Conventions of the embedding.
    - A JavaScript [Map] whose iteration order is observable (the module
      registry, the snapshot table) is an association list in insertion
      order; a [Map] or [Set] that is only queried by key is a [gmap] or
      a [gset].
    - An [async] method is the function from the state before the call
      to the state after it, paired with [Returned] or [Thrown err].
    - The overridable hooks [onInitialize], [onStart], [onStop] are
      oracles of type [Hook]: [None] when the hook resolves, [Some err]
      when it throws [err].
    - Logging is kept only where a property mentions it (warnings of the
      lifecycle methods).
    - Counts ([maxAttempts], [maxSnapshots]) are natural numbers. The
      numbers [compareVersions] compares are doubles, with the rounding
      of [Number] written out; the growth analysis of the memory
      inspector is written over an interface of number operations. *)

From Stdlib Require Import ZArith QArith String Ascii List Lia.
From stdpp Require Import gmap strings list.

Open Scope string_scope.
Open Scope list_scope.

(** ** src/types/index.ts *)

Inductive ModuleState :=
  | UNINITIALIZED | INITIALIZING | INITIALIZED | STARTING | RUNNING
  | STOPPING | STOPPED | ERROR | WARNING | DEBUG.

#[global] Instance ModuleState_eq_dec : EqDecision ModuleState.
Proof. solve_decision. Defined.

(** The enum has string values; they appear in log messages. *)
Definition state_text (s : ModuleState) : string :=
  match s with
  | UNINITIALIZED => "UNINITIALIZED" | INITIALIZING => "INITIALIZING"
  | INITIALIZED => "INITIALIZED" | STARTING => "STARTING"
  | RUNNING => "RUNNING" | STOPPING => "STOPPING" | STOPPED => "STOPPED"
  | ERROR => "ERROR" | WARNING => "WARNING" | DEBUG => "DEBUG"
  end.

Record ModuleMetadata := {
  md_name : string;
  md_version : string;
  md_dependencies : option (list string);
  md_disabled : option bool;
  md_priority : option Z
}.

(** ** src/core/Module.ts *)

(** What a lifecycle call makes observable: the two signals of the
    module ([emit("stateChange", new, previous)], [emit("error", err,
    operation)]) and the warnings it logs. *)
Inductive Effect :=
  | StateChange (newState previousState : ModuleState)
  | ErrorEvent (err operation : string)
  | LogWarn (message : string).

Inductive Outcome :=
  | Returned
  | Thrown (err : string).

Definition Hook := option string.

Record Module := {
  metadata : ModuleMetadata;
  _state : ModuleState;
  _error : option string;
  _permissions : gmap string (gset string);
  (** [moduleManager] is a back-reference; the record keeps whether it is
      set, the manager itself is passed to the methods that follow it. *)
  moduleManager : bool;
  (** Listeners the manager installed with [module.on("error", ...)] and
      [module.on("stateChange", ...)]. *)
  errorListeners : nat;
  stateChangeListeners : nat;
  (** The [checkModulePermission] member of the object, when it is a
      function (only an auth module has one). *)
  checkModulePermission : option (string -> string -> string -> bool)
}.

Definition with_state (s : ModuleState) (m : Module) : Module :=
  {| metadata := metadata m; _state := s; _error := _error m;
     _permissions := _permissions m; moduleManager := moduleManager m;
     errorListeners := errorListeners m;
     stateChangeListeners := stateChangeListeners m;
     checkModulePermission := checkModulePermission m |}.

Definition with_error (e : option string) (m : Module) : Module :=
  {| metadata := metadata m; _state := _state m; _error := e;
     _permissions := _permissions m; moduleManager := moduleManager m;
     errorListeners := errorListeners m;
     stateChangeListeners := stateChangeListeners m;
     checkModulePermission := checkModulePermission m |}.

Definition with_permissions (p : gmap string (gset string)) (m : Module)
  : Module :=
  {| metadata := metadata m; _state := _state m; _error := _error m;
     _permissions := p; moduleManager := moduleManager m;
     errorListeners := errorListeners m;
     stateChangeListeners := stateChangeListeners m;
     checkModulePermission := checkModulePermission m |}.

(** [setModuleManager(manager)] *)
Definition setModuleManager (m : Module) : Module :=
  {| metadata := metadata m; _state := _state m; _error := _error m;
     _permissions := _permissions m; moduleManager := true;
     errorListeners := errorListeners m;
     stateChangeListeners := stateChangeListeners m;
     checkModulePermission := checkModulePermission m |}.

(** [module.on("error", ...)] and [module.on("stateChange", ...)] as
    [registerModule] calls them. *)
Definition on_error (m : Module) : Module :=
  {| metadata := metadata m; _state := _state m; _error := _error m;
     _permissions := _permissions m; moduleManager := moduleManager m;
     errorListeners := S (errorListeners m);
     stateChangeListeners := stateChangeListeners m;
     checkModulePermission := checkModulePermission m |}.

Definition on_stateChange (m : Module) : Module :=
  {| metadata := metadata m; _state := _state m; _error := _error m;
     _permissions := _permissions m; moduleManager := moduleManager m;
     errorListeners := errorListeners m;
     stateChangeListeners := S (stateChangeListeners m);
     checkModulePermission := checkModulePermission m |}.

(** A module as its constructor leaves it. *)
Definition new_Module (md : ModuleMetadata) : Module :=
  {| metadata := md; _state := UNINITIALIZED; _error := None;
     _permissions := ∅; moduleManager := false;
     errorListeners := 0; stateChangeListeners := 0;
     checkModulePermission := None |}.

(** Metadata accessors with their defaults. *)
Definition name (m : Module) : string :=
  if decide (md_name (metadata m) = "") then "unnamed-module"
  else md_name (metadata m).

Definition version (m : Module) : string :=
  if decide (md_version (metadata m) = "") then "0.0.0"
  else md_version (metadata m).

Definition dependencies (m : Module) : list string :=
  default [] (md_dependencies (metadata m)).

Definition disabled (m : Module) : bool :=
  default false (md_disabled (metadata m)).

Definition priority (m : Module) : Z :=
  default 50%Z (md_priority (metadata m)).

Definition getState (m : Module) : ModuleState := _state m.

Definition hasError (m : Module) : bool :=
  bool_decide (_state m = ERROR) || bool_decide (_error m ≠ None).

(** [setState]: assigns, and emits only when the state changed. *)
Definition setState (state : ModuleState) (m : Module)
  : Module * list Effect :=
  let previousState := _state m in
  (with_state state m,
   if decide (previousState = state) then []
   else [StateChange state previousState]).

(** [handleError(operation, error)] *)
Definition handleError (operation err : string) (m : Module)
  : Module * list Effect :=
  let '(m1, e1) := setState ERROR (with_error (Some err) m) in
  (m1, e1 ++ [ErrorEvent err operation]).

Definition initialize (onInitialize : Hook) (m : Module)
  : Outcome * Module * list Effect :=
  if decide (_state m ≠ UNINITIALIZED) then
    (Returned, m,
     [LogWarn ("Module " +:+ name m
               +:+ " is already initialized or in progress (state: "
               +:+ state_text (_state m) +:+ ")")])
  else
    let '(m1, e1) := setState INITIALIZING m in
    match onInitialize with
    | None =>
        let '(m2, e2) := setState INITIALIZED m1 in
        (Returned, m2, e1 ++ e2)
    | Some err =>
        let '(m2, e2) := handleError "initialization" err m1 in
        (Thrown err, m2, e1 ++ e2)
    end.

Definition start (onStart : Hook) (m : Module)
  : Outcome * Module * list Effect :=
  if decide (_state m ≠ INITIALIZED ∧ _state m ≠ STOPPED) then
    (Returned, m,
     [LogWarn ("Cannot start module " +:+ name m +:+ " from state "
               +:+ state_text (_state m))])
  else
    let '(m1, e1) := setState STARTING m in
    match onStart with
    | None =>
        let '(m2, e2) := setState RUNNING m1 in
        (Returned, m2, e1 ++ e2)
    | Some err =>
        let '(m2, e2) := handleError "start" err m1 in
        (Thrown err, m2, e1 ++ e2)
    end.

Definition stop (onStop : Hook) (m : Module)
  : Outcome * Module * list Effect :=
  if decide (_state m ≠ RUNNING) then
    (Returned, m,
     [LogWarn ("Cannot stop module " +:+ name m +:+ " from state "
               +:+ state_text (_state m))])
  else
    let '(m1, e1) := setState STOPPING m in
    match onStop with
    | None =>
        let '(m2, e2) := setState STOPPED m1 in
        (Returned, m2, e1 ++ e2)
    | Some err =>
        let '(m2, e2) := handleError "stop" err m1 in
        (Thrown err, m2, e1 ++ e2)
    end.

(** [restart]: [await this.stop(); await this.start()]. A throw of
    [stop] propagates and [start] is not reached. *)
Definition restart (onStop onStart : Hook) (m : Module)
  : Outcome * Module * list Effect :=
  match stop onStop m with
  | (Thrown err, m1, e1) => (Thrown err, m1, e1)
  | (Returned, m1, e1) =>
      let '(r, m2, e2) := start onStart m1 in (r, m2, e1 ++ e2)
  end.

(** [reset]: no guard on the current state. *)
Definition reset (m : Module) : Module * list Effect :=
  setState UNINITIALIZED (with_error None m).

(** The public lifecycle operations, each with the oracles of the hooks
    it may run. *)
Inductive Call :=
  | CallInitialize (onInitialize : Hook)
  | CallStart (onStart : Hook)
  | CallStop (onStop : Hook)
  | CallRestart (onStop onStart : Hook)
  | CallReset.

Definition call (c : Call) (m : Module) : Module * list Effect :=
  match c with
  | CallInitialize h => let '(_, m', e) := initialize h m in (m', e)
  | CallStart h => let '(_, m', e) := start h m in (m', e)
  | CallStop h => let '(_, m', e) := stop h m in (m', e)
  | CallRestart h1 h2 => let '(_, m', e) := restart h1 h2 m in (m', e)
  | CallReset => reset m
  end.

Fixpoint run (cs : list Call) (m : Module) : Module * list Effect :=
  match cs with
  | [] => (m, [])
  | c :: cs' =>
      let '(m1, e1) := call c m in
      let '(m2, e2) := run cs' m1 in
      (m2, e1 ++ e2)
  end.




Definition is_warning (e : Effect) : bool :=
  match e with LogWarn _ => true | _ => false end.


(** ** src/core/ModuleManager.ts *)

Record RecoveryOptions := {
  enabled : bool;
  maxAttempts : nat;
  delayMs : nat
}.

(** What [loadModuleFromPath] resolves to. *)
Inductive LoadResult := Loaded | Disabled.

(** A settled promise. *)
Inductive Settled (A : Type) :=
  | Fulfilled (value : A)
  | Rejected (err : string).
Arguments Fulfilled {A} value.
Arguments Rejected {A} err.

(** What the manager does that a property speaks about, oldest first:
    the lifecycle methods it calls on modules, the [moduleError] events
    it emits, and the steps of the recovery supervisor. *)
Inductive Action :=
  | Invoke (operation moduleName : string)
  | ModuleError (err moduleName operation : string)
  | Scheduled (moduleName : string) (attempt : nat)
  | MaxAttemptsReached (moduleName : string)
  | Attempting (moduleName : string) (attempt : nat)
  | Recovered (moduleName : string)
  | Ready.

Record ModuleManager := {
  (** [modules : Map<string, Module>], in insertion order; the key of a
      module is always its [name]. *)
  modules : list Module;
  initialized : bool;
  autoStart : bool;
  recoveryOptions : RecoveryOptions;
  recoveryAttempts : gmap string nat;
  (** Pending [setTimeout] callbacks of [attemptModuleRecovery], oldest
      first, each with the [moduleName] and [attempts] it closes over.
      All have the same delay, so they fire in this order. *)
  timers : list (string * nat);
  moduleLoadPromises : gmap string (Settled LoadResult);
  (** The module names whose configuration document has
      [disabled === true]. *)
  configDisabled : gset string;
  trace : list Action
}.

Definition with_modules (l : list Module) (mgr : ModuleManager)
  : ModuleManager :=
  {| modules := l; initialized := initialized mgr;
     autoStart := autoStart mgr; recoveryOptions := recoveryOptions mgr;
     recoveryAttempts := recoveryAttempts mgr; timers := timers mgr;
     moduleLoadPromises := moduleLoadPromises mgr;
     configDisabled := configDisabled mgr; trace := trace mgr |}.

Definition with_initialized (b : bool) (mgr : ModuleManager)
  : ModuleManager :=
  {| modules := modules mgr; initialized := b;
     autoStart := autoStart mgr; recoveryOptions := recoveryOptions mgr;
     recoveryAttempts := recoveryAttempts mgr; timers := timers mgr;
     moduleLoadPromises := moduleLoadPromises mgr;
     configDisabled := configDisabled mgr; trace := trace mgr |}.

Definition with_recoveryAttempts (a : gmap string nat)
  (mgr : ModuleManager) : ModuleManager :=
  {| modules := modules mgr; initialized := initialized mgr;
     autoStart := autoStart mgr; recoveryOptions := recoveryOptions mgr;
     recoveryAttempts := a; timers := timers mgr;
     moduleLoadPromises := moduleLoadPromises mgr;
     configDisabled := configDisabled mgr; trace := trace mgr |}.

Definition with_timers (t : list (string * nat)) (mgr : ModuleManager)
  : ModuleManager :=
  {| modules := modules mgr; initialized := initialized mgr;
     autoStart := autoStart mgr; recoveryOptions := recoveryOptions mgr;
     recoveryAttempts := recoveryAttempts mgr; timers := t;
     moduleLoadPromises := moduleLoadPromises mgr;
     configDisabled := configDisabled mgr; trace := trace mgr |}.

Definition with_loadPromises (p : gmap string (Settled LoadResult))
  (mgr : ModuleManager) : ModuleManager :=
  {| modules := modules mgr; initialized := initialized mgr;
     autoStart := autoStart mgr; recoveryOptions := recoveryOptions mgr;
     recoveryAttempts := recoveryAttempts mgr; timers := timers mgr;
     moduleLoadPromises := p;
     configDisabled := configDisabled mgr; trace := trace mgr |}.

Definition record (a : Action) (mgr : ModuleManager) : ModuleManager :=
  {| modules := modules mgr; initialized := initialized mgr;
     autoStart := autoStart mgr; recoveryOptions := recoveryOptions mgr;
     recoveryAttempts := recoveryAttempts mgr; timers := timers mgr;
     moduleLoadPromises := moduleLoadPromises mgr;
     configDisabled := configDisabled mgr; trace := trace mgr ++ [a] |}.

(** [new ModuleManager(options)] with the defaults of the constructor
    where an option is absent. *)
Definition new_ModuleManager (auto : option bool)
  (rec_enabled : option bool) (rec_max rec_delay : option nat)
  : ModuleManager :=
  {| modules := []; initialized := false;
     autoStart := default true auto;
     recoveryOptions :=
       {| enabled := default false rec_enabled;
          maxAttempts := default 3 rec_max;
          delayMs := default 5000 rec_delay |};
     recoveryAttempts := ∅; timers := [];
     moduleLoadPromises := ∅; configDisabled := ∅; trace := [] |}.

(** [Map.get], [Map.has] and [Map.set] on the registry. *)
Definition modules_get (n : string) (reg : list Module) : option Module :=
  List.find (fun m => bool_decide (name m = n)) reg.

Definition modules_has (n : string) (reg : list Module) : bool :=
  match modules_get n reg with Some _ => true | None => false end.

Fixpoint modules_set (m : Module) (reg : list Module) : list Module :=
  match reg with
  | [] => [m]
  | m' :: reg' =>
      if bool_decide (name m' = name m) then m :: reg'
      else m' :: modules_set m reg'
  end.

Definition getModule (n : string) (mgr : ModuleManager) : option Module :=
  modules_get n (modules mgr).

Definition getAllModules (mgr : ModuleManager) : list Module :=
  modules mgr.

(** *** sortModulesByDependencies *)

Inductive SortError :=
  | CircularDependency (visiting : list string) (moduleName : string)
  | ModuleNotFound (moduleName : string).

(** [Array.prototype.join] *)
Fixpoint join (sep : string) (l : list string) : string :=
  match l with
  | [] => ""
  | [x] => x
  | x :: rest => x +:+ sep +:+ join sep rest
  end.

Definition error_message (e : SortError) : string :=
  match e with
  | CircularDependency visiting moduleName =>
      "Circular dependency detected: "
      +:+ (join " -> " visiting +:+ " -> " +:+ moduleName)
  | ModuleNotFound moduleName => "Module " +:+ moduleName +:+ " not found"
  end.

(** The three local collections of the sort. [visiting] is a [Set] that
    is read back in insertion order for the error message. *)
Record SortState := {
  visited : gset string;
  visiting : list string;
  sorted : list Module
}.

Definition set_add (x : string) (l : list string) : list string :=
  if decide (x ∈ l) then l else l ++ [x].

Definition set_delete (x : string) (l : list string) : list string :=
  filter (fun y => y ≠ x) l.

(** The recursion of [visit] is bounded by a fuel argument; [OutOfFuel]
    is the result of a run that the fuel cuts short. *)
Inductive Result (A : Type) :=
  | Ok (value : A)
  | Throw (e : SortError)
  | OutOfFuel.
Arguments Ok {A} value.
Arguments Throw {A} e.
Arguments OutOfFuel {A}.

(** The loop [for (const depName of module.dependencies)] around the
    recursive call. *)
Definition for_deps (rec : string -> SortState -> Result SortState)
  (reg : list Module) : list string -> SortState -> Result SortState :=
  fix loop deps st :=
    match deps with
    | [] => Ok st
    | depName :: rest =>
        if modules_has depName reg then
          match rec depName st with
          | Ok st' => loop rest st'
          | r => r
          end
        else loop rest st
    end.

Fixpoint visit (reg : list Module) (fuel : nat) (moduleName : string)
  (st : SortState) : Result SortState :=
  if decide (moduleName ∈ visited st) then Ok st
  else if decide (moduleName ∈ visiting st) then
    Throw (CircularDependency (visiting st) moduleName)
  else
    match fuel with
    | O => OutOfFuel
    | S fuel' =>
        let st1 := {| visited := visited st;
                      visiting := set_add moduleName (visiting st);
                      sorted := sorted st |} in
        match modules_get moduleName reg with
        | None => Throw (ModuleNotFound moduleName)
        | Some module =>
            match for_deps (visit reg fuel') reg (dependencies module) st1
            with
            | Ok st2 =>
                Ok {| visited := {[moduleName]} ∪ visited st2;
                      visiting := set_delete moduleName (visiting st2);
                      sorted := sorted st2 ++ [module] |}
            | r => r
            end
        end
    end.

(** [(b.priority || 0) - (a.priority || 0)]: [x || 0] is [x] on
    numbers other than NaN. *)
Definition priority_or_0 (m : Module) : Z :=
  if decide (priority m = 0%Z) then 0%Z else priority m.

(** [Array.prototype.sort] is stable: a module moves behind another
    only when the comparator puts it strictly after. *)
Fixpoint insert_by_priority (x : Module) (l : list Module) : list Module :=
  match l with
  | [] => [x]
  | y :: l' =>
      if (priority_or_0 y - priority_or_0 x >? 0)%Z
      then y :: insert_by_priority x l'
      else x :: y :: l'
  end.

Definition modulesByPriority (reg : list Module) : list Module :=
  foldr insert_by_priority [] reg.

(** The seeding loop [for (const [moduleName] of modulesByPriority)]. *)
Fixpoint seed (reg : list Module) (fuel : nat) (names : list string)
  (st : SortState) : Result SortState :=
  match names with
  | [] => Ok st
  | moduleName :: rest =>
      if decide (moduleName ∈ visited st) then seed reg fuel rest st
      else
        match visit reg fuel moduleName st with
        | Ok st' => seed reg fuel rest st'
        | r => r
        end
  end.

Definition sortModulesByDependencies (mgr : ModuleManager)
  : Result (list Module) :=
  let reg := modules mgr in
  match seed reg (S (length reg)) (map name (modulesByPriority reg))
          {| visited := ∅; visiting := []; sorted := [] |} with
  | Ok st => Ok (sorted st)
  | Throw e => Throw e
  | OutOfFuel => OutOfFuel
  end.

(** *** registerModule *)

(** The module is an object the manager mutates (listeners, the
    back-reference), so the method returns it next to the manager. *)
Definition registerModule (module : Module) (mgr : ModuleManager)
  : Outcome * ModuleManager * Module :=
  if modules_has (name module) (modules mgr) then
    (Thrown ("Module " +:+ name module +:+ " is already registered"),
     mgr, module)
  else if disabled module then (Returned, mgr, module)
  else
    let module' := setModuleManager (on_stateChange (on_error module)) in
    (Returned, with_modules (modules_set module' (modules mgr)) mgr, module').

(** *** The recovery supervisor *)

Definition attemptModuleRecovery (moduleName : string)
  (mgr : ModuleManager) : ModuleManager :=
  let attempts := default 0 (recoveryAttempts mgr !! moduleName) in
  if decide (maxAttempts (recoveryOptions mgr) <= attempts) then
    record (MaxAttemptsReached moduleName) mgr
  else
    record (Scheduled moduleName (attempts + 1))
      (with_timers (timers mgr ++ [(moduleName, attempts)])
         (with_recoveryAttempts
            (<[moduleName := attempts + 1]> (recoveryAttempts mgr)) mgr)).

(** [this.emit("moduleError", error, moduleName, operation)] with the
    listener the constructor installs. *)
Definition emit_moduleError (err moduleName operation : string)
  (mgr : ModuleManager) : ModuleManager :=
  let mgr1 := record (ModuleError err moduleName operation) mgr in
  if enabled (recoveryOptions mgr1)
     && bool_decide (moduleName ≠ "")
     && bool_decide (operation ≠ "initialization")
  then attemptModuleRecovery moduleName mgr1
  else mgr1.

(** The signals of a registered module reach the manager through the
    listeners of [registerModule]: each [error] listener re-emits as
    [moduleError]; the [stateChange] listener only logs. *)
Fixpoint deliver (m : Module) (effects : list Effect) (mgr : ModuleManager)
  : ModuleManager :=
  match effects with
  | [] => mgr
  | ErrorEvent err operation :: rest =>
      deliver m rest
        (Nat.iter (errorListeners m)
           (emit_moduleError err (name m) operation) mgr)
  | _ :: rest => deliver m rest mgr
  end.

Definition put (m : Module) (mgr : ModuleManager) : ModuleManager :=
  with_modules (modules_set m (modules mgr)) mgr.

(** The manager calls a lifecycle method of a registered module. *)
Definition invoke (operation : string)
  (method : Module -> Outcome * Module * list Effect) (m : Module)
  (mgr : ModuleManager) : Outcome * ModuleManager :=
  let '(r, m', effects) := method m in
  (r, deliver m' effects (put m' (record (Invoke operation (name m)) mgr))).

(** The callback of the timer set by [attemptModuleRecovery]. *)
Definition recovery_timer (onInitialize onStart : Hook)
  (moduleName : string) (attempts : nat) (mgr : ModuleManager)
  : ModuleManager :=
  match getModule moduleName mgr with
  | None => mgr
  | Some module =>
      if negb (hasError module) then mgr
      else
        let mgr0 := record (Attempting moduleName (attempts + 1)) mgr in
        let '(m1, e1) := reset module in
        let mgr1 := deliver m1 e1 (put m1 mgr0) in
        match invoke "initialize" (initialize onInitialize) m1 mgr1 with
        | (Thrown _, mgr2) => mgr2
        | (Returned, mgr2) =>
            match getModule moduleName mgr2 with
            | None => mgr2
            | Some m2 =>
                match invoke "start" (start onStart) m2 mgr2 with
                | (Thrown _, mgr3) => mgr3
                | (Returned, mgr3) =>
                    record (Recovered moduleName)
                      (with_recoveryAttempts
                         (delete moduleName (recoveryAttempts mgr3)) mgr3)
                end
            end
        end
  end.

(** What drives the supervisor: a [moduleError] reaches the manager, or
    the oldest pending timer fires (with the oracles of the hooks the
    recovery runs). *)
Inductive Event :=
  | EmitModuleError (err moduleName operation : string)
  | TimerFires (onInitialize onStart : Hook).

Definition step (ev : Event) (mgr : ModuleManager) : ModuleManager :=
  match ev with
  | EmitModuleError err moduleName operation =>
      emit_moduleError err moduleName operation mgr
  | TimerFires onInitialize onStart =>
      match timers mgr with
      | [] => mgr
      | (moduleName, attempts) :: rest =>
          recovery_timer onInitialize onStart moduleName attempts
            (with_timers rest mgr)
      end
  end.

Definition run_events (evs : list Event) (mgr : ModuleManager)
  : ModuleManager :=
  fold_left (fun mgr ev => step ev mgr) evs mgr.

(** *** The three passes

    [sortedModules] holds references: the state a pass reads is the one
    the registry has when the loop reaches the module. The memory
    inspector, the health tracker and plugin hooks are left out. A pass
    is [None] when the sort ran out of fuel. *)

Fixpoint initialize_pass (onInitialize : string -> Hook)
  (sortedModules : list Module) (mgr : ModuleManager) : ModuleManager :=
  match sortedModules with
  | [] => mgr
  | module :: rest =>
      match getModule (name module) mgr with
      | None => initialize_pass onInitialize rest mgr
      | Some m =>
          if decide (getState m = INITIALIZED) then
            initialize_pass onInitialize rest mgr
          else
            let '(r, mgr1) :=
              invoke "initialize" (initialize (onInitialize (name m))) m mgr in
            initialize_pass onInitialize rest
              match r with
              | Returned => mgr1
              | Thrown err => emit_moduleError err (name m) "initialization" mgr1
              end
      end
  end.

Fixpoint start_pass (onStart : string -> Hook)
  (sortedModules : list Module) (mgr : ModuleManager) : ModuleManager :=
  match sortedModules with
  | [] => mgr
  | module :: rest =>
      match getModule (name module) mgr with
      | None => start_pass onStart rest mgr
      | Some m =>
          if decide (getState m = RUNNING) then start_pass onStart rest mgr
          else if decide (getState m ≠ INITIALIZED ∧ getState m ≠ STOPPED)
          then start_pass onStart rest mgr
          else
            let '(r, mgr1) :=
              invoke "start" (start (onStart (name m))) m mgr in
            start_pass onStart rest
              match r with
              | Returned =>
                  match getModule (name m) mgr1 with
                  | Some m' =>
                      if decide (getState m' ≠ RUNNING) then
                        emit_moduleError
                          ("Module " +:+ name m
                           +:+ " failed to start properly")
                          (name m) "start" mgr1
                      else mgr1
                  | None => mgr1
                  end
              | Thrown err => emit_moduleError err (name m) "start" mgr1
              end
      end
  end.

Fixpoint stop_pass (onStop : string -> Hook)
  (sortedModules : list Module) (mgr : ModuleManager) : ModuleManager :=
  match sortedModules with
  | [] => mgr
  | module :: rest =>
      match getModule (name module) mgr with
      | None => stop_pass onStop rest mgr
      | Some m =>
          if decide (getState m ≠ RUNNING) then stop_pass onStop rest mgr
          else
            let '(r, mgr1) := invoke "stop" (stop (onStop (name m))) m mgr in
            stop_pass onStop rest
              match r with
              | Returned => mgr1
              | Thrown err => emit_moduleError err (name m) "stop" mgr1
              end
      end
  end.

Definition startModules (onStart : string -> Hook) (mgr : ModuleManager)
  : option (Outcome * ModuleManager) :=
  if negb (initialized mgr) then
    Some (Thrown "ModuleManager must be initialized before starting modules",
          mgr)
  else
    match sortModulesByDependencies mgr with
    | OutOfFuel => None
    | Throw e => Some (Thrown (error_message e), mgr)
    | Ok sortedModules =>
        Some (Returned, record Ready (start_pass onStart sortedModules mgr))
    end.

Definition initializeModules (onInitialize onStart : string -> Hook)
  (mgr : ModuleManager) : option (Outcome * ModuleManager) :=
  if initialized mgr then Some (Returned, mgr)
  else
    match sortModulesByDependencies mgr with
    | OutOfFuel => None
    | Throw e => Some (Thrown (error_message e), mgr)
    | Ok sortedModules =>
        let mgr1 :=
          with_initialized true
            (initialize_pass onInitialize sortedModules mgr) in
        if autoStart mgr1 then startModules onStart mgr1
        else Some (Returned, mgr1)
    end.

Definition stopModules (onStop : string -> Hook) (mgr : ModuleManager)
  : option (Outcome * ModuleManager) :=
  match sortModulesByDependencies mgr with
  | OutOfFuel => None
  | Throw e => Some (Thrown (error_message e), mgr)
  | Ok sortedModules =>
      Some (Returned,
            with_initialized false
              (stop_pass onStop (reverse sortedModules) mgr))
  end.

(** The names of the modules on which [operation] was called, in the
    order of the calls. *)
Definition invoked (operation : string) (tr : list Action) : list string :=
  omap (fun a => match a with
                 | Invoke o n => if decide (o = operation) then Some n else None
                 | _ => None
                 end) tr.

(** *** loadModules *)

(** What [await import(modulePath)] and [moduleImport.default] give for
    a module directory: the import throws, or the default export is not
    a constructor deriving from [Module], or it is one and [new
    ModuleClass()] builds the given module. *)
Inductive ImportResult :=
  | ImportThrows (err : string)
  | NotAModuleSubclass
  | ModuleClass (instance : Module).

(** What [loadModules] finds on disk: what [config.loadAllConfigs()]
    and [fs.readdir(modulesPath)] throw, when they throw; the entries of
    [modulesPath] with whether [stat] says directory (an entry whose
    [stat] throws is logged and dropped, like one that is no
    directory); and what importing each directory's module file
    gives. *)
Record ModulesDir := {
  loadAllConfigs : option string;
  readdir : option string;
  entries : list (string * bool);
  import : string -> ImportResult
}.

(** [loadModuleFromPath], run from its call to its end with nothing else
    running in between. *)
Definition loadModuleFromPath (imported : ImportResult) (dir : string)
  (mgr : ModuleManager) : Settled LoadResult * ModuleManager :=
  match imported with
  | ImportThrows err => (Rejected err, mgr)
  | NotAModuleSubclass =>
      (Rejected ("Invalid module in " +:+ dir +:+ ": Not a Module subclass"),
       mgr)
  | ModuleClass instance =>
      let module := setModuleManager instance in
      let isDisabled :=
        disabled module || bool_decide (name module ∈ configDisabled mgr) in
      if isDisabled then (Fulfilled Disabled, mgr)
      else
        match registerModule module mgr with
        | (Thrown err, mgr', _) => (Rejected err, mgr')
        | (Returned, mgr', _) => (Fulfilled Loaded, mgr')
        end
  end.

(** The same method in the two pieces that its awaits cut it into, for
    where other code runs while it waits. [after_import] is what it does
    when [await import(modulePath)] settles: it ends, with what its
    promise settles to, or it has called [registerModule] (which runs to
    its end at once, returning or throwing) and waits at
    [await this.registerModule(module)]. [after_registerModule] is what
    it does when that await is over. *)
Definition after_import (imported : ImportResult) (dir : string)
  (mgr : ModuleManager) : (Settled LoadResult + Outcome) * ModuleManager :=
  match imported with
  | ImportThrows err => (inl (Rejected err), mgr)
  | NotAModuleSubclass =>
      (inl (Rejected ("Invalid module in " +:+ dir
                      +:+ ": Not a Module subclass")),
       mgr)
  | ModuleClass instance =>
      let module := setModuleManager instance in
      let isDisabled :=
        disabled module || bool_decide (name module ∈ configDisabled mgr) in
      if isDisabled then (inl (Fulfilled Disabled), mgr)
      else
        let '(r, mgr', _) := registerModule module mgr in (inr r, mgr')
  end.

Definition after_registerModule (r : Outcome) : Settled LoadResult :=
  match r with
  | Thrown err => Rejected err
  | Returned => Fulfilled Loaded
  end.

Record LoadTally := {
  loadedCount : nat;
  disabledCount : nat;
  errorCount : nat
}.

(** Where the callback that [loadModules] hands to [Promise.all] for one
    directory is suspended.
    - [AwaitsImport]: it has called [loadModuleFromPath], stored the
      promise in [moduleLoadPromises] and waits for it; the method waits
      at [await import(modulePath)].
    - [AwaitsRegisterModule r]: as before, the method now waiting at
      [await this.registerModule(module)], which has returned or thrown
      as [r] says.
    - [AwaitsLoadPromise s]: the method has ended and settled the
      promise with [s]; the callback has not continued yet.
    - [AwaitsExisting]: the callback found a promise for its directory
      in [moduleLoadPromises] and waits for that one.
    - [Finished own s]: the callback has ended, having got [s] from the
      promise of its directory, which was its own or not; it threw when
      [s] is a rejection. *)
Inductive Stage :=
  | AwaitsImport
  | AwaitsRegisterModule (r : Outcome)
  | AwaitsLoadPromise (s : Settled LoadResult)
  | AwaitsExisting
  | Finished (own : bool) (s : Settled LoadResult).

(** A call of [loadModules] at [await Promise.all(...)]. The field
    [moduleLoadPromises] of the manager holds the promises that have
    settled; the pending ones are those of the callbacks at
    [AwaitsImport] or [AwaitsRegisterModule]. [rejection] is what the
    promise of [Promise.all] is rejected with, once a callback has
    thrown. *)
Record Loading := {
  manager : ModuleManager;
  callbacks : list (string * Stage);
  counts : LoadTally;
  rejection : option string
}.

Definition load_pending (st : Stage) : bool :=
  match st with
  | AwaitsImport | AwaitsRegisterModule _ => true
  | _ => false
  end.

(** [this.moduleLoadPromises.has(dir)] *)
Definition has_loadPromise (dir : string) (ld : Loading) : bool :=
  bool_decide (is_Some (moduleLoadPromises (manager ld) !! dir))
  || existsb (fun c : string * Stage =>
                bool_decide (c.1 = dir) && load_pending c.2)
       (callbacks ld).

(** [validDirectories.map(async (dir) => ...)] calls the callbacks one
    after the other, and each runs up to its first await. *)
Definition start_callback (ld : Loading) (dir : string) : Loading :=
  {| manager := manager ld;
     callbacks :=
       callbacks ld
       ++ [(dir, if has_loadPromise dir ld then AwaitsExisting
                 else AwaitsImport)];
     counts := counts ld;
     rejection := rejection ld |}.

Definition start_callbacks (dirs : list string) (mgr : ModuleManager)
  : Loading :=
  fold_left start_callback dirs
    {| manager := mgr; callbacks := [];
       counts := {| loadedCount := 0; disabledCount := 0; errorCount := 0 |};
       rejection := None |}.

(** The load promise of the callback at index [i] settles. *)
Definition settle (i : nat) (dir : string) (s : Settled LoadResult)
  (mgr : ModuleManager) (ld : Loading) : Loading :=
  {| manager :=
       with_loadPromises (<[dir := s]> (moduleLoadPromises mgr)) mgr;
     callbacks := <[i := (dir, AwaitsLoadPromise s)]> (callbacks ld);
     counts := counts ld;
     rejection := rejection ld |}.

(** The callback at index [i] continues after its await and ends: it
    counts, and when it throws, [Promise.all] rejects unless it has
    already. *)
Definition finish (i : nat) (dir : string) (own : bool)
  (s : Settled LoadResult) (ld : Loading) : Loading :=
  let tally := counts ld in
  {| manager := manager ld;
     callbacks := <[i := (dir, Finished own s)]> (callbacks ld);
     counts :=
       match s with
       | Rejected _ =>
           {| loadedCount := loadedCount tally;
              disabledCount := disabledCount tally;
              errorCount := S (errorCount tally) |}
       | Fulfilled Loaded =>
           if own then
             {| loadedCount := S (loadedCount tally);
                disabledCount := disabledCount tally;
                errorCount := errorCount tally |}
           else tally
       | Fulfilled Disabled =>
           if own then
             {| loadedCount := loadedCount tally;
                disabledCount := S (disabledCount tally);
                errorCount := errorCount tally |}
           else tally
       end;
     rejection :=
       match s with
       | Rejected err => Some (default err (rejection ld))
       | Fulfilled _ => rejection ld
       end |}.

(** What is suspended for the callback at index [i] continues, up to
    the next await or to the end of the callback. Nothing happens when
    it waits for a promise that is still pending, or has ended. *)
Definition resume (fs : ModulesDir) (i : nat) (ld : Loading) : Loading :=
  match callbacks ld !! i with
  | None => ld
  | Some (dir, AwaitsImport) =>
      match after_import (import fs dir) dir (manager ld) with
      | (inl s, mgr') => settle i dir s mgr' ld
      | (inr r, mgr') =>
          {| manager := mgr';
             callbacks := <[i := (dir, AwaitsRegisterModule r)]> (callbacks ld);
             counts := counts ld;
             rejection := rejection ld |}
      end
  | Some (dir, AwaitsRegisterModule r) =>
      settle i dir (after_registerModule r) (manager ld) ld
  | Some (dir, AwaitsLoadPromise s) => finish i dir true s ld
  | Some (dir, AwaitsExisting) =>
      match moduleLoadPromises (manager ld) !! dir with
      | None => ld
      | Some s => finish i dir false s ld
      end
  | Some (_, Finished _ _) => ld
  end.

Definition resume_all (fs : ModulesDir) (order : list nat) (ld : Loading)
  : Loading :=
  fold_left (fun ld i => resume fs i ld) order ld.

Definition all_finished (ld : Loading) : bool :=
  forallb (fun c : string * Stage =>
             match c.2 with Finished _ _ => true | _ => false end)
    (callbacks ld).

(** What [await Promise.all(...)] gives [loadModules] when it continues:
    the rejection, if a callback has thrown; nothing to throw, if all
    callbacks have ended; and it cannot continue yet otherwise. *)
Definition promise_all (ld : Loading) : option Outcome :=
  match rejection ld with
  | Some err => Some (Thrown err)
  | None => if all_finished ld then Some Returned else None
  end.

(** The order in which the suspended pieces of a call continue is
    decided outside the program: a turn is a callback's, by its index
    in [validDirectories], or the caller's, which is [loadModules]
    itself. *)
Inductive Turn :=
  | Callback (i : nat)
  | Caller.

(** The turns are taken until [loadModules] continues; [None] when it is
    still waiting at the end of the schedule. *)
Fixpoint await_all (fs : ModulesDir) (schedule : list Turn) (ld : Loading)
  : option (Outcome * Loading) :=
  match schedule with
  | [] => None
  | Callback i :: rest => await_all fs rest (resume fs i ld)
  | Caller :: rest =>
      match promise_all ld with
      | Some r => Some (r, ld)
      | None => await_all fs rest ld
      end
  end.

Definition validDirectories (fs : ModulesDir) : list string :=
  omap (fun e : string * bool => if e.2 then Some e.1 else None) (entries fs).

(** [loadModules], called while no load is pending, with the turns taken
    while it waits. It gives what the call settles with and the state of
    the load at that moment: the manager, the three counters, and the
    callbacks that go on afterwards ([resume]). The line "... loaded,
    ... disabled, ... failed" is logged, and [validateDependencies] run,
    only on the path that returns. *)
Definition loadModules (fs : ModulesDir) (schedule : list Turn)
  (mgr : ModuleManager) : option (Outcome * Loading) :=
  match loadAllConfigs fs with
  | Some err => Some (Thrown err, start_callbacks [] mgr)
  | None =>
      match readdir fs with
      | Some err => Some (Thrown err, start_callbacks [] mgr)
      | None => await_all fs schedule (start_callbacks (validDirectories fs) mgr)
      end
  end.

(** ** Permissions (src/core/Module.ts) *)

(** [checkPermission]; [mgr] is the manager [this.moduleManager] refers
    to when it is set. *)
Definition checkPermission (mgr : ModuleManager) (self : Module)
  (action resource : string) : bool :=
  let granted :=
    match _permissions self !! resource with
    | Some resourcePermissions => bool_decide (action ∈ resourcePermissions)
    | None => false
    end in
  if granted then true
  else if moduleManager self then
    match getModule "auth" mgr with
    | Some authModule =>
        match checkModulePermission authModule with
        | Some check => check (name self) action resource
        | None => true
        end
    | None => true
    end
  else true.

Definition grantPermission (action resource : string) (m : Module)
  : Module :=
  let resourcePermissions := default ∅ (_permissions m !! resource) in
  with_permissions
    (<[resource := {[action]} ∪ resourcePermissions]> (_permissions m)) m.

Definition revokePermission (action resource : string) (m : Module)
  : Module :=
  match _permissions m !! resource with
  | Some resourcePermissions =>
      let remaining := resourcePermissions ∖ {[action]} in
      if decide (size remaining = 0) then
        with_permissions (delete resource (_permissions m)) m
      else
        with_permissions (<[resource := remaining]> (_permissions m)) m
  | None => m
  end.

(** ** src/core/ModuleUpdater.ts *)

(** The numbers [Number] yields on decimal numerals: a non-negative
    integer that a double represents exactly, or [Infinity]. *)
Inductive JsNumber :=
  | Finite (z : Z)
  | PosInfinity.

#[global] Instance JsNumber_eq_dec : EqDecision JsNumber.
Proof. solve_decision. Defined.

(** The double nearest to a natural number, ties to the even
    significand; at and above 2^1024 the result is [Infinity]. *)
Definition round_to_double (n : Z) : JsNumber :=
  if (n <? 2 ^ 53)%Z then Finite n
  else
    let e := (Z.log2 n - 52)%Z in
    let q := (n / 2 ^ e)%Z in
    let r := (n mod 2 ^ e)%Z in
    let half := (2 ^ (e - 1))%Z in
    let q' := if (r <? half)%Z then q
              else if (half <? r)%Z then (q + 1)%Z
              else if Z.even q then q else (q + 1)%Z in
    let v := (q' * 2 ^ e)%Z in
    if (v <? 2 ^ 1024)%Z then Finite v else PosInfinity.

(** [a < b] and [a > b] on these numbers. *)
Definition js_lt (a b : JsNumber) : bool :=
  match a, b with
  | Finite x, Finite y => (x <? y)%Z
  | Finite _, PosInfinity => true
  | PosInfinity, _ => false
  end.

Definition js_gt (a b : JsNumber) : bool := js_lt b a.

Definition digit_value (c : ascii) : option Z :=
  let k := nat_of_ascii c in
  if decide (48 <= k <= 57) then Some (Z.of_nat (k - 48)) else None.

(** The value of a string of decimal digits (0 for the empty string);
    [None] when a character is not a digit. *)
Fixpoint decimal_value (s : string) (acc : Z) : option Z :=
  match s with
  | EmptyString => Some acc
  | String c s' =>
      match digit_value c with
      | Some d => decimal_value s' (10 * acc + d)%Z
      | None => None
      end
  end.

(** [Number(s)] for [s] a string of decimal digits. Other strings
    (signs, exponents, hexadecimal, white space, text) are outside the
    embedding: [None]. *)
Definition Number (s : string) : option JsNumber :=
  round_to_double <$> decimal_value s 0.

(** [String.prototype.split] with a one-character separator. *)
Fixpoint split (sep : ascii) (s : string) : list string :=
  match s with
  | EmptyString => [EmptyString]
  | String c s' =>
      if decide (c = sep) then EmptyString :: split sep s'
      else
        match split sep s' with
        | [] => [String c EmptyString]
        | part :: parts => String c part :: parts
        end
  end.

(** The loop of [compareVersions] from index [i] with [n] iterations
    left. *)
Fixpoint compare_from (parts1 parts2 : list JsNumber) (i n : nat) : Z :=
  match n with
  | O => 0%Z
  | S n' =>
      let part1 := if decide (i < length parts1)
                   then default (Finite 0) (parts1 !! i) else Finite 0 in
      let part2 := if decide (i < length parts2)
                   then default (Finite 0) (parts2 !! i) else Finite 0 in
      if js_gt part1 part2 then 1%Z
      else if js_lt part1 part2 then (-1)%Z
      else compare_from parts1 parts2 (S i) n'
  end.

Definition compareVersions (v1 v2 : string) : option Z :=
  match mapM Number (split "." v1), mapM Number (split "." v2) with
  | Some parts1, Some parts2 =>
      Some (compare_from parts1 parts2 0
              (Nat.max (length parts1) (length parts2)))
  | _, _ => None
  end.

(** ** src/core/ModuleMemoryInspector.ts *)

(** The growth analysis divides and compares JavaScript numbers, which
    are doubles. It is written here over any implementation of the
    operations it uses, so that what is proved of it does not depend on
    how they round. Heap counters and timestamps are integers (exact in
    a double below 2^53), and their differences are taken on integers. *)
Class NumberOps (F : Type) := {
  of_int : Z -> F;
  fdiv : F -> F -> F;
  fge : F -> F -> bool;
  flt : F -> F -> bool
}.

(** Exact arithmetic. *)
#[global] Instance Q_NumberOps : NumberOps Q := {
  of_int := inject_Z;
  fdiv := Qdiv;
  fge a b := Qle_bool b a;
  flt a b := negb (Qle_bool b a)
}.

Record ModuleMemorySnapshot := {
  timestamp : Z;
  heapUsed : Z;
  heapTotal : Z;
  external : Z;
  arrayBuffers : Z;
  references : nat
}.

Inductive Severity := low_severity | medium_severity | high_severity.

(** [process.memoryUsage()] *)
Record MemoryUsage := {
  mu_heapUsed : Z;
  mu_heapTotal : Z;
  mu_external : Z;
  mu_arrayBuffers : option Z
}.

Definition recommendation_for (s : Severity) : string :=
  match s with
  | high_severity =>
      "Urgent: Check for event listeners, caches, or collections that aren't being cleaned up."
  | medium_severity =>
      "Review module cleanup in onStop() method and check for retained references."
  | low_severity => "Monitor memory usage over time."
  end.

(** [Map.get] and [Map.set] on the snapshot table. *)
Fixpoint snapshots_get (n : string)
  (t : list (string * list ModuleMemorySnapshot))
  : option (list ModuleMemorySnapshot) :=
  match t with
  | [] => None
  | (k, v) :: t' => if decide (k = n) then Some v else snapshots_get n t'
  end.

Fixpoint snapshots_set (n : string) (v : list ModuleMemorySnapshot)
  (t : list (string * list ModuleMemorySnapshot))
  : list (string * list ModuleMemorySnapshot) :=
  match t with
  | [] => [(n, v)]
  | (k, v') :: t' =>
      if decide (k = n) then (k, v) :: t'
      else (k, v') :: snapshots_set n v t'
  end.

Definition countReferences (module : Module) (all : list Module) : nat :=
  length (filter (fun otherModule =>
                    name otherModule ≠ name module
                    ∧ name module ∈ dependencies otherModule) all).

Section MemoryInspector.

Context {F : Type} {ops : NumberOps F}.

Record MemoryLeakResult := {
  moduleName : string;
  severity : Severity;
  growthRate : F;
  snapshots_of : list ModuleMemorySnapshot;
  recommendation : string
}.

Record Thresholds := {
  low : F;
  medium : F;
  high : F
}.

Record MemoryInspectorOptions := {
  snapshotInterval : Z;
  maxSnapshots : nat;
  thresholds : Thresholds
}.

Record ModuleMemoryInspector := {
  options : MemoryInspectorOptions;
  (** [snapshots : Map<string, ModuleMemorySnapshot[]>], in insertion
      order. *)
  snapshots : list (string * list ModuleMemorySnapshot)
}.

(** The defaults of the constructor. *)
Definition default_thresholds : Thresholds :=
  {| low := of_int 5; medium := of_int 20; high := of_int 50 |}.

Definition new_ModuleMemoryInspector (interval : option Z)
  (maxSnap : option nat) (thr : option Thresholds)
  : ModuleMemoryInspector :=
  {| options := {| snapshotInterval := default 300000%Z interval;
                   maxSnapshots := default 12 maxSnap;
                   thresholds := default default_thresholds thr |};
     snapshots := [] |}.

(** The body of the second [modules.forEach] of [takeSnapshot], for one
    module. *)
Definition snapshot_module (now : Z) (memoryUsage : MemoryUsage)
  (all : list Module) (insp : ModuleMemoryInspector) (module : Module)
  : ModuleMemoryInspector :=
  if disabled module then insp
  else
    let snapshot :=
      {| timestamp := now;
         heapUsed := mu_heapUsed memoryUsage;
         heapTotal := mu_heapTotal memoryUsage;
         external := mu_external memoryUsage;
         arrayBuffers := default 0%Z (mu_arrayBuffers memoryUsage);
         references := countReferences module all |} in
    let moduleSnapshots :=
      default [] (snapshots_get (name module) (snapshots insp)) in
    let pushed := moduleSnapshots ++ [snapshot] in
    let limited :=
      if decide (maxSnapshots (options insp) < length pushed)
      then tail pushed else pushed in
    {| options := options insp;
       snapshots := snapshots_set (name module) limited (snapshots insp) |}.

(** The second [modules.forEach] of [takeSnapshot], from the module at
    index [i] on. [Date.now()] is read anew for each module: [now i] is
    what it returns in the iteration for the module at index [i]. *)
Fixpoint snapshot_each (now : nat -> Z) (memoryUsage : MemoryUsage)
  (all : list Module) (i : nat) (rest : list Module)
  (insp : ModuleMemoryInspector) : ModuleMemoryInspector :=
  match rest with
  | [] => insp
  | module :: rest' =>
      snapshot_each now memoryUsage all (S i) rest'
        (snapshot_module (now i) memoryUsage all insp module)
  end.

(** [takeSnapshot]: [memoryUsage] is what [process.memoryUsage()]
    returns, read once, and [modules] what
    [moduleManager.getAllModules()] returns. *)
Definition takeSnapshot (now : nat -> Z) (memoryUsage : MemoryUsage)
  (modules : list Module) (insp : ModuleMemoryInspector)
  : ModuleMemoryInspector :=
  snapshot_each now memoryUsage modules 0 modules insp.

Definition clearSnapshots (insp : ModuleMemoryInspector)
  : ModuleMemoryInspector :=
  {| options := options insp; snapshots := [] |}.

Definition timeElapsedHours (oldest newest : ModuleMemorySnapshot) : F :=
  fdiv (fdiv (fdiv (of_int (timestamp newest - timestamp oldest))
                (of_int 1000))
           (of_int 60))
      (of_int 60).

Definition growthRateMBPerHour (oldest newest : ModuleMemorySnapshot) : F :=
  let heapGrowthMB :=
    fdiv (fdiv (of_int (heapUsed newest - heapUsed oldest)) (of_int 1024))
        (of_int 1024) in
  fdiv heapGrowthMB (timeElapsedHours oldest newest).

(** The literal [0.01]: the number nearest to 1/100. *)
Definition one_hundredth : F := fdiv (of_int 1) (of_int 100).

(** The body of the loop of [analyzeMemoryUsage] for one entry of the
    table: the finding it pushes, if any. *)
Definition analyze_entry (thr : Thresholds)
  (entry : string * list ModuleMemorySnapshot) : option MemoryLeakResult :=
  let '(moduleName, snaps) := entry in
  if decide (length snaps < 2) then None
  else
    match head snaps, last snaps with
    | Some oldestSnapshot, Some newestSnapshot =>
        if flt (timeElapsedHours oldestSnapshot newestSnapshot) one_hundredth
        then None
        else
          let rate := growthRateMBPerHour oldestSnapshot newestSnapshot in
          let found (s : Severity) :=
            Some {| moduleName := moduleName; severity := s;
                    growthRate := rate; snapshots_of := snaps;
                    recommendation := recommendation_for s |} in
          if fge rate (high thr) then found high_severity
          else if fge rate (medium thr) then found medium_severity
          else if fge rate (low thr) then found low_severity
          else None
    | _, _ => None
    end.

Definition analyzeMemoryUsage (insp : ModuleMemoryInspector)
  : list MemoryLeakResult :=
  omap (analyze_entry (thresholds (options insp))) (snapshots insp).

End MemoryInspector.

Arguments MemoryLeakResult F : clear implicits.
Arguments Thresholds F : clear implicits.
Arguments MemoryInspectorOptions F : clear implicits.
Arguments ModuleMemoryInspector F : clear implicits.

(** * More of the kernel

    Methods of the same classes that the scheduler, the supervisor and
    the inspector rely on or are called next to. *)

From Stdlib Require Import Sorted.

(** ** src/core/Module.ts, accessors *)

Definition getError (m : Module) : option string := _error m.

Definition isReady (m : Module) : bool := bool_decide (_state m = RUNNING).

(** ** src/core/ModuleManager.ts, queries on the registry *)

Definition getModulesByState (state : ModuleState) (mgr : ModuleManager)
  : list Module :=
  filter (fun module => getState module = state) (getAllModules mgr).

Definition areAllModulesRunning (mgr : ModuleManager) : bool :=
  forallb (fun module =>
             bool_decide (getState module = RUNNING) || disabled module)
          (getAllModules mgr).

(** ** src/core/ModuleManager.ts, operations on one module *)

(** The manager calls a lifecycle method on a module object it holds a
    reference to. The object is the one in the registry when its name is
    registered (the callers below look it up, or have just registered
    it), and then the registry shows the call; a module that
    [registerModule] skipped is not in the registry, and stays out. The
    signals reach the manager through the listeners the object has. *)
Definition invoke_object (operation : string)
  (method : Module -> Outcome * Module * list Effect) (m : Module)
  (mgr : ModuleManager) : Outcome * Module * ModuleManager :=
  let '(r, m', effects) := method m in
  let mgr1 := record (Invoke operation (name m)) mgr in
  (r, m',
   deliver m' effects
     (if modules_has (name m) (modules mgr) then put m' mgr1 else mgr1)).

(** [recoverModule(moduleName)]: the hooks are those of the module. *)
Definition recoverModule (onInitialize onStart : Hook) (moduleName : string)
  (mgr : ModuleManager) : bool * ModuleManager :=
  match getModule moduleName mgr with
  | None => (false, mgr)
  | Some module =>
      if negb (hasError module) then (false, mgr)
      else
        let '(m1, e1) := reset module in
        let mgr1 := deliver m1 e1 (put m1 mgr) in
        match invoke_object "initialize" (initialize onInitialize) m1 mgr1
        with
        | (Thrown _, _, mgr2) => (false, mgr2)
        | (Returned, m2, mgr2) =>
            match invoke_object "start" (start onStart) m2 mgr2 with
            | (Thrown _, _, mgr3) => (false, mgr3)
            | (Returned, _, mgr3) =>
                (true,
                 with_recoveryAttempts
                   (delete moduleName (recoveryAttempts mgr3)) mgr3)
            end
        end
  end.

(** [restartModule(moduleName)] *)
Definition restartModule (onStop onStart : Hook) (moduleName : string)
  (mgr : ModuleManager) : Outcome * ModuleManager :=
  match getModule moduleName mgr with
  | None => (Thrown ("Module " +:+ moduleName +:+ " not found"), mgr)
  | Some module =>
      let '(r, _, mgr') :=
        invoke_object "restart" (restart onStop onStart) module mgr in
      (r, mgr')
  end.

(** [createModule(ModuleClass, options)]: [instance] is what
    [new ModuleClass(options)] builds. The module is returned when the
    method returns; it is given here in every case. *)
Definition createModule (instance : Module) (onInitialize onStart : Hook)
  (mgr : ModuleManager) : Outcome * ModuleManager * Module :=
  match registerModule instance mgr with
  | (Thrown err, mgr1, module) => (Thrown err, mgr1, module)
  | (Returned, mgr1, module) =>
      if initialized mgr1 then
        match invoke_object "initialize" (initialize onInitialize) module mgr1
        with
        | (Thrown err, m1, mgr2) => (Thrown err, mgr2, m1)
        | (Returned, m1, mgr2) =>
            let '(r, m2, mgr3) :=
              invoke_object "start" (start onStart) m1 mgr2 in
            (r, mgr3, m2)
        end
      else (Returned, mgr1, module)
  end.

(** [loadModuleOnDemand(moduleName)]: the module file is looked for in
    the directory called [moduleName]; the hooks are those of the
    module it holds. A throw of [loadModuleFromPath] or of a lifecycle
    method is caught and answered with [undefined]. *)
Definition loadModuleOnDemand (fs : ModulesDir) (onInitialize onStart : Hook)
  (moduleName : string) (mgr : ModuleManager)
  : option Module * ModuleManager :=
  if modules_has moduleName (modules mgr) then (getModule moduleName mgr, mgr)
  else
    match loadModuleFromPath (import fs moduleName) moduleName mgr with
    | (Rejected _, mgr1) => (None, mgr1)
    | (Fulfilled Disabled, mgr1) => (None, mgr1)
    | (Fulfilled Loaded, mgr1) =>
        match getModule moduleName mgr1 with
        | None => (None, mgr1)
        | Some module =>
            if initialized mgr1 then
              match invoke_object "initialize" (initialize onInitialize)
                      module mgr1 with
              | (Thrown _, _, mgr2) => (None, mgr2)
              | (Returned, m2, mgr2) =>
                  if autoStart mgr2 then
                    match invoke_object "start" (start onStart) m2 mgr2 with
                    | (Thrown _, _, mgr3) => (None, mgr3)
                    | (Returned, m3, mgr3) => (Some m3, mgr3)
                    end
                  else (Some m2, mgr2)
              end
            else (Some module, mgr1)
        end
    end.

(** *** The cache

    [moduleCache] is a field of the manager that only these two methods
    touch; it is passed to them. [now] is what [Date.now()] returns
    during the call; [maxAge] is absent when the caller leaves the
    default, and is a whole number of milliseconds otherwise. *)
Definition getCachedData {A : Type} (now : Z) (key : string)
  (maxAge : option Z) (moduleCache : gmap string (Z * A))
  : option A * gmap string (Z * A) :=
  match moduleCache !! key with
  | None => (None, moduleCache)
  | Some cached =>
      if (default 60000 maxAge <? now - cached.1)%Z
      then (None, delete key moduleCache)
      else (Some cached.2, moduleCache)
  end.

Definition setCachedData {A : Type} (now : Z) (key : string) (data : A)
  (moduleCache : gmap string (Z * A)) : gmap string (Z * A) :=
  <[key := (now, data)]> moduleCache.

(** ** src/core/ModuleHealth.ts *)

(** Times and durations are doubles ([performance.now()] is
    fractional); the tracker adds, subtracts, divides and compares
    them. As for the memory inspector it is written over an interface
    of these operations. [falsy x] is [!x]: the number is 0 or NaN. *)
Class DurationOps (T : Type) := {
  d_numbers :: NumberOps T;
  fadd : T -> T -> T;
  fsub : T -> T -> T;
  fmul : T -> T -> T;
  falsy : T -> bool
}.

(** Exact arithmetic. *)
#[global] Instance Q_DurationOps : DurationOps Q := {
  d_numbers := Q_NumberOps;
  fadd := Qplus;
  fsub := Qminus;
  fmul := Qmult;
  falsy q := Qeq_bool q 0
}.

(** ["initialize" | "start" | "stop"] *)
Inductive Operation := op_initialize | op_start | op_stop.

Definition operation_text (operation : Operation) : string :=
  match operation with
  | op_initialize => "initialize"
  | op_start => "start"
  | op_stop => "stop"
  end.

Section Health.

Context {T : Type} {dops : DurationOps T}.

Record OperationMetrics := {
  om_count : nat;
  om_totalDuration : T;
  om_failures : nat;
  om_lastDuration : option T;
  om_avgDuration : option T
}.

Record ModuleMetrics := {
  mm_name : string;
  mm_initialize : OperationMetrics;
  mm_start : OperationMetrics;
  mm_stop : OperationMetrics;
  mm_lastState : ModuleState;
  mm_errorCount : nat;
  mm_lastErrorTime : option Z
}.

(** [moduleMetrics.operations[operation]], read and assigned. *)
Definition operations (m : ModuleMetrics) (operation : Operation)
  : OperationMetrics :=
  match operation with
  | op_initialize => mm_initialize m
  | op_start => mm_start m
  | op_stop => mm_stop m
  end.

Definition with_operation (operation : Operation) (o : OperationMetrics)
  (m : ModuleMetrics) : ModuleMetrics :=
  {| mm_name := mm_name m;
     mm_initialize := match operation with
                      | op_initialize => o
                      | _ => mm_initialize m
                      end;
     mm_start := match operation with op_start => o | _ => mm_start m end;
     mm_stop := match operation with op_stop => o | _ => mm_stop m end;
     mm_lastState := mm_lastState m;
     mm_errorCount := mm_errorCount m;
     mm_lastErrorTime := mm_lastErrorTime m |}.

Record ModuleHealth := {
  startTimes : gmap string T;
  (** [metrics : Map<string, ModuleMetrics>], in insertion order; the
      key of an entry is its [name]. *)
  metrics : list ModuleMetrics
}.

(** [Map.get] and [Map.set] on the metrics. *)
Definition metrics_get (n : string) (ms : list ModuleMetrics)
  : option ModuleMetrics :=
  List.find (fun m => bool_decide (mm_name m = n)) ms.

Fixpoint metrics_set (m : ModuleMetrics) (ms : list ModuleMetrics)
  : list ModuleMetrics :=
  match ms with
  | [] => [m]
  | m' :: ms' =>
      if bool_decide (mm_name m' = mm_name m) then m :: ms'
      else m' :: metrics_set m ms'
  end.

(** [resetMetrics]; the constructor calls it, so that a new tracker is
    as any tracker after it. *)
Definition resetMetrics (h : ModuleHealth) : ModuleHealth :=
  {| startTimes := ∅; metrics := [] |}.

Definition start_key (module : Module) (operation : Operation) : string :=
  name module +:+ ":" +:+ operation_text operation.

(** [trackStart]: [now] is what [performance.now()] returns. *)
Definition trackStart (now : T) (module : Module) (operation : Operation)
  (h : ModuleHealth) : ModuleHealth :=
  {| startTimes := <[start_key module operation := now]> (startTimes h);
     metrics := metrics h |}.

Definition new_OperationMetrics : OperationMetrics :=
  {| om_count := 0; om_totalDuration := of_int 0; om_failures := 0;
     om_lastDuration := None; om_avgDuration := None |}.

(** [getOrCreateMetrics]: the metrics of the module, and the table with
    them in it. *)
Definition getOrCreateMetrics (module : Module) (ms : list ModuleMetrics)
  : ModuleMetrics * list ModuleMetrics :=
  match metrics_get (name module) ms with
  | Some m => (m, ms)
  | None =>
      let m := {| mm_name := name module;
                  mm_initialize := new_OperationMetrics;
                  mm_start := new_OperationMetrics;
                  mm_stop := new_OperationMetrics;
                  mm_lastState := getState module;
                  mm_errorCount := 0;
                  mm_lastErrorTime := None |} in
      (m, metrics_set m ms)
  end.

(** [trackEnd]: [now] is what [performance.now()] returns and [dateNow]
    what [Date.now()] returns. The metrics object is updated in place;
    here the updated object is put back under its name. *)
Definition trackEnd (now : T) (dateNow : Z) (module : Module)
  (operation : Operation) (success : bool) (h : ModuleHealth)
  : ModuleHealth :=
  let key := start_key module operation in
  match startTimes h !! key with
  | None => h
  | Some startTime =>
      if falsy startTime then h
      else
        let duration := fsub now startTime in
        let '(moduleMetrics, ms) := getOrCreateMetrics module (metrics h) in
        let opMetrics := operations moduleMetrics operation in
        let count := S (om_count opMetrics) in
        let totalDuration := fadd (om_totalDuration opMetrics) duration in
        let opMetrics' :=
          {| om_count := count;
             om_totalDuration := totalDuration;
             om_failures := if success then om_failures opMetrics
                            else S (om_failures opMetrics);
             om_lastDuration := Some duration;
             om_avgDuration :=
               Some (fdiv totalDuration (of_int (Z.of_nat count))) |} in
        let m1 := with_operation operation opMetrics' moduleMetrics in
        let m2 :=
          {| mm_name := mm_name m1;
             mm_initialize := mm_initialize m1;
             mm_start := mm_start m1;
             mm_stop := mm_stop m1;
             mm_lastState := getState module;
             mm_errorCount := if success then mm_errorCount m1
                              else S (mm_errorCount m1);
             mm_lastErrorTime := if success then mm_lastErrorTime m1
                                 else Some dateNow |} in
        {| startTimes := delete key (startTimes h);
           metrics := metrics_set m2 ms |}
  end.

Definition trackError (dateNow : Z) (module : Module) (h : ModuleHealth)
  : ModuleHealth :=
  let '(moduleMetrics, ms) := getOrCreateMetrics module (metrics h) in
  let m' :=
    {| mm_name := mm_name moduleMetrics;
       mm_initialize := mm_initialize moduleMetrics;
       mm_start := mm_start moduleMetrics;
       mm_stop := mm_stop moduleMetrics;
       mm_lastState := getState module;
       mm_errorCount := S (mm_errorCount moduleMetrics);
       mm_lastErrorTime := Some dateNow |} in
  {| startTimes := startTimes h; metrics := metrics_set m' ms |}.

Definition getMetrics (h : ModuleHealth) : list ModuleMetrics := metrics h.

Definition getModuleMetrics (moduleName : string) (h : ModuleHealth)
  : option ModuleMetrics :=
  metrics_get moduleName (metrics h).

(** [sort((a, b) => b.errorCount - a.errorCount)]; the sort is stable:
    an entry moves behind another only when the comparator puts it
    strictly after. *)
Fixpoint insert_by_errorCount (x : ModuleMetrics) (l : list ModuleMetrics)
  : list ModuleMetrics :=
  match l with
  | [] => [x]
  | y :: l' =>
      if (mm_errorCount x <? mm_errorCount y)%nat
      then y :: insert_by_errorCount x l'
      else x :: y :: l'
  end.

Definition getMostErrorProneModules (h : ModuleHealth)
  : list ModuleMetrics :=
  foldr insert_by_errorCount []
    (filter (fun m => 0 < mm_errorCount m) (getMetrics h)).

Record SystemHealth := {
  healthy : bool;
  sh_errorCount : nat;
  slowModules : nat;
  totalModules : nat;
  totalErrors : nat;
  avgInitTime : T;
  avgStartTime : T
}.

(** The accumulation of [getSystemHealth] over one operation: the sum
    of the total durations and of the counts of the entries whose count
    is positive. *)
Definition accumulate (operation : Operation) (ms : list ModuleMetrics)
  : T * nat :=
  fold_left (fun acc m =>
               let o := operations m operation in
               if (0 <? om_count o)%nat
               then (fadd acc.1 (om_totalDuration o), acc.2 + om_count o)
               else acc)
            ms (of_int 0, 0).

Definition average (acc : T * nat) : T :=
  if (0 <? acc.2)%nat then fdiv acc.1 (of_int (Z.of_nat acc.2)) else of_int 0.

Definition getSystemHealth (h : ModuleHealth) : SystemHealth :=
  let ms := getMetrics h in
  let totalErrors := fold_left (fun sum m => sum + mm_errorCount m) ms 0 in
  let avgInit := average (accumulate op_initialize ms) in
  let avgStart := average (accumulate op_start ms) in
  let slowThreshold := fmul avgInit (of_int 2) in
  let slow :=
    filter (fun m =>
              match om_avgDuration (mm_initialize m) with
              | Some avg => negb (falsy avg) && flt slowThreshold avg
              | None => false
              end = true) ms in
  {| healthy := bool_decide (totalErrors = 0);
     sh_errorCount := totalErrors;
     slowModules := length slow;
     totalModules := length ms;
     totalErrors := totalErrors;
     avgInitTime := avgInit;
     avgStartTime := avgStart |}.

End Health.

Arguments OperationMetrics T : clear implicits.
Arguments ModuleMetrics T : clear implicits.
Arguments ModuleHealth T : clear implicits.
Arguments SystemHealth T : clear implicits.

(** * Vocabulary of the properties, and the inputs of the scenarios *)

Definition demo_metadata (n : string) (deps : list string) : ModuleMetadata :=
  {| md_name := n; md_version := "1.0.0"; md_dependencies := Some deps;
     md_disabled := None; md_priority := None |}.

Definition registry_of (l : list Module) : ModuleManager :=
  with_modules l (new_ModuleManager None None None None).

Definition scenario1 : ModuleManager :=
  registry_of [new_Module (demo_metadata "A" ["B"; "C"]);
               new_Module (demo_metadata "B" ["C"]);
               new_Module (demo_metadata "C" [])].

(** [a] is a registered module that declares the registered module [b]
    among its dependencies. *)
Definition depends_on (reg : list Module) (a b : string) : Prop :=
  exists m, modules_get a reg = Some m
            /\ b ∈ dependencies m
            /\ modules_has b reg = true.

(** Consecutive names are dependency edges. *)
Definition chain (reg : list Module) (l : list string) : Prop :=
  forall i a b, l !! i = Some a -> l !! S i = Some b -> depends_on reg a b.

(** Every registered dependency of a module of [l] stands before it. *)
Definition topo_closed (reg : list Module) (l : list Module) : Prop :=
  forall j m, l !! j = Some m ->
  forall d, d ∈ dependencies m -> modules_has d reg = true ->
  exists i m', i < j /\ l !! i = Some m' /\ name m' = d.

(** The invariant of the depth-first search. *)
Record sort_inv (reg : list Module) (st : SortState) : Prop := {
  inv_visited : forall n, n ∈ visited st <-> n ∈ map name (sorted st);
  inv_nodup : NoDup (map name (sorted st));
  inv_registered : forall m, m ∈ sorted st ->
                             modules_get (name m) reg = Some m;
  inv_topo : topo_closed reg (sorted st);
  inv_disjoint : forall n, n ∈ visiting st -> n ∉ visited st;
  inv_visiting_nodup : NoDup (visiting st);
  inv_visiting_reg : forall n, n ∈ visiting st -> modules_has n reg = true
}.

(** What a call [visit n] from state [st] may result in. *)
Definition visit_post (reg : list Module) (n : string) (st : SortState)
  (r : Result SortState) : Prop :=
  match r with
  | Ok st' =>
      sort_inv reg st' /\ visiting st' = visiting st
      /\ n ∈ visited st' /\ visited st ⊆ visited st'
  | Throw e =>
      exists v x, e = CircularDependency v x /\ chain reg (v ++ [x]) /\ x ∈ v
  | OutOfFuel => False
  end.


(** [x] stands before [y] in [l]. *)
Definition before {A : Type} (l : list A) (x y : A) : Prop :=
  exists i j, i < j /\ l !! i = Some x /\ l !! j = Some y.

(** Steps of the manager that call no lifecycle method. *)
Definition silent (f : ModuleManager -> ModuleManager) : Prop :=
  forall mgr o, invoked o (trace (f mgr)) = invoked o (trace mgr).

(** What a pass adds to the calls of [op]: some names [ns], and nothing
    to the calls of any other operation. *)
Definition adds_calls (op : string) (ns : list string)
  (mgr mgr' : ModuleManager) : Prop :=
  forall o, invoked o (trace mgr')
            = invoked o (trace mgr) ++ (if decide (o = op) then ns else []).

(** Hooks that all resolve. *)
Definition hooks_ok : string -> Hook := fun _ => None.

Definition scenario2 : ModuleManager :=
  registry_of [new_Module (demo_metadata "A" ["B"]);
               new_Module (demo_metadata "B" ["A"])].

Definition module_A : Module := new_Module (demo_metadata "A" ["B"; "C"]).
Definition module_B : Module := new_Module (demo_metadata "B" ["C"]).
Definition module_C : Module := new_Module (demo_metadata "C" []).

(** The manager of scenario 1 after [initializeModules] (which also
    starts the modules, [autoStart] being true by default), and after
    [stopModules] then. *)
Definition scenario1_started : ModuleManager :=
  match initializeModules hooks_ok hooks_ok scenario1 with
  | Some (_, mgr) => mgr
  | None => scenario1
  end.

Definition scenario1_stopped : ModuleManager :=
  match stopModules hooks_ok scenario1_started with
  | Some (_, mgr) => mgr
  | None => scenario1_started
  end.

Definition disabled_metadata (n : string) : ModuleMetadata :=
  {| md_name := n; md_version := "1.0.0"; md_dependencies := None;
     md_disabled := Some true; md_priority := None |}.

(** The schedule in which the callbacks at the given indices take their
    turns in this order and the caller its turn at the end. *)
Definition then_caller (order : list nat) : list Turn :=
  map Callback order ++ [Caller].

(** A module tree with one directory whose default export is not a
    module class and one that holds a loadable module. *)
Definition one_bad_one_good : ModulesDir :=
  {| loadAllConfigs := None; readdir := None;
     entries := [("bad", true); ("good", true)];
     import := fun dir =>
       if decide (dir = "good")
       then ModuleClass (new_Module (demo_metadata "good" []))
       else NotAModuleSubclass |}.

Definition fresh_manager : ModuleManager :=
  new_ModuleManager None None None None.

(** The state of a load when [loadModules] settles, if it does. *)
Definition settled_state (mgr : ModuleManager)
  (result : option (Outcome * Loading)) : Loading :=
  match result with
  | Some (_, ld) => ld
  | None => start_callbacks [] mgr
  end.

(** Two schedules for [one_bad_one_good] on a new manager. In the first
    the import of [bad] settles, its callback ends and [loadModules]
    continues, all before the import of [good] settles. In the second
    the load of [good] and its callback run to their end first. *)
Definition bad_first : option (Outcome * Loading) :=
  loadModules one_bad_one_good (then_caller [0; 0]) fresh_manager.

Definition good_first : option (Outcome * Loading) :=
  loadModules one_bad_one_good (then_caller [1; 1; 1; 0; 0]) fresh_manager.

(** *** Loading: the states a call of [loadModules] goes through *)

(** The states reached from a manager on which no load is pending:
    callbacks are started, and what is suspended continues, in any
    order. *)
Inductive loading (fs : ModulesDir) (mgr0 : ModuleManager)
  : Loading -> Prop :=
  | loading_idle : loading fs mgr0 (start_callbacks [] mgr0)
  | loading_start (ld : Loading) (dir : string) :
      loading fs mgr0 ld -> loading fs mgr0 (start_callback ld dir)
  | loading_resume (ld : Loading) (i : nat) :
      loading fs mgr0 ld -> loading fs mgr0 (resume fs i ld).

(** The callback made the load promise of its directory. *)
Definition own (st : Stage) : bool :=
  match st with
  | AwaitsExisting | Finished false _ => false
  | _ => true
  end.

(** What the promise the callback waits for has settled with, once the
    callback knows. *)
Definition settled_with (st : Stage) : option (Settled LoadResult) :=
  match st with
  | AwaitsLoadPromise s | Finished _ s => Some s
  | _ => None
  end.

(** What a callback has added to each counter, whether its load has put
    a module in the registry, and how many turns it can still take. *)
Definition counted_loaded (c : string * Stage) : nat :=
  match c.2 with Finished true (Fulfilled Loaded) => 1 | _ => 0 end.

Definition counted_disabled (c : string * Stage) : nat :=
  match c.2 with Finished true (Fulfilled Disabled) => 1 | _ => 0 end.

Definition counted_failed (c : string * Stage) : nat :=
  match c.2 with Finished _ (Rejected _) => 1 | _ => 0 end.

Definition registered (c : string * Stage) : nat :=
  match c.2 with
  | AwaitsRegisterModule Returned
  | AwaitsLoadPromise (Fulfilled Loaded)
  | Finished true (Fulfilled Loaded) => 1
  | _ => 0
  end.

Definition remaining (c : string * Stage) : nat :=
  match c.2 with
  | AwaitsImport => 3
  | AwaitsRegisterModule _ => 2
  | AwaitsLoadPromise _ | AwaitsExisting => 1
  | Finished _ _ => 0
  end.

(** The counters count the callbacks that have ended, the registry has
    grown by the modules the loads have registered, and the rejection of
    [Promise.all] is that of a callback that has thrown. *)
Record counting (mgr0 : ModuleManager) (ld : Loading) : Prop := {
  c_loaded : loadedCount (counts ld)
             = sum_list_with counted_loaded (callbacks ld);
  c_disabled : disabledCount (counts ld)
               = sum_list_with counted_disabled (callbacks ld);
  c_failed : errorCount (counts ld)
             = sum_list_with counted_failed (callbacks ld);
  c_added : exists added,
      modules (manager ld) = modules mgr0 ++ added
      /\ length added = sum_list_with registered (callbacks ld);
  c_config : configDisabled (manager ld) = configDisabled mgr0;
  c_rejected : forall err, rejection ld = Some err ->
      exists i dir o, callbacks ld !! i = Some (dir, Finished o (Rejected err));
  c_none : rejection ld = None -> errorCount (counts ld) = 0
}.

(** The load promises: a settled promise is in [moduleLoadPromises] and
    stays as it is, a pending one belongs to one callback, and a
    callback that waits for a promise it found waits for one that is
    settled or pending. *)
Record promised (mgr0 : ModuleManager) (ld : Loading) : Prop := {
  p_settled : forall i dir st s,
      callbacks ld !! i = Some (dir, st) -> settled_with st = Some s ->
      moduleLoadPromises (manager ld) !! dir = Some s;
  p_pending : forall i dir st,
      callbacks ld !! i = Some (dir, st) -> load_pending st = true ->
      moduleLoadPromises (manager ld) !! dir = None;
  p_own : forall i j dir sti stj,
      callbacks ld !! i = Some (dir, sti) ->
      callbacks ld !! j = Some (dir, stj) ->
      own sti = true -> own stj = true -> i = j;
  p_kept : forall dir s,
      moduleLoadPromises mgr0 !! dir = Some s ->
      moduleLoadPromises (manager ld) !! dir = Some s;
  p_origin : forall dir s,
      moduleLoadPromises (manager ld) !! dir = Some s ->
      moduleLoadPromises mgr0 !! dir = Some s
      \/ exists i st, callbacks ld !! i = Some (dir, st)
                      /\ own st = true /\ settled_with st = Some s;
  p_waiting : forall i dir,
      callbacks ld !! i = Some (dir, AwaitsExisting) ->
      moduleLoadPromises (manager ld) !! dir <> None
      \/ exists j st, callbacks ld !! j = Some (dir, st)
                      /\ load_pending st = true
}.

Definition already_registered (instance : Module) : string :=
  "Module " +:+ name instance +:+ " is already registered".

Definition not_a_subclass (dir : string) : string :=
  "Invalid module in " +:+ dir +:+ ": Not a Module subclass".

(** What a load of the callback's own has done is what the import of
    its directory makes it do; [mgr0] is the manager before the call
    and [reg] the registry now. A registration is refused for a name
    that is in the registry. *)
Definition from_import (fs : ModulesDir) (mgr0 : ModuleManager)
  (reg : list Module) (c : string * Stage) : Prop :=
  match c.2 with
  | AwaitsRegisterModule r =>
      exists instance,
        import fs c.1 = ModuleClass instance
        /\ disabled instance = false
        /\ (name instance ∉ configDisabled mgr0)
        /\ (r = Returned
            \/ (r = Thrown (already_registered instance)
                /\ modules_has (name instance) reg = true))
        /\ (modules_has (name instance) (modules mgr0) = true ->
            r <> Returned)
  | AwaitsLoadPromise s | Finished true s =>
      match import fs c.1 with
      | ImportThrows err => s = Rejected err
      | NotAModuleSubclass => s = Rejected (not_a_subclass c.1)
      | ModuleClass instance =>
          if disabled instance
             || bool_decide (name instance ∈ configDisabled mgr0)
          then s = Fulfilled Disabled
          else (s = Fulfilled Loaded
                \/ (s = Rejected (already_registered instance)
                    /\ modules_has (name instance) reg = true))
               /\ (modules_has (name instance) (modules mgr0) = true ->
                   s <> Fulfilled Loaded)
      end
  | _ => True
  end.

(** The load of callback [c] has registered a module called [n]. *)
Definition registers (fs : ModulesDir) (c : string * Stage) (n : string)
  : Prop :=
  registered c = 1
  /\ exists instance, import fs c.1 = ModuleClass instance
                      /\ name instance = n.

(** The names in the registry are those that were there before the
    call and those the loads have registered, each by one load. *)
Record named (fs : ModulesDir) (mgr0 : ModuleManager) (ld : Loading)
  : Prop := {
  n_registered : forall i c n,
      callbacks ld !! i = Some c -> registers fs c n ->
      modules_has n (modules (manager ld)) = true;
  n_distinct : forall i j ci cj n,
      callbacks ld !! i = Some ci -> callbacks ld !! j = Some cj ->
      registers fs ci n -> registers fs cj n -> i = j;
  n_origin : forall n,
      modules_has n (modules (manager ld)) = true ->
      modules_has n (modules mgr0) = true
      \/ exists i c, callbacks ld !! i = Some c /\ registers fs c n
}.



(** The recovery counter of a module: [recoveryAttempts.get(name) || 0]. *)
Definition counter (mgr : ModuleManager) (n : string) : nat :=
  default 0 (recoveryAttempts mgr !! n).

(** How many recovery attempts for [n] a piece of trace schedules. *)
Fixpoint scheduled (n : string) (tr : list Action) : nat :=
  match tr with
  | [] => 0
  | Scheduled m _ :: tr' =>
      (if decide (m = n) then 1 else 0) + scheduled n tr'
  | _ :: tr' => scheduled n tr'
  end.

(** Every scheduling comes right after a [moduleError] for the same
    module whose operation is not "initialization". *)
Definition well_preceded (tr : list Action) : Prop :=
  forall i m k, tr !! i = Some (Scheduled m k) ->
  exists j err op, i = S j /\ tr !! j = Some (ModuleError err m op)
                   /\ op <> "initialization".

(** How many recoveries of [n] a piece of trace runs (timers that fire
    and go past their guard), and how many timers for [n] are pending. *)
Fixpoint attempted (n : string) (tr : list Action) : nat :=
  match tr with
  | [] => 0
  | Attempting m _ :: tr' =>
      (if decide (m = n) then 1 else 0) + attempted n tr'
  | _ :: tr' => attempted n tr'
  end.

Definition pending (n : string) (mgr : ModuleManager) : nat :=
  length (filter (fun t : string * nat => t.1 = n) (timers mgr)).

(** [mgr'] comes after [mgr] by steps of the supervisor that add [new]
    to the trace. *)
Record supervised (n : string) (mgr mgr' : ModuleManager)
  (new : list Action) : Prop := {
  sup_trace : trace mgr' = trace mgr ++ new;
  sup_options : recoveryOptions mgr' = recoveryOptions mgr;
  sup_preceded : well_preceded new;
  sup_disabled : enabled (recoveryOptions mgr) = false ->
                 forall m k, Scheduled m k ∉ new;
  sup_counter : Recovered n ∉ new ->
                counter mgr' n = counter mgr n + scheduled n new
                /\ (0 < scheduled n new ->
                    counter mgr' n <= maxAttempts (recoveryOptions mgr));
  sup_attempts : attempted n new + pending n mgr'
                 <= pending n mgr + scheduled n new
}.

(** Steps that do not complete a recovery of [n]. *)
Definition advances (n : string) (mgr mgr' : ModuleManager) : Prop :=
  exists new, supervised n mgr mgr' new /\ Recovered n ∉ new.

(** Scenario 4: recovery enabled with two attempts, one registered
    module [A] whose [onStart] throws. *)
Definition scenario4 : ModuleManager :=
  (registerModule (new_Module (demo_metadata "A" []))
     (new_ModuleManager None (Some true) (Some 2) (Some 10))).1.2.

Definition scenario4_hooks : string -> Hook :=
  fun n => if decide (n = "A") then Some "boom" else None.

Definition scenario4_failed : ModuleManager :=
  match initializeModules hooks_ok scenario4_hooks scenario4 with
  | Some (_, mgr) => mgr
  | None => scenario4
  end.

(** A run in which a timer set before a successful recovery fires after
    it. Recovery is enabled with three attempts and module [A] is
    registered; [onStart] of [A] throws until the first timer fires.
    - [initializeModules]: the failed start of [A] is reported twice, so
      two timers are set and the counter is 2;
    - [recoverModule "A"]: the start fails again, a third timer is set
      and the counter is 3;
    - the first timer fires and recovers [A], which deletes the counter;
      the second fires and finds [A] without error;
    - [stopModules]: [onStop] of [A] throws, two timers are set and the
      counter is 2;
    - the third timer, set before the recovery, fires and fails in
      [onStart], which sets one more timer (counter 3);
    - the three timers set since the recovery fire and fail. *)
Definition leftover_timer_run : ModuleManager :=
  let or_else (r : option (Outcome * ModuleManager)) (mgr : ModuleManager) :=
    match r with Some (_, mgr') => mgr' | None => mgr end in
  let mgr0 :=
    (registerModule (new_Module (demo_metadata "A" []))
       (new_ModuleManager None (Some true) (Some 3) (Some 5000))).1.2 in
  let mgr1 := or_else (initializeModules hooks_ok scenario4_hooks mgr0) mgr0 in
  let mgr2 := (recoverModule None (Some "boom") "A" mgr1).2 in
  let mgr3 := run_events [TimerFires None None; TimerFires None None] mgr2 in
  let mgr4 := or_else (stopModules scenario4_hooks mgr3) mgr3 in
  run_events [TimerFires None (Some "boom"); TimerFires None (Some "boom");
              TimerFires None (Some "boom"); TimerFires None (Some "boom")]
    mgr4.

(** The recovery attempts for [n] and its successful recoveries that a
    trace shows, in order: [Some k] for the attempt logged as number
    [k], [None] for a success. *)
Definition recoveries (n : string) (tr : list Action)
  : list (option nat) :=
  omap (fun a => match a with
                 | Attempting m k => if decide (m = n) then Some (Some k) else None
                 | Recovered m => if decide (m = n) then Some None else None
                 | _ => None
                 end) tr.

(** The largest number of attempts in a row with no success among
    them, [run] being the number seen since the last success. *)
Fixpoint attempts_in_a_row (rs : list (option nat)) (run : nat) : nat :=
  match rs with
  | [] => run
  | Some _ :: rs' => attempts_in_a_row rs' (S run)
  | None :: rs' => Nat.max run (attempts_in_a_row rs' 0)
  end.

(** The exact values of the components of a version string made of
    dot-separated decimal numerals. *)
Definition numerals (v : string) : option (list Z) :=
  mapM (fun part => decimal_value part 0) (split "." v).

(** The order [compareVersions] induces. *)
Definition version_le (a b : string) : Prop :=
  compareVersions a b = Some (-1)%Z \/ compareVersions a b = Some 0%Z.

Definition version_lt (a b : string) : Prop :=
  compareVersions a b = Some (-1)%Z.

(** The [i]-th component of a version after zero-padding. *)
Definition key (parts : list JsNumber) (i : nat) : JsNumber :=
  default (Finite 0) (parts !! i).

(** Lexicographic comparison of two padded versions on the indices
    [i .. i + n - 1]. *)
Fixpoint lex (f g : nat -> JsNumber) (i n : nat) : Z :=
  match n with
  | O => 0%Z
  | S n' =>
      if js_lt (g i) (f i) then 1%Z
      else if js_lt (f i) (g i) then (-1)%Z
      else lex f g (S i) n'
  end.

(** Every ring of the table holds at most [maxSnapshots] snapshots. *)
Definition rings_bounded {F : Type} (insp : ModuleMemoryInspector F)
  : Prop :=
  forall n ring, snapshots_get n (snapshots insp) = Some ring ->
                 length ring <= maxSnapshots (options insp).

(** A sequence of calls of [takeSnapshot], each with the clock, the heap
    counters and the registry it sees. *)
Definition take_all {F : Type}
  (calls : list ((nat -> Z) * MemoryUsage * list Module))
  (insp : ModuleMemoryInspector F) : ModuleMemoryInspector F :=
  fold_left (fun i c => takeSnapshot c.1.1 c.1.2 c.2 i) calls insp.

(** The snapshot [takeSnapshot] pushes for a module. *)
Definition snapshot_for (now : Z) (memoryUsage : MemoryUsage)
  (all : list Module) (module : Module) : ModuleMemorySnapshot :=
  {| timestamp := now;
     heapUsed := mu_heapUsed memoryUsage;
     heapTotal := mu_heapTotal memoryUsage;
     external := mu_external memoryUsage;
     arrayBuffers := default 0%Z (mu_arrayBuffers memoryUsage);
     references := countReferences module all |}.

(** The finding [analyzeMemoryUsage] reports for a module at a given
    severity. *)
Definition finding {F : Type} (n : string)
  (ring : list ModuleMemorySnapshot) (rate : F) (s : Severity)
  : MemoryLeakResult F :=
  {| moduleName := n; severity := s; growthRate := rate;
     snapshots_of := ring; recommendation := recommendation_for s |}.

(** Scenario 5: two snapshots of module X one hour apart, 25 MB of
    [heapUsed] between them, analysed in exact arithmetic (on these
    inputs every division is exact in a double as well). *)
Definition scenario5_oldest : ModuleMemorySnapshot :=
  {| timestamp := 1700000000000; heapUsed := 104857600;
     heapTotal := 209715200; external := 0; arrayBuffers := 0;
     references := 0 |}%Z.

Definition scenario5_newest : ModuleMemorySnapshot :=
  {| timestamp := 1700003600000; heapUsed := 104857600 + 25 * 1048576;
     heapTotal := 209715200; external := 0; arrayBuffers := 0;
     references := 0 |}%Z.

Definition scenario5_ring : list ModuleMemorySnapshot :=
  [scenario5_oldest; scenario5_newest].

Definition scenario5 : ModuleMemoryInspector Q :=
  {| options := options (new_ModuleMemoryInspector None None
                           (Some {| low := 5%Q; medium := 20%Q;
                                    high := 50%Q |}));
     snapshots := [("X", scenario5_ring)] |}.

(** The same heap difference of 25 MB over half an hour. *)
Definition half_hour_newest : ModuleMemorySnapshot :=
  {| timestamp := 1700001800000; heapUsed := 104857600 + 25 * 1048576;
     heapTotal := 209715200; external := 0; arrayBuffers := 0;
     references := 0 |}%Z.

Definition half_hour_ring : list ModuleMemorySnapshot :=
  [scenario5_oldest; half_hour_newest].

Definition half_hour : ModuleMemoryInspector Q :=
  {| options := options scenario5; snapshots := [("X", half_hour_ring)] |}.

Definition small_inspector : ModuleMemoryInspector Q :=
  new_ModuleMemoryInspector None (Some 2) None.

Definition three_ticks : list ((nat -> Z) * MemoryUsage * list Module) :=
  let mu (h : Z) := {| mu_heapUsed := h; mu_heapTotal := 1000;
                       mu_external := 0; mu_arrayBuffers := None |} in
  [ (fun _ => 0%Z, mu 100%Z, modules scenario1);
    (fun _ => 300000%Z, mu 200%Z, modules scenario1);
    (fun _ => 600000%Z, mu 300%Z, modules scenario1) ].

(** Two registries, or two sorted lists, that hold modules with the same
    metadata in the same order; the modules may differ in their state. *)
Definition same_metadata (l l' : list Module) : Prop :=
  Forall2 (fun m m' => metadata m = metadata m') l l'.

Definition state_rel (st st' : SortState) : Prop :=
  visited st = visited st' /\ visiting st = visiting st'
  /\ same_metadata (sorted st) (sorted st').

Definition result_rel (r r' : Result SortState) : Prop :=
  match r, r' with
  | Ok st, Ok st' => state_rel st st'
  | Throw e, Throw e' => e = e'
  | OutOfFuel, OutOfFuel => True
  | _, _ => False
  end.

(** ** Vocabulary of the further properties *)

(** The local test of [checkPermission]: the permission map of the
    module grants [action] on [resource]. *)
Definition granted_locally (m : Module) (action resource : string) : Prop :=
  exists actions, _permissions m !! resource = Some actions
                  /\ action ∈ actions.

(** Calls of the two methods that change the permission map. *)
Inductive PermissionCall :=
  | Grant (action resource : string)
  | Revoke (action resource : string).

Definition permission_call (c : PermissionCall) (m : Module) : Module :=
  match c with
  | Grant action resource => grantPermission action resource m
  | Revoke action resource => revokePermission action resource m
  end.

(** A module between two lifecycle calls: in one of the four states a
    call can complete in with no error recorded, or failed. *)
Definition at_rest (m : Module) : Prop :=
  ((_state m = UNINITIALIZED \/ _state m = INITIALIZED
    \/ _state m = RUNNING \/ _state m = STOPPED) /\ _error m = None)
  \/ (_state m = ERROR /\ _error m <> None).

(** Replaying the [stateChange] events of a list of effects from the
    state [s]: the state reached, provided each event starts from the
    state the previous one led to and changes it. *)
Fixpoint replay (s : ModuleState) (es : list Effect) : option ModuleState :=
  match es with
  | [] => Some s
  | StateChange new prev :: es' =>
      if decide (prev = s /\ new <> prev) then replay new es' else None
  | _ :: es' => replay s es'
  end.

(** The registry as [registerModule] keeps it: no two modules have the
    same name, none is disabled, and each has the back-reference to the
    manager and the manager's two listeners. *)
Record registry_ok (mgr : ModuleManager) : Prop := {
  ok_names : NoDup (map name (modules mgr));
  ok_enabled : forall m, m ∈ modules mgr -> disabled m = false;
  ok_wired : forall m, m ∈ modules mgr ->
             moduleManager m = true
             /\ 0 < errorListeners m /\ 0 < stateChangeListeners m
}.

(** [m'] is [m] except, possibly, for its state and its error. *)
Record same_but_state (m m' : Module) : Prop := {
  sbs_metadata : metadata m' = metadata m;
  sbs_permissions : _permissions m' = _permissions m;
  sbs_moduleManager : moduleManager m' = moduleManager m;
  sbs_errorListeners : errorListeners m' = errorListeners m;
  sbs_stateChangeListeners : stateChangeListeners m' = stateChangeListeners m;
  sbs_checkModulePermission :
    checkModulePermission m' = checkModulePermission m
}.

(** The bodies of the loops of the three passes, for the module the
    registry holds under the name reached. *)
Definition initialize_step (onInitialize : string -> Hook) (m : Module)
  (mgr : ModuleManager) : ModuleManager :=
  if decide (getState m = INITIALIZED) then mgr
  else
    let '(r, mgr1) :=
      invoke "initialize" (initialize (onInitialize (name m))) m mgr in
    match r with
    | Returned => mgr1
    | Thrown err => emit_moduleError err (name m) "initialization" mgr1
    end.

Definition start_step (onStart : string -> Hook) (m : Module)
  (mgr : ModuleManager) : ModuleManager :=
  if decide (getState m = RUNNING) then mgr
  else if decide (getState m ≠ INITIALIZED ∧ getState m ≠ STOPPED) then mgr
  else
    let '(r, mgr1) := invoke "start" (start (onStart (name m))) m mgr in
    match r with
    | Returned =>
        match getModule (name m) mgr1 with
        | Some m' =>
            if decide (getState m' ≠ RUNNING) then
              emit_moduleError
                ("Module " +:+ name m +:+ " failed to start properly")
                (name m) "start" mgr1
            else mgr1
        | None => mgr1
        end
    | Thrown err => emit_moduleError err (name m) "start" mgr1
    end.

Definition stop_step (onStop : string -> Hook) (m : Module)
  (mgr : ModuleManager) : ModuleManager :=
  if decide (getState m ≠ RUNNING) then mgr
  else
    let '(r, mgr1) := invoke "stop" (stop (onStop (name m))) m mgr in
    match r with
    | Returned => mgr1
    | Thrown err => emit_moduleError err (name m) "stop" mgr1
    end.

Definition pass_step (step : Module -> ModuleManager -> ModuleManager)
  (mgr : ModuleManager) (module : Module) : ModuleManager :=
  match getModule (name module) mgr with
  | None => mgr
  | Some m => step m mgr
  end.

(** How one step of a pass may change the state of the module it
    reaches: [initialize] and [start] with hooks that resolve, [stop]
    with any hook. *)
Definition initialized_from (s s' : ModuleState) : Prop :=
  s' = if decide (s = UNINITIALIZED) then INITIALIZED else s.

Definition started_from (s s' : ModuleState) : Prop :=
  s' = if decide (s = INITIALIZED \/ s = STOPPED) then RUNNING else s.

Definition stopped_from (s s' : ModuleState) : Prop :=
  (s <> RUNNING /\ s' = s) \/ (s = RUNNING /\ (s' = STOPPED \/ s' = ERROR)).

(** The flags of the manager and what it knows of the module tree are
    the same. *)
Record same_flags (mgr mgr' : ModuleManager) : Prop := {
  sf_initialized : initialized mgr' = initialized mgr;
  sf_autoStart : autoStart mgr' = autoStart mgr;
  sf_loadPromises : moduleLoadPromises mgr' = moduleLoadPromises mgr;
  sf_configDisabled : configDisabled mgr' = configDisabled mgr
}.

(** A step of a pass changes the module it is applied to by [T], keeps
    everything of it but state and error, and leaves the other modules
    and the flags of the manager alone. *)
Definition step_changes (T : ModuleState -> ModuleState -> Prop)
  (step : Module -> ModuleManager -> ModuleManager) : Prop :=
  forall m mgr,
    getModule (name m) mgr = Some m ->
    same_flags mgr (step m mgr)
    /\ (forall n, n <> name m ->
                  getModule n (step m mgr) = getModule n mgr)
    /\ (exists m', getModule (name m) (step m mgr) = Some m'
                   /\ same_but_state m m' /\ T (_state m) (_state m'))
    /\ Forall2 same_but_state (modules mgr) (modules (step m mgr)).

(** The recovery supervisor has the same options and the same pending
    timers in [mgr'] as in [mgr]. *)
Definition unsupervised (mgr mgr' : ModuleManager) : Prop :=
  recoveryOptions mgr' = recoveryOptions mgr /\ timers mgr' = timers mgr.

(** The call starts no load: every callback waits for a promise it
    found. *)
Definition waits_only (ld : Loading) : Prop :=
  Forall (fun c : string * Stage => own c.2 = false) (callbacks ld).

(** A second call of [loadModules] on [one_bad_one_good], after the
    call of [bad_first] has thrown and the load of [good] has ended. *)
Definition second_call : option (Outcome * Loading) :=
  loadModules one_bad_one_good (then_caller [1; 0])
    (manager (resume_all one_bad_one_good [1; 1; 1]
                (settled_state fresh_manager bad_first))).

(** A module tree with two directories whose modules have the same
    name. *)
Definition twins : ModulesDir :=
  {| loadAllConfigs := None; readdir := None;
     entries := [("one", true); ("two", true)];
     import := fun _ => ModuleClass (new_Module (demo_metadata "same" [])) |}.

(** Heap counters for the examples. *)
Definition sample_usage : MemoryUsage :=
  {| mu_heapUsed := 100; mu_heapTotal := 1000; mu_external := 0;
     mu_arrayBuffers := None |}.

(** How many modules of [all], other than those called [n], declare [n]
    among their dependencies. *)
Fixpoint dependents (n : string) (all : list Module) : nat :=
  match all with
  | [] => 0
  | other :: rest =>
      (if decide (name other <> n /\ n ∈ dependencies other) then 1 else 0)
      + dependents n rest
  end.

(** A clock that advances by one millisecond with each reading. *)
Definition ticking (start : Z) : nat -> Z := fun i => (start + Z.of_nat i)%Z.


(** Calls of the three tracking methods of the health tracker. *)
Inductive HealthCall (T : Type) :=
  | TrackStart (now : T) (module : Module) (operation : Operation)
  | TrackEnd (now : T) (dateNow : Z) (module : Module)
      (operation : Operation) (success : bool)
  | TrackError (dateNow : Z) (module : Module).
Arguments TrackStart {T} now module operation.
Arguments TrackEnd {T} now dateNow module operation success.
Arguments TrackError {T} dateNow module.

Definition health_call {T : Type} `{DurationOps T} (c : HealthCall T)
  (h : ModuleHealth T) : ModuleHealth T :=
  match c with
  | TrackStart now module operation => trackStart now module operation h
  | TrackEnd now dateNow module operation success =>
      trackEnd now dateNow module operation success h
  | TrackError dateNow module => trackError dateNow module h
  end.

Definition track_all {T : Type} `{DurationOps T} (calls : list (HealthCall T))
  (h : ModuleHealth T) : ModuleHealth T :=
  fold_left (fun h c => health_call c h) calls h.

(** The counters of an entry are consistent: an operation has failed no
    more often than it was counted, the failures of the three operations
    do not exceed the errors of the module, and an operation has a last
    and an average duration exactly when it was counted. *)
Record metrics_ok {T : Type} (m : ModuleMetrics T) : Prop := {
  mo_failures : forall operation,
    om_failures (operations m operation) <= om_count (operations m operation);
  mo_errors :
    om_failures (mm_initialize m) + om_failures (mm_start m)
    + om_failures (mm_stop m) <= mm_errorCount m;
  mo_durations : forall operation,
    (om_count (operations m operation) = 0
     <-> om_avgDuration (operations m operation) = None)
    /\ (om_count (operations m operation) = 0
        <-> om_lastDuration (operations m operation) = None)
}.

(** The count and the failures of an operation of a module, and the
    errors of the module, as the tracker has them: 0 when it has no
    entry for the module. *)
Definition counters {T : Type} (h : ModuleHealth T) (moduleName : string)
  (operation : Operation) : nat * nat * nat :=
  match getModuleMetrics moduleName h with
  | Some m => (om_count (operations m operation),
               om_failures (operations m operation),
               mm_errorCount m)
  | None => (0, 0, 0)
  end.

(** How many [moduleError] events for [n] a piece of trace holds. *)
Fixpoint module_errors (n : string) (tr : list Action) : nat :=
  match tr with
  | [] => 0
  | ModuleError _ m _ :: tr' =>
      (if decide (m = n) then 1 else 0) + module_errors n tr'
  | _ :: tr' => module_errors n tr'
  end.

(** * Properties *)

(** ** Lifecycle of a module *)



Lemma run_app_effects (c : Call) (cs : list Call) (m : Module) :
  snd (run (c :: cs) m) = snd (call c m) ++ snd (run cs (fst (call c m))).
Proof.
  simpl. destruct (call c m) as [m1 e1]. simpl.
  destruct (run cs m1) as [m2 e2]. reflexivity.
Qed.




(** ** The topological scheduler *)

Example scenario1_sorted :
  match sortModulesByDependencies scenario1 with
  | Ok l => map name l = ["C"; "B"; "A"]
  | _ => False
  end.
Proof. vm_compute. reflexivity. Qed.

Example scenario2_message :
  match sortModulesByDependencies
          (registry_of [new_Module (demo_metadata "A" ["B"]);
                        new_Module (demo_metadata "B" ["A"])]) with
  | Throw e => error_message e = "Circular dependency detected: A -> B -> A"
  | _ => False
  end.
Proof. vm_compute. reflexivity. Qed.

Section Scheduler.

Variable reg : list Module.

Lemma modules_get_Some (n : string) (m : Module) :
  modules_get n reg = Some m -> name m = n /\ m ∈ reg.
Proof.
  unfold modules_get. intros H. apply find_some in H as [Hin Hn].
  apply bool_decide_eq_true in Hn. split; [ exact Hn | ].
  apply list_elem_of_In, Hin.
Qed.

Lemma modules_has_true (n : string) :
  modules_has n reg = true <-> exists m, modules_get n reg = Some m.
Proof.
  unfold modules_has. destruct (modules_get n reg) as [m | ]; split.
  - eauto.
  - reflexivity.
  - discriminate.
  - intros [m H]. discriminate.
Qed.

Lemma modules_has_elem (m : Module) :
  m ∈ reg -> modules_has (name m) reg = true.
Proof.
  intros Hin. unfold modules_has, modules_get.
  destruct (find _ reg) as [m' | ] eqn:E; [ reflexivity | ].
  apply list_elem_of_In in Hin.
  pose proof (find_none _ _ E m Hin) as Hn. simpl in Hn.
  apply bool_decide_eq_false in Hn. congruence.
Qed.

Lemma modules_has_name (n : string) :
  modules_has n reg = true -> n ∈ map name reg.
Proof.
  intros H. apply modules_has_true in H as [m H].
  apply modules_get_Some in H as [Hn Hin]. subst n.
  apply list_elem_of_fmap. exists m. split; [ reflexivity | exact Hin ].
Qed.

Lemma set_add_fresh (x : string) (l : list string) :
  x ∉ l -> set_add x l = l ++ [x].
Proof. intros H. unfold set_add. destruct (decide (x ∈ l)); tauto. Qed.

Lemma set_delete_snoc (x : string) (l : list string) :
  x ∉ l -> set_delete x (l ++ [x]) = l.
Proof.
  unfold set_delete. induction l as [ | y l IH ]; intros Hx; simpl.
  - rewrite filter_cons_False; [ reflexivity | ]. intros H. apply H. reflexivity.
  - apply not_elem_of_cons in Hx as [Hne Hx].
    rewrite filter_cons_True by congruence. f_equal. apply IH, Hx.
Qed.

Lemma chain_single (x : string) : chain reg [x].
Proof. intros i a b Ha Hb. destruct i; discriminate Hb. Qed.

Lemma chain_snoc (l : list string) (a b : string) :
  chain reg (l ++ [a]) -> depends_on reg a b -> chain reg ((l ++ [a]) ++ [b]).
Proof.
  intros Hc Hd i x y Hx Hy.
  destruct (decide (S i < length (l ++ [a]))) as [Hlt | Hge].
  - rewrite lookup_app_l in Hx by lia. rewrite lookup_app_l in Hy by lia.
    eapply Hc; eassumption.
  - apply lookup_lt_Some in Hy as Hlen. rewrite length_app in Hlen.
    simpl in Hlen.
    assert (S i = length (l ++ [a])) as Hi by lia.
    rewrite Hi in Hy. rewrite lookup_app_r in Hy by lia.
    rewrite Nat.sub_diag in Hy. simpl in Hy. injection Hy as <-.
    rewrite lookup_app_l in Hx by lia.
    rewrite length_app in Hi. simpl in Hi.
    assert (i = length l) as -> by lia.
    rewrite lookup_app_r in Hx by lia.
    rewrite Nat.sub_diag in Hx. simpl in Hx. injection Hx as <-.
    exact Hd.
Qed.

Lemma chain_suffix (pre l : list string) :
  chain reg (pre ++ l) -> chain reg l.
Proof.
  intros Hc i a b Ha Hb. apply (Hc (length pre + i)).
  - rewrite lookup_app_r by lia.
    replace (length pre + i - length pre) with i by lia. exact Ha.
  - replace (S (length pre + i)) with (length pre + S i) by lia.
    rewrite lookup_app_r by lia.
    replace (length pre + S i - length pre) with (S i) by lia. exact Hb.
Qed.

Lemma visit_unfold (fuel : nat) (n : string) (st : SortState) :
  visit reg fuel n st =
  if decide (n ∈ visited st) then Ok st
  else if decide (n ∈ visiting st) then
    Throw (CircularDependency (visiting st) n)
  else
    match fuel with
    | O => OutOfFuel
    | S fuel' =>
        match modules_get n reg with
        | None => Throw (ModuleNotFound n)
        | Some module =>
            match for_deps (visit reg fuel') reg (dependencies module)
                    {| visited := visited st;
                       visiting := set_add n (visiting st);
                       sorted := sorted st |}
            with
            | Ok st2 =>
                Ok {| visited := {[n]} ∪ visited st2;
                      visiting := set_delete n (visiting st2);
                      sorted := sorted st2 ++ [module] |}
            | r => r
            end
        end
    end.
Proof. destruct fuel; reflexivity. Qed.

(** The visiting stack never outgrows the registry. *)
Lemma visiting_bound (l : list string) :
  NoDup l -> (forall n, n ∈ l -> modules_has n reg = true) ->
  length l <= length reg.
Proof.
  intros Hnd Hreg. rewrite <- (length_map name reg).
  apply submseteq_length, NoDup_submseteq; [ exact Hnd | ].
  intros x Hx. apply modules_has_name, Hreg, Hx.
Qed.

Lemma for_deps_spec (rec : string -> SortState -> Result SortState)
  (f : nat) :
  (forall n st, sort_inv reg st -> modules_has n reg = true ->
                chain reg (visiting st ++ [n]) ->
                length reg < f + length (visiting st) ->
                visit_post reg n st (rec n st)) ->
  forall deps st,
    sort_inv reg st ->
    (forall d, d ∈ deps -> modules_has d reg = true ->
               chain reg (visiting st ++ [d])) ->
    length reg < f + length (visiting st) ->
    match for_deps rec reg deps st with
    | Ok st' =>
        sort_inv reg st' /\ visiting st' = visiting st
        /\ visited st ⊆ visited st'
        /\ (forall d, d ∈ deps -> modules_has d reg = true -> d ∈ visited st')
    | Throw e =>
        exists v x, e = CircularDependency v x /\ chain reg (v ++ [x]) /\ x ∈ v
    | OutOfFuel => False
    end.
Proof.
  intros Hrec. induction deps as [ | d deps IH ]; intros st Hinv Hch Hfuel.
  - simpl. split_and!; [ exact Hinv | reflexivity | set_solver | ].
    intros d Hd. apply elem_of_nil in Hd. destruct Hd.
  - simpl. destruct (modules_has d reg) eqn:Hd.
    + pose proof (Hrec d st Hinv Hd (Hch d (list_elem_of_here _ _) Hd) Hfuel)
        as Hpost.
      destruct (rec d st) as [st1 | e | ]; simpl in Hpost.
      * destruct Hpost as (Hinv1 & Hvis1 & Hd1 & Hsub1).
        specialize (IH st1 Hinv1).
        rewrite Hvis1 in IH.
        specialize (IH (fun d' Hd' => Hch d' (list_elem_of_further _ _ _ Hd'))
                       Hfuel).
        destruct (for_deps rec reg deps st1) as [st2 | e | ]; [ | exact IH | exact IH ].
        destruct IH as (Hinv2 & Hvis2 & Hsub2 & Hall2).
        split_and!; [ exact Hinv2 | exact Hvis2 | set_solver | ].
        intros d' Hd' Hreg'. apply elem_of_cons in Hd' as [-> | Hd'].
        -- set_solver.
        -- apply Hall2; assumption.
      * exact Hpost.
      * exact Hpost.
    + specialize (IH st Hinv
                     (fun d' Hd' => Hch d' (list_elem_of_further _ _ _ Hd'))
                     Hfuel).
      destruct (for_deps rec reg deps st) as [st2 | e | ]; [ | exact IH | exact IH ].
      destruct IH as (Hinv2 & Hvis2 & Hsub2 & Hall2).
      split_and!; [ exact Hinv2 | exact Hvis2 | exact Hsub2 | ].
      intros d' Hd' Hreg'. apply elem_of_cons in Hd' as [-> | Hd'].
      -- congruence.
      -- apply Hall2; assumption.
Qed.

Lemma sort_inv_enter (n : string) (st : SortState) :
  sort_inv reg st -> modules_has n reg = true ->
  n ∉ visited st -> n ∉ visiting st ->
  sort_inv reg {| visited := visited st;
                  visiting := visiting st ++ [n];
                  sorted := sorted st |}.
Proof.
  intros Hinv Hn Hv Hw. destruct Hinv as [H1 H2 H3 H4 H5 H6 H7].
  constructor; simpl; try assumption.
  - intros x Hx. apply elem_of_app in Hx as [Hx | Hx].
    + apply H5, Hx.
    + apply list_elem_of_singleton in Hx. subst x. exact Hv.
  - apply NoDup_app. split_and!.
    + exact H6.
    + intros x Hx Hx'. apply list_elem_of_singleton in Hx'. subst x. tauto.
    + apply NoDup_singleton.
  - intros x Hx. apply elem_of_app in Hx as [Hx | Hx].
    + apply H7, Hx.
    + apply list_elem_of_singleton in Hx. subst x. exact Hn.
Qed.

Lemma sort_inv_leave (n : string) (module : Module) (st st2 : SortState) :
  sort_inv reg st -> sort_inv reg st2 ->
  modules_get n reg = Some module ->
  n ∉ visiting st ->
  visiting st2 = visiting st ++ [n] ->
  (forall d, d ∈ dependencies module -> modules_has d reg = true ->
             d ∈ visited st2) ->
  sort_inv reg {| visited := {[n]} ∪ visited st2;
                  visiting := visiting st;
                  sorted := sorted st2 ++ [module] |}.
Proof.
  intros Hinv Hinv2 Hget Hw Hvis2 Hall2.
  destruct (modules_get_Some _ _ Hget) as [Hname Hin].
  assert (n ∉ visited st2) as Hfresh.
  { apply (inv_disjoint _ _ Hinv2). rewrite Hvis2.
    apply elem_of_app. right. apply list_elem_of_here. }
  constructor; simpl.
  - intros x. rewrite map_app, elem_of_app. simpl.
    rewrite list_elem_of_singleton, Hname, elem_of_union, elem_of_singleton.
    rewrite (inv_visited _ _ Hinv2 x). tauto.
  - rewrite map_app. apply NoDup_app. split_and!.
    + apply (inv_nodup _ _ Hinv2).
    + intros x Hx Hx'. simpl in Hx'. apply list_elem_of_singleton in Hx'.
      rewrite Hname in Hx'. subst x.
      apply Hfresh, (inv_visited _ _ Hinv2), Hx.
    + apply NoDup_singleton.
  - intros m Hm. apply elem_of_app in Hm as [Hm | Hm].
    + apply (inv_registered _ _ Hinv2), Hm.
    + apply list_elem_of_singleton in Hm. subst m. rewrite Hname. exact Hget.
  - intros j m Hj d Hd Hreg.
    apply lookup_app_Some in Hj as [Hj | [Hlen Hj]].
    + destruct (inv_topo _ _ Hinv2 j m Hj d Hd Hreg) as (i & m' & Hi & Hl & Hn).
      exists i, m'. split_and!; [ exact Hi | | exact Hn ].
      apply lookup_app_l_Some, Hl.
    + destruct (j - length (sorted st2)) as [ | k ] eqn:Hk; [ | discriminate Hj ].
      simpl in Hj. injection Hj as <-.
      pose proof (Hall2 d Hd Hreg) as Hvd.
      apply (inv_visited _ _ Hinv2) in Hvd.
      apply list_elem_of_fmap in Hvd as (m' & Hn & Hm').
      apply list_elem_of_lookup in Hm' as [i Hi].
      exists i, m'. split_and!.
      * apply lookup_lt_Some in Hi. lia.
      * apply lookup_app_l_Some, Hi.
      * symmetry. exact Hn.
  - intros x Hx Hx'. apply elem_of_union in Hx' as [Hx' | Hx'].
    + apply elem_of_singleton in Hx'. subst x. tauto.
    + apply (inv_disjoint _ _ Hinv2 x); [ | exact Hx' ].
      rewrite Hvis2. apply elem_of_app. left. exact Hx.
  - apply (inv_visiting_nodup _ _ Hinv).
  - apply (inv_visiting_reg _ _ Hinv).
Qed.

Lemma visit_spec (fuel : nat) :
  forall n st,
    sort_inv reg st -> modules_has n reg = true ->
    chain reg (visiting st ++ [n]) ->
    length reg < fuel + length (visiting st) ->
    visit_post reg n st (visit reg fuel n st).
Proof.
  induction fuel as [ | fuel IH ]; intros n st Hinv Hn Hch Hfuel;
    rewrite visit_unfold;
    (destruct (decide (n ∈ visited st)) as [Hv | Hv];
     [ simpl; split_and!; [ exact Hinv | reflexivity | exact Hv | set_solver ] | ]);
    (destruct (decide (n ∈ visiting st)) as [Hw | Hw];
     [ simpl; exists (visiting st), n; split_and!;
       [ reflexivity | exact Hch | exact Hw ] | ]).
  - pose proof (sort_inv_enter n st Hinv Hn Hv Hw) as Hinv1.
    pose proof (visiting_bound _ (inv_visiting_nodup _ _ Hinv1)
                  (inv_visiting_reg _ _ Hinv1)) as Hb.
    simpl in Hb. rewrite length_app in Hb. simpl in Hb. simpl. lia.
  - apply modules_has_true in Hn as Hn'. destruct Hn' as [module Hget].
    rewrite Hget. rewrite (set_add_fresh _ _ Hw).
    pose proof (sort_inv_enter n st Hinv Hn Hv Hw) as Hinv1.
    set (st1 := {| visited := visited st; visiting := visiting st ++ [n];
                   sorted := sorted st |}) in *.
    assert (forall d, d ∈ dependencies module -> modules_has d reg = true ->
                      chain reg (visiting st1 ++ [d])) as Hch1.
    { intros d Hd Hreg. simpl. apply chain_snoc; [ exact Hch | ].
      exists module. split_and!; assumption. }
    assert (length reg < fuel + length (visiting st1)) as Hfuel1.
    { simpl. rewrite length_app. simpl. lia. }
    pose proof (for_deps_spec (visit reg fuel) fuel IH
                  (dependencies module) st1 Hinv1 Hch1 Hfuel1) as Hloop.
    destruct (for_deps (visit reg fuel) reg (dependencies module) st1)
      as [st2 | e | ]; [ | exact Hloop | exact Hloop ].
    destruct Hloop as (Hinv2 & Hvis2 & Hsub2 & Hall2).
    simpl in Hvis2, Hsub2.
    rewrite Hvis2, (set_delete_snoc _ _ Hw).
    simpl. split_and!.
    + eapply sort_inv_leave; eassumption.
    + reflexivity.
    + set_solver.
    + set_solver.
Qed.

Lemma seed_spec (names : list string) :
  forall st,
    sort_inv reg st -> visiting st = [] ->
    (forall n, n ∈ names -> modules_has n reg = true) ->
    match seed reg (S (length reg)) names st with
    | Ok st' =>
        sort_inv reg st' /\ visiting st' = []
        /\ visited st ⊆ visited st'
        /\ (forall n, n ∈ names -> n ∈ visited st')
    | Throw e =>
        exists v x, e = CircularDependency v x /\ chain reg (v ++ [x]) /\ x ∈ v
    | OutOfFuel => False
    end.
Proof.
  induction names as [ | n names IH ]; intros st Hinv Hvis Hreg.
  - simpl. split_and!; [ exact Hinv | exact Hvis | set_solver | ].
    intros n Hn. apply elem_of_nil in Hn. destruct Hn.
  - cbn [seed]. destruct (decide (n ∈ visited st)) as [Hv | Hv].
    + specialize (IH st Hinv Hvis
                     (fun n' Hn' => Hreg n' (list_elem_of_further _ _ _ Hn'))).
      destruct (seed reg (S (length reg)) names st) as [st' | e | ];
        [ | exact IH | exact IH ].
      destruct IH as (Hinv' & Hvis' & Hsub' & Hall').
      split_and!; [ exact Hinv' | exact Hvis' | exact Hsub' | ].
      intros n' Hn'. apply elem_of_cons in Hn' as [-> | Hn'].
      * set_solver.
      * apply Hall', Hn'.
    + assert (visit_post reg n st (visit reg (S (length reg)) n st)) as Hpost.
      { apply visit_spec.
        - exact Hinv.
        - apply Hreg, list_elem_of_here.
        - rewrite Hvis. apply chain_single.
        - lia. }
      destruct (visit reg (S (length reg)) n st) as [st1 | e | ];
        [ | exact Hpost | exact Hpost ].
      destruct Hpost as (Hinv1 & Hvis1 & Hn1 & Hsub1).
      rewrite Hvis in Hvis1.
      specialize (IH st1 Hinv1 Hvis1
                     (fun n' Hn' => Hreg n' (list_elem_of_further _ _ _ Hn'))).
      destruct (seed reg (S (length reg)) names st1) as [st' | e | ];
        [ | exact IH | exact IH ].
      destruct IH as (Hinv' & Hvis' & Hsub' & Hall').
      split_and!; [ exact Hinv' | exact Hvis' | set_solver | ].
      intros n' Hn'. apply elem_of_cons in Hn' as [-> | Hn'].
      * set_solver.
      * apply Hall', Hn'.
Qed.

Lemma insert_by_priority_perm (x : Module) (l : list Module) :
  insert_by_priority x l ≡ₚ x :: l.
Proof.
  induction l as [ | y l IH ]; simpl.
  - reflexivity.
  - destruct (priority_or_0 y - priority_or_0 x >? 0)%Z.
    + rewrite IH. apply Permutation_swap.
    + reflexivity.
Qed.

Lemma modulesByPriority_perm : modulesByPriority reg ≡ₚ reg.
Proof.
  unfold modulesByPriority. induction reg as [ | x l IH ]; simpl.
  - reflexivity.
  - rewrite insert_by_priority_perm, IH. reflexivity.
Qed.

Lemma sort_inv_init :
  sort_inv reg {| visited := ∅; visiting := []; sorted := [] |}.
Proof.
  constructor; simpl.
  - intros n. split; intros H; [ set_solver | ].
    apply elem_of_nil in H. destruct H.
  - apply NoDup_nil_2.
  - intros m H. apply elem_of_nil in H. destruct H.
  - intros j m H. discriminate H.
  - intros n H. apply elem_of_nil in H. destruct H.
  - apply NoDup_nil_2.
  - intros n H. apply elem_of_nil in H. destruct H.
Qed.

(** What [sortModulesByDependencies] may result in, for a manager whose
    registry is [reg]. *)
Lemma sort_spec (mgr : ModuleManager) :
  modules mgr = reg ->
  match sortModulesByDependencies mgr with
  | Ok l =>
      topo_closed reg l /\ NoDup (map name l)
      /\ (forall m, m ∈ l -> modules_get (name m) reg = Some m)
      /\ (forall m, m ∈ reg -> name m ∈ map name l)
  | Throw e =>
      exists v x, e = CircularDependency v x /\ chain reg (v ++ [x]) /\ x ∈ v
  | OutOfFuel => False
  end.
Proof.
  intros Hreg. unfold sortModulesByDependencies. rewrite Hreg.
  pose proof (seed_spec (map name (modulesByPriority reg)) _
                sort_inv_init eq_refl) as Hseed.
  assert (forall n, n ∈ map name (modulesByPriority reg) ->
                    modules_has n reg = true) as Hnames.
  { intros n Hn. apply list_elem_of_fmap in Hn as (m & -> & Hm).
    apply modules_has_elem. rewrite <- modulesByPriority_perm. exact Hm. }
  specialize (Hseed Hnames).
  destruct (seed reg (S (length reg)) (map name (modulesByPriority reg)) _)
    as [st | e | ]; [ | exact Hseed | exact Hseed ].
  destruct Hseed as (Hinv & _ & _ & Hall).
  split_and!.
  - apply (inv_topo _ _ Hinv).
  - apply (inv_nodup _ _ Hinv).
  - apply (inv_registered _ _ Hinv).
  - intros m Hm. apply (inv_visited _ _ Hinv), Hall.
    apply list_elem_of_fmap. exists m. split; [ reflexivity | ].
    rewrite modulesByPriority_perm. exact Hm.
Qed.

End Scheduler.

(** ** Order of the calls a pass makes *)

Lemma before_asym {A : Type} (l : list A) (x y : A) :
  NoDup l -> before l x y -> ~ before l y x.
Proof.
  intros Hnd (i & j & Hij & Hi & Hj) (i' & j' & Hij' & Hi' & Hj').
  pose proof (NoDup_lookup _ _ _ _ Hnd Hi Hj').
  pose proof (NoDup_lookup _ _ _ _ Hnd Hj Hi').
  lia.
Qed.

Lemma before_total {A : Type} (l : list A) (x y : A) :
  x ∈ l -> y ∈ l -> x <> y -> before l x y \/ before l y x.
Proof.
  intros Hx Hy Hne.
  apply list_elem_of_lookup in Hx as [i Hi].
  apply list_elem_of_lookup in Hy as [j Hj].
  destruct (Nat.lt_trichotomy i j) as [Hlt | [Heq | Hgt]].
  - left. exists i, j. auto.
  - subst j. congruence.
  - right. exists j, i. auto.
Qed.

Lemma before_sublist {A : Type} (l k : list A) (x y : A) :
  sublist l k -> before l x y -> before k x y.
Proof.
  induction 1 as [ | z l k Hsub IH | z l k Hsub IH ];
    intros (i & j & Hij & Hi & Hj).
  - discriminate Hi.
  - destruct j as [ | j ]; [ lia | ]. simpl in Hj.
    destruct i as [ | i ].
    + simpl in Hi. injection Hi as ->.
      assert (y ∈ k) as Hy.
      { eapply elem_of_sublist; [ | exact Hsub ].
        eapply list_elem_of_lookup_2, Hj. }
      apply list_elem_of_lookup in Hy as [j' Hj'].
      exists 0, (S j'). split_and!; [ lia | reflexivity | exact Hj' ].
    + simpl in Hi.
      destruct IH as (i' & j' & Hij' & Hi' & Hj').
      { exists i, j. split_and!; [ lia | assumption | assumption ]. }
      exists (S i'), (S j'). split_and!; [ lia | assumption | assumption ].
  - destruct IH as (i' & j' & Hij' & Hi' & Hj').
    { exists i, j. auto. }
    exists (S i'), (S j'). split_and!; [ lia | assumption | assumption ].
Qed.

Lemma before_reverse {A : Type} (l : list A) (x y : A) :
  before l x y -> before (reverse l) y x.
Proof.
  intros (i & j & Hij & Hi & Hj).
  pose proof (lookup_lt_Some _ _ _ Hi) as Hli.
  pose proof (lookup_lt_Some _ _ _ Hj) as Hlj.
  exists (length l - S j), (length l - S i).
  split_and!; [ lia | | ].
  - rewrite reverse_lookup by lia.
    replace (length l - S (length l - S j)) with j by lia. exact Hj.
  - rewrite reverse_lookup by lia.
    replace (length l - S (length l - S i)) with i by lia. exact Hi.
Qed.

(** Calls made in the order of [k], some of them skipped, keep the
    order of [k]. *)
Lemma before_in_sublist {A : Type} (l k : list A) (x y : A) :
  sublist l k -> NoDup k -> before k x y ->
  x ∈ l -> y ∈ l -> before l x y.
Proof.
  intros Hsub Hnd Hb Hx Hy.
  assert (x <> y) as Hne.
  { intros ->. destruct Hb as (i & j & Hij & Hi & Hj).
    pose proof (NoDup_lookup _ _ _ _ Hnd Hi Hj). lia. }
  destruct (before_total l x y Hx Hy Hne) as [H | H]; [ exact H | ].
  exfalso. eapply before_asym; [ exact Hnd | exact Hb | ].
  eapply before_sublist; eassumption.
Qed.

Lemma invoked_app (o : string) (t1 t2 : list Action) :
  invoked o (t1 ++ t2) = invoked o t1 ++ invoked o t2.
Proof. apply omap_app. Qed.

Lemma silent_attemptModuleRecovery (n : string) :
  silent (attemptModuleRecovery n).
Proof.
  intros mgr o. unfold attemptModuleRecovery.
  destruct (decide _); simpl; rewrite invoked_app; simpl;
    apply app_nil_r.
Qed.

Lemma silent_emit_moduleError (e n op : string) :
  silent (emit_moduleError e n op).
Proof.
  intros mgr o. unfold emit_moduleError.
  destruct (_ && _).
  - rewrite silent_attemptModuleRecovery. simpl.
    rewrite invoked_app. apply app_nil_r.
  - simpl. rewrite invoked_app. apply app_nil_r.
Qed.

Lemma silent_iter (k : nat) (f : ModuleManager -> ModuleManager) :
  silent f -> silent (Nat.iter k f).
Proof.
  intros Hf mgr o. induction k as [ | k IH ]; simpl.
  - reflexivity.
  - rewrite Hf. exact IH.
Qed.

Lemma silent_deliver (m : Module) (effects : list Effect) :
  silent (deliver m effects).
Proof.
  induction effects as [ | e effects IH ]; intros mgr o; simpl.
  - reflexivity.
  - destruct e as [ s1 s2 | err op | msg ]; rewrite IH; try reflexivity.
    apply silent_iter, silent_emit_moduleError.
Qed.

Lemma invoke_invoked (op : string)
  (method : Module -> Outcome * Module * list Effect) (m : Module)
  (mgr : ModuleManager) (o : string) :
  invoked o (trace (snd (invoke op method m mgr)))
  = invoked o (trace mgr) ++ (if decide (o = op) then [name m] else []).
Proof.
  unfold invoke. destruct (method m) as [[r m'] effects]. simpl.
  rewrite silent_deliver. simpl. rewrite invoked_app. f_equal.
  simpl. destruct (decide (op = o)), (decide (o = op));
    try reflexivity; congruence.
Qed.

Lemma adds_calls_refl (op : string) (mgr : ModuleManager) :
  adds_calls op [] mgr mgr.
Proof. intros o. destruct (decide (o = op)); symmetry; apply app_nil_r. Qed.

Lemma adds_calls_step (op : string) (m : Module) (ns : list string)
  (method : Module -> Outcome * Module * list Effect)
  (mgr mgr1 mgr2 mgr3 : ModuleManager) (r : Outcome) :
  invoke op method m mgr = (r, mgr1) ->
  (forall o, invoked o (trace mgr2) = invoked o (trace mgr1)) ->
  adds_calls op ns mgr2 mgr3 ->
  adds_calls op (name m :: ns) mgr mgr3.
Proof.
  intros Hinv Hsilent Hrest o.
  rewrite (Hrest o), Hsilent.
  pose proof (invoke_invoked op method m mgr o) as H.
  rewrite Hinv in H. simpl in H. rewrite H, <- app_assoc.
  destruct (decide (o = op)); reflexivity.
Qed.

Lemma initialize_pass_calls (h : string -> Hook) (l : list Module) :
  forall mgr, exists ns,
    sublist ns (map name l)
    /\ adds_calls "initialize" ns mgr (initialize_pass h l mgr).
Proof.
  induction l as [ | module rest IH ]; intros mgr; simpl.
  - exists []. split; [ constructor | apply adds_calls_refl ].
  - destruct (getModule (name module) mgr) as [m | ] eqn:Hget.
    + apply modules_get_Some in Hget as [Hname _].
      destruct (decide (getState m = INITIALIZED)).
      * destruct (IH mgr) as (ns & Hsub & Hadd).
        exists ns. split; [ apply sublist_cons, Hsub | exact Hadd ].
      * destruct (invoke "initialize" (initialize (h (name m))) m mgr)
          as [r mgr1] eqn:Hinv.
        match goal with
        | |- context [initialize_pass h rest ?x] => destruct (IH x) as (ns & Hsub & Hadd)
        end.
        exists (name m :: ns). split.
        -- rewrite Hname. apply sublist_skip, Hsub.
        -- eapply adds_calls_step; [ exact Hinv | | exact Hadd ].
           intros o. destruct r; [ reflexivity | ].
           apply silent_emit_moduleError.
    + destruct (IH mgr) as (ns & Hsub & Hadd).
      exists ns. split; [ apply sublist_cons, Hsub | exact Hadd ].
Qed.

Lemma start_pass_calls (h : string -> Hook) (l : list Module) :
  forall mgr, exists ns,
    sublist ns (map name l)
    /\ adds_calls "start" ns mgr (start_pass h l mgr).
Proof.
  induction l as [ | module rest IH ]; intros mgr; simpl.
  - exists []. split; [ constructor | apply adds_calls_refl ].
  - destruct (getModule (name module) mgr) as [m | ] eqn:Hget.
    + apply modules_get_Some in Hget as [Hname _].
      destruct (decide (getState m = RUNNING));
        [ | destruct (decide (getState m ≠ INITIALIZED ∧ getState m ≠ STOPPED)) ].
      * destruct (IH mgr) as (ns & Hsub & Hadd).
        exists ns. split; [ apply sublist_cons, Hsub | exact Hadd ].
      * destruct (IH mgr) as (ns & Hsub & Hadd).
        exists ns. split; [ apply sublist_cons, Hsub | exact Hadd ].
      * destruct (invoke "start" (start (h (name m))) m mgr)
          as [r mgr1] eqn:Hinv.
        match goal with
        | |- context [start_pass h rest ?x] => destruct (IH x) as (ns & Hsub & Hadd)
        end.
        exists (name m :: ns). split.
        -- rewrite Hname. apply sublist_skip, Hsub.
        -- eapply adds_calls_step; [ exact Hinv | | exact Hadd ].
           intros o. destruct r.
           ++ destruct (getModule (name m) mgr1) as [m' | ]; [ | reflexivity ].
              destruct (decide (getState m' ≠ RUNNING)); [ | reflexivity ].
              apply silent_emit_moduleError.
           ++ apply silent_emit_moduleError.
    + destruct (IH mgr) as (ns & Hsub & Hadd).
      exists ns. split; [ apply sublist_cons, Hsub | exact Hadd ].
Qed.

Lemma stop_pass_calls (h : string -> Hook) (l : list Module) :
  forall mgr, exists ns,
    sublist ns (map name l)
    /\ adds_calls "stop" ns mgr (stop_pass h l mgr).
Proof.
  induction l as [ | module rest IH ]; intros mgr; simpl.
  - exists []. split; [ constructor | apply adds_calls_refl ].
  - destruct (getModule (name module) mgr) as [m | ] eqn:Hget.
    + apply modules_get_Some in Hget as [Hname _].
      destruct (decide (getState m ≠ RUNNING)).
      * destruct (IH mgr) as (ns & Hsub & Hadd).
        exists ns. split; [ apply sublist_cons, Hsub | exact Hadd ].
      * destruct (invoke "stop" (stop (h (name m))) m mgr)
          as [r mgr1] eqn:Hinv.
        match goal with
        | |- context [stop_pass h rest ?x] => destruct (IH x) as (ns & Hsub & Hadd)
        end.
        exists (name m :: ns). split.
        -- rewrite Hname. apply sublist_skip, Hsub.
        -- eapply adds_calls_step; [ exact Hinv | | exact Hadd ].
           intros o. destruct r; [ reflexivity | ].
           apply silent_emit_moduleError.
    + destruct (IH mgr) as (ns & Hsub & Hadd).
      exists ns. split; [ apply sublist_cons, Hsub | exact Hadd ].
Qed.

Lemma sorted_position (reg : list Module) (l : list Module) (M : Module) :
  (forall m, m ∈ l -> modules_get (name m) reg = Some m) ->
  (forall m, m ∈ reg -> name m ∈ map name l) ->
  modules_get (name M) reg = Some M ->
  exists j, l !! j = Some M.
Proof.
  intros Hreg Hall HM.
  destruct (modules_get_Some _ _ _ HM) as [_ Hin].
  apply Hall in Hin. apply list_elem_of_fmap in Hin as (m & Hn & Hm).
  pose proof (Hreg m Hm) as Hget. rewrite <- Hn, HM in Hget.
  injection Hget as <-. apply list_elem_of_lookup, Hm.
Qed.

Lemma sorted_before (mgr : ModuleManager) (l : list Module) (A B : Module) :
  sortModulesByDependencies mgr = Ok l ->
  getModule (name A) mgr = Some A ->
  getModule (name B) mgr = Some B ->
  name B ∈ dependencies A ->
  before l B A /\ NoDup (map name l)
  /\ before (map name l) (name B) (name A).
Proof.
  intros Hsort HA HB Hdep.
  pose proof (sort_spec (modules mgr) mgr eq_refl) as Hspec.
  rewrite Hsort in Hspec. destruct Hspec as (Htopo & Hnd & Hreg & Hall).
  destruct (sorted_position _ _ A Hreg Hall HA) as [j Hj].
  destruct (Htopo j A Hj (name B) Hdep) as (i & m' & Hij & Hi & Hn).
  { apply modules_has_true. exists B. exact HB. }
  assert (m' = B) as ->.
  { pose proof (Hreg m' (list_elem_of_lookup_2 _ _ _ Hi)) as Hget.
    rewrite Hn in Hget. unfold getModule in HB. congruence. }
  split_and!.
  - exists i, j. auto.
  - exact Hnd.
  - exists i, j. split_and!; [ exact Hij | | ].
    + change (map name l) with (name <$> l). rewrite list_lookup_fmap, Hi. reflexivity.
    + change (map name l) with (name <$> l). rewrite list_lookup_fmap, Hj. reflexivity.
Qed.

Lemma sort_total (mgr : ModuleManager) :
  sortModulesByDependencies mgr <> OutOfFuel.
Proof.
  intros H. pose proof (sort_spec (modules mgr) mgr eq_refl) as Hspec.
  rewrite H in Hspec. exact Hspec.
Qed.

(** ** The sort only reads metadata *)

Lemma meta_name (m m' : Module) :
  metadata m = metadata m' -> name m = name m'.
Proof. intros H. unfold name. rewrite H. reflexivity. Qed.

Lemma meta_dependencies (m m' : Module) :
  metadata m = metadata m' -> dependencies m = dependencies m'.
Proof. intros H. unfold dependencies. rewrite H. reflexivity. Qed.

Lemma meta_priority (m m' : Module) :
  metadata m = metadata m' -> priority_or_0 m = priority_or_0 m'.
Proof. intros H. unfold priority_or_0, priority. rewrite H. reflexivity. Qed.

Lemma same_metadata_refl (l : list Module) : same_metadata l l.
Proof. apply Forall2_same_length_lookup_2; [ reflexivity | ]. intros i x y Hx Hy. congruence. Qed.

Lemma same_metadata_trans (l1 l2 l3 : list Module) :
  same_metadata l1 l2 -> same_metadata l2 l3 -> same_metadata l1 l3.
Proof.
  intros H1. revert l3. induction H1 as [ | x y l1 l2 Hxy _ IH ];
    intros l3 H2; inversion H2 as [ | y' z l2' l3' Hyz Hrest ]; subst.
  - constructor.
  - constructor; [ congruence | apply IH, Hrest ].
Qed.

Lemma same_metadata_names (l l' : list Module) :
  same_metadata l l' -> map name l = map name l'.
Proof.
  induction 1 as [ | m m' l l' Hm _ IH ]; simpl.
  - reflexivity.
  - rewrite (meta_name _ _ Hm), IH. reflexivity.
Qed.

Lemma modules_get_congr (n : string) (reg reg' : list Module) :
  same_metadata reg reg' ->
  match modules_get n reg, modules_get n reg' with
  | Some m, Some m' => metadata m = metadata m'
  | None, None => True
  | _, _ => False
  end.
Proof.
  induction 1 as [ | m m' l l' Hm _ IH ]; simpl.
  - exact I.
  - unfold modules_get in *. simpl. rewrite <- (meta_name _ _ Hm).
    destruct (bool_decide (name m = n)); [ exact Hm | exact IH ].
Qed.

Lemma modules_has_congr (n : string) (reg reg' : list Module) :
  same_metadata reg reg' -> modules_has n reg = modules_has n reg'.
Proof.
  intros H. pose proof (modules_get_congr n reg reg' H) as Hg.
  unfold modules_has.
  destruct (modules_get n reg), (modules_get n reg'); tauto.
Qed.

Lemma for_deps_congr (rec rec' : string -> SortState -> Result SortState)
  (reg reg' : list Module) :
  (forall n st st', state_rel st st' -> result_rel (rec n st) (rec' n st')) ->
  same_metadata reg reg' ->
  forall deps st st',
    state_rel st st' ->
    result_rel (for_deps rec reg deps st) (for_deps rec' reg' deps st').
Proof.
  intros Hrec Hreg. induction deps as [ | d deps IH ]; intros st st' Hst; simpl.
  - exact Hst.
  - rewrite <- (modules_has_congr d reg reg' Hreg).
    destruct (modules_has d reg); [ | apply IH, Hst ].
    pose proof (Hrec d st st' Hst) as Hr.
    destruct (rec d st) as [st1 | e | ], (rec' d st') as [st1' | e' | ];
      simpl in Hr; try contradiction; try exact Hr.
    apply IH, Hr.
Qed.

Lemma visit_congr (reg reg' : list Module) (fuel : nat) :
  same_metadata reg reg' ->
  forall n st st',
    state_rel st st' ->
    result_rel (visit reg fuel n st) (visit reg' fuel n st').
Proof.
  intros Hreg. induction fuel as [ | fuel IH ];
    intros n st st' (Hvd & Hvg & Hso); rewrite !visit_unfold;
    rewrite <- Hvd, <- Hvg;
    (destruct (decide (n ∈ visited st));
     [ simpl; split_and!; assumption | ]);
    (destruct (decide (n ∈ visiting st)); [ reflexivity | ]).
  - exact I.
  - pose proof (modules_get_congr n reg reg' Hreg) as Hg.
    destruct (modules_get n reg) as [m | ], (modules_get n reg') as [m' | ];
      try contradiction; [ | reflexivity ].
    rewrite <- (meta_dependencies _ _ Hg).
    pose proof (for_deps_congr (visit reg fuel) (visit reg' fuel) reg reg'
                  IH Hreg (dependencies m)
                  {| visited := visited st;
                     visiting := set_add n (visiting st);
                     sorted := sorted st |}
                  {| visited := visited st;
                     visiting := set_add n (visiting st);
                     sorted := sorted st' |}) as Hloop.
    specialize (Hloop ltac:(split_and!; [ reflexivity | reflexivity | exact Hso ])).
    destruct (for_deps (visit reg fuel) reg (dependencies m) _)
      as [st2 | e | ],
      (for_deps (visit reg' fuel) reg' (dependencies m) _)
      as [st2' | e' | ]; simpl in Hloop; try contradiction; try exact Hloop.
    destruct Hloop as (H1 & H2 & H3). simpl. split_and!.
    + rewrite H1. reflexivity.
    + rewrite H2. reflexivity.
    + apply Forall2_app; [ exact H3 | ]. constructor; [ exact Hg | constructor ].
Qed.

Lemma insert_by_priority_congr (x x' : Module) (l l' : list Module) :
  metadata x = metadata x' -> same_metadata l l' ->
  same_metadata (insert_by_priority x l) (insert_by_priority x' l').
Proof.
  intros Hx. induction 1 as [ | y y' l l' Hy Hl IH ]; simpl.
  - constructor; [ exact Hx | constructor ].
  - rewrite <- (meta_priority _ _ Hx), <- (meta_priority _ _ Hy).
    destruct (_ >? _)%Z.
    + constructor; assumption.
    + constructor; [ exact Hx | ]. constructor; assumption.
Qed.

Lemma modulesByPriority_congr (reg reg' : list Module) :
  same_metadata reg reg' ->
  same_metadata (modulesByPriority reg) (modulesByPriority reg').
Proof.
  unfold modulesByPriority. induction 1 as [ | m m' l l' Hm _ IH ]; simpl.
  - constructor.
  - apply insert_by_priority_congr; assumption.
Qed.

Lemma seed_congr (reg reg' : list Module) (fuel : nat)
  (names : list string) :
  same_metadata reg reg' ->
  forall st st',
    state_rel st st' ->
    result_rel (seed reg fuel names st) (seed reg' fuel names st').
Proof.
  intros Hreg. induction names as [ | n names IH ]; intros st st' Hst.
  - exact Hst.
  - cbn [seed]. destruct Hst as (Hvd & Hvg & Hso). rewrite <- Hvd.
    destruct (decide (n ∈ visited st)).
    + apply IH. split_and!; assumption.
    + pose proof (visit_congr reg reg' fuel Hreg n st st'
                    ltac:(split_and!; assumption)) as Hv.
      destruct (visit reg fuel n st) as [st1 | e | ],
        (visit reg' fuel n st') as [st1' | e' | ];
        simpl in Hv; try contradiction; try exact Hv.
      apply IH, Hv.
Qed.

(** Managers whose registries hold the same metadata sort alike. *)
Lemma sort_congr (mgr mgr' : ModuleManager) :
  same_metadata (modules mgr) (modules mgr') ->
  match sortModulesByDependencies mgr, sortModulesByDependencies mgr' with
  | Ok l, Ok l' => same_metadata l l'
  | Throw e, Throw e' => e = e'
  | OutOfFuel, OutOfFuel => True
  | _, _ => False
  end.
Proof.
  intros Hreg. unfold sortModulesByDependencies.
  rewrite <- (Forall2_length _ _ _ Hreg).
  rewrite <- (same_metadata_names _ _ (modulesByPriority_congr _ _ Hreg)).
  pose proof (seed_congr (modules mgr) (modules mgr')
                (S (length (modules mgr)))
                (map name (modulesByPriority (modules mgr))) Hreg
                {| visited := ∅; visiting := []; sorted := [] |}
                {| visited := ∅; visiting := []; sorted := [] |}) as Hs.
  specialize (Hs ltac:(split_and!; [ reflexivity | reflexivity | constructor ])).
  destruct (seed (modules mgr) _ _ _) as [st | e | ],
    (seed (modules mgr') _ _ _) as [st' | e' | ];
    simpl in Hs; try contradiction; try exact Hs.
  apply Hs.
Qed.

(** ** The passes keep the metadata of the registry *)

Lemma modules_set_same (reg : list Module) (m m' : Module) :
  modules_get (name m) reg = Some m -> metadata m' = metadata m ->
  same_metadata reg (modules_set m' reg).
Proof.
  intros Hget Hm. induction reg as [ | x reg IH ]; [ discriminate Hget | ].
  unfold modules_get in Hget. simpl in Hget. simpl.
  rewrite (meta_name _ _ Hm).
  destruct (bool_decide (name x = name m)).
  - injection Hget as ->. constructor; [ symmetry; exact Hm | ].
    apply same_metadata_refl.
  - constructor; [ reflexivity | ]. apply IH, Hget.
Qed.

Lemma modules_emit_moduleError (err n op : string) (mgr : ModuleManager) :
  modules (emit_moduleError err n op mgr) = modules mgr.
Proof.
  unfold emit_moduleError, attemptModuleRecovery.
  destruct (_ && _); [ | reflexivity ].
  destruct (decide _); reflexivity.
Qed.

Lemma modules_deliver (m : Module) (effects : list Effect) :
  forall mgr, modules (deliver m effects mgr) = modules mgr.
Proof.
  induction effects as [ | e effects IH ]; intros mgr; simpl.
  - reflexivity.
  - destruct e as [ s1 s2 | err op | msg ]; rewrite IH; try reflexivity.
    induction (errorListeners m) as [ | k IHk ]; simpl.
    + reflexivity.
    + rewrite modules_emit_moduleError. exact IHk.
Qed.

Lemma metadata_setState (s : ModuleState) (m : Module) :
  metadata (setState s m).1 = metadata m.
Proof. reflexivity. Qed.

Lemma metadata_initialize (h : Hook) (m : Module) :
  metadata (initialize h m).1.2 = metadata m.
Proof.
  unfold initialize. destruct (decide _); [ reflexivity | ].
  destruct h; reflexivity.
Qed.

Lemma metadata_start (h : Hook) (m : Module) :
  metadata (start h m).1.2 = metadata m.
Proof.
  unfold start. destruct (decide _); [ reflexivity | ].
  destruct h; reflexivity.
Qed.

Lemma metadata_stop (h : Hook) (m : Module) :
  metadata (stop h m).1.2 = metadata m.
Proof.
  unfold stop. destruct (decide _); [ reflexivity | ].
  destruct h; reflexivity.
Qed.

Lemma invoke_same (op : string)
  (method : Module -> Outcome * Module * list Effect) (m : Module)
  (mgr mgr' : ModuleManager) (r : Outcome) :
  (forall x, metadata (method x).1.2 = metadata x) ->
  getModule (name m) mgr = Some m ->
  invoke op method m mgr = (r, mgr') ->
  same_metadata (modules mgr) (modules mgr').
Proof.
  intros Hmeta Hget. unfold invoke. specialize (Hmeta m).
  destruct (method m) as [[r0 m'] effects]. simpl in Hmeta.
  intros H. injection H as _ <-.
  rewrite modules_deliver. simpl.
  apply (modules_set_same _ m m'); assumption.
Qed.

Lemma getModule_self (n : string) (m : Module) (mgr : ModuleManager) :
  getModule n mgr = Some m -> getModule (name m) mgr = Some m.
Proof.
  intros H. destruct (modules_get_Some _ _ _ H) as [-> _]. exact H.
Qed.

Lemma initialize_pass_same (h : string -> Hook) (l : list Module) :
  forall mgr,
    same_metadata (modules mgr) (modules (initialize_pass h l mgr)).
Proof.
  induction l as [ | module rest IH ]; intros mgr; simpl.
  - apply same_metadata_refl.
  - destruct (getModule (name module) mgr) as [m | ] eqn:Hget; [ | apply IH ].
    destruct (decide (getState m = INITIALIZED)); [ apply IH | ].
    destruct (invoke "initialize" (initialize (h (name m))) m mgr)
      as [r mgr1] eqn:Hinv.
    eapply same_metadata_trans; [ | apply IH ].
    pose proof (invoke_same _ _ _ _ _ _ (metadata_initialize (h (name m)))
                  (getModule_self _ _ _ Hget) Hinv) as Hsame.
    destruct r; [ exact Hsame | ].
    rewrite modules_emit_moduleError. exact Hsame.
Qed.

Lemma startModules_calls (h : string -> Hook) (mgr : ModuleManager)
  (l : list Module) :
  initialized mgr = true ->
  sortModulesByDependencies mgr = Ok l ->
  exists mgr' ns,
    startModules h mgr = Some (Returned, mgr')
    /\ sublist ns (map name l)
    /\ adds_calls "start" ns mgr mgr'.
Proof.
  intros Hinit Hsort. unfold startModules. rewrite Hinit, Hsort. simpl.
  destruct (start_pass_calls h l mgr) as (ns & Hsub & Hadd).
  exists (record Ready (start_pass h l mgr)), ns.
  split_and!; [ reflexivity | exact Hsub | ].
  intros o. simpl. rewrite invoked_app. simpl. rewrite app_nil_r.
  apply Hadd.
Qed.

Lemma initializeModules_calls (hI hS : string -> Hook)
  (mgr : ModuleManager) (l : list Module) :
  initialized mgr = false ->
  sortModulesByDependencies mgr = Ok l ->
  exists mgr' ni ns,
    initializeModules hI hS mgr = Some (Returned, mgr')
    /\ sublist ni (map name l) /\ sublist ns (map name l)
    /\ invoked "initialize" (trace mgr')
       = invoked "initialize" (trace mgr) ++ ni
    /\ invoked "start" (trace mgr') = invoked "start" (trace mgr) ++ ns.
Proof.
  intros Hinit Hsort. unfold initializeModules. rewrite Hinit, Hsort.
  destruct (initialize_pass_calls hI l mgr) as (ni & Hsub & Hadd).
  set (mgr1 := with_initialized true (initialize_pass hI l mgr)).
  assert (invoked "initialize" (trace mgr1)
          = invoked "initialize" (trace mgr) ++ ni) as H1
    by apply (Hadd "initialize").
  assert (invoked "start" (trace mgr1) = invoked "start" (trace mgr)) as H2.
  { pose proof (Hadd "start") as H. simpl in H. rewrite app_nil_r in H.
    exact H. }
  destruct (autoStart mgr1).
  - unfold startModules. simpl.
    pose proof (sort_congr mgr mgr1 (initialize_pass_same hI l mgr)) as Hc.
    rewrite Hsort in Hc.
    destruct (sortModulesByDependencies mgr1) as [l' | e | ];
      try contradiction.
    destruct (start_pass_calls hS l' mgr1) as (ns & Hsub' & Hadd').
    rewrite <- (same_metadata_names _ _ Hc) in Hsub'.
    exists (record Ready (start_pass hS l' mgr1)), ni, ns.
    split_and!; [ reflexivity | exact Hsub | exact Hsub' | | ].
    + simpl. rewrite invoked_app. simpl. rewrite app_nil_r.
      rewrite (Hadd' "initialize"), H1. apply app_nil_r.
    + simpl. rewrite invoked_app. simpl. rewrite app_nil_r.
      rewrite (Hadd' "start"), H2. reflexivity.
  - exists mgr1, ni, []. rewrite app_nil_r.
    split_and!; [ reflexivity | exact Hsub | apply sublist_nil_l | exact H1 | exact H2 ].
Qed.

Lemma stopModules_calls (h : string -> Hook) (mgr : ModuleManager)
  (l : list Module) :
  sortModulesByDependencies mgr = Ok l ->
  exists mgr' ns,
    stopModules h mgr = Some (Returned, mgr')
    /\ sublist ns (map name (reverse l))
    /\ adds_calls "stop" ns mgr mgr'.
Proof.
  intros Hsort. unfold stopModules. rewrite Hsort.
  destruct (stop_pass_calls h (reverse l) mgr) as (ns & Hsub & Hadd).
  exists (with_initialized false (stop_pass h (reverse l) mgr)), ns.
  split_and!; [ reflexivity | exact Hsub | exact Hadd ].
Qed.

(** C1. When the registered module [A] declares the registered module
    [B] among its dependencies, the order [sortModulesByDependencies]
    produces has each module once and [B] before [A]. The calls of
    [initialize] and of [start] that [initializeModules] makes (it
    starts the modules itself when [autoStart] is set), and the calls
    of [start] that [startModules] makes, follow that order, so [B] is
    called before [A]; the calls of [stop] that [stopModules] makes
    follow the reversed order, so [A] is called before [B]. For
    A{deps:[B,C]}, B{deps:[C]}, C{deps:[]} the modules are started in
    the order C, B, A and stopped in the order A, B, C. *)
Theorem sort_places_dependencies_first (mgr : ModuleManager)
  (sortedModules : list Module) (A B : Module) :
  getModule (name A) mgr = Some A ->
  getModule (name B) mgr = Some B ->
  name B ∈ dependencies A ->
  sortModulesByDependencies mgr = Ok sortedModules ->
  (before sortedModules B A /\ NoDup (map name sortedModules))
  /\ (forall hI hS, initialized mgr = false ->
        exists mgr' ni ns,
          initializeModules hI hS mgr = Some (Returned, mgr')
          /\ invoked "initialize" (trace mgr')
             = invoked "initialize" (trace mgr) ++ ni
          /\ invoked "start" (trace mgr')
             = invoked "start" (trace mgr) ++ ns
          /\ (name A ∈ ni -> name B ∈ ni -> before ni (name B) (name A))
          /\ (name A ∈ ns -> name B ∈ ns -> before ns (name B) (name A)))
  /\ (forall hS, initialized mgr = true ->
        exists mgr' ns,
          startModules hS mgr = Some (Returned, mgr')
          /\ invoked "start" (trace mgr') = invoked "start" (trace mgr) ++ ns
          /\ (name A ∈ ns -> name B ∈ ns -> before ns (name B) (name A)))
  /\ (forall hT,
        exists mgr' ns,
          stopModules hT mgr = Some (Returned, mgr')
          /\ invoked "stop" (trace mgr') = invoked "stop" (trace mgr) ++ ns
          /\ (name A ∈ ns -> name B ∈ ns -> before ns (name A) (name B)))
  /\ (initializeModules hooks_ok hooks_ok scenario1
      = Some (Returned, scenario1_started)
      /\ invoked "initialize" (trace scenario1_started) = ["C"; "B"; "A"]
      /\ invoked "start" (trace scenario1_started) = ["C"; "B"; "A"]
      /\ stopModules hooks_ok scenario1_started
         = Some (Returned, scenario1_stopped)
      /\ invoked "stop" (trace scenario1_stopped) = ["A"; "B"; "C"]).
Proof.
  intros HA HB Hdep Hsort.
  destruct (sorted_before mgr sortedModules A B Hsort HA HB Hdep)
    as (Hb & Hnd & Hbn).
  split_and!.
  - exact Hb.
  - exact Hnd.
  - intros hI hS Hinit.
    destruct (initializeModules_calls hI hS mgr sortedModules Hinit Hsort)
      as (mgr' & ni & ns & Heq & Hsubi & Hsubs & Hi & Hs).
    exists mgr', ni, ns.
    split_and!; [ exact Heq | exact Hi | exact Hs | | ];
      intros Ha Hb'; eapply before_in_sublist; eassumption.
  - intros hS Hinit.
    destruct (startModules_calls hS mgr sortedModules Hinit Hsort)
      as (mgr' & ns & Heq & Hsub & Hadd).
    exists mgr', ns. split_and!; [ exact Heq | apply (Hadd "start") | ].
    intros Ha Hb'. eapply before_in_sublist; eassumption.
  - intros hT.
    destruct (stopModules_calls hT mgr sortedModules Hsort)
      as (mgr' & ns & Heq & Hsub & Hadd).
    exists mgr', ns. split_and!; [ exact Heq | apply (Hadd "stop") | ].
    intros Ha Hb'. eapply before_in_sublist; try eassumption.
    + change (map name (reverse sortedModules))
        with (name <$> reverse sortedModules).
      rewrite fmap_reverse, reverse_Permutation. exact Hnd.
    + change (map name (reverse sortedModules))
        with (name <$> reverse sortedModules).
      rewrite fmap_reverse. apply before_reverse. exact Hbn.
  - vm_compute. reflexivity.
  - vm_compute. reflexivity.
  - vm_compute. reflexivity.
  - vm_compute. reflexivity.
  - vm_compute. reflexivity.
Qed.

(** ** Cycles *)











Lemma chain_path (reg : list Module) (l : list string) :
  forall a b, chain reg (a :: l ++ [b]) -> tc (depends_on reg) a b.
Proof.
  induction l as [ | c l IH ]; intros a b Hch.
  - apply tc_once. apply (Hch 0); reflexivity.
  - apply tc_l with c.
    + apply (Hch 0); reflexivity.
    + apply IH. apply (chain_suffix reg [a]). exact Hch.
Qed.

(** Conversely the sort throws only on a cycle: an acyclic registry is
    always sorted. *)
Lemma acyclic_is_sorted (mgr : ModuleManager) :
  (forall n, ~ tc (depends_on (modules mgr)) n n) ->
  exists l, sortModulesByDependencies mgr = Ok l.
Proof.
  intros Hacyclic.
  pose proof (sort_spec (modules mgr) mgr eq_refl) as Hspec.
  destruct (sortModulesByDependencies mgr) as [l | e | ].
  - exists l. reflexivity.
  - destruct Hspec as (v & x & _ & Hch & Hx).
    apply list_elem_of_split in Hx as (pre & cyc & ->).
    exfalso. apply (Hacyclic x).
    apply (chain_path _ cyc). rewrite <- app_assoc in Hch.
    apply (chain_suffix _ pre). exact Hch.
  - destruct Hspec.
Qed.


Lemma sort_places_dependencies_first_witness :
  getModule (name module_A) scenario1 = Some module_A
  /\ getModule (name module_B) scenario1 = Some module_B
  /\ name module_B ∈ dependencies module_A
  /\ sortModulesByDependencies scenario1
     = Ok [module_C; module_B; module_A]
  /\ before [module_C; module_B; module_A] module_B module_A.
Proof.
  assert (getModule (name module_A) scenario1 = Some module_A) as HA
    by reflexivity.
  assert (getModule (name module_B) scenario1 = Some module_B) as HB
    by reflexivity.
  assert (name module_B ∈ dependencies module_A) as Hdep
    by (vm_compute; apply list_elem_of_here).
  assert (sortModulesByDependencies scenario1
          = Ok [module_C; module_B; module_A]) as Hsort
    by (vm_compute; reflexivity).
  split_and!; try assumption.
  exact (proj1 (proj1 (sort_places_dependencies_first scenario1 _
                         module_A module_B HA HB Hdep Hsort))).
Defined.



(** ** Registration *)

(** C10, as amended. For a module whose metadata marks it disabled and
    whose name is not yet registered, [registerModule] returns normally
    and changes neither the manager nor the module: nothing is added to
    the registry, [getModule] on its name still finds nothing, no
    listener is installed. The check for a duplicate name comes before
    the check for [disabled]: when the name is already registered,
    [registerModule] throws "already registered", still without changing
    anything. *)
Theorem registerModule_disabled (module : Module) (mgr : ModuleManager) :
  disabled module = true ->
  (getModule (name module) mgr = None ->
     registerModule module mgr = (Returned, mgr, module)
     /\ getModule (name module) (registerModule module mgr).1.2 = None)
  /\ (getModule (name module) mgr <> None ->
        registerModule module mgr
        = (Thrown ("Module " +:+ name module +:+ " is already registered"),
           mgr, module)).
Proof.
  intros Hdis. unfold registerModule, getModule, modules_has. split.
  - intros Hnone. rewrite Hnone, Hdis. simpl. split; [ reflexivity | exact Hnone ].
  - intros Hsome. destruct (modules_get (name module) (modules mgr));
      [ reflexivity | congruence ].
Qed.

Lemma registerModule_disabled_witness :
  disabled (new_Module (disabled_metadata "Z")) = true
  /\ registerModule (new_Module (disabled_metadata "Z")) scenario2
     = (Returned, scenario2, new_Module (disabled_metadata "Z")).
Proof.
  split; [ reflexivity | ].
  exact (proj1 (proj1 (registerModule_disabled
                         (new_Module (disabled_metadata "Z")) scenario2
                         eq_refl) eq_refl)).
Defined.

(** C10, counterexample. A disabled module whose name is already taken
    makes [registerModule] throw, and [getModule] on its name does not
    return undefined. *)
Lemma registerModule_disabled_duplicate_counterexample :
  disabled (new_Module (disabled_metadata "A")) = true
  /\ registerModule (new_Module (disabled_metadata "A")) scenario2
     = (Thrown "Module A is already registered", scenario2,
        new_Module (disabled_metadata "A"))
  /\ getModule "A" scenario2 <> None.
Proof. split_and!; [ reflexivity | reflexivity | discriminate ]. Qed.

(** ** Permissions *)



(** ** Loading *)

Lemma modules_set_fresh (m : Module) (reg : list Module) :
  modules_has (name m) reg = false -> modules_set m reg = reg ++ [m].
Proof.
  unfold modules_has, modules_get.
  induction reg as [ | x reg IH ]; simpl; [ reflexivity | ].
  destruct (bool_decide (name x = name m)); [ discriminate | ].
  intros H. rewrite (IH H). reflexivity.
Qed.

Lemma modules_get_app (n : string) (reg reg' : list Module) :
  modules_get n (reg ++ reg')
  = match modules_get n reg with
    | Some m => Some m
    | None => modules_get n reg'
    end.
Proof.
  unfold modules_get. induction reg as [ | x reg IH ]; simpl;
    [ reflexivity | ].
  destruct (bool_decide (name x = n)); [ reflexivity | exact IH ].
Qed.

Lemma modules_has_app (n : string) (reg new : list Module) :
  modules_has n reg = true -> modules_has n (reg ++ new) = true.
Proof.
  unfold modules_has. rewrite modules_get_app.
  destruct (modules_get n reg); [ reflexivity | discriminate ].
Qed.

(** The module [registerModule] puts in the registry for an instance
    that [loadModuleFromPath] has built. *)
Lemma after_import_spec (imported : ImportResult) (dir : string)
  (mgr : ModuleManager) :
  match after_import imported dir mgr with
  | (inl s, mgr') =>
      mgr' = mgr
      /\ match imported with
         | ImportThrows err => s = Rejected err
         | NotAModuleSubclass => s = Rejected (not_a_subclass dir)
         | ModuleClass instance =>
             s = Fulfilled Disabled
             /\ disabled instance
                || bool_decide (name instance ∈ configDisabled mgr) = true
         end
  | (inr r, mgr') =>
      exists instance,
        imported = ModuleClass instance
        /\ disabled instance = false
        /\ (name instance ∉ configDisabled mgr)
        /\ match r with
           | Returned =>
               modules_has (name instance) (modules mgr) = false
               /\ mgr' = with_modules
                           (modules mgr
                            ++ [setModuleManager
                                  (on_stateChange
                                     (on_error (setModuleManager instance)))])
                           mgr
           | Thrown err =>
               modules_has (name instance) (modules mgr) = true
               /\ mgr' = mgr /\ err = already_registered instance
           end
  end.
Proof.
  unfold after_import. destruct imported as [err | | instance].
  - split; reflexivity.
  - split; reflexivity.
  - change (disabled (setModuleManager instance)) with (disabled instance).
    change (name (setModuleManager instance)) with (name instance).
    destruct (disabled instance) eqn:Hdis; simpl.
    + split; [ reflexivity | split; reflexivity ].
    + destruct (bool_decide (name instance ∈ configDisabled mgr)) eqn:Hcfg.
      * split; [ reflexivity | split; reflexivity ].
      * apply bool_decide_eq_false_1 in Hcfg. unfold registerModule.
        change (name (setModuleManager instance)) with (name instance).
        change (disabled (setModuleManager instance)) with (disabled instance).
        destruct (modules_has (name instance) (modules mgr)) eqn:Hhas.
        -- exists instance. split_and!; try reflexivity; assumption.
        -- rewrite Hdis. exists instance.
           split_and!; try reflexivity; try assumption.
           f_equal. apply modules_set_fresh. exact Hhas.
Qed.

Lemma loadModuleFromPath_stages (imported : ImportResult) (dir : string)
  (mgr : ModuleManager) :
  loadModuleFromPath imported dir mgr
  = (match (after_import imported dir mgr).1 with
     | inl s => s
     | inr r => after_registerModule r
     end,
     (after_import imported dir mgr).2).
Proof.
  unfold loadModuleFromPath, after_import.
  destruct imported as [err | | instance]; try reflexivity.
  destruct (_ || _); [ reflexivity | ].
  destruct (registerModule (setModuleManager instance) mgr) as [[[ | err] mgr'] m];
    reflexivity.
Qed.

Lemma sum_list_with_insert {A : Type} (f : A -> nat) (l : list A) (i : nat)
  (x y : A) :
  l !! i = Some x ->
  sum_list_with f (<[i := y]> l) + f x = sum_list_with f l + f y.
Proof.
  revert i. induction l as [ | a l IH ]; intros [ | i ] H; simpl in *;
    try discriminate.
  - injection H as ->. lia.
  - specialize (IH i H). lia.
Qed.

Lemma lookup_insert_cases {A : Type} (l : list A) (i j : nat) (x y : A) :
  <[i := x]> l !! j = Some y ->
  (j = i /\ y = x /\ i < length l) \/ (j <> i /\ l !! j = Some y).
Proof.
  intros H. apply list_lookup_insert_Some in H as [(-> & -> & Hlt) | [Hne H]].
  - left. auto.
  - right. auto.
Qed.

Lemma lookup_insert_here {A : Type} (l : list A) (i : nat) (x y : A) :
  l !! i = Some x -> <[i := y]> l !! i = Some y.
Proof.
  intros H. apply list_lookup_insert_eq. apply lookup_lt_Some in H. exact H.
Qed.

(** *** What the counters count *)

Lemma counting_idle (mgr0 : ModuleManager) :
  counting mgr0 (start_callbacks [] mgr0).
Proof.
  split; simpl; try reflexivity.
  - exists []. rewrite app_nil_r. split; reflexivity.
  - discriminate.
Qed.

Lemma counting_start (mgr0 : ModuleManager) (ld : Loading) (dir : string) :
  counting mgr0 ld -> counting mgr0 (start_callback ld dir).
Proof.
  intros [Hl Hd Hf (added & Hadd & Hlen) Hcfg Hrej Hnone].
  unfold start_callback.
  split; simpl; rewrite ?sum_list_with_app; simpl.
  - unfold counted_loaded at 2. destruct (has_loadPromise dir ld); simpl; lia.
  - unfold counted_disabled at 2. destruct (has_loadPromise dir ld); simpl; lia.
  - unfold counted_failed at 2. destruct (has_loadPromise dir ld); simpl; lia.
  - exists added. split; [ exact Hadd | ].
    unfold registered at 2. destruct (has_loadPromise dir ld); simpl; lia.
  - exact Hcfg.
  - intros err He. destruct (Hrej err He) as (i & d & o & Hi).
    exists i, d, o. apply lookup_app_l_Some. exact Hi.
  - exact Hnone.
Qed.

(** The four sums after the callback at index [i] has changed from [x]
    to [y]. *)
Ltac sums Hi y :=
  pose proof (sum_list_with_insert counted_loaded _ _ _ y Hi);
  pose proof (sum_list_with_insert counted_disabled _ _ _ y Hi);
  pose proof (sum_list_with_insert counted_failed _ _ _ y Hi);
  pose proof (sum_list_with_insert registered _ _ _ y Hi).

Ltac count :=
  unfold counted_loaded, counted_disabled, counted_failed, registered in *;
  simpl in *; lia.

Lemma counting_rejected_kept (ld : Loading) (i : nat) (dir : string)
  (st st' : Stage) (err : string) :
  callbacks ld !! i = Some (dir, st) ->
  (forall o s, st <> Finished o s) ->
  (exists j d o, callbacks ld !! j = Some (d, Finished o (Rejected err))) ->
  exists j d o,
    <[i := (dir, st')]> (callbacks ld) !! j
    = Some (d, Finished o (Rejected err)).
Proof.
  intros Hi Hst (j & d & o & Hj). exists j, d, o.
  rewrite list_lookup_insert_ne; [ exact Hj | ].
  intros ->. rewrite Hi in Hj. injection Hj as _ Heq.
  exact (Hst _ _ Heq).
Qed.

Lemma counting_finish (mgr0 : ModuleManager) (ld : Loading) (i : nat)
  (dir : string) (st : Stage) (o : bool) (s : Settled LoadResult) :
  counting mgr0 ld ->
  callbacks ld !! i = Some (dir, st) ->
  (st = AwaitsLoadPromise s /\ o = true) \/ (st = AwaitsExisting /\ o = false) ->
  counting mgr0 (finish i dir o s ld).
Proof.
  intros [Hl Hd Hf (added & Hadd & Hlen) Hcfg Hrej Hnone] Hi Hst.
  assert (forall o' s', st <> Finished o' s') as Hnot
    by (intros o' s' ->; destruct Hst as [[? _] | [? _]]; discriminate).
  sums Hi (dir, Finished o s).
  unfold finish. split; simpl.
  - destruct Hst as [[-> ->] | [-> ->]]; destruct s as [[ | ] | err];
      count.
  - destruct Hst as [[-> ->] | [-> ->]]; destruct s as [[ | ] | err];
      count.
  - destruct Hst as [[-> ->] | [-> ->]]; destruct s as [[ | ] | err];
      count.
  - exists added. split; [ exact Hadd | ].
    destruct Hst as [[-> ->] | [-> ->]]; destruct s as [[ | ] | err];
      count.
  - exact Hcfg.
  - intros e He. destruct s as [v | err].
    + apply (counting_rejected_kept ld i dir st _ e Hi Hnot), Hrej, He.
    + destruct (rejection ld) as [e0 | ] eqn:Hr; simpl in He;
        injection He as <-.
      * apply (counting_rejected_kept ld i dir st _ e0 Hi Hnot), Hrej.
        reflexivity.
      * exists i, dir, o. eapply lookup_insert_here, Hi.
  - intros Hr. destruct s as [[ | ] | err]; [ | | discriminate Hr ];
      specialize (Hnone Hr); destruct o; simpl; exact Hnone.
Qed.

Lemma counting_resume (fs : ModulesDir) (mgr0 : ModuleManager)
  (ld : Loading) (i : nat) :
  counting mgr0 ld -> counting mgr0 (resume fs i ld).
Proof.
  intros Hc. unfold resume.
  destruct (callbacks ld !! i) as [[dir st] | ] eqn:Hi; [ | exact Hc ].
  destruct st as [ | r | s | | o s ].
  - (* the import settles *)
    pose proof (after_import_spec (import fs dir) dir (manager ld)) as Hspec.
    destruct Hc as [Hl Hd Hf (added & Hadd & Hlen) Hcfg Hrej Hnone].
    destruct (after_import (import fs dir) dir (manager ld)) as [[s | r] mgr'].
    + destruct Hspec as [-> Hs].
      assert (s <> Fulfilled Loaded) as Hnl.
      { destruct (import fs dir); [ | | destruct Hs as [Hs _] ];
          rewrite Hs; discriminate. }
      sums Hi (dir, AwaitsLoadPromise s).
      unfold settle. split; simpl; try assumption; try count.
      * exists added. split; [ exact Hadd | ].
        destruct s as [[ | ] | err]; [ congruence | | ]; count.
      * intros e He.
        apply (counting_rejected_kept ld i dir AwaitsImport _ e Hi);
          [ discriminate | apply Hrej, He ].
    + destruct Hspec as (instance & Himp & Hdis & Hcfg' & Hr).
      sums Hi (dir, AwaitsRegisterModule r).
      split; simpl; try assumption; try count.
      * destruct r as [ | err ].
        -- destruct Hr as [_ ->]. simpl.
           exists (added
                   ++ [setModuleManager
                         (on_stateChange
                            (on_error (setModuleManager instance)))]).
           rewrite Hadd, <- app_assoc. split; [ reflexivity | ].
           rewrite length_app. count.
        -- destruct Hr as (_ & -> & _). exists added.
           split; [ exact Hadd | count ].
      * destruct r as [ | err ].
        -- destruct Hr as [_ ->]. exact Hcfg.
        -- destruct Hr as (_ & -> & _). exact Hcfg.
      * intros e He.
        apply (counting_rejected_kept ld i dir AwaitsImport _ e Hi);
          [ discriminate | apply Hrej, He ].
  - (* the registration is over *)
    destruct Hc as [Hl Hd Hf (added & Hadd & Hlen) Hcfg Hrej Hnone].
    sums Hi (dir, AwaitsLoadPromise (after_registerModule r)).
    unfold settle. split; simpl; try assumption; try count.
    + exists added. split; [ exact Hadd | ].
      destruct r; count.
    + intros e He.
      apply (counting_rejected_kept ld i dir (AwaitsRegisterModule r) _ e Hi);
        [ discriminate | apply Hrej, He ].
  - apply (counting_finish mgr0 ld i dir (AwaitsLoadPromise s) true s Hc Hi).
    left. split; reflexivity.
  - destruct (moduleLoadPromises (manager ld) !! dir) as [s | ];
      [ | exact Hc ].
    apply (counting_finish mgr0 ld i dir AwaitsExisting false s Hc Hi).
    right. split; reflexivity.
  - exact Hc.
Qed.

Lemma counting_loading (fs : ModulesDir) (mgr0 : ModuleManager)
  (ld : Loading) :
  loading fs mgr0 ld -> counting mgr0 ld.
Proof.
  induction 1 as [ | ld dir _ IH | ld i _ IH ].
  - apply counting_idle.
  - apply counting_start, IH.
  - apply counting_resume, IH.
Qed.

(** *** The load promises *)

Lemma lookup_snoc_cases {A : Type} (l : list A) (x y : A) (i : nat) :
  (l ++ [x]) !! i = Some y ->
  l !! i = Some y \/ (i = length l /\ y = x).
Proof.
  intros H. apply lookup_app_Some in H as [H | [Hle H]]; [ left; exact H | ].
  right. destruct (i - length l) as [ | k ] eqn:Hk; simpl in H;
    [ | discriminate ].
  injection H as <-. split; [ lia | reflexivity ].
Qed.

(** The callbacks before and after the one at index [i] has changed its
    stage. *)
Lemma restaged_back (cs : list (string * Stage)) (i : nat) (dir : string)
  (st st' : Stage) (j : nat) (d : string) (x : Stage) :
  cs !! i = Some (dir, st) ->
  <[i := (dir, st')]> cs !! j = Some (d, x) ->
  (j = i /\ d = dir /\ x = st' /\ cs !! j = Some (d, st))
  \/ (j <> i /\ cs !! j = Some (d, x)).
Proof.
  intros Hi Hj. apply lookup_insert_cases in Hj as [(-> & Heq & _) | [Hne Hj]].
  - injection Heq as -> ->. left. auto.
  - right. auto.
Qed.

Lemma restaged_forth (cs : list (string * Stage)) (i : nat) (dir : string)
  (st st' : Stage) (j : nat) (d : string) (y : Stage) :
  cs !! i = Some (dir, st) ->
  cs !! j = Some (d, y) ->
  (j = i /\ d = dir /\ y = st
   /\ <[i := (dir, st')]> cs !! j = Some (d, st'))
  \/ (j <> i /\ <[i := (dir, st')]> cs !! j = Some (d, y)).
Proof.
  intros Hi Hj. destruct (decide (j = i)) as [-> | Hne].
  - rewrite Hi in Hj. injection Hj as <- <-. left.
    split_and!; try reflexivity. eapply lookup_insert_here, Hi.
  - right. split; [ exact Hne | ].
    rewrite list_lookup_insert_ne by congruence. exact Hj.
Qed.

Lemma pending_own (st : Stage) : load_pending st = true -> own st = true.
Proof. destruct st as [ | r | s | | [ | ] s ]; simpl; congruence. Qed.

Lemma settled_not_pending (st : Stage) (s : Settled LoadResult) :
  settled_with st = Some s -> load_pending st = false.
Proof. destruct st; simpl; congruence. Qed.

Lemma promised_idle (mgr0 : ModuleManager) :
  promised mgr0 (start_callbacks [] mgr0).
Proof.
  split; simpl; try (intros; discriminate); auto.
Qed.

Lemma has_loadPromise_false (dir : string) (ld : Loading) :
  has_loadPromise dir ld = false ->
  moduleLoadPromises (manager ld) !! dir = None
  /\ forall j st, callbacks ld !! j = Some (dir, st) ->
                  load_pending st = false.
Proof.
  unfold has_loadPromise. intros H. apply orb_false_iff in H as [H1 H2].
  apply bool_decide_eq_false_1 in H1. split.
  - destruct (moduleLoadPromises (manager ld) !! dir); [ | reflexivity ].
    exfalso. apply H1. eexists. reflexivity.
  - intros j st Hj. destruct (load_pending st) eqn:Hp; [ | reflexivity ].
    exfalso. apply not_true_iff_false in H2. apply H2.
    apply existsb_exists. exists (dir, st). split.
    + apply list_elem_of_In. eapply list_elem_of_lookup_2, Hj.
    + simpl. rewrite bool_decide_eq_true_2 by reflexivity. exact Hp.
Qed.

Lemma has_loadPromise_true (dir : string) (ld : Loading) :
  has_loadPromise dir ld = true ->
  moduleLoadPromises (manager ld) !! dir <> None
  \/ exists j st, callbacks ld !! j = Some (dir, st)
                  /\ load_pending st = true.
Proof.
  unfold has_loadPromise. intros H. apply orb_true_iff in H as [H | H].
  - left. apply bool_decide_eq_true_1 in H. destruct H as [s ->]. discriminate.
  - right. apply existsb_exists in H as ([d st] & Hin & Hc). simpl in Hc.
    apply andb_true_iff in Hc as [Hd Hp].
    apply bool_decide_eq_true_1 in Hd. subst d.
    apply list_elem_of_In, list_elem_of_lookup in Hin as [j Hj].
    exists j, st. split; assumption.
Qed.

Lemma promised_start (mgr0 : ModuleManager) (ld : Loading) (dir : string) :
  promised mgr0 ld -> promised mgr0 (start_callback ld dir).
Proof.
  intros [Hset Hpen Hown Hkept Horig Hwait]. unfold start_callback.
  destruct (has_loadPromise dir ld) eqn:Hhas.
  - (* a promise is there: the callback waits for it *)
    split; simpl.
    + intros i d st s Hi Hs.
      apply lookup_snoc_cases in Hi as [Hi | [_ Heq]];
        [ eapply Hset; eassumption | ].
      injection Heq as -> ->. discriminate Hs.
    + intros i d st Hi Hp.
      apply lookup_snoc_cases in Hi as [Hi | [_ Heq]];
        [ eapply Hpen; eassumption | ].
      injection Heq as -> ->. discriminate Hp.
    + intros i j d sti stj Hi Hj Hoi Hoj.
      apply lookup_snoc_cases in Hi as [Hi | [_ Heq]];
        [ | injection Heq as -> ->; discriminate Hoi ].
      apply lookup_snoc_cases in Hj as [Hj | [_ Heq]];
        [ | injection Heq as -> ->; discriminate Hoj ].
      eapply Hown; eassumption.
    + exact Hkept.
    + intros d s Hd. destruct (Horig d s Hd) as [H | (i & st & Hi & Ho & Hs)];
        [ left; exact H | right ].
      exists i, st. split_and!; try assumption.
      apply lookup_app_l_Some. exact Hi.
    + intros i d Hi.
      assert (moduleLoadPromises (manager ld) !! d <> None
              \/ exists j st, callbacks ld !! j = Some (d, st)
                              /\ load_pending st = true) as H.
      { apply lookup_snoc_cases in Hi as [Hi | [_ Heq]];
          [ eapply Hwait; eassumption | ].
        injection Heq as ->. apply has_loadPromise_true, Hhas. }
      destruct H as [H | (j & st & Hj & Hp)]; [ left; exact H | right ].
      exists j, st. split; [ apply lookup_app_l_Some; exact Hj | exact Hp ].
  - (* no promise: the callback starts the load *)
    destruct (has_loadPromise_false dir ld Hhas) as [Hnone Hnopending].
    split; simpl.
    + intros i d st s Hi Hs.
      apply lookup_snoc_cases in Hi as [Hi | [_ Heq]];
        [ eapply Hset; eassumption | ].
      injection Heq as -> ->. discriminate Hs.
    + intros i d st Hi Hp.
      apply lookup_snoc_cases in Hi as [Hi | [_ Heq]];
        [ eapply Hpen; eassumption | ].
      injection Heq as -> ->. exact Hnone.
    + assert (forall j st, callbacks ld !! j = Some (dir, st) ->
                           own st = true -> False) as Hno.
      { intros j st Hj Ho.
        destruct (load_pending st) eqn:Hp.
        - rewrite (Hnopending j st Hj) in Hp. discriminate Hp.
        - destruct st as [ | r | s | | [ | ] s ]; simpl in *;
            try discriminate.
          + pose proof (Hset j dir _ s Hj eq_refl) as H. congruence.
          + pose proof (Hset j dir _ s Hj eq_refl) as H. congruence. }
      intros i j d sti stj Hi Hj Hoi Hoj.
      apply lookup_snoc_cases in Hi as [Hi | [-> Heq]];
        apply lookup_snoc_cases in Hj as [Hj | [-> Heq']].
      * eapply Hown; eassumption.
      * injection Heq' as -> ->. destruct (Hno i sti Hi Hoi).
      * injection Heq as -> ->. destruct (Hno j stj Hj Hoj).
      * reflexivity.
    + exact Hkept.
    + intros d s Hd. destruct (Horig d s Hd) as [H | (i & st & Hi & Ho & Hs)];
        [ left; exact H | right ].
      exists i, st. split_and!; try assumption.
      apply lookup_app_l_Some. exact Hi.
    + intros i d Hi.
      apply lookup_snoc_cases in Hi as [Hi | [_ Heq]];
        [ | discriminate Heq ].
      destruct (Hwait i d Hi) as [H | (j & st & Hj & Hp)];
        [ left; exact H | right ].
      exists j, st. split; [ apply lookup_app_l_Some; exact Hj | exact Hp ].
Qed.

Lemma promised_restage (mgr0 : ModuleManager) (ld ld' : Loading) (i : nat)
  (dir : string) (st st' : Stage) :
  promised mgr0 ld ->
  callbacks ld !! i = Some (dir, st) ->
  callbacks ld' = <[i := (dir, st')]> (callbacks ld) ->
  moduleLoadPromises (manager ld') = moduleLoadPromises (manager ld) ->
  own st' = own st ->
  load_pending st' = load_pending st ->
  (forall s, settled_with st' = Some s ->
             moduleLoadPromises (manager ld) !! dir = Some s) ->
  (forall s, settled_with st = Some s -> settled_with st' = Some s) ->
  (st' = AwaitsExisting -> st = AwaitsExisting) ->
  promised mgr0 ld'.
Proof.
  intros [Hset Hpen Hown Hkept Horig Hwait] Hi Hcs HP Ho Hp Hnew Hold Hex.
  split; rewrite ?Hcs, ?HP.
  - intros j d x s Hj Hs.
    destruct (restaged_back _ _ _ _ _ _ _ _ Hi Hj)
      as [(-> & -> & -> & _) | [_ Hj']].
    + apply Hnew, Hs.
    + eapply Hset; eassumption.
  - intros j d x Hj Hx.
    destruct (restaged_back _ _ _ _ _ _ _ _ Hi Hj)
      as [(-> & -> & -> & Hj') | [_ Hj']].
    + eapply Hpen; [ exact Hj' | ]. rewrite <- Hp. exact Hx.
    + eapply Hpen; eassumption.
  - intros j k d x y Hj Hk Hx Hy.
    assert (exists x', callbacks ld !! j = Some (d, x') /\ own x' = true)
      as (x' & Hj' & Hx').
    { destruct (restaged_back _ _ _ _ _ _ _ _ Hi Hj)
        as [(-> & -> & -> & Hj') | [_ Hj']].
      - exists st. split; [ exact Hj' | congruence ].
      - exists x. auto. }
    assert (exists y', callbacks ld !! k = Some (d, y') /\ own y' = true)
      as (y' & Hk' & Hy').
    { destruct (restaged_back _ _ _ _ _ _ _ _ Hi Hk)
        as [(-> & -> & -> & Hk') | [_ Hk']].
      - exists st. split; [ exact Hk' | congruence ].
      - exists y. auto. }
    eapply Hown; eassumption.
  - exact Hkept.
  - intros d s Hd. destruct (Horig d s Hd) as [H | (j & y & Hj & Hy & Hs)];
      [ left; exact H | right ].
    destruct (restaged_forth _ _ _ _ st' _ _ _ Hi Hj)
      as [(-> & -> & -> & Hj') | [_ Hj']].
    + exists i, st'. split_and!; [ exact Hj' | congruence | auto ].
    + exists j, y. auto.
  - intros j d Hj.
    assert (callbacks ld !! j = Some (d, AwaitsExisting)) as Hj'.
    { destruct (restaged_back _ _ _ _ _ _ _ _ Hi Hj)
        as [(-> & -> & Heq & Hj') | [_ Hj']]; [ | exact Hj' ].
      rewrite (Hex (eq_sym Heq)) in Hj'. exact Hj'. }
    destruct (Hwait j d Hj') as [H | (k & y & Hk & Hy)];
      [ left; exact H | right ].
    destruct (restaged_forth _ _ _ _ st' _ _ _ Hi Hk)
      as [(-> & -> & -> & Hk') | [_ Hk']].
    + exists i, st'. split; [ exact Hk' | congruence ].
    + exists k, y. auto.
Qed.

Lemma promised_settle (mgr0 : ModuleManager) (ld ld' : Loading) (i : nat)
  (dir : string) (st : Stage) (s : Settled LoadResult) :
  promised mgr0 ld ->
  callbacks ld !! i = Some (dir, st) ->
  load_pending st = true ->
  callbacks ld' = <[i := (dir, AwaitsLoadPromise s)]> (callbacks ld) ->
  moduleLoadPromises (manager ld')
  = <[dir := s]> (moduleLoadPromises (manager ld)) ->
  promised mgr0 ld'.
Proof.
  intros [Hset Hpen Hown Hkept Horig Hwait] Hi Hp Hcs HP.
  pose proof (Hpen i dir st Hi Hp) as Hnone.
  pose proof (pending_own st Hp) as Ho.
  split; rewrite ?Hcs, ?HP.
  - intros j d x s' Hj Hs.
    destruct (restaged_back _ _ _ _ _ _ _ _ Hi Hj)
      as [(-> & -> & -> & _) | [_ Hj']].
    + injection Hs as <-. apply lookup_insert_eq.
    + pose proof (Hset j d x s' Hj' Hs) as Hd.
      rewrite lookup_insert_ne by congruence. exact Hd.
  - intros j d x Hj Hx.
    destruct (restaged_back _ _ _ _ _ _ _ _ Hi Hj)
      as [(-> & -> & -> & _) | [Hne Hj']]; [ discriminate Hx | ].
    rewrite lookup_insert_ne; [ eapply Hpen; eassumption | ].
    intros <-. apply Hne. symmetry.
    eapply Hown; [ exact Hi | exact Hj' | exact Ho | apply pending_own, Hx ].
  - intros j k d x y Hj Hk Hx Hy.
    assert (exists x', callbacks ld !! j = Some (d, x') /\ own x' = true)
      as (x' & Hj' & Hx').
    { destruct (restaged_back _ _ _ _ _ _ _ _ Hi Hj)
        as [(-> & -> & -> & Hj') | [_ Hj']].
      - exists st. auto.
      - exists x. auto. }
    assert (exists y', callbacks ld !! k = Some (d, y') /\ own y' = true)
      as (y' & Hk' & Hy').
    { destruct (restaged_back _ _ _ _ _ _ _ _ Hi Hk)
        as [(-> & -> & -> & Hk') | [_ Hk']].
      - exists st. auto.
      - exists y. auto. }
    eapply Hown; eassumption.
  - intros d s' Hd. pose proof (Hkept d s' Hd) as H.
    rewrite lookup_insert_ne by congruence. exact H.
  - intros d s' Hd. destruct (decide (dir = d)) as [<- | Hne].
    + rewrite lookup_insert_eq in Hd. injection Hd as <-. right.
      exists i, (AwaitsLoadPromise s).
      split_and!; [ eapply lookup_insert_here, Hi | reflexivity | reflexivity ].
    + rewrite lookup_insert_ne in Hd by exact Hne.
      destruct (Horig d s' Hd) as [H | (j & y & Hj & Hy & Hs)];
        [ left; exact H | right ].
      destruct (restaged_forth _ _ _ _ (AwaitsLoadPromise s) _ _ _ Hi Hj)
        as [(-> & -> & -> & Hj') | [_ Hj']]; [ congruence | ].
      exists j, y. auto.
  - intros j d Hj.
    destruct (restaged_back _ _ _ _ _ _ _ _ Hi Hj)
      as [(-> & -> & Heq & _) | [_ Hj']]; [ discriminate Heq | ].
    destruct (decide (dir = d)) as [<- | Hne].
    + left. rewrite lookup_insert_eq. discriminate.
    + rewrite lookup_insert_ne by exact Hne.
      destruct (Hwait j d Hj') as [H | (k & y & Hk & Hy)];
        [ left; exact H | right ].
      destruct (restaged_forth _ _ _ _ (AwaitsLoadPromise s) _ _ _ Hi Hk)
        as [(-> & -> & -> & Hk') | [_ Hk']]; [ congruence | ].
      exists k, y. auto.
Qed.

Lemma promised_resume (fs : ModulesDir) (mgr0 : ModuleManager)
  (ld : Loading) (i : nat) :
  promised mgr0 ld -> promised mgr0 (resume fs i ld).
Proof.
  intros Hp. unfold resume.
  destruct (callbacks ld !! i) as [[dir st] | ] eqn:Hi; [ | exact Hp ].
  destruct st as [ | r | s | | o s ].
  - pose proof (after_import_spec (import fs dir) dir (manager ld)) as Hspec.
    destruct (after_import (import fs dir) dir (manager ld)) as [[s | r] mgr'].
    + destruct Hspec as [-> _].
      apply (promised_settle mgr0 ld _ i dir AwaitsImport s Hp Hi);
        reflexivity.
    + destruct Hspec as (instance & _ & _ & _ & Hr).
      apply (promised_restage mgr0 ld _ i dir AwaitsImport
               (AwaitsRegisterModule r) Hp Hi);
        try reflexivity; try discriminate.
      simpl. destruct r as [ | err ].
      * destruct Hr as [_ ->]. reflexivity.
      * destruct Hr as (_ & -> & _). reflexivity.
  - apply (promised_settle mgr0 ld _ i dir (AwaitsRegisterModule r)
             (after_registerModule r) Hp Hi);
      reflexivity.
  - apply (promised_restage mgr0 ld _ i dir (AwaitsLoadPromise s)
             (Finished true s) Hp Hi);
      try reflexivity; try discriminate; auto.
    intros s' Hs. injection Hs as <-.
    apply (p_settled _ _ Hp i dir _ s Hi). reflexivity.
  - destruct (moduleLoadPromises (manager ld) !! dir) as [s | ] eqn:Hd;
      [ | exact Hp ].
    apply (promised_restage mgr0 ld _ i dir AwaitsExisting
             (Finished false s) Hp Hi);
      try reflexivity; try discriminate.
    intros s' Hs. injection Hs as <-. exact Hd.
  - exact Hp.
Qed.

Lemma promised_loading (fs : ModulesDir) (mgr0 : ModuleManager)
  (ld : Loading) :
  loading fs mgr0 ld -> promised mgr0 ld.
Proof.
  induction 1 as [ | ld dir _ IH | ld i _ IH ].
  - apply promised_idle.
  - apply promised_start, IH.
  - apply promised_resume, IH.
Qed.

(** *** What a load does comes from the import *)

Lemma from_import_grows (fs : ModulesDir) (mgr0 : ModuleManager)
  (reg new : list Module) (c : string * Stage) :
  from_import fs mgr0 reg c -> from_import fs mgr0 (reg ++ new) c.
Proof.
  unfold from_import. destruct c as [d st]. simpl.
  destruct st as [ | r | s | | [ | ] s ]; try exact id.
  - intros (instance & H1 & H2 & H3 & H4 & H5). exists instance.
    split_and!; try assumption.
    destruct H4 as [H4 | [H4 H4']]; [ left; exact H4 | right ].
    split; [ exact H4 | apply modules_has_app, H4' ].
  - destruct (import fs d) as [err | | instance]; try exact id.
    destruct (_ || _); [ exact id | ].
    intros [[H | [H H']] H2]; (split; [ | exact H2 ]);
      [ left; exact H | right ].
    split; [ exact H | apply modules_has_app, H' ].
  - destruct (import fs d) as [err | | instance]; try exact id.
    destruct (_ || _); [ exact id | ].
    intros [[H | [H H']] H2]; (split; [ | exact H2 ]);
      [ left; exact H | right ].
    split; [ exact H | apply modules_has_app, H' ].
Qed.

Lemma from_import_resume (fs : ModulesDir) (mgr0 : ModuleManager)
  (ld : Loading) (i : nat) :
  counting mgr0 ld ->
  Forall (from_import fs mgr0 (modules (manager ld))) (callbacks ld) ->
  Forall (from_import fs mgr0 (modules (manager (resume fs i ld))))
    (callbacks (resume fs i ld)).
Proof.
  intros [_ _ _ (added & Hadd & _) Hcfg _ _] Hall. unfold resume.
  destruct (callbacks ld !! i) as [[dir st] | ] eqn:Hi; [ | exact Hall ].
  pose proof (Forall_lookup_1 _ _ _ _ Hall Hi) as Hst.
  destruct st as [ | r | s | | o s ].
  - pose proof (after_import_spec (import fs dir) dir (manager ld)) as Hspec.
    destruct (after_import (import fs dir) dir (manager ld)) as [[s | r] mgr'].
    + destruct Hspec as [-> Hs]. simpl.
      apply Forall_insert; [ exact Hall | ].
      unfold from_import. simpl.
      destruct (import fs dir) as [err | | instance]; try exact Hs.
      destruct Hs as [-> Hdis]. rewrite Hcfg in Hdis. rewrite Hdis.
      reflexivity.
    + destruct Hspec as (instance & Himp & Hdis & Hnot & Hr). simpl.
      assert (exists new, modules mgr' = modules (manager ld) ++ new)
        as [new Hnew].
      { destruct r as [ | err ].
        - destruct Hr as [_ ->]. eexists. reflexivity.
        - destruct Hr as (_ & -> & _). exists []. rewrite app_nil_r.
          reflexivity. }
      apply Forall_insert.
      * rewrite Hnew. eapply Forall_impl; [ exact Hall | ].
        intros c. apply from_import_grows.
      * unfold from_import. simpl. exists instance.
        rewrite <- Hcfg. split_and!; try assumption.
        -- destruct r as [ | err ]; [ left; reflexivity | right ].
           destruct Hr as (Hhas & -> & ->). split; [ reflexivity | exact Hhas ].
        -- intros Hhas ->. destruct Hr as [Hfree _].
           rewrite Hadd, (modules_has_app _ _ _ Hhas) in Hfree.
           discriminate Hfree.
  - simpl. apply Forall_insert; [ exact Hall | ].
    unfold from_import in *. simpl in *.
    destruct Hst as (instance & -> & Hdis & Hnot & Hr & Hhas).
    rewrite Hdis, bool_decide_eq_false_2 by exact Hnot. simpl. split.
    + destruct Hr as [-> | [-> Hr]]; [ left | right ]; auto.
    + intros H Hs. apply (Hhas H). destruct r; [ reflexivity | discriminate Hs ].
  - simpl. apply Forall_insert; [ exact Hall | ]. exact Hst.
  - destruct (moduleLoadPromises (manager ld) !! dir) as [s | ];
      [ | exact Hall ].
    simpl. apply Forall_insert; [ exact Hall | ]. exact I.
  - exact Hall.
Qed.

Lemma from_import_loading (fs : ModulesDir) (mgr0 : ModuleManager)
  (ld : Loading) :
  loading fs mgr0 ld ->
  Forall (from_import fs mgr0 (modules (manager ld))) (callbacks ld).
Proof.
  induction 1 as [ | ld dir _ IH | ld i Hld IH ].
  - apply Forall_nil_2.
  - unfold start_callback. simpl. apply Forall_app. split; [ exact IH | ].
    apply Forall_singleton. unfold from_import. simpl.
    destruct (has_loadPromise dir ld); exact I.
  - apply from_import_resume; [ eapply counting_loading, Hld | exact IH ].
Qed.

(** *** The names the loads register *)

Lemma modules_has_snoc (m : Module) (reg : list Module) :
  modules_has (name m) (reg ++ [m]) = true.
Proof.
  unfold modules_has. rewrite modules_get_app.
  destruct (modules_get (name m) reg); [ reflexivity | ].
  unfold modules_get. simpl. rewrite bool_decide_eq_true_2 by reflexivity.
  reflexivity.
Qed.

Lemma named_restage (fs : ModulesDir) (mgr0 : ModuleManager)
  (ld ld' : Loading) (i : nat) (dir : string) (st st' : Stage) :
  named fs mgr0 ld ->
  callbacks ld !! i = Some (dir, st) ->
  callbacks ld' = <[i := (dir, st')]> (callbacks ld) ->
  modules (manager ld') = modules (manager ld) ->
  registered (dir, st') = registered (dir, st) ->
  named fs mgr0 ld'.
Proof.
  intros [Hreg Hdist Horig] Hi Hcs Hm Hsame.
  assert (forall j c n,
            callbacks ld' !! j = Some c -> registers fs c n ->
            exists c', callbacks ld !! j = Some c' /\ registers fs c' n)
    as Hback.
  { intros j [d x] n Hj Hc. rewrite Hcs in Hj.
    destruct (restaged_back _ _ _ _ _ _ _ _ Hi Hj)
      as [(-> & -> & -> & Hj') | [_ Hj']].
    - exists (dir, st). split; [ exact Hj' | ].
      destruct Hc as [H1 H2]. split; [ congruence | exact H2 ].
    - exists (d, x). auto. }
  split.
  - intros j c n Hj Hc. destruct (Hback j c n Hj Hc) as (c' & Hj' & Hc').
    rewrite Hm. eapply Hreg; eassumption.
  - intros j k cj ck n Hj Hk Hcj Hck.
    destruct (Hback j cj n Hj Hcj) as (cj' & Hj' & Hcj').
    destruct (Hback k ck n Hk Hck) as (ck' & Hk' & Hck').
    eapply Hdist; eassumption.
  - intros n Hn. rewrite Hm in Hn.
    destruct (Horig n Hn) as [H | (j & [d y] & Hj & Hc)];
      [ left; exact H | right ].
    rewrite Hcs.
    destruct (restaged_forth _ _ _ _ st' _ _ _ Hi Hj)
      as [(-> & -> & -> & Hj') | [_ Hj']].
    + exists i, (dir, st'). split; [ exact Hj' | ].
      destruct Hc as [H1 H2]. split; [ congruence | exact H2 ].
    + exists j, (d, y). auto.
Qed.

Lemma modules_has_snoc_inv (n : string) (m : Module) (reg : list Module) :
  modules_has n (reg ++ [m]) = true ->
  modules_has n reg = true \/ n = name m.
Proof.
  unfold modules_has. rewrite modules_get_app.
  destruct (modules_get n reg); [ left; reflexivity | ].
  unfold modules_get. simpl.
  destruct (bool_decide (name m = n)) eqn:E; [ | discriminate ].
  apply bool_decide_eq_true_1 in E. right. congruence.
Qed.

Lemma named_resume (fs : ModulesDir) (mgr0 : ModuleManager) (ld : Loading)
  (i : nat) :
  named fs mgr0 ld -> named fs mgr0 (resume fs i ld).
Proof.
  intros Hn. unfold resume.
  destruct (callbacks ld !! i) as [[dir st] | ] eqn:Hi; [ | exact Hn ].
  destruct st as [ | r | s | | o s ].
  - pose proof (after_import_spec (import fs dir) dir (manager ld)) as Hspec.
    destruct (after_import (import fs dir) dir (manager ld)) as [[s | r] mgr'].
    + destruct Hspec as [-> Hs].
      apply (named_restage fs mgr0 ld _ i dir AwaitsImport
               (AwaitsLoadPromise s) Hn Hi); try reflexivity.
      unfold registered. simpl.
      destruct (import fs dir); [ | | destruct Hs as [Hs _] ];
        rewrite Hs; reflexivity.
    + destruct Hspec as (instance & Himp & Hdis & Hnot & Hr).
      destruct r as [ | err ].
      * (* a module is registered *)
        destruct Hr as [Hfree ->]. destruct Hn as [Hreg Hdist Horig].
        set (module := setModuleManager
                         (on_stateChange
                            (on_error (setModuleManager instance)))).
        assert (name module = name instance) as Hname by reflexivity.
        assert (forall j c n,
                  <[i := (dir, AwaitsRegisterModule Returned)]>
                    (callbacks ld) !! j = Some c ->
                  registers fs c n ->
                  (j = i /\ n = name instance)
                  \/ (j <> i /\ callbacks ld !! j = Some c))
          as Hback.
        { intros j [d x] n Hj Hc.
          destruct (restaged_back _ _ _ _ _ _ _ _ Hi Hj)
            as [(-> & -> & -> & _) | [Hne Hj']]; [ left | right; auto ].
          split; [ reflexivity | ].
          destruct Hc as (_ & inst & Hinst & <-). simpl in Hinst.
          congruence. }
        split; simpl.
        -- intros j c n Hj Hc.
           destruct (Hback j c n Hj Hc) as [[_ ->] | [_ Hj']].
           ++ rewrite <- Hname. apply modules_has_snoc.
           ++ apply modules_has_app. eapply Hreg; eassumption.
        -- intros j k cj ck n Hj Hk Hcj Hck.
           destruct (Hback j cj n Hj Hcj) as [[-> ->] | [Hnej Hj']];
             destruct (Hback k ck _ Hk Hck) as [[-> Hn'] | [Hnek Hk']];
             try reflexivity.
           ++ pose proof (Hreg k ck _ Hk' Hck) as H. congruence.
           ++ subst n. pose proof (Hreg j cj _ Hj' Hcj) as H. congruence.
           ++ eapply Hdist; eassumption.
        -- intros n Hn.
           apply modules_has_snoc_inv in Hn as [Hn | ->].
           ++ destruct (Horig n Hn) as [H | (j & [d y] & Hj & Hc)];
                [ left; exact H | right ].
              destruct (restaged_forth _ _ _ _
                          (AwaitsRegisterModule Returned) _ _ _ Hi Hj)
                as [(-> & -> & -> & _) | [_ Hj']].
              ** destruct Hc as [Hc _]. discriminate Hc.
              ** exists j, (d, y). auto.
           ++ right. exists i, (dir, AwaitsRegisterModule Returned).
              split; [ eapply lookup_insert_here, Hi | ].
              split; [ reflexivity | ]. exists instance. auto.
      * destruct Hr as (_ & -> & _).
        apply (named_restage fs mgr0 ld _ i dir AwaitsImport
                 (AwaitsRegisterModule (Thrown err)) Hn Hi);
          reflexivity.
  - apply (named_restage fs mgr0 ld _ i dir (AwaitsRegisterModule r)
             (AwaitsLoadPromise (after_registerModule r)) Hn Hi);
      try reflexivity.
    destruct r; reflexivity.
  - apply (named_restage fs mgr0 ld _ i dir (AwaitsLoadPromise s)
             (Finished true s) Hn Hi); reflexivity.
  - destruct (moduleLoadPromises (manager ld) !! dir) as [s | ];
      [ | exact Hn ].
    apply (named_restage fs mgr0 ld _ i dir AwaitsExisting (Finished false s)
             Hn Hi); reflexivity.
  - exact Hn.
Qed.

Lemma named_loading (fs : ModulesDir) (mgr0 : ModuleManager) (ld : Loading) :
  loading fs mgr0 ld -> named fs mgr0 ld.
Proof.
  induction 1 as [ | ld dir _ [Hreg Hdist Horig] | ld i _ IH ].
  - split; try (intros; discriminate). intros n Hn. left. exact Hn.
  - assert (forall j c n,
              callbacks (start_callback ld dir) !! j = Some c ->
              registers fs c n -> callbacks ld !! j = Some c) as Hback.
    { intros j c n Hj Hc. unfold start_callback in Hj. simpl in Hj.
      apply lookup_snoc_cases in Hj as [Hj | [_ ->]]; [ exact Hj | ].
      destruct Hc as [Hc _]. unfold registered in Hc. simpl in Hc.
      destruct (has_loadPromise dir ld); discriminate Hc. }
    split.
    + intros j c n Hj Hc. eapply Hreg; [ eapply Hback | ]; eassumption.
    + intros j k cj ck n Hj Hk Hcj Hck.
      eapply Hdist;
        [ eapply Hback; [ exact Hj | exact Hcj ]
        | eapply Hback; [ exact Hk | exact Hck ]
        | exact Hcj | exact Hck ].
    + intros n Hn. destruct (Horig n Hn) as [H | (j & c & Hj & Hc)];
        [ left; exact H | right ].
      exists j, c. split; [ | exact Hc ].
      unfold start_callback. simpl. apply lookup_app_l_Some. exact Hj.
  - apply named_resume, IH.
Qed.

(** *** The states a call reaches *)

Lemma start_callbacks_from (dirs : list string) :
  forall ld,
    map fst (callbacks (fold_left start_callback dirs ld))
    = map fst (callbacks ld) ++ dirs
    /\ manager (fold_left start_callback dirs ld) = manager ld
    /\ counts (fold_left start_callback dirs ld) = counts ld
    /\ rejection (fold_left start_callback dirs ld) = rejection ld.
Proof.
  induction dirs as [ | dir dirs IH ]; intros ld; simpl.
  - rewrite app_nil_r. auto.
  - destruct (IH (start_callback ld dir)) as (H2 & H3 & H4 & H5).
    split_and!; try assumption.
    rewrite H2. simpl. rewrite map_app, <- app_assoc. reflexivity.
Qed.

Lemma start_callbacks_spec (dirs : list string) (mgr : ModuleManager) :
  map fst (callbacks (start_callbacks dirs mgr)) = dirs
  /\ manager (start_callbacks dirs mgr) = mgr
  /\ counts (start_callbacks dirs mgr)
     = {| loadedCount := 0; disabledCount := 0; errorCount := 0 |}
  /\ rejection (start_callbacks dirs mgr) = None.
Proof. apply start_callbacks_from. Qed.

Lemma loading_start_callbacks (fs : ModulesDir) (mgr0 : ModuleManager)
  (dirs : list string) :
  loading fs mgr0 (start_callbacks dirs mgr0).
Proof.
  unfold start_callbacks.
  assert (forall ld, loading fs mgr0 ld ->
                     loading fs mgr0 (fold_left start_callback dirs ld)) as H.
  { induction dirs as [ | dir dirs IH ]; intros ld Hld; simpl; [ exact Hld | ].
    apply IH, loading_start, Hld. }
  apply H, loading_idle.
Qed.

Lemma loading_resume_all (fs : ModulesDir) (mgr0 : ModuleManager)
  (order : list nat) :
  forall ld, loading fs mgr0 ld -> loading fs mgr0 (resume_all fs order ld).
Proof.
  unfold resume_all.
  induction order as [ | i order IH ]; intros ld Hld; simpl; [ exact Hld | ].
  apply IH, loading_resume, Hld.
Qed.

Lemma restaged_dirs (cs : list (string * Stage)) (i : nat) (dir : string)
  (st st' : Stage) :
  cs !! i = Some (dir, st) ->
  map fst (<[i := (dir, st')]> cs) = map fst cs.
Proof.
  intros Hi.
  change (map fst) with (fmap (M := list) (@fst string Stage)).
  rewrite list_fmap_insert. simpl. apply list_insert_id.
  rewrite list_lookup_fmap, Hi. reflexivity.
Qed.

Lemma resume_dirs (fs : ModulesDir) (i : nat) (ld : Loading) :
  map fst (callbacks (resume fs i ld)) = map fst (callbacks ld).
Proof.
  unfold resume.
  destruct (callbacks ld !! i) as [[dir st] | ] eqn:Hi; [ | reflexivity ].
  destruct st as [ | r | s | | o s ]; simpl.
  - destruct (after_import (import fs dir) dir (manager ld)) as [[s | r] mgr'];
      simpl; eapply restaged_dirs, Hi.
  - eapply restaged_dirs, Hi.
  - eapply restaged_dirs, Hi.
  - destruct (moduleLoadPromises (manager ld) !! dir); [ | reflexivity ].
    simpl. eapply restaged_dirs, Hi.
  - reflexivity.
Qed.

Lemma resume_all_dirs (fs : ModulesDir) (order : list nat) :
  forall ld,
    map fst (callbacks (resume_all fs order ld)) = map fst (callbacks ld).
Proof.
  unfold resume_all.
  induction order as [ | i order IH ]; intros ld; simpl; [ reflexivity | ].
  rewrite IH. apply resume_dirs.
Qed.

(** The callbacks whose turns a schedule holds. *)
Lemma await_all_reaches (fs : ModulesDir) (schedule : list Turn) :
  forall ld r ld',
    await_all fs schedule ld = Some (r, ld') ->
    promise_all ld' = Some r
    /\ exists order, ld' = resume_all fs order ld.
Proof.
  induction schedule as [ | [i | ] rest IH ]; intros ld r ld' H; simpl in H.
  - discriminate H.
  - destruct (IH _ _ _ H) as (Hp & order & ->).
    split; [ exact Hp | ]. exists (i :: order). reflexivity.
  - destruct (promise_all ld) as [r0 | ] eqn:Hp.
    + injection H as <- <-. split; [ exact Hp | ]. exists []. reflexivity.
    + apply IH, H.
Qed.

(** [loadModules] settles with an error of the configuration or of the
    directory listing before any callback is started, or in a state that
    the callbacks of the valid directories have reached. *)
Lemma loadModules_reaches (fs : ModulesDir) (schedule : list Turn)
  (mgr : ModuleManager) (r : Outcome) (ld : Loading) :
  loadModules fs schedule mgr = Some (r, ld) ->
  (exists err,
      (loadAllConfigs fs = Some err
       \/ (loadAllConfigs fs = None /\ readdir fs = Some err))
      /\ r = Thrown err /\ ld = start_callbacks [] mgr)
  \/ (loadAllConfigs fs = None /\ readdir fs = None
      /\ loading fs mgr ld
      /\ map fst (callbacks ld) = validDirectories fs
      /\ promise_all ld = Some r).
Proof.
  unfold loadModules. intros H.
  destruct (loadAllConfigs fs) as [err | ].
  - injection H as <- <-. left. exists err. auto.
  - destruct (readdir fs) as [err | ].
    + injection H as <- <-. left. exists err. auto.
    + right. destruct (await_all_reaches _ _ _ _ _ H) as (Hp & order & ->).
      split_and!; try reflexivity.
      * apply loading_resume_all, loading_start_callbacks.
      * rewrite resume_all_dirs. apply start_callbacks_spec.
      * exact Hp.
Qed.

(** *** What the outcome says of the loads *)

Lemma sum_list_with_lookup {A : Type} (f : A -> nat) (l : list A) (i : nat)
  (x : A) :
  l !! i = Some x -> f x <= sum_list_with f l.
Proof.
  revert i. induction l as [ | a l IH ]; intros [ | i ] H; simpl in *;
    try discriminate.
  - injection H as ->. lia.
  - specialize (IH i H). lia.
Qed.

Lemma all_finished_lookup (ld : Loading) (i : nat) (dir : string)
  (st : Stage) :
  all_finished ld = true -> callbacks ld !! i = Some (dir, st) ->
  exists o s, st = Finished o s.
Proof.
  unfold all_finished. intros Hall Hi.
  rewrite forallb_forall in Hall.
  specialize (Hall (dir, st)
                (proj1 (list_elem_of_In _ _) (list_elem_of_lookup_2 _ _ _ Hi))).
  simpl in Hall. destruct st; try discriminate. eauto.
Qed.

(** When [loadModules] continues without an error, every callback has
    ended on a fulfilled promise; when it continues with an error, a
    callback has ended on a promise rejected with it, and has counted
    it. *)
Lemma promise_all_Returned (fs : ModulesDir) (mgr0 : ModuleManager)
  (ld : Loading) :
  loading fs mgr0 ld -> promise_all ld = Some Returned ->
  errorCount (counts ld) = 0
  /\ forall i dir st,
       callbacks ld !! i = Some (dir, st) ->
       exists o v, st = Finished o (Fulfilled v)
                   /\ moduleLoadPromises (manager ld) !! dir
                      = Some (Fulfilled v).
Proof.
  intros Hld Hp. unfold promise_all in Hp.
  destruct (rejection ld) eqn:Hr; [ discriminate Hp | ].
  destruct (all_finished ld) eqn:Hall; [ | discriminate Hp ].
  pose proof (counting_loading _ _ _ Hld) as Hc.
  pose proof (promised_loading _ _ _ Hld) as Hpr.
  pose proof (c_none _ _ Hc Hr) as Hzero.
  split; [ exact Hzero | ].
  intros i dir st Hi.
  destruct (all_finished_lookup ld i dir st Hall Hi) as (o & s & ->).
  destruct s as [v | err].
  - exists o, v. split; [ reflexivity | ].
    apply (p_settled _ _ Hpr i dir _ _ Hi). reflexivity.
  - pose proof (sum_list_with_lookup counted_failed _ _ _ Hi) as Hle.
    rewrite <- (c_failed _ _ Hc), Hzero in Hle.
    unfold counted_failed in Hle. simpl in Hle. lia.
Qed.

Lemma promise_all_Thrown (fs : ModulesDir) (mgr0 : ModuleManager)
  (ld : Loading) (err : string) :
  loading fs mgr0 ld -> promise_all ld = Some (Thrown err) ->
  0 < errorCount (counts ld)
  /\ exists i dir o,
       callbacks ld !! i = Some (dir, Finished o (Rejected err))
       /\ moduleLoadPromises (manager ld) !! dir = Some (Rejected err).
Proof.
  intros Hld Hp. unfold promise_all in Hp.
  destruct (rejection ld) as [e | ] eqn:Hr;
    [ | destruct (all_finished ld); discriminate Hp ].
  injection Hp as ->.
  pose proof (counting_loading _ _ _ Hld) as Hc.
  pose proof (promised_loading _ _ _ Hld) as Hpr.
  destruct (c_rejected _ _ Hc err Hr) as (i & dir & o & Hi).
  split.
  - pose proof (sum_list_with_lookup counted_failed _ _ _ Hi) as Hle.
    rewrite <- (c_failed _ _ Hc) in Hle.
    unfold counted_failed in Hle. simpl in Hle. lia.
  - exists i, dir, o. split; [ exact Hi | ].
    apply (p_settled _ _ Hpr i dir _ _ Hi). reflexivity.
Qed.

(** A promise that was not there before the call has been settled by
    the load of a callback of this call, as the import of its directory
    makes it. *)
Lemma settled_from_import (fs : ModulesDir) (mgr0 : ModuleManager)
  (ld : Loading) (dir : string) (s : Settled LoadResult) :
  loading fs mgr0 ld ->
  moduleLoadPromises mgr0 !! dir = None ->
  moduleLoadPromises (manager ld) !! dir = Some s ->
  exists i st,
    callbacks ld !! i = Some (dir, st)
    /\ own st = true /\ settled_with st = Some s
    /\ from_import fs mgr0 (modules (manager ld)) (dir, AwaitsLoadPromise s).
Proof.
  intros Hld Hnone Hs.
  pose proof (promised_loading _ _ _ Hld) as Hpr.
  pose proof (from_import_loading _ _ _ Hld) as Hfrom.
  destruct (p_origin _ _ Hpr dir s Hs) as [H | (i & st & Hi & Ho & Hst)];
    [ congruence | ].
  exists i, st. split_and!; try assumption.
  pose proof (Forall_lookup_1 _ _ _ _ Hfrom Hi) as Hf.
  destruct st as [ | r | s' | | [ | ] s' ]; simpl in Ho, Hst;
    try discriminate; injection Hst as ->; exact Hf.
Qed.

(** *** The callbacks run to their end *)

Lemma resume_decreases (fs : ModulesDir) (ld : Loading) (j : nat)
  (d : string) (st : Stage) :
  callbacks ld !! j = Some (d, st) ->
  own st = true \/ moduleLoadPromises (manager ld) !! d <> None ->
  (forall o s, st <> Finished o s) ->
  sum_list_with remaining (callbacks (resume fs j ld))
  < sum_list_with remaining (callbacks ld).
Proof.
  intros Hj Hcan Hnot. unfold resume. rewrite Hj.
  destruct st as [ | r | s | | o s ].
  - destruct (after_import (import fs d) d (manager ld)) as [[s | r] mgr'];
      simpl.
    + pose proof (sum_list_with_insert remaining _ _ _
                    (d, AwaitsLoadPromise s) Hj) as H.
      unfold remaining in H at 2 4. simpl in H. lia.
    + pose proof (sum_list_with_insert remaining _ _ _
                    (d, AwaitsRegisterModule r) Hj) as H.
      unfold remaining in H at 2 4. simpl in H. lia.
  - simpl.
    pose proof (sum_list_with_insert remaining _ _ _
                  (d, AwaitsLoadPromise (after_registerModule r)) Hj) as H.
    unfold remaining in H at 2 4. simpl in H. lia.
  - simpl.
    pose proof (sum_list_with_insert remaining _ _ _
                  (d, Finished true s) Hj) as H.
    unfold remaining in H at 2 4. simpl in H. lia.
  - destruct Hcan as [Ho | Hd]; [ discriminate Ho | ].
    destruct (moduleLoadPromises (manager ld) !! d) as [s | ];
      [ | congruence ].
    simpl.
    pose proof (sum_list_with_insert remaining _ _ _
                  (d, Finished false s) Hj) as H.
    unfold remaining in H at 2 4. simpl in H. lia.
  - destruct (Hnot o s eq_refl).
Qed.

Lemma not_all_finished (ld : Loading) :
  all_finished ld = false ->
  exists j d st, callbacks ld !! j = Some (d, st)
                 /\ forall o s, st <> Finished o s.
Proof.
  unfold all_finished.
  induction (callbacks ld) as [ | [d st] cs IH ]; simpl; [ discriminate | ].
  intros H. apply andb_false_iff in H as [H | H].
  - exists 0, d, st. split; [ reflexivity | ].
    intros o s ->. discriminate H.
  - destruct (IH H) as (j & d' & st' & Hj & Hnot).
    exists (S j), d', st'. auto.
Qed.

Lemma some_turn_helps (fs : ModulesDir) (mgr0 : ModuleManager)
  (ld : Loading) :
  promised mgr0 ld -> all_finished ld = false ->
  exists j, sum_list_with remaining (callbacks (resume fs j ld))
            < sum_list_with remaining (callbacks ld).
Proof.
  intros Hpr Hall.
  destruct (not_all_finished ld Hall) as (j & d & st & Hj & Hnot).
  destruct (own st) eqn:Ho.
  - exists j. apply (resume_decreases fs ld j d st Hj); auto.
  - assert (st = AwaitsExisting) as ->.
    { destruct st as [ | r | s | | [ | ] s ]; try discriminate Ho;
        [ reflexivity | destruct (Hnot false s eq_refl) ]. }
    destruct (p_waiting _ _ Hpr j d Hj) as [Hd | (k & st & Hk & Hp)].
    + exists j. apply (resume_decreases fs ld j d _ Hj); auto.
    + exists k. apply (resume_decreases fs ld k d st Hk).
      * left. apply pending_own, Hp.
      * intros o s ->. discriminate Hp.
Qed.

Lemma callbacks_finish (fs : ModulesDir) (mgr0 : ModuleManager) (n : nat) :
  forall ld,
    loading fs mgr0 ld ->
    sum_list_with remaining (callbacks ld) <= n ->
    exists order, all_finished (resume_all fs order ld) = true.
Proof.
  induction n as [ | n IH ]; intros ld Hld Hn.
  - exists []. simpl. destruct (all_finished ld) eqn:Hall; [ reflexivity | ].
    destruct (some_turn_helps fs mgr0 ld (promised_loading _ _ _ Hld) Hall)
      as [j Hj]. lia.
  - destruct (all_finished ld) eqn:Hall; [ exists []; exact Hall | ].
    destruct (some_turn_helps fs mgr0 ld (promised_loading _ _ _ Hld) Hall)
      as [j Hj].
    destruct (IH (resume fs j ld)) as [order Horder].
    + apply loading_resume, Hld.
    + lia.
    + exists (j :: order). exact Horder.
Qed.

Lemma await_then_caller (fs : ModulesDir) (order : list nat) :
  forall ld,
    await_all fs (then_caller order) ld
    = match promise_all (resume_all fs order ld) with
      | Some r => Some (r, resume_all fs order ld)
      | None => None
      end.
Proof.
  unfold then_caller.
  induction order as [ | i order IH ]; intros ld; simpl.
  - destruct (promise_all ld); reflexivity.
  - apply IH.
Qed.

Lemma await_all_settles (fs : ModulesDir) (mgr0 : ModuleManager)
  (schedule : list Turn) :
  forall ld,
    loading fs mgr0 ld ->
    exists order, await_all fs (schedule ++ then_caller order) ld <> None.
Proof.
  induction schedule as [ | [i | ] rest IH ]; intros ld Hld; simpl.
  - destruct (callbacks_finish fs mgr0 _ ld Hld (Nat.le_refl _))
      as [order Horder].
    exists order. rewrite await_then_caller.
    unfold promise_all. rewrite Horder.
    destruct (rejection _); discriminate.
  - apply IH, loading_resume, Hld.
  - destruct (promise_all ld); [ exists []; discriminate | ].
    apply IH, Hld.
Qed.

(** *** A directory whose module is the only one of its name *)

Lemma registered_own (dir : string) (st : Stage) :
  registered (dir, st) = 1 ->
  own st = true
  /\ forall s, settled_with st = Some s -> s = Fulfilled Loaded.
Proof.
  unfold registered. simpl.
  destruct st as [ | [ | ] | [[ | ] | ] | | [ | ] [[ | ] | ] ];
    try discriminate; intros _; split; try reflexivity;
    intros s' H; try discriminate H; injection H as <-; reflexivity.
Qed.

(** An enabled module whose name is not registered before the call and
    is the name of no other directory's module is registered by the
    load of its directory, however the callbacks take their turns. *)
Lemma alone_is_loaded (fs : ModulesDir) (mgr0 : ModuleManager)
  (ld : Loading) (dir : string) (instance : Module)
  (s : Settled LoadResult) :
  loading fs mgr0 ld ->
  import fs dir = ModuleClass instance ->
  disabled instance = false ->
  name instance ∉ configDisabled mgr0 ->
  modules_has (name instance) (modules mgr0) = false ->
  (forall d inst, import fs d = ModuleClass inst ->
                  name inst = name instance -> d = dir) ->
  moduleLoadPromises mgr0 !! dir = None ->
  moduleLoadPromises (manager ld) !! dir = Some s ->
  s = Fulfilled Loaded
  /\ modules_has (name instance) (modules (manager ld)) = true.
Proof.
  intros Hld Himp Hdis Hcfg Hfree Halone Hnone Hs.
  pose proof (promised_loading _ _ _ Hld) as Hpr.
  pose proof (named_loading _ _ _ Hld) as Hnm.
  destruct (settled_from_import fs mgr0 ld dir s Hld Hnone Hs)
    as (k & st & Hk & Ho & Hst & Hf).
  unfold from_import in Hf. simpl in Hf. rewrite Himp in Hf.
  rewrite Hdis, bool_decide_eq_false_2 in Hf by exact Hcfg.
  simpl in Hf. destruct Hf as [Hf _].
  assert (modules_has (name instance) (modules (manager ld)) = true
          -> s = Fulfilled Loaded) as Hthen.
  { intros Hhas.
    destruct (n_origin _ _ _ Hnm _ Hhas) as [H | (k1 & [d1 st1] & Hk1 & Hc1)];
      [ congruence | ].
    destruct Hc1 as (Hreg1 & inst1 & Himp1 & Hname1). simpl in Himp1.
    pose proof (Halone d1 inst1 Himp1 Hname1) as ->.
    destruct (registered_own dir st1 Hreg1) as [Ho1 Hs1].
    pose proof (p_own _ _ Hpr k k1 dir _ _ Hk Hk1 Ho Ho1) as ->.
    rewrite Hk in Hk1. injection Hk1 as <-. apply Hs1, Hst. }
  destruct Hf as [-> | [-> Hhas]].
  - split; [ reflexivity | ].
    apply (n_registered _ _ _ Hnm k (dir, st)); [ exact Hk | ].
    split.
    + unfold registered. simpl.
      destruct st as [ | r | s' | | [ | ] s' ]; simpl in Ho, Hst;
        try discriminate; injection Hst as ->; reflexivity.
    + exists instance. auto.
  - discriminate (Hthen Hhas).
Qed.

Lemma callback_of (ld : Loading) (dir : string) :
  dir ∈ map fst (callbacks ld) ->
  exists i st, callbacks ld !! i = Some (dir, st).
Proof.
  intros H. apply list_elem_of_fmap in H as ([d st] & -> & Hin).
  apply list_elem_of_lookup in Hin as [i Hi]. exists i, st. exact Hi.
Qed.

(** A directory whose import throws, or exports no module class, and
    that was not loaded before, keeps [loadModules] from returning. *)
Lemma failing_directory_throws (fs : ModulesDir) (mgr : ModuleManager)
  (ld : Loading) (dir : string) :
  loading fs mgr ld ->
  dir ∈ map fst (callbacks ld) ->
  moduleLoadPromises mgr !! dir = None ->
  (import fs dir = NotAModuleSubclass
   \/ exists e, import fs dir = ImportThrows e) ->
  promise_all ld <> Some Returned.
Proof.
  intros Hld Hin Hnone Himp Hp.
  destruct (promise_all_Returned fs mgr ld Hld Hp) as [_ Hall].
  destruct (callback_of ld dir Hin) as (i & st & Hi).
  destruct (Hall i dir st Hi) as (o & v & _ & Hs).
  destruct (settled_from_import fs mgr ld dir _ Hld Hnone Hs)
    as (_ & _ & _ & _ & _ & Hf).
  unfold from_import in Hf. simpl in Hf.
  destruct Himp as [Himp | [e Himp]]; rewrite Himp in Hf; discriminate Hf.
Qed.

Lemma loadModules_settles (fs : ModulesDir) (schedule : list Turn)
  (mgr : ModuleManager) :
  exists order, loadModules fs (schedule ++ then_caller order) mgr <> None.
Proof.
  unfold loadModules.
  destruct (loadAllConfigs fs); [ exists []; discriminate | ].
  destruct (readdir fs); [ exists []; discriminate | ].
  apply (await_all_settles fs mgr), loading_start_callbacks.
Qed.

Lemma loadModules_loading (fs : ModulesDir) (schedule : list Turn)
  (mgr : ModuleManager) (r : Outcome) (ld : Loading) :
  loadModules fs schedule mgr = Some (r, ld) -> loading fs mgr ld.
Proof.
  intros H.
  destruct (loadModules_reaches fs schedule mgr r ld H)
    as [(err & _ & _ & ->) | (_ & _ & Hld & _)];
    [ apply loading_idle | exact Hld ].
Qed.

(** A settled promise stays as it is. *)
Lemma promise_kept (fs : ModulesDir) (mgr0 : ModuleManager) (ld : Loading)
  (order : list nat) (dir : string) (s : Settled LoadResult) :
  loading fs mgr0 ld ->
  moduleLoadPromises (manager ld) !! dir = Some s ->
  moduleLoadPromises (manager (resume_all fs order ld)) !! dir = Some s.
Proof.
  unfold resume_all. revert ld.
  induction order as [ | i order IH ]; intros ld Hld Hs; simpl;
    [ exact Hs | ].
  apply IH; [ apply loading_resume, Hld | ].
  pose proof (promised_loading _ _ _ Hld) as Hpr.
  assert (forall d st s' mgr',
            callbacks ld !! i = Some (d, st) -> load_pending st = true ->
            moduleLoadPromises mgr' = moduleLoadPromises (manager ld) ->
            moduleLoadPromises (manager (settle i d s' mgr' ld)) !! dir
            = Some s) as Hsettle.
  { intros d st s' mgr' Hi Hp Hm. simpl. rewrite Hm.
    rewrite lookup_insert_ne; [ exact Hs | ].
    intros ->. rewrite (p_pending _ _ Hpr i dir st Hi Hp) in Hs.
    discriminate Hs. }
  unfold resume.
  destruct (callbacks ld !! i) as [[d st] | ] eqn:Hi; [ | exact Hs ].
  destruct st as [ | r | s' | | o s' ].
  - pose proof (after_import_spec (import fs d) d (manager ld)) as Hspec.
    destruct (after_import (import fs d) d (manager ld)) as [[s' | r] mgr'].
    + destruct Hspec as [-> _].
      apply (Hsettle d AwaitsImport s' _ eq_refl); reflexivity.
    + simpl. destruct Hspec as (instance & _ & _ & _ & Hr).
      destruct r as [ | err ].
      * destruct Hr as [_ ->]. exact Hs.
      * destruct Hr as (_ & -> & _). exact Hs.
  - apply (Hsettle d (AwaitsRegisterModule r) _ _ eq_refl); reflexivity.
  - exact Hs.
  - destruct (moduleLoadPromises (manager ld) !! d); exact Hs.
  - exact Hs.
Qed.

(** C4. [loadModules] does not return when a load has failed. When it
    returns, no failure is counted and the promise of every valid
    directory is fulfilled; when it throws, the error is that of
    [config.loadAllConfigs()] or of [fs.readdir], or a failure is
    counted and the error is the rejection of the load promise of a
    valid directory. A directory not loaded before whose import throws
    or whose default export is no module class makes every call throw,
    in whatever order the loads settle; and the call does settle once
    the callbacks have taken enough turns. For the tree
    [one_bad_one_good] on a new manager the error is always
    "Invalid module in bad: Not a Module subclass". When [bad] fails
    before the import of [good] settles, [loadModules] throws with an
    empty registry and the counters at 0, 0, 1, the callback of [good]
    still waiting; [good] is loaded and registered, and counted, only
    afterwards. When [good] settles first, the registry holds [good] and
    the counters are 1, 0, 1 at the throw. *)
Theorem loadModules_throws_on_failure :
  (forall fs schedule mgr r ld,
      loadModules fs schedule mgr = Some (r, ld) ->
      match r with
      | Returned =>
          errorCount (counts ld) = 0
          /\ forall dir, dir ∈ validDirectories fs ->
               exists v, moduleLoadPromises (manager ld) !! dir
                         = Some (Fulfilled v)
      | Thrown err =>
          loadAllConfigs fs = Some err \/ readdir fs = Some err
          \/ (0 < errorCount (counts ld)
              /\ exists dir,
                   dir ∈ validDirectories fs
                   /\ moduleLoadPromises (manager ld) !! dir
                      = Some (Rejected err))
      end)
  /\ (forall fs schedule mgr dir r ld,
        dir ∈ validDirectories fs ->
        moduleLoadPromises mgr !! dir = None ->
        (import fs dir = NotAModuleSubclass
         \/ exists e, import fs dir = ImportThrows e) ->
        loadModules fs schedule mgr = Some (r, ld) ->
        exists err, r = Thrown err)
  /\ (forall fs schedule mgr,
        exists order,
          loadModules fs (schedule ++ then_caller order) mgr <> None)
  /\ (forall schedule r ld,
        loadModules one_bad_one_good schedule fresh_manager = Some (r, ld) ->
        r = Thrown "Invalid module in bad: Not a Module subclass")
  /\ (option_map fst bad_first
      = Some (Thrown "Invalid module in bad: Not a Module subclass")
      /\ modules (manager (settled_state fresh_manager bad_first)) = []
      /\ counts (settled_state fresh_manager bad_first)
         = {| loadedCount := 0; disabledCount := 0; errorCount := 1 |}
      /\ map snd (callbacks (settled_state fresh_manager bad_first))
         = [Finished true
              (Rejected "Invalid module in bad: Not a Module subclass");
            AwaitsImport]
      /\ (let later :=
            resume_all one_bad_one_good [1; 1; 1]
              (settled_state fresh_manager bad_first) in
          map name (modules (manager later)) = ["good"]
          /\ counts later
             = {| loadedCount := 1; disabledCount := 0; errorCount := 1 |}))
  /\ (option_map fst good_first
      = Some (Thrown "Invalid module in bad: Not a Module subclass")
      /\ map name (modules (manager (settled_state fresh_manager good_first)))
         = ["good"]
      /\ counts (settled_state fresh_manager good_first)
         = {| loadedCount := 1; disabledCount := 0; errorCount := 1 |}).
Proof.
  split_and!.
  - intros fs schedule mgr r ld H.
    destruct (loadModules_reaches fs schedule mgr r ld H)
      as [(err & Herr & -> & _) | (_ & _ & Hld & Hdirs & Hp)].
    + destruct Herr as [Herr | [_ Herr]]; auto.
    + destruct r as [ | err ].
      * destruct (promise_all_Returned fs mgr ld Hld Hp) as [Hzero Hall].
        split; [ exact Hzero | ]. intros dir Hin. rewrite <- Hdirs in Hin.
        destruct (callback_of ld dir Hin) as (i & st & Hi).
        destruct (Hall i dir st Hi) as (o & v & _ & Hs). exists v. exact Hs.
      * destruct (promise_all_Thrown fs mgr ld err Hld Hp)
          as (Hpos & i & dir & o & Hi & Hs).
        right. right. split; [ exact Hpos | ]. exists dir.
        split; [ | exact Hs ]. rewrite <- Hdirs.
        apply list_elem_of_fmap. exists (dir, Finished o (Rejected err)).
        split; [ reflexivity | eapply list_elem_of_lookup_2, Hi ].
  - intros fs schedule mgr dir r ld Hin Hnone Himp H.
    destruct (loadModules_reaches fs schedule mgr r ld H)
      as [(err & _ & -> & _) | (_ & _ & Hld & Hdirs & Hp)];
      [ exists err; reflexivity | ].
    destruct r as [ | err ]; [ | exists err; reflexivity ].
    rewrite <- Hdirs in Hin.
    destruct (failing_directory_throws fs mgr ld dir Hld Hin Hnone Himp Hp).
  - intros fs schedule mgr. apply loadModules_settles.
  - intros schedule r ld H.
    destruct (loadModules_reaches _ schedule fresh_manager r ld H)
      as [(err & [Herr | [_ Herr]] & _) | (_ & _ & Hld & Hdirs & Hp)];
      try discriminate Herr.
    destruct r as [ | err ].
    + exfalso.
      apply (failing_directory_throws one_bad_one_good fresh_manager ld "bad"
               Hld); try assumption.
      * rewrite Hdirs. left.
      * reflexivity.
      * left. reflexivity.
    + destruct (promise_all_Thrown _ _ ld err Hld Hp)
        as (_ & i & dir & o & Hi & Hs).
      assert (dir ∈ validDirectories one_bad_one_good) as Hin.
      { rewrite <- Hdirs. apply list_elem_of_fmap.
        exists (dir, Finished o (Rejected err)).
        split; [ reflexivity | eapply list_elem_of_lookup_2, Hi ]. }
      apply elem_of_cons in Hin as [-> | Hin].
      * destruct (settled_from_import _ _ ld "bad" _ Hld eq_refl Hs)
          as (_ & _ & _ & _ & _ & Hf).
        unfold from_import in Hf. simpl in Hf. injection Hf as ->.
        reflexivity.
      * apply list_elem_of_singleton in Hin. subst dir. exfalso.
        change (("good", true).1) with "good" in Hs.
        assert (Rejected err = Fulfilled Loaded) as Heq;
          [ | discriminate Heq ].
        refine (proj1 (alone_is_loaded one_bad_one_good fresh_manager ld
                         "good" (new_Module (demo_metadata "good" []))
                         (Rejected err) Hld eq_refl eq_refl _ eq_refl _
                         eq_refl Hs)).
        -- apply not_elem_of_empty.
        -- intros d inst Himp _. simpl in Himp.
           destruct (decide (d = "good")); [ assumption | discriminate Himp ].
  - vm_compute. reflexivity.
  - vm_compute. reflexivity.
  - vm_compute. reflexivity.
  - vm_compute. reflexivity.
  - cbv zeta. split; vm_compute; reflexivity.
  - vm_compute. reflexivity.
  - vm_compute. reflexivity.
  - vm_compute. reflexivity.
Qed.

(** ** The recovery supervisor *)

Lemma scheduled_app (n : string) (t1 t2 : list Action) :
  scheduled n (t1 ++ t2) = scheduled n t1 + scheduled n t2.
Proof.
  induction t1 as [ | a t1 IH ]; simpl; [ reflexivity | ].
  destruct a; rewrite IH; try reflexivity. lia.
Qed.

Lemma attempted_app (n : string) (t1 t2 : list Action) :
  attempted n (t1 ++ t2) = attempted n t1 + attempted n t2.
Proof.
  induction t1 as [ | a t1 IH ]; simpl; [ reflexivity | ].
  destruct a; rewrite IH; try reflexivity. lia.
Qed.

Lemma well_preceded_nil : well_preceded [].
Proof. intros i m k H. discriminate H. Qed.

Lemma well_preceded_app (t1 t2 : list Action) :
  well_preceded t1 -> well_preceded t2 -> well_preceded (t1 ++ t2).
Proof.
  intros H1 H2 i m k Hi.
  apply lookup_app_Some in Hi as [Hi | [Hlen Hi]].
  - destruct (H1 i m k Hi) as (j & err & op & -> & Hj & Hop).
    exists j, err, op. split_and!; [ reflexivity | | exact Hop ].
    apply lookup_app_l_Some, Hj.
  - destruct (H2 _ m k Hi) as (j & err & op & Hij & Hj & Hop).
    exists (length t1 + j), err, op. split_and!; [ lia | | exact Hop ].
    rewrite lookup_app_r by lia.
    replace (length t1 + j - length t1) with j by lia. exact Hj.
Qed.

Section Supervisor.

Variable n : string.

Lemma supervised_same (mgr mgr' : ModuleManager) :
  trace mgr' = trace mgr ->
  recoveryOptions mgr' = recoveryOptions mgr ->
  recoveryAttempts mgr' = recoveryAttempts mgr ->
  pending n mgr' <= pending n mgr ->
  supervised n mgr mgr' [].
Proof.
  intros Ht Ho Ha Hp. constructor.
  - rewrite Ht. symmetry. apply app_nil_r.
  - exact Ho.
  - apply well_preceded_nil.
  - intros _ m k H. apply elem_of_nil in H. exact H.
  - intros _. unfold counter. rewrite Ha. simpl. split; lia.
  - simpl. lia.
Qed.

Lemma supervised_trans (mgr1 mgr2 mgr3 : ModuleManager)
  (new1 new2 : list Action) :
  supervised n mgr1 mgr2 new1 -> supervised n mgr2 mgr3 new2 ->
  supervised n mgr1 mgr3 (new1 ++ new2).
Proof.
  intros [Ht1 Ho1 Hp1 Hd1 Hc1 Ha1] [Ht2 Ho2 Hp2 Hd2 Hc2 Ha2]. constructor.
  - rewrite Ht2, Ht1. symmetry. apply app_assoc.
  - congruence.
  - apply well_preceded_app; assumption.
  - intros Hdis m k H. apply elem_of_app in H as [H | H].
    + exact (Hd1 Hdis m k H).
    + rewrite Ho1 in Hd2. exact (Hd2 Hdis m k H).
  - intros Hrec.
    destruct Hc1 as [Hc1 Hb1].
    { intros H. apply Hrec, elem_of_app. left. exact H. }
    destruct Hc2 as [Hc2 Hb2].
    { intros H. apply Hrec, elem_of_app. right. exact H. }
    rewrite scheduled_app, Ho1 in *. split; [ lia | ].
    intros Hpos. destruct (scheduled n new2) as [ | s2 ] eqn:Hs2.
    + rewrite Hc2, Nat.add_0_r. apply Hb1. lia.
    + apply Hb2. lia.
  - rewrite scheduled_app, attempted_app. lia.
Qed.

Lemma supervised_record (a : Action) (mgr : ModuleManager) :
  (forall m k, a <> Scheduled m k) -> (forall m k, a <> Attempting m k) ->
  a <> Recovered n ->
  supervised n mgr (record a mgr) [a].
Proof.
  intros Hs Hat Hr.
  assert (scheduled n [a] = 0) as Hs0.
  { destruct a as [ | | m0 k0 | | | | ]; try reflexivity.
    destruct (Hs m0 k0 eq_refl). }
  assert (attempted n [a] = 0) as Ha0.
  { destruct a as [ | | | | m0 k0 | | ]; try reflexivity.
    destruct (Hat m0 k0 eq_refl). }
  constructor.
  - reflexivity.
  - reflexivity.
  - intros i m k Hi. destruct i as [ | i ]; [ | discriminate Hi ].
    simpl in Hi. injection Hi as ->. destruct (Hs m k eq_refl).
  - intros _ m k H. apply list_elem_of_singleton in H.
    exact (Hs m k (eq_sym H)).
  - intros _. rewrite Hs0. unfold counter. simpl. split; lia.
  - rewrite Hs0, Ha0. unfold pending. simpl. lia.
Qed.

Lemma supervised_emit_moduleError (err m op : string)
  (mgr : ModuleManager) :
  exists new, supervised n mgr (emit_moduleError err m op mgr) new
              /\ Recovered n ∉ new.
Proof.
  unfold emit_moduleError.
  destruct (enabled (recoveryOptions (record (ModuleError err m op) mgr))
            && bool_decide (m ≠ "")
            && bool_decide (op ≠ "initialization")) eqn:Hguard.
  - apply andb_prop in Hguard as [Hguard Hop].
    apply andb_prop in Hguard as [Hen _].
    apply bool_decide_eq_true in Hop. simpl in Hen.
    unfold attemptModuleRecovery. simpl.
    set (attempts := default 0 (recoveryAttempts mgr !! m)).
    destruct (decide (maxAttempts (recoveryOptions mgr) <= attempts))
      as [Hmax | Hmax].
    + exists [ModuleError err m op; MaxAttemptsReached m]. split.
      * change [ModuleError err m op; MaxAttemptsReached m]
          with ([ModuleError err m op] ++ [MaxAttemptsReached m]).
        eapply supervised_trans; apply supervised_record; discriminate.
      * intros H. repeat (apply elem_of_cons in H as [H | H]; [ discriminate H | ]).
        apply elem_of_nil in H. exact H.
    + exists [ModuleError err m op; Scheduled m (attempts + 1)]. split.
      * constructor; simpl.
        -- rewrite <- app_assoc. reflexivity.
        -- reflexivity.
        -- intros i m' k Hi.
           destruct i as [ | [ | i ] ]; try discriminate Hi.
           simpl in Hi. injection Hi as <- <-.
           exists 0, err, op. split_and!; [ reflexivity | reflexivity | exact Hop ].
        -- intros Hdis. congruence.
        -- intros _. unfold counter. simpl.
           destruct (decide (m = n)) as [-> | Hne].
           ++ rewrite lookup_insert_eq. simpl. fold attempts. split; lia.
           ++ rewrite lookup_insert_ne by exact Hne. simpl. split; lia.
        -- unfold pending. simpl. rewrite filter_app, length_app.
           destruct (decide (m = n)) as [-> | Hne].
           ++ rewrite filter_cons_True by reflexivity. simpl. lia.
           ++ rewrite filter_cons_False by exact Hne. simpl. lia.
      * intros H. repeat (apply elem_of_cons in H as [H | H]; [ discriminate H | ]).
        apply elem_of_nil in H. exact H.
  - exists [ModuleError err m op]. split.
    + apply supervised_record; discriminate.
    + intros H. apply list_elem_of_singleton in H. discriminate H.
Qed.

Lemma advances_same (mgr mgr' : ModuleManager) :
  trace mgr' = trace mgr ->
  recoveryOptions mgr' = recoveryOptions mgr ->
  recoveryAttempts mgr' = recoveryAttempts mgr ->
  timers mgr' = timers mgr ->
  advances n mgr mgr'.
Proof.
  intros Ht Ho Ha Hp. exists []. split.
  - apply supervised_same; try assumption. unfold pending. rewrite Hp. lia.
  - intros H. apply elem_of_nil in H. exact H.
Qed.

Lemma advances_trans (mgr1 mgr2 mgr3 : ModuleManager) :
  advances n mgr1 mgr2 -> advances n mgr2 mgr3 -> advances n mgr1 mgr3.
Proof.
  intros (new1 & H1 & Hr1) (new2 & H2 & Hr2). exists (new1 ++ new2). split.
  - eapply supervised_trans; eassumption.
  - intros H. apply elem_of_app in H as [H | H]; tauto.
Qed.

Lemma advances_iter (k : nat) (f : ModuleManager -> ModuleManager) :
  (forall mgr, advances n mgr (f mgr)) ->
  forall mgr, advances n mgr (Nat.iter k f mgr).
Proof.
  intros Hf mgr. induction k as [ | k IH ]; simpl.
  - apply advances_same; reflexivity.
  - eapply advances_trans; [ exact IH | apply Hf ].
Qed.

Lemma advances_deliver (m : Module) (effects : list Effect) :
  forall mgr, advances n mgr (deliver m effects mgr).
Proof.
  induction effects as [ | e effects IH ]; intros mgr; simpl.
  - apply advances_same; reflexivity.
  - destruct e as [ s1 s2 | err op | msg ]; try apply IH.
    eapply advances_trans; [ | apply IH ].
    apply advances_iter. intros mgr0.
    apply supervised_emit_moduleError.
Qed.

Lemma advances_invoke (op : string)
  (method : Module -> Outcome * Module * list Effect) (m : Module)
  (mgr mgr' : ModuleManager) (r : Outcome) :
  invoke op method m mgr = (r, mgr') -> advances n mgr mgr'.
Proof.
  unfold invoke. destruct (method m) as [[r0 m'] effects].
  intros H. injection H as _ <-.
  eapply advances_trans; [ | apply advances_deliver ].
  apply advances_trans with (record (Invoke op (name m)) mgr);
    [ | apply advances_same; reflexivity ].
  exists [Invoke op (name m)]. split.
  - apply supervised_record; discriminate.
  - intros H. apply list_elem_of_singleton in H. discriminate H.
Qed.

(** The oldest timer is taken off the queue and its recovery starts. *)
Lemma advances_attempting (m : string) (k : nat)
  (rest : list (string * nat)) (mgr : ModuleManager) :
  timers mgr = (m, k) :: rest ->
  advances n mgr (record (Attempting m (k + 1)) (with_timers rest mgr)).
Proof.
  intros Htimers. exists [Attempting m (k + 1)]. split.
  - constructor; simpl.
    + reflexivity.
    + reflexivity.
    + intros i m' k' Hi. destruct i as [ | i ]; discriminate Hi.
    + intros _ m' k' H. apply list_elem_of_singleton in H. discriminate H.
    + intros _. unfold counter. simpl. split; lia.
    + unfold pending. simpl. rewrite Htimers.
      destruct (decide (m = n)) as [-> | Hne].
      * rewrite filter_cons_True by reflexivity. simpl. lia.
      * rewrite filter_cons_False by exact Hne. lia.
  - intros H. apply list_elem_of_singleton in H. discriminate H.
Qed.

Lemma advances_pop (m : string) (k : nat) (rest : list (string * nat))
  (mgr : ModuleManager) :
  timers mgr = (m, k) :: rest -> advances n mgr (with_timers rest mgr).
Proof.
  intros Htimers. exists []. split.
  - apply supervised_same; try reflexivity.
    unfold pending. simpl. rewrite Htimers.
    destruct (decide (m = n)) as [-> | Hne].
    + rewrite filter_cons_True by reflexivity. simpl. lia.
    + rewrite filter_cons_False by exact Hne. lia.
  - intros H. apply elem_of_nil in H. exact H.
Qed.

Lemma recovery_timer_supervised (h1 h2 : Hook) (m : string) (k : nat)
  (rest : list (string * nat)) (mgr : ModuleManager) :
  timers mgr = (m, k) :: rest ->
  exists new,
    supervised n mgr (recovery_timer h1 h2 m k (with_timers rest mgr)) new
    /\ (Recovered n ∈ new ->
        recoveryAttempts (recovery_timer h1 h2 m k (with_timers rest mgr))
          !! n = None).
Proof.
  intros Htimers.
  assert (forall mgr', advances n mgr mgr' ->
            exists new, supervised n mgr mgr' new
                        /\ (Recovered n ∈ new ->
                            recoveryAttempts mgr' !! n = None)) as Hadv.
  { intros mgr' (new & Hsup & Hno). exists new. split; [ exact Hsup | tauto ]. }
  pose proof (advances_pop m k rest mgr Htimers) as Hpop.
  unfold recovery_timer.
  destruct (getModule m (with_timers rest mgr)) as [module | ];
    [ | apply Hadv, Hpop ].
  destruct (hasError module); cbn [negb]; [ | apply Hadv, Hpop ].
  destruct (reset module) as [m1 e1].
  set (mgr1 := deliver m1 e1
                 (put m1 (record (Attempting m (k + 1))
                            (with_timers rest mgr)))).
  assert (advances n mgr mgr1) as H1.
  { eapply advances_trans; [ | apply advances_deliver ].
    apply advances_trans
      with (record (Attempting m (k + 1)) (with_timers rest mgr));
      [ | apply advances_same; reflexivity ].
    apply advances_attempting, Htimers. }
  destruct (invoke "initialize" (initialize h1) m1 mgr1) as [r2 mgr2] eqn:E2.
  pose proof (advances_trans _ _ _ H1 (advances_invoke _ _ _ _ _ _ E2)) as H2.
  destruct r2 as [ | err2 ]; [ | apply Hadv, H2 ].
  destruct (getModule m mgr2) as [m2 | ]; [ | apply Hadv, H2 ].
  destruct (invoke "start" (start h2) m2 mgr2) as [r3 mgr3] eqn:E3.
  pose proof (advances_trans _ _ _ H2 (advances_invoke _ _ _ _ _ _ E3)) as H3.
  destruct r3 as [ | err3 ]; [ | apply Hadv, H3 ].
  destruct H3 as (new3 & [Ht Ho Hp Hd Hc Ha] & Hno).
  exists (new3 ++ [Recovered m]). split.
  - constructor; simpl.
    + rewrite Ht. symmetry. apply app_assoc.
    + exact Ho.
    + apply well_preceded_app; [ exact Hp | ].
      intros i m' k' Hi. destruct i as [ | i ]; discriminate Hi.
    + intros Hdis m' k' H. apply elem_of_app in H as [H | H].
      * exact (Hd Hdis m' k' H).
      * apply list_elem_of_singleton in H. discriminate H.
    + intros Hrec.
      assert (m <> n) as Hne.
      { intros ->. apply Hrec, elem_of_app. right. apply list_elem_of_here. }
      destruct (Hc Hno) as [Hc1 Hc2].
      rewrite scheduled_app. simpl. rewrite Nat.add_0_r.
      unfold counter in *. simpl.
      rewrite lookup_delete_ne by exact Hne. split; assumption.
    + rewrite scheduled_app, attempted_app. simpl.
      unfold pending in *. simpl. lia.
  - intros H. apply elem_of_app in H as [H | H]; [ tauto | ].
    apply list_elem_of_singleton in H. injection H as ->.
    simpl. apply lookup_delete_eq.
Qed.

Lemma step_supervised (ev : Event) (mgr : ModuleManager) :
  exists new,
    supervised n mgr (step ev mgr) new
    /\ (Recovered n ∈ new -> recoveryAttempts (step ev mgr) !! n = None).
Proof.
  destruct ev as [ err m op | h1 h2 ]; simpl.
  - destruct (supervised_emit_moduleError err m op mgr) as (new & Hsup & Hno).
    exists new. split; [ exact Hsup | tauto ].
  - destruct (timers mgr) as [ | [m k] rest ] eqn:Htimers.
    + exists []. split.
      * apply supervised_same; reflexivity.
      * intros H. apply elem_of_nil in H. destruct H.
    + apply recovery_timer_supervised, Htimers.
Qed.

Lemma run_events_supervised (evs : list Event) :
  forall mgr, exists new, supervised n mgr (run_events evs mgr) new.
Proof.
  induction evs as [ | ev evs IH ]; intros mgr; simpl.
  - exists []. apply supervised_same; reflexivity.
  - destruct (step_supervised ev mgr) as (new1 & H1 & _).
    destruct (IH (step ev mgr)) as (new2 & H2).
    exists (new1 ++ new2). eapply supervised_trans; eassumption.
Qed.

End Supervisor.

(** C5. Along any run of the supervisor (a [moduleError] reaching the
    manager, or the oldest recovery timer firing), the recovery attempts
    it schedules obey:
    - each one comes right after a [moduleError] for the same module
      whose operation is not "initialization";
    - none is scheduled when [recovery.enabled] is false;
    - as long as no recovery of [n] succeeds, the counter of [n] grows
      by one with each attempt scheduled for [n] (it is incremented when
      the attempt is scheduled, before it runs), and at most
      [maxAttempts] attempts are scheduled for [n];
    - every attempt that runs uses up one timer that was scheduled for
      it;
    - a step in which a recovery of [n] succeeds leaves [n] without
      counter.
    In scenario 4 the failed start of [A] uses both attempts, and the
    first timer that fires recovers [A] and deletes its counter.
    The attempts performed are not bounded that way: a success deletes
    the counter but not the timers still pending, so in the run
    [leftover_timer_run], with [maxAttempts] 3, the successful recovery
    of [A] is followed by four attempts (logged as 3, 1, 2, 3) that all
    fail, the first of them by the timer set before the success. *)
Theorem recovery_attempts_outlive_a_success (mgr : ModuleManager)
  (evs : list Event) (n : string) :
  (exists new,
      trace (run_events evs mgr) = trace mgr ++ new
      /\ well_preceded new
      /\ (enabled (recoveryOptions mgr) = false ->
          forall m k, Scheduled m k ∉ new)
      /\ (Recovered n ∉ new ->
          counter (run_events evs mgr) n = counter mgr n + scheduled n new
          /\ scheduled n new <= maxAttempts (recoveryOptions mgr))
      /\ attempted n new + pending n (run_events evs mgr)
         <= pending n mgr + scheduled n new)
  /\ (forall ev new,
        trace (step ev mgr) = trace mgr ++ new ->
        Recovered n ∈ new ->
        recoveryAttempts (step ev mgr) !! n = None)
  /\ (counter scenario4_failed "A" = 2
      /\ timers scenario4_failed = [("A", 0); ("A", 1)]
      /\ recoveryAttempts
           (run_events [TimerFires None None] scenario4_failed) !! "A"
         = None
      /\ map getState
           (modules (run_events [TimerFires None None] scenario4_failed))
         = [RUNNING])
  /\ (maxAttempts (recoveryOptions leftover_timer_run) = 3
      /\ recoveries "A" (trace leftover_timer_run)
         = [Some 1; None; Some 3; Some 1; Some 2; Some 3]
      /\ attempts_in_a_row (recoveries "A" (trace leftover_timer_run)) 0 = 4
      /\ map getState (modules leftover_timer_run) = [ERROR]
      /\ timers leftover_timer_run = []).
Proof.
  split_and!.
  - destruct (run_events_supervised n evs mgr) as (new & [Ht Ho Hp Hd Hc Ha]).
    exists new. split_and!; try assumption.
    intros Hrec. destruct (Hc Hrec) as [Hc1 Hc2]. split; [ exact Hc1 | ].
    destruct (scheduled n new) as [ | s ] eqn:Hs; [ lia | ].
    specialize (Hc2 ltac:(lia)). lia.
  - intros ev new Ht Hrec.
    destruct (step_supervised n ev mgr) as (new' & [Ht' _ _ _ _ _] & Hnone).
    rewrite Ht in Ht'. apply app_inv_head in Ht'. subst new'.
    exact (Hnone Hrec).
  - vm_compute. reflexivity.
  - vm_compute. reflexivity.
  - vm_compute. reflexivity.
  - vm_compute. reflexivity.
  - reflexivity.
  - vm_compute. reflexivity.
  - vm_compute. reflexivity.
  - vm_compute. reflexivity.
  - vm_compute. reflexivity.
Qed.

(** ** Version comparison *)

Lemma js_lt_irrefl (a : JsNumber) : js_lt a a = false.
Proof. destruct a; simpl; [ apply Z.ltb_irrefl | reflexivity ]. Qed.

Lemma js_lt_asym (a b : JsNumber) : js_lt a b = true -> js_lt b a = false.
Proof.
  destruct a, b; simpl; try reflexivity; try discriminate.
  intros H. apply Z.ltb_lt in H. apply Z.ltb_ge. lia.
Qed.

Lemma js_lt_trans (a b c : JsNumber) :
  js_lt a b = true -> js_lt b c = true -> js_lt a c = true.
Proof.
  destruct a, b, c; simpl; try reflexivity; try discriminate.
  intros H1 H2. apply Z.ltb_lt in H1, H2. apply Z.ltb_lt. lia.
Qed.

Lemma js_lt_total (a b : JsNumber) :
  js_lt a b = false -> js_lt b a = false -> a = b.
Proof.
  destruct a, b; simpl; try reflexivity; try discriminate.
  intros H1 H2. apply Z.ltb_ge in H1, H2. f_equal. lia.
Qed.

Lemma compare_from_lex (p1 p2 : list JsNumber) (n : nat) :
  forall i, compare_from p1 p2 i n = lex (key p1) (key p2) i n.
Proof.
  assert (forall (p : list JsNumber) i,
             (if decide (i < length p)
              then default (Finite 0) (p !! i) else Finite 0) = key p i)
    as Hkey.
  { intros p i. unfold key. destruct (decide (i < length p)) as [H | H].
    - reflexivity.
    - rewrite lookup_ge_None_2 by lia. reflexivity. }
  induction n as [ | n IH ]; intros i; simpl.
  - reflexivity.
  - rewrite !Hkey. unfold js_gt. rewrite IH. reflexivity.
Qed.

Lemma lex_range (f g : nat -> JsNumber) (n : nat) :
  forall i, lex f g i n = (-1)%Z \/ lex f g i n = 0%Z \/ lex f g i n = 1%Z.
Proof.
  induction n as [ | n IH ]; intros i; simpl.
  - auto.
  - destruct (js_lt (g i) (f i)); [ auto | ].
    destruct (js_lt (f i) (g i)); [ auto | ]. apply IH.
Qed.

Lemma lex_antisym (f g : nat -> JsNumber) (n : nat) :
  forall i, lex g f i n = (- lex f g i n)%Z.
Proof.
  induction n as [ | n IH ]; intros i; simpl.
  - reflexivity.
  - destruct (js_lt (f i) (g i)) eqn:Hfg.
    + rewrite (js_lt_asym _ _ Hfg). reflexivity.
    + destruct (js_lt (g i) (f i)); [ reflexivity | apply IH ].
Qed.

Lemma lex_zero_iff (f g : nat -> JsNumber) (n : nat) :
  forall i, lex f g i n = 0%Z <-> (forall j, i <= j < i + n -> f j = g j).
Proof.
  induction n as [ | n IH ]; intros i; simpl.
  - split; [ intros _ j Hj; lia | reflexivity ].
  - destruct (js_lt (g i) (f i)) eqn:Hgf.
    + split; [ discriminate | ]. intros H.
      rewrite (H i) in Hgf by lia. rewrite js_lt_irrefl in Hgf. discriminate.
    + destruct (js_lt (f i) (g i)) eqn:Hfg.
      * split; [ discriminate | ]. intros H.
        rewrite (H i) in Hfg by lia. rewrite js_lt_irrefl in Hfg. discriminate.
      * rewrite IH. split.
        -- intros H j Hj. destruct (decide (j = i)) as [-> | Hne].
           ++ apply js_lt_total; assumption.
           ++ apply H. lia.
        -- intros H j Hj. apply H. lia.
Qed.

Lemma lex_extend (f g : nat -> JsNumber) (n k : nat) :
  forall i, (forall j, i + n <= j -> f j = g j) ->
            lex f g i (n + k) = lex f g i n.
Proof.
  induction n as [ | n IH ]; intros i Heq.
  - simpl. apply lex_zero_iff. intros j Hj. apply Heq. lia.
  - simpl. destruct (js_lt (g i) (f i)); [ reflexivity | ].
    destruct (js_lt (f i) (g i)); [ reflexivity | ].
    apply IH. intros j Hj. apply Heq. lia.
Qed.

Lemma lex_trans (f g h : nat -> JsNumber) (n : nat) :
  forall i,
    (lex f g i n <= 0)%Z -> (lex g h i n <= 0)%Z ->
    (lex f h i n <= 0)%Z
    /\ ((lex f g i n < 0)%Z \/ (lex g h i n < 0)%Z -> (lex f h i n < 0)%Z).
Proof.
  induction n as [ | n IH ]; intros i; simpl.
  - lia.
  - destruct (js_lt (g i) (f i)) eqn:Hgf; [ lia | ].
    destruct (js_lt (h i) (g i)) eqn:Hhg; [ lia | ].
    destruct (js_lt (f i) (g i)) eqn:Hfg.
    + intros _ _.
      assert (js_lt (f i) (h i) = true) as Hfh.
      { destruct (js_lt (g i) (h i)) eqn:Hgh.
        - eapply js_lt_trans; eassumption.
        - rewrite <- (js_lt_total _ _ Hgh Hhg). exact Hfg. }
      rewrite (js_lt_asym _ _ Hfh), Hfh. lia.
    + pose proof (js_lt_total _ _ Hfg Hgf) as Hfgeq. rewrite Hfgeq.
      rewrite Hhg. destruct (js_lt (g i) (h i)) eqn:Hgh; [ lia | ].
      apply IH.
Qed.

Lemma lex_ext (f f' g g' : nat -> JsNumber) (n : nat) :
  (forall j, f j = f' j) -> (forall j, g j = g' j) ->
  forall i, lex f g i n = lex f' g' i n.
Proof.
  intros Hf Hg. induction n as [ | n IH ]; intros i; simpl.
  - reflexivity.
  - rewrite Hf, Hg, IH. reflexivity.
Qed.

Lemma mapM_Number (parts : list string) (xs : list Z) :
  mapM (fun part => decimal_value part 0) parts = Some xs ->
  mapM Number parts = Some (map round_to_double xs).
Proof.
  intros H. apply mapM_Some in H. apply mapM_Some.
  change (map round_to_double xs) with (round_to_double <$> xs).
  apply Forall2_fmap_r. eapply Forall2_impl; [ exact H | ].
  intros p x Hp. unfold Number. simpl in Hp. rewrite Hp. reflexivity.
Qed.

Lemma key_round (xs : list Z) (i : nat) :
  key (map round_to_double xs) i = round_to_double (nth i xs 0%Z).
Proof.
  unfold key. change (map round_to_double xs) with (round_to_double <$> xs).
  rewrite list_lookup_fmap, nth_lookup.
  destruct (xs !! i); reflexivity.
Qed.

(** [compareVersions] is the lexicographic comparison of the rounded,
    zero-padded components, on any number of indices that covers both
    versions. *)
Lemma compareVersions_lex (a b : string) (xa xb : list Z) (N : nat) :
  numerals a = Some xa -> numerals b = Some xb ->
  Nat.max (length xa) (length xb) <= N ->
  compareVersions a b
  = Some (lex (fun i => round_to_double (nth i xa 0%Z))
              (fun i => round_to_double (nth i xb 0%Z)) 0 N).
Proof.
  intros Ha Hb HN. unfold compareVersions.
  rewrite (mapM_Number _ _ Ha), (mapM_Number _ _ Hb).
  rewrite compare_from_lex, !length_map. f_equal.
  rewrite (lex_ext _ (fun i => round_to_double (nth i xa 0%Z))
                   _ (fun i => round_to_double (nth i xb 0%Z)))
    by (intros j; apply key_round).
  set (M := Nat.max (length xa) (length xb)) in *.
  replace N with (M + (N - M)) by lia.
  symmetry. apply lex_extend.
  intros j Hj. rewrite !nth_overflow by lia. reflexivity.
Qed.

Lemma round_small (x : Z) : (x < 2 ^ 53)%Z -> round_to_double x = Finite x.
Proof.
  intros H. unfold round_to_double.
  destruct (x <? 2 ^ 53)%Z eqn:E; [ reflexivity | ].
  apply Z.ltb_ge in E. lia.
Qed.

Lemma nth_small (xs : list Z) (i : nat) :
  (forall x, x ∈ xs -> (x < 2 ^ 53)%Z) -> (nth i xs 0%Z < 2 ^ 53)%Z.
Proof.
  intros H. destruct (nth_in_or_default i xs 0%Z) as [Hin | ->].
  - apply H, list_elem_of_In, Hin.
  - reflexivity.
Qed.

(** C6, as amended. For version strings made of dot-separated decimal
    numerals: [compareVersions(a, b) = -compareVersions(b, a)], with
    values among -1, 0, 1; the result is 0 exactly when the zero-padded
    components are equal as JavaScript numbers, that is after each
    numeral is rounded to the nearest double, which for components
    below 2^53 is equality of the numerals' values; the induced order
    is transitive; and the four literal comparisons of scenario 6 give
    0, 1, 0 and -1. *)
Theorem compareVersions_order (a b c : string) (xa xb xc : list Z) :
  numerals a = Some xa -> numerals b = Some xb -> numerals c = Some xc ->
  (exists r, compareVersions a b = Some r
             /\ compareVersions b a = Some (- r)%Z
             /\ (r = (-1)%Z \/ r = 0%Z \/ r = 1%Z))
  /\ (compareVersions a b = Some 0%Z <->
      forall i, round_to_double (nth i xa 0%Z)
                = round_to_double (nth i xb 0%Z))
  /\ ((forall x, x ∈ xa ++ xb -> (x < 2 ^ 53)%Z) ->
      (compareVersions a b = Some 0%Z <->
       forall i, nth i xa 0%Z = nth i xb 0%Z))
  /\ (version_le a b -> version_le b c -> version_le a c)
  /\ (version_lt a b -> version_lt b c -> version_lt a c)
  /\ (compareVersions "1.2" "1.2.0" = Some 0%Z
      /\ compareVersions "1.10.0" "1.9.9" = Some 1%Z
      /\ compareVersions "0.0.3" "0.0.3" = Some 0%Z
      /\ compareVersions "2.0" "10.0" = Some (-1)%Z).
Proof.
  intros Ha Hb Hc.
  set (N := Nat.max (length xa) (Nat.max (length xb) (length xc))).
  set (fa := fun i => round_to_double (nth i xa 0%Z)).
  set (fb := fun i => round_to_double (nth i xb 0%Z)).
  set (fc := fun i => round_to_double (nth i xc 0%Z)).
  assert (compareVersions a b = Some (lex fa fb 0 N)) as Hab
    by (apply compareVersions_lex; [ assumption | assumption | lia ]).
  assert (compareVersions b a = Some (lex fb fa 0 N)) as Hba
    by (apply compareVersions_lex; [ assumption | assumption | lia ]).
  assert (compareVersions b c = Some (lex fb fc 0 N)) as Hbc
    by (apply compareVersions_lex; [ assumption | assumption | lia ]).
  assert (compareVersions a c = Some (lex fa fc 0 N)) as Hac
    by (apply compareVersions_lex; [ assumption | assumption | lia ]).
  assert (compareVersions a b = Some 0%Z <-> forall i, fa i = fb i) as Hzero.
  { rewrite Hab. split.
    - intros H i. injection H as H.
      destruct (decide (i < N)) as [Hi | Hi].
      + apply (proj1 (lex_zero_iff fa fb N 0) H). lia.
      + unfold fa, fb. rewrite !nth_overflow by lia. reflexivity.
    - intros H. f_equal. apply lex_zero_iff. intros j _. apply H. }
  split_and!.
  - exists (lex fa fb 0 N). split_and!.
    + exact Hab.
    + rewrite Hba. f_equal. apply lex_antisym.
    + apply lex_range.
  - exact Hzero.
  - intros Hsmall. rewrite Hzero. unfold fa, fb.
    split; intros H i; specialize (H i).
    + rewrite !round_small in H.
      * injection H as H. exact H.
      * apply nth_small. intros x Hx. apply Hsmall, elem_of_app. auto.
      * apply nth_small. intros x Hx. apply Hsmall, elem_of_app. auto.
    + rewrite H. reflexivity.
  - unfold version_le. rewrite Hab, Hbc, Hac. intros H1 H2.
    destruct (lex_trans fa fb fc N 0) as [Hle _].
    + destruct H1 as [H1 | H1]; injection H1 as ->; lia.
    + destruct H2 as [H2 | H2]; injection H2 as ->; lia.
    + destruct (lex_range fa fc N 0) as [H | [H | H]]; rewrite H in *;
        [ auto | auto | lia ].
  - unfold version_lt. rewrite Hab, Hbc, Hac. intros H1 H2.
    injection H1 as H1. injection H2 as H2.
    destruct (lex_trans fa fb fc N 0) as [_ Hlt]; [ lia | lia | ].
    specialize (Hlt ltac:(lia)).
    destruct (lex_range fa fc N 0) as [H | [H | H]]; rewrite H in *;
      [ reflexivity | lia | lia ].
  - reflexivity.
  - reflexivity.
  - reflexivity.
  - reflexivity.
Qed.

Lemma compareVersions_order_witness :
  numerals "1.2" = Some [1; 2]%Z
  /\ numerals "1.2.0" = Some [1; 2; 0]%Z
  /\ numerals "1.10.0" = Some [1; 10; 0]%Z
  /\ exists r, compareVersions "1.2" "1.2.0" = Some r
               /\ compareVersions "1.2.0" "1.2" = Some (- r)%Z.
Proof.
  split_and!; try reflexivity.
  destruct (proj1 (compareVersions_order "1.2" "1.2.0" "1.10.0"
                     [1; 2]%Z [1; 2; 0]%Z [1; 10; 0]%Z
                     eq_refl eq_refl eq_refl))
    as (r & H1 & H2 & _).
  exists r. split; assumption.
Defined.

(** C6, counterexample. Two numerals that differ but round to the same
    double compare as equal: 2^53 + 1 against 2^53. *)
Lemma compareVersions_rounding_counterexample :
  numerals "9007199254740993" = Some [9007199254740993%Z]
  /\ numerals "9007199254740992" = Some [9007199254740992%Z]
  /\ compareVersions "9007199254740993" "9007199254740992" = Some 0%Z
  /\ nth 0 [9007199254740993%Z] 0%Z <> nth 0 [9007199254740992%Z] 0%Z.
Proof. split_and!; [ reflexivity | reflexivity | reflexivity | discriminate ]. Qed.

(** ** The memory inspector *)

Section Inspector.

Context {F : Type} {ops : NumberOps F}.

Lemma snapshots_get_set (n k : string) (v : list ModuleMemorySnapshot)
  (t : list (string * list ModuleMemorySnapshot)) :
  snapshots_get n (snapshots_set k v t)
  = if decide (k = n) then Some v else snapshots_get n t.
Proof.
  induction t as [ | [k' v'] t IH ]; simpl.
  - reflexivity.
  - destruct (decide (k' = k)) as [-> | Hk]; simpl.
    + destruct (decide (k = n)); reflexivity.
    + destruct (decide (k' = n)) as [-> | Hn].
      * destruct (decide (k = n)); [ congruence | reflexivity ].
      * exact IH.
Qed.

Lemma snapshot_module_options (now : Z) (mu : MemoryUsage)
  (all : list Module) (insp : ModuleMemoryInspector F) (module : Module) :
  options (snapshot_module now mu all insp module) = options insp.
Proof. unfold snapshot_module. destruct (disabled module); reflexivity. Qed.

(** The ring of a module after its snapshot is pushed: the most recent
    [maxSnapshots] of the old ring followed by the new snapshot. *)
Lemma snapshot_module_ring (now : Z) (mu : MemoryUsage)
  (all : list Module) (insp : ModuleMemoryInspector F) (module : Module) :
  rings_bounded insp -> disabled module = false ->
  let ring := default [] (snapshots_get (name module) (snapshots insp)) in
  let pushed := ring ++ [snapshot_for now mu all module] in
  snapshots_get (name module)
    (snapshots (snapshot_module now mu all insp module))
  = Some (drop (length pushed - maxSnapshots (options insp)) pushed).
Proof.
  intros Hb Hdis. cbv zeta. unfold snapshot_module. rewrite Hdis. simpl.
  rewrite snapshots_get_set. destruct (decide _); [ | congruence ].
  f_equal. fold (snapshot_for now mu all module).
  assert (length (default [] (snapshots_get (name module) (snapshots insp)))
          <= maxSnapshots (options insp)) as Hlen.
  { destruct (snapshots_get (name module) (snapshots insp)) as [r | ] eqn:E.
    - apply (Hb _ _ E).
    - simpl. lia. }
  set (ring := default [] (snapshots_get (name module) (snapshots insp))) in *.
  rewrite length_app. simpl.
  destruct (decide _) as [Hgt | Hle].
  - replace (length ring + 1 - maxSnapshots (options insp)) with 1 by lia.
    destruct ring; reflexivity.
  - replace (length ring + 1 - maxSnapshots (options insp)) with 0 by lia.
    reflexivity.
Qed.

Lemma snapshot_module_bounded (now : Z) (mu : MemoryUsage)
  (all : list Module) (insp : ModuleMemoryInspector F) (module : Module) :
  rings_bounded insp ->
  rings_bounded (snapshot_module now mu all insp module).
Proof.
  intros Hb. destruct (disabled module) eqn:Hdis.
  - unfold snapshot_module. rewrite Hdis. exact Hb.
  - intros n ring Hget. rewrite snapshot_module_options.
    destruct (decide (name module = n)) as [<- | Hne].
    + rewrite (snapshot_module_ring now mu all insp module Hb Hdis) in Hget.
      injection Hget as <-. rewrite length_drop. lia.
    + unfold snapshot_module in Hget. rewrite Hdis in Hget. simpl in Hget.
      rewrite snapshots_get_set in Hget.
      destruct (decide (name module = n)); [ congruence | ].
      apply (Hb _ _ Hget).
Qed.

Lemma snapshot_each_bounded (now : nat -> Z) (mu : MemoryUsage)
  (all ms : list Module) :
  forall (i : nat) (insp : ModuleMemoryInspector F),
    rings_bounded insp ->
    rings_bounded (snapshot_each now mu all i ms insp)
    /\ options (snapshot_each now mu all i ms insp) = options insp.
Proof.
  induction ms as [ | m ms IH ]; intros i insp Hb; simpl.
  - split; [ exact Hb | reflexivity ].
  - destruct (IH (S i) (snapshot_module (now i) mu all insp m)) as [H1 H2].
    + apply snapshot_module_bounded, Hb.
    + split; [ exact H1 | ]. rewrite H2. apply snapshot_module_options.
Qed.

Lemma takeSnapshot_bounded (now : nat -> Z) (mu : MemoryUsage)
  (modules : list Module) (insp : ModuleMemoryInspector F) :
  rings_bounded insp ->
  rings_bounded (takeSnapshot now mu modules insp)
  /\ options (takeSnapshot now mu modules insp) = options insp.
Proof. apply snapshot_each_bounded. Qed.

Lemma take_all_bounded
  (calls : list ((nat -> Z) * MemoryUsage * list Module)) :
  forall insp : ModuleMemoryInspector F,
    rings_bounded insp ->
    rings_bounded (take_all calls insp)
    /\ options (take_all calls insp) = options insp.
Proof.
  induction calls as [ | c calls IH ]; intros insp Hb; simpl.
  - split; [ exact Hb | reflexivity ].
  - destruct (takeSnapshot_bounded c.1.1 c.1.2 c.2 insp Hb) as [H1 H2].
    destruct (IH _ H1) as [H3 H4].
    split; [ exact H3 | congruence ].
Qed.

(** C8. Starting from rings that respect the bound (as the empty table
    of a new inspector does, whose default bound is 12), after every
    call of [takeSnapshot] every ring holds at most [maxSnapshots]
    entries; and the ring of a module that is snapshotted becomes the
    most recent [maxSnapshots] of its old entries followed by the new
    snapshot, the oldest being dropped when the push exceeds the
    bound. *)
Theorem snapshot_ring_bounded (insp : ModuleMemoryInspector F)
  (calls : list ((nat -> Z) * MemoryUsage * list Module)) :
  rings_bounded insp ->
  (forall n ring,
      snapshots_get n (snapshots (take_all calls insp)) = Some ring ->
      length ring <= maxSnapshots (options insp))
  /\ (forall now mu all module,
        disabled module = false ->
        let ring := default [] (snapshots_get (name module) (snapshots insp)) in
        let pushed := ring ++ [snapshot_for now mu all module] in
        snapshots_get (name module)
          (snapshots (snapshot_module now mu all insp module))
        = Some (drop (length pushed - maxSnapshots (options insp)) pushed))
  /\ (forall interval (thr : option (Thresholds F)),
        rings_bounded (new_ModuleMemoryInspector interval None thr)
        /\ maxSnapshots (options (new_ModuleMemoryInspector interval None thr))
           = 12).
Proof.
  intros Hb. split_and!.
  - intros n ring Hget. destruct (take_all_bounded calls insp Hb) as [H1 H2].
    rewrite <- H2. apply (H1 _ _ Hget).
  - intros now mu all module Hdis.
    apply snapshot_module_ring; assumption.
  - intros interval thr. split; [ | reflexivity ].
    intros n ring H. discriminate H.
Qed.

Lemma analyze_entry_name (thr : Thresholds F) (k : string)
  (v : list ModuleMemorySnapshot) (r : MemoryLeakResult F) :
  analyze_entry thr (k, v) = Some r -> moduleName r = k.
Proof.
  unfold analyze_entry. destruct (decide _); [ discriminate | ].
  destruct (head v); [ | discriminate ].
  destruct (last v); [ | discriminate ].
  destruct (flt _ _); [ discriminate | ].
  destruct (fge _ _); [ intros H; injection H as <-; reflexivity | ].
  destruct (fge _ _); [ intros H; injection H as <-; reflexivity | ].
  destruct (fge _ _); [ intros H; injection H as <-; reflexivity | ].
  discriminate.
Qed.

Lemma omap_cons_match {A B : Type} (f : A -> option B) (x : A)
  (l : list A) :
  omap f (x :: l)
  = match f x with Some y => y :: omap f l | None => omap f l end.
Proof. reflexivity. Qed.

Lemma findings_absent (thr : Thresholds F) (n : string)
  (t : list (string * list ModuleMemorySnapshot)) :
  n ∉ map fst t ->
  filter (fun r => moduleName r = n) (omap (analyze_entry thr) t) = [].
Proof.
  induction t as [ | [k v] t IH ]; intros Hn.
  - reflexivity.
  - apply not_elem_of_cons in Hn as [Hne Hn]. simpl in Hne.
    rewrite omap_cons_match.
    destruct (analyze_entry thr (k, v)) as [r | ] eqn:E.
    + rewrite filter_cons_False.
      * apply IH, Hn.
      * rewrite (analyze_entry_name _ _ _ _ E). congruence.
    + apply IH, Hn.
Qed.

Lemma findings_of_entry (thr : Thresholds F) (n : string)
  (ring : list ModuleMemorySnapshot)
  (t : list (string * list ModuleMemorySnapshot)) :
  NoDup (map fst t) -> (n, ring) ∈ t ->
  filter (fun r => moduleName r = n) (omap (analyze_entry thr) t)
  = option_list (analyze_entry thr (n, ring)).
Proof.
  induction t as [ | [k v] t IH ]; intros Hnd Hin.
  - apply elem_of_nil in Hin. destruct Hin.
  - simpl in Hnd. apply NoDup_cons in Hnd as [Hk Hnd].
    rewrite omap_cons_match.
    apply elem_of_cons in Hin as [Heq | Hin].
    + injection Heq as <- <-.
      destruct (analyze_entry thr (n, ring)) as [r | ] eqn:E.
      * rewrite filter_cons_True by (eapply analyze_entry_name, E).
        simpl. f_equal. apply findings_absent, Hk.
      * apply findings_absent, Hk.
    + assert (k <> n) as Hne.
      { intros ->. apply Hk. apply list_elem_of_fmap.
        exists (n, ring). split; [ reflexivity | exact Hin ]. }
      destruct (analyze_entry thr (k, v)) as [r | ] eqn:E.
      * rewrite filter_cons_False.
        -- apply IH; assumption.
        -- rewrite (analyze_entry_name _ _ _ _ E). exact Hne.
      * apply IH; assumption.
Qed.

(** C7. For a module whose ring holds at least two snapshots, the
    oldest and the newest at least 0.01 hours apart, where the hours
    are (newest.timestamp - oldest.timestamp) / 1000 / 60 / 60 (the
    test [timeElapsedHours < 0.01] fails), the growth rate is
    (newest.heapUsed - oldest.heapUsed) / 1024 / 1024 divided by those
    hours, and [analyzeMemoryUsage] reports for the module one finding
    with that rate, of severity high when the rate is at least the high
    threshold, else medium when at least the medium one, else low when
    at least the low one, and no finding below the low threshold; this
    holds however the divisions and comparisons of numbers are carried
    out. In exact arithmetic the hours are the milliseconds between the
    two snapshots over 3600000 and the rate is the heap difference over
    2^20 over the hours; with thresholds 5, 20, 50, a difference of
    25 MB over one hour gives a medium finding with growth rate 25, and
    over half an hour a high finding with growth rate 50. *)
Theorem analyzeMemoryUsage_severity (insp : ModuleMemoryInspector F)
  (n : string) (ring : list ModuleMemorySnapshot)
  (oldest newest : ModuleMemorySnapshot) :
  NoDup (map fst (snapshots insp)) ->
  (n, ring) ∈ snapshots insp ->
  2 <= length ring ->
  head ring = Some oldest -> last ring = Some newest ->
  flt (fdiv (fdiv (fdiv (of_int (timestamp newest - timestamp oldest))
                        (of_int 1000)) (of_int 60)) (of_int 60))
      one_hundredth = false ->
  let thr := thresholds (options insp) in
  let hours :=
    fdiv (fdiv (fdiv (of_int (timestamp newest - timestamp oldest))
                     (of_int 1000)) (of_int 60)) (of_int 60) in
  let rate :=
    fdiv (fdiv (fdiv (of_int (heapUsed newest - heapUsed oldest))
                     (of_int 1024)) (of_int 1024))
         hours in
  (timeElapsedHours oldest newest = hours
   /\ growthRateMBPerHour oldest newest = rate
   /\ filter (fun r => moduleName r = n) (analyzeMemoryUsage insp)
      = (if fge rate (high thr) then [finding n ring rate high_severity]
         else if fge rate (medium thr)
              then [finding n ring rate medium_severity]
         else if fge rate (low thr)
              then [finding n ring rate low_severity]
         else []))
  /\ (forall o1 o2 : ModuleMemorySnapshot,
        (timeElapsedHours (F := Q) o1 o2
         == inject_Z (timestamp o2 - timestamp o1) / 3600000)%Q
        /\ (growthRateMBPerHour (F := Q) o1 o2
            == (inject_Z (heapUsed o2 - heapUsed o1) / inject_Z (2 ^ 20))
               / (inject_Z (timestamp o2 - timestamp o1) / 3600000))%Q)
  /\ (one_hundredth (F := Q) == 1 # 100)%Q
  /\ (exists r, analyzeMemoryUsage scenario5 = [r]
                /\ moduleName r = "X"
                /\ severity r = medium_severity
                /\ (growthRate r == 25)%Q)
  /\ (exists r, analyzeMemoryUsage half_hour = [r]
                /\ moduleName r = "X"
                /\ severity r = high_severity
                /\ (growthRate r == 50)%Q).
Proof.
  intros Hnd Hin Hlen Hhead Hlast Helapsed. cbv zeta.
  assert (forall o1 o2 : ModuleMemorySnapshot,
            (timeElapsedHours (F := Q) o1 o2
             == inject_Z (timestamp o2 - timestamp o1) / 3600000)%Q)
    as Hhours.
  { intros o1 o2. unfold timeElapsedHours. simpl. unfold Qdiv.
    rewrite <- !Qmult_assoc. apply Qmult_comp; reflexivity. }
  split_and!.
  - reflexivity.
  - reflexivity.
  - unfold analyzeMemoryUsage.
    rewrite (findings_of_entry _ n ring _ Hnd Hin).
    unfold analyze_entry. destruct (decide (length ring < 2)); [ lia | ].
    rewrite Hhead, Hlast.
    change (timeElapsedHours oldest newest)
      with (fdiv (fdiv (fdiv (of_int (timestamp newest - timestamp oldest))
                             (of_int 1000)) (of_int 60)) (of_int 60)).
    rewrite Helapsed.
    change (growthRateMBPerHour oldest newest)
      with (fdiv (fdiv (fdiv (of_int (heapUsed newest - heapUsed oldest))
                             (of_int 1024)) (of_int 1024))
                 (fdiv (fdiv (fdiv
                                (of_int (timestamp newest - timestamp oldest))
                                (of_int 1000)) (of_int 60)) (of_int 60))).
    unfold finding.
    destruct (fge _ (high _)); [ reflexivity | ].
    destruct (fge _ (medium _)); [ reflexivity | ].
    destruct (fge _ (low _)); reflexivity.
  - intros o1 o2. split; [ apply Hhours | ].
    unfold growthRateMBPerHour. cbv zeta.
    apply Qdiv_comp; [ | apply Hhours ].
    simpl. unfold Qdiv. rewrite <- Qmult_assoc.
    apply Qmult_comp; reflexivity.
  - reflexivity.
  - eexists. split_and!; [ vm_compute; reflexivity | reflexivity | reflexivity | ].
    vm_compute. reflexivity.
  - eexists. split_and!; [ vm_compute; reflexivity | reflexivity | reflexivity | ].
    vm_compute. reflexivity.
Qed.

End Inspector.

Lemma snapshot_ring_bounded_witness :
  rings_bounded small_inspector
  /\ (forall n ring,
        snapshots_get n (snapshots (take_all three_ticks small_inspector))
        = Some ring ->
        length ring <= 2)
  /\ map (fun e : string * list ModuleMemorySnapshot =>
            (e.1, map heapUsed e.2))
       (snapshots (take_all three_ticks small_inspector))
     = [("A", [200; 300]%Z); ("B", [200; 300]%Z); ("C", [200; 300]%Z)].
Proof.
  assert (rings_bounded small_inspector) as Hb.
  { intros n ring H. discriminate H. }
  split_and!.
  - exact Hb.
  - exact (proj1 (snapshot_ring_bounded small_inspector three_ticks Hb)).
  - vm_compute. reflexivity.
Defined.

Lemma analyzeMemoryUsage_severity_witness :
  (2 <= length half_hour_ring
   /\ head half_hour_ring = Some scenario5_oldest
   /\ last half_hour_ring = Some half_hour_newest
   /\ flt (fdiv (fdiv (fdiv (of_int (1700001800000 - 1700000000000))
                            (of_int 1000)) (of_int 60)) (of_int 60))
          (one_hundredth (F := Q)) = false)
  /\ filter (fun r => moduleName r = "X") (analyzeMemoryUsage half_hour)
     = [finding "X" half_hour_ring
          (fdiv (fdiv (fdiv (of_int (25 * 1048576)) (of_int 1024))
                      (of_int 1024))
                (fdiv (fdiv (fdiv (of_int 1800000) (of_int 1000))
                            (of_int 60)) (of_int 60)))
          high_severity].
Proof.
  assert (NoDup (map fst (snapshots half_hour))) as Hnd
    by (simpl; apply NoDup_singleton).
  assert (("X", half_hour_ring) ∈ snapshots half_hour) as Hin
    by apply list_elem_of_here.
  assert (2 <= length half_hour_ring) as Hlen by (simpl; lia).
  assert (head half_hour_ring = Some scenario5_oldest) as Hhead
    by reflexivity.
  assert (last half_hour_ring = Some half_hour_newest) as Hlast
    by reflexivity.
  assert (flt (fdiv (fdiv (fdiv (of_int (timestamp half_hour_newest
                                         - timestamp scenario5_oldest))
                              (of_int 1000)) (of_int 60)) (of_int 60))
              (one_hundredth (F := Q)) = false)
    as Helapsed by reflexivity.
  split; [ split_and!; assumption | ].
  exact (proj2 (proj2 (proj1 (analyzeMemoryUsage_severity half_hour "X"
                                half_hour_ring scenario5_oldest
                                half_hour_newest
                                Hnd Hin Hlen Hhead Hlast Helapsed)))).
Defined.

(** * Further properties *)

(** Distinctness of the names of a literal list. *)
Ltac distinct_names :=
  repeat (apply NoDup_cons_2;
          [ let H := fresh in
            intros H;
            repeat (apply elem_of_cons in H as [H | H]; [ discriminate H | ]);
            inversion H
          | ]);
  apply NoDup_nil_2.

(** ** Permissions of a module *)

Lemma granted_grantPermission (m : Module) (a r a' r' : string) :
  granted_locally (grantPermission a r m) a' r'
  <-> granted_locally m a' r' \/ (a' = a /\ r' = r).
Proof.
  unfold granted_locally, grantPermission. simpl.
  destruct (decide (r' = r)) as [-> | Hr].
  - rewrite lookup_insert_eq. split.
    + intros (actions & Heq & Hin). injection Heq as <-.
      apply elem_of_union in Hin as [Hin | Hin].
      * right. split; [ set_solver | reflexivity ].
      * left. destruct (_permissions m !! r) as [s | ]; simpl in Hin.
        -- exists s. auto.
        -- set_solver.
    + intros [(actions & Heq & Hin) | [-> _]].
      * eexists. split; [ reflexivity | ]. rewrite Heq. simpl. set_solver.
      * eexists. split; [ reflexivity | ]. set_solver.
  - rewrite lookup_insert_ne by congruence. split.
    + intros H. left. exact H.
    + intros [H | [_ H]]; [ exact H | contradiction ].
Qed.

Lemma granted_revokePermission (m : Module) (a r a' r' : string) :
  granted_locally (revokePermission a r m) a' r'
  <-> granted_locally m a' r' /\ ~ (a' = a /\ r' = r).
Proof.
  unfold granted_locally, revokePermission.
  destruct (_permissions m !! r) as [s | ] eqn:Hs.
  - destruct (decide (size (s ∖ {[a]}) = 0)) as [Hz | Hnz]; simpl.
    + apply size_empty_inv in Hz.
      destruct (decide (r' = r)) as [-> | Hr].
      * rewrite lookup_delete_eq. split.
        -- intros (actions & Heq & _). discriminate Heq.
        -- intros [(actions & Heq & Hin) Hne]. rewrite Hs in Heq.
           injection Heq as <-. exfalso.
           destruct (decide (a' = a)) as [-> | Ha]; [ tauto | ].
           assert (a' ∈ s ∖ {[a]}) as Hin'.
           { apply elem_of_difference. split; [ exact Hin | ].
             intros Hx%elem_of_singleton. contradiction. }
           destruct (Hz a') as [Hz1 _]. apply Hz1 in Hin'.
           apply elem_of_empty in Hin'. exact Hin'.
      * rewrite lookup_delete_ne by congruence. split.
        -- intros H. split; [ exact H | tauto ].
        -- intros [H _]. exact H.
    + destruct (decide (r' = r)) as [-> | Hr].
      * rewrite lookup_insert_eq. split.
        -- intros (actions & Heq & Hin). injection Heq as <-.
           apply elem_of_difference in Hin as [Hin Hna].
           split; [ exists s; split; [ exact Hs | exact Hin ] | ].
           intros [-> _]. apply Hna, elem_of_singleton. reflexivity.
        -- intros [(actions & Heq & Hin) Hne]. rewrite Hs in Heq.
           injection Heq as <-. eexists. split; [ reflexivity | ].
           apply elem_of_difference. split; [ exact Hin | ].
           intros Heq%elem_of_singleton. tauto.
      * rewrite lookup_insert_ne by congruence. split.
        -- intros H. split; [ exact H | tauto ].
        -- intros [H _]. exact H.
  - split.
    + intros H. split; [ exact H | ].
      intros [-> ->]. destruct H as (actions & Heq & _). congruence.
    + intros [H _]. exact H.
Qed.

(** X1. The permission map behaves as a set of (action, resource)
    pairs: [grantPermission] adds its pair and [revokePermission]
    removes its pair, and neither changes what is granted for any other
    pair; revoking a pair that is not granted changes nothing that is
    granted. *)
Theorem permissions_are_a_set_of_pairs (m : Module) (a r a' r' : string) :
  (granted_locally (grantPermission a r m) a' r'
   <-> granted_locally m a' r' \/ (a' = a /\ r' = r))
  /\ (granted_locally (revokePermission a r m) a' r'
      <-> granted_locally m a' r' /\ ~ (a' = a /\ r' = r)).
Proof.
  split; [ apply granted_grantPermission | apply granted_revokePermission ].
Qed.

Lemma checkPermission_not_granted (mgr : ModuleManager) (m m' : Module)
  (a r : string) :
  ~ granted_locally m a r -> ~ granted_locally m' a r ->
  metadata m = metadata m' -> moduleManager m = moduleManager m' ->
  checkPermission mgr m a r = checkPermission mgr m' a r.
Proof.
  intros Hm Hm' Hmeta Hmgr. unfold checkPermission.
  assert (forall x, ~ granted_locally x a r ->
            match _permissions x !! r with
            | Some resourcePermissions => bool_decide (a ∈ resourcePermissions)
            | None => false
            end = false) as Hno.
  { intros x Hx. destruct (_permissions x !! r) as [s | ] eqn:Hs;
      [ | reflexivity ].
    apply bool_decide_eq_false_2. intros Hin. apply Hx. exists s. auto. }
  rewrite (Hno m Hm), (Hno m' Hm'), Hmgr.
  unfold name. rewrite Hmeta. reflexivity.
Qed.

(** X2. After [revokePermission(action, resource)] the answer of
    [checkPermission(action, resource)] no longer depends on the local
    map: it is the answer a module with an empty permission map gets,
    that of the "auth" module when there is one and [true] otherwise.
    This holds whether or not the pair had been granted before. *)
Theorem revokePermission_then_check (mgr : ModuleManager) (m : Module)
  (action resource : string) :
  checkPermission mgr (revokePermission action resource m) action resource
  = checkPermission mgr (with_permissions ∅ m) action resource.
Proof.
  apply checkPermission_not_granted.
  - intros H. apply granted_revokePermission in H as [_ H]. tauto.
  - intros (actions & H & _). simpl in H. rewrite lookup_empty in H.
    discriminate H.
  - unfold revokePermission.
    destruct (_permissions m !! resource); [ | reflexivity ].
    destruct (decide _); reflexivity.
  - unfold revokePermission.
    destruct (_permissions m !! resource); [ | reflexivity ].
    destruct (decide _); reflexivity.
Qed.

Lemma permission_call_nonempty (c : PermissionCall) (m : Module) :
  (forall r s, _permissions m !! r = Some s -> s <> ∅) ->
  forall r s, _permissions (permission_call c m) !! r = Some s -> s <> ∅.
Proof.
  intros Hm r s. destruct c as [a r0 | a r0]; simpl.
  - unfold grantPermission. simpl.
    destruct (decide (r = r0)) as [-> | Hr].
    + rewrite lookup_insert_eq. intros H. injection H as <-. set_solver.
    + rewrite lookup_insert_ne by congruence. apply Hm.
  - unfold revokePermission.
    destruct (_permissions m !! r0) as [s0 | ] eqn:Hs0; [ | apply Hm ].
    destruct (decide (size (s0 ∖ {[a]}) = 0)) as [Hz | Hnz]; simpl.
    + destruct (decide (r = r0)) as [-> | Hr].
      * rewrite lookup_delete_eq. discriminate.
      * rewrite lookup_delete_ne by congruence. apply Hm.
    + destruct (decide (r = r0)) as [-> | Hr].
      * rewrite lookup_insert_eq. intros H. injection H as <-.
        intros Hempty. apply Hnz. rewrite Hempty. apply size_empty.
      * rewrite lookup_insert_ne by congruence. apply Hm.
Qed.

(** X3. The permission map of a module never holds a resource with an
    empty set of actions: a new module has an empty map, granting adds a
    non-empty set, and revoking the last action of a resource removes
    the resource itself. So a resource is a key of the map exactly when
    some action is granted on it. *)
Theorem permissions_hold_no_empty_set (md : ModuleMetadata)
  (calls : list PermissionCall) (resource : string) :
  let m := foldl (fun m c => permission_call c m) (new_Module md) calls in
  (forall s, _permissions m !! resource = Some s -> s <> ∅)
  /\ (_permissions m !! resource <> None
      <-> exists action, granted_locally m action resource).
Proof.
  cbv zeta.
  assert (forall r s,
            _permissions (foldl (fun m c => permission_call c m)
                            (new_Module md) calls) !! r = Some s ->
            s <> ∅) as Hinv.
  { induction calls as [ | c calls IH ] using rev_ind.
    - intros r s H. simpl in H. rewrite lookup_empty in H. discriminate H.
    - rewrite foldl_app. simpl. apply permission_call_nonempty, IH. }
  split; [ apply Hinv | ].
  split.
  - intros Hsome.
    destruct (_permissions _ !! resource) as [s | ] eqn:Hs; [ | congruence ].
    pose proof (Hinv _ _ Hs) as Hne.
    apply set_choose_L in Hne as [action Hin].
    exists action, s. auto.
  - intros (action & s & Hs & _). congruence.
Qed.

(** ** A module between lifecycle calls *)

Lemma run_cons_module (c : Call) (cs : list Call) (m : Module) :
  fst (run (c :: cs) m) = fst (run cs (fst (call c m))).
Proof.
  simpl. destruct (call c m) as [m1 e1]. simpl.
  destruct (run cs m1) as [m2 e2]. reflexivity.
Qed.

Lemma call_at_rest (c : Call) (m : Module) :
  at_rest m -> at_rest (fst (call c m)).
Proof.
  unfold at_rest. destruct m as [md s e p mm el sl cp]. simpl.
  intros [[Hs ->] | [-> He]].
  - destruct Hs as [-> | [-> | [-> | ->]]];
      destruct c as [h | h | h | h1 h2 | ];
      try destruct h; try destruct h1; try destruct h2; cbn;
      first [ left; split; [ tauto | reflexivity ]
            | right; split; [ reflexivity | discriminate ] ].
  - destruct c as [h | h | h | h1 h2 | ];
      try destruct h; try destruct h1; try destruct h2; cbn;
      first [ right; split; [ reflexivity | exact He ]
            | left; split; [ tauto | reflexivity ] ].
Qed.

(** X4. After any sequence of lifecycle calls on a newly constructed
    module, the module is in one of the states UNINITIALIZED,
    INITIALIZED, RUNNING, STOPPED or ERROR, never in a transient one;
    it holds an error exactly when its state is ERROR, so [hasError]
    and [state === ERROR] agree, and [isReady] excludes [hasError]. *)
Theorem module_at_rest (md : ModuleMetadata) (cs : list Call) :
  let m := fst (run cs (new_Module md)) in
  at_rest m
  /\ (getError m <> None <-> getState m = ERROR)
  /\ hasError m = bool_decide (getState m = ERROR)
  /\ (isReady m = true -> hasError m = false).
Proof.
  cbv zeta.
  assert (at_rest (fst (run cs (new_Module md)))) as Hrest.
  { assert (at_rest (new_Module md)) as H0
      by (left; split; [ left; reflexivity | reflexivity ]).
    revert H0. generalize (new_Module md).
    induction cs as [ | c cs IH ]; intros m Hm; [ exact Hm | ].
    rewrite run_cons_module. apply IH, call_at_rest, Hm. }
  split; [ exact Hrest | ].
  unfold getError, getState, hasError, isReady.
  destruct Hrest as [[Hs He] | [Hs He]].
  - rewrite He.
    assert (_state (run cs (new_Module md)).1 <> ERROR) as Hne
      by (destruct Hs as [-> | [-> | [-> | ->]]]; discriminate).
    split_and!.
    + split; [ congruence | contradiction ].
    + rewrite (bool_decide_eq_false_2 _ Hne).
      rewrite bool_decide_eq_false_2 by (intros H; apply H; reflexivity).
      reflexivity.
    + intros _. rewrite (bool_decide_eq_false_2 _ Hne).
      rewrite bool_decide_eq_false_2 by (intros H; apply H; reflexivity).
      reflexivity.
  - rewrite Hs. split_and!.
    + split; [ reflexivity | intros _; exact He ].
    + reflexivity.
    + intros H. apply bool_decide_eq_true_1 in H. discriminate H.
Qed.

Lemma replay_app (es1 es2 : list Effect) :
  forall s, replay s (es1 ++ es2)
            = match replay s es1 with
              | Some s' => replay s' es2
              | None => None
              end.
Proof.
  induction es1 as [ | e es1 IH ]; intros s; simpl; [ reflexivity | ].
  destruct e as [new prev | err op | msg ]; try apply IH.
  destruct (decide _); [ apply IH | reflexivity ].
Qed.

Lemma call_replay (c : Call) (m : Module) :
  replay (_state m) (snd (call c m)) = Some (_state (fst (call c m))).
Proof.
  destruct m as [md s e p mm el sl cp].
  destruct c as [h | h | h | h1 h2 | ];
    try destruct h; try destruct h1; try destruct h2;
    destruct s; reflexivity.
Qed.

(** X5. The [stateChange] events a module emits tell its state: along
    any sequence of lifecycle calls, each event starts from the state
    the previous event led to (the first from the state before the
    calls), no event has equal old and new state, and the last event
    leads to the state the module is left in. *)
Theorem stateChange_events_trace_the_state (cs : list Call) (m : Module) :
  replay (_state m) (snd (run cs m)) = Some (_state (fst (run cs m))).
Proof.
  revert m. induction cs as [ | c cs IH ]; intros m; [ reflexivity | ].
  rewrite run_app_effects, run_cons_module, replay_app, call_replay.
  apply IH.
Qed.

Lemma call_in_error (c : Call) (m : Module) :
  _state m = ERROR -> c <> CallReset ->
  fst (call c m) = m /\ forallb is_warning (snd (call c m)) = true.
Proof.
  destruct m as [md s e p mm el sl cp]. simpl. intros -> Hc.
  destruct c as [h | h | h | h1 h2 | ]; [ | | | | congruence ];
    split; reflexivity.
Qed.

(** X6. A failed module stays failed until it is reset: in state ERROR
    every sequence of [initialize], [start], [stop] and [restart] leaves
    the module as it is, with its error, and only logs warnings (no hook
    runs, no event is emitted). [reset] followed by [initialize] and
    [start] whose hooks resolve brings it to RUNNING with the error
    cleared. *)
Theorem error_state_is_left_only_by_reset (cs : list Call) (m : Module) :
  _state m = ERROR ->
  (CallReset ∉ cs ->
   fst (run cs m) = m /\ forallb is_warning (snd (run cs m)) = true)
  /\ (let m' := fst (run [CallReset; CallInitialize None; CallStart None] m)
      in _state m' = RUNNING /\ _error m' = None /\ hasError m' = false).
Proof.
  intros Herr. split.
  - revert m Herr. induction cs as [ | c cs IH ]; intros m Herr Hno.
    + split; reflexivity.
    + apply not_elem_of_cons in Hno as [Hc Hno].
      destruct (call_in_error c m Herr ltac:(congruence)) as [Hm Hw].
      rewrite run_cons_module, run_app_effects, Hm, forallb_app, Hw.
      destruct (IH m Herr Hno) as [IH1 IH2]. rewrite IH1, IH2.
      split; reflexivity.
  - destruct m as [md s e p mm el sl cp]. simpl in Herr. subst s.
    cbv zeta. split_and!; reflexivity.
Qed.

Lemma error_state_is_left_only_by_reset_witness :
  let m := fst (run [CallInitialize (Some "boom")]
                  (new_Module (demo_metadata "A" []))) in
  _state m = ERROR
  /\ fst (run [CallStart None; CallRestart None None; CallInitialize None] m)
     = m.
Proof.
  split; [ reflexivity | ].
  refine (proj1 (proj1 (error_state_is_left_only_by_reset
                   [CallStart None; CallRestart None None;
                    CallInitialize None] _ _) _)).
  - reflexivity.
  - intros H. repeat (apply elem_of_cons in H as [H | H]; [ discriminate H | ]).
    inversion H.
Defined.

(** ** The registry *)

Lemma modules_get_set_eq (m : Module) (reg : list Module) :
  modules_get (name m) (modules_set m reg) = Some m.
Proof.
  unfold modules_get. induction reg as [ | x reg IH ]; simpl.
  - rewrite bool_decide_eq_true_2 by reflexivity. reflexivity.
  - destruct (bool_decide (name x = name m)) eqn:E; simpl.
    + rewrite bool_decide_eq_true_2 by reflexivity. reflexivity.
    + rewrite E. exact IH.
Qed.

Lemma modules_get_set_ne (n : string) (m : Module) (reg : list Module) :
  n <> name m -> modules_get n (modules_set m reg) = modules_get n reg.
Proof.
  intros Hn. unfold modules_get. induction reg as [ | x reg IH ]; simpl.
  - rewrite bool_decide_eq_false_2 by congruence. reflexivity.
  - destruct (bool_decide (name x = name m)) eqn:E; simpl.
    + apply bool_decide_eq_true in E.
      rewrite !bool_decide_eq_false_2 by congruence. reflexivity.
    + destruct (bool_decide (name x = n)); [ reflexivity | exact IH ].
Qed.

Lemma modules_get_unique (reg : list Module) (m : Module) :
  NoDup (map name reg) -> m ∈ reg -> modules_get (name m) reg = Some m.
Proof.
  unfold modules_get. induction reg as [ | x reg IH ]; simpl.
  - intros _ H. inversion H.
  - intros Hnd Hin. apply NoDup_cons in Hnd as [Hx Hnd].
    destruct (bool_decide (name x = name m)) eqn:E.
    + apply bool_decide_eq_true in E.
      apply elem_of_cons in Hin as [-> | Hin]; [ reflexivity | ].
      exfalso. apply Hx. rewrite E.
      apply list_elem_of_fmap. exists m. auto.
    + apply bool_decide_eq_false in E.
      apply elem_of_cons in Hin as [-> | Hin]; [ congruence | ].
      apply IH; assumption.
Qed.

Lemma registerModule_fresh (module : Module) (mgr : ModuleManager) :
  disabled module = false ->
  getModule (name module) mgr = None ->
  let module' := setModuleManager (on_stateChange (on_error module)) in
  let mgr' := with_modules (modules mgr ++ [module']) mgr in
  registerModule module mgr = (Returned, mgr', module')
  /\ getModule (name module) mgr' = Some module'.
Proof.
  intros Hdis Hnone. cbv zeta.
  set (module' := setModuleManager (on_stateChange (on_error module))).
  assert (name module' = name module) as Hname by reflexivity.
  assert (modules_has (name module) (modules mgr) = false) as Hhas.
  { unfold modules_has. unfold getModule in Hnone. rewrite Hnone.
    reflexivity. }
  split.
  - unfold registerModule. rewrite Hhas, Hdis.
    fold module'. rewrite modules_set_fresh; [ reflexivity | ].
    rewrite Hname. exact Hhas.
  - unfold getModule. simpl. rewrite modules_get_app.
    unfold getModule in Hnone. rewrite Hnone.
    unfold modules_get. simpl. rewrite Hname.
    rewrite bool_decide_eq_true_2 by reflexivity. reflexivity.
Qed.

(** X7. Registering an enabled module under a name that is free puts
    it last in the registry, with the back-reference to the manager and
    the two listeners of the manager installed; [getModule] then finds
    it under its name, finds what it found before under any other name,
    and a second registration of the module throws and changes
    nothing. *)
Theorem registerModule_enabled (module : Module) (mgr : ModuleManager) :
  disabled module = false ->
  getModule (name module) mgr = None ->
  let module' := setModuleManager (on_stateChange (on_error module)) in
  let mgr' := with_modules (modules mgr ++ [module']) mgr in
  registerModule module mgr = (Returned, mgr', module')
  /\ getModule (name module) mgr' = Some module'
  /\ (forall n, n <> name module -> getModule n mgr' = getModule n mgr)
  /\ registerModule module' mgr'
     = (Thrown ("Module " +:+ name module +:+ " is already registered"),
        mgr', module').
Proof.
  intros Hdis Hnone. cbv zeta.
  destruct (registerModule_fresh module mgr Hdis Hnone) as [Hreg Hget].
  set (module' := setModuleManager (on_stateChange (on_error module))) in *.
  assert (name module' = name module) as Hname by reflexivity.
  split_and!.
  - exact Hreg.
  - exact Hget.
  - intros n Hn. unfold getModule. simpl. rewrite modules_get_app.
    destruct (modules_get n (modules mgr)); [ reflexivity | ].
    unfold modules_get. simpl. rewrite Hname.
    rewrite bool_decide_eq_false_2 by congruence. reflexivity.
  - unfold registerModule. rewrite Hname.
    unfold modules_has. unfold getModule in Hget. rewrite Hget.
    reflexivity.
Qed.

Lemma registerModule_enabled_witness :
  getModule "Z" (registerModule (new_Module (demo_metadata "Z" []))
                   scenario2).1.2
  = Some (setModuleManager
            (on_stateChange (on_error (new_Module (demo_metadata "Z" []))))).
Proof.
  destruct (registerModule_enabled (new_Module (demo_metadata "Z" []))
              scenario2 eq_refl eq_refl) as (H1 & H2 & _).
  rewrite H1. exact H2.
Defined.

Lemma registry_ok_registerModule (module : Module) (mgr : ModuleManager) :
  registry_ok mgr -> registry_ok (registerModule module mgr).1.2.
Proof.
  intros [Hnd Hen Hw]. unfold registerModule.
  destruct (modules_has (name module) (modules mgr)) eqn:Hhas;
    [ split; assumption | ].
  destruct (disabled module) eqn:Hdis; [ split; assumption | ].
  set (module' := setModuleManager (on_stateChange (on_error module))).
  assert (name module' = name module) as Hname by reflexivity.
  simpl. rewrite modules_set_fresh by (rewrite Hname; exact Hhas).
  split; simpl.
  - rewrite map_app. simpl. apply NoDup_app. split_and!.
    + exact Hnd.
    + intros n Hn Hn'. apply list_elem_of_singleton in Hn'. subst n.
      rewrite Hname in Hn.
      apply list_elem_of_fmap in Hn as (m & Hm & Hin).
      pose proof (modules_has_elem _ _ Hin) as Ht. congruence.
    + apply NoDup_singleton.
  - intros m Hm. apply elem_of_app in Hm as [Hm | Hm]; [ apply Hen, Hm | ].
    apply list_elem_of_singleton in Hm. subst m. exact Hdis.
  - intros m Hm. apply elem_of_app in Hm as [Hm | Hm]; [ apply Hw, Hm | ].
    apply list_elem_of_singleton in Hm. subst m. simpl.
    split_and!; [ reflexivity | lia | lia ].
Qed.

Lemma registry_ok_with_loadPromises (p : gmap string (Settled LoadResult))
  (mgr : ModuleManager) :
  registry_ok mgr -> registry_ok (with_loadPromises p mgr).
Proof. intros [H1 H2 H3]. split; assumption. Qed.

Lemma registry_ok_loadModuleFromPath (imported : ImportResult)
  (dir : string) (mgr : ModuleManager) :
  registry_ok mgr -> registry_ok (loadModuleFromPath imported dir mgr).2.
Proof.
  intros Hok. unfold loadModuleFromPath.
  destruct imported as [err | | instance]; try exact Hok.
  destruct (_ || _); [ exact Hok | ].
  pose proof (registry_ok_registerModule (setModuleManager instance) mgr Hok)
    as H.
  destruct (registerModule (setModuleManager instance) mgr) as [[r mgr'] m'].
  destruct r; exact H.
Qed.

Lemma registry_ok_resume (fs : ModulesDir) (i : nat) (ld : Loading) :
  registry_ok (manager ld) -> registry_ok (manager (resume fs i ld)).
Proof.
  intros Hok. unfold resume.
  destruct (callbacks ld !! i) as [[dir st] | ]; [ | exact Hok ].
  destruct st as [ | r | s | | o s ].
  - pose proof (registry_ok_loadModuleFromPath (import fs dir) dir
                  (manager ld) Hok) as H.
    rewrite loadModuleFromPath_stages in H. simpl in H.
    destruct (after_import (import fs dir) dir (manager ld)) as [[s | r] mgr'];
      simpl in *.
    + apply registry_ok_with_loadPromises, H.
    + exact H.
  - simpl. apply registry_ok_with_loadPromises, Hok.
  - exact Hok.
  - destruct (moduleLoadPromises (manager ld) !! dir); exact Hok.
  - exact Hok.
Qed.

Lemma registry_ok_loading (fs : ModulesDir) (mgr0 : ModuleManager)
  (ld : Loading) :
  loading fs mgr0 ld -> registry_ok mgr0 -> registry_ok (manager ld).
Proof.
  induction 1 as [ | ld dir _ IH | ld i _ IH ]; intros Hok.
  - exact Hok.
  - apply IH, Hok.
  - apply registry_ok_resume, IH, Hok.
Qed.

(** X8. The registry keeps its shape under registration: when no two
    registered modules share a name, none is disabled and each carries
    the manager's back-reference and listeners, the same holds after
    [registerModule] of any module, and at every moment of a
    [loadModules] on any module tree: in whatever order the loads
    settle, when the call returns or throws, and when the callbacks
    still waiting then have gone on. The registry of a new manager is
    of this shape. *)
Theorem registration_keeps_the_registry_ok (mgr : ModuleManager) :
  registry_ok mgr ->
  (forall module, registry_ok (registerModule module mgr).1.2)
  /\ (forall fs order,
        registry_ok
          (manager (resume_all fs order
                      (start_callbacks (validDirectories fs) mgr))))
  /\ (forall fs schedule r ld,
        loadModules fs schedule mgr = Some (r, ld) ->
        registry_ok (manager ld)
        /\ forall order, registry_ok (manager (resume_all fs order ld)))
  /\ (forall a e k d, registry_ok (new_ModuleManager a e k d)).
Proof.
  intros Hok. split_and!.
  - intros module. apply registry_ok_registerModule, Hok.
  - intros fs order.
    apply (registry_ok_loading fs mgr); [ | exact Hok ].
    apply loading_resume_all, loading_start_callbacks.
  - intros fs schedule r ld H.
    pose proof (loadModules_loading fs schedule mgr r ld H) as Hld.
    split.
    + apply (registry_ok_loading fs mgr); assumption.
    + intros order. apply (registry_ok_loading fs mgr); [ | exact Hok ].
      apply loading_resume_all, Hld.
  - intros a e k d. split; simpl.
    + apply NoDup_nil_2.
    + intros m Hm. inversion Hm.
    + intros m Hm. inversion Hm.
Qed.

Lemma registration_keeps_the_registry_ok_witness :
  registry_ok (manager (settled_state fresh_manager good_first)).
Proof.
  assert (registry_ok fresh_manager) as Hok.
  { split; simpl.
    - apply NoDup_nil_2.
    - intros m Hm. inversion Hm.
    - intros m Hm. inversion Hm. }
  refine (proj1 (proj1 (proj2 (proj2
            (registration_keeps_the_registry_ok fresh_manager Hok)))
            one_bad_one_good (then_caller [1; 1; 1; 0; 0])
            (Thrown "Invalid module in bad: Not a Module subclass")
            (settled_state fresh_manager good_first) _)).
  vm_compute. reflexivity.
Defined.

(** X9. When no two registered modules share a name, the order
    [sortModulesByDependencies] returns is a rearrangement of the
    registry: every registered module is in it, once, and nothing
    else. *)
Theorem sort_is_a_permutation (mgr : ModuleManager)
  (sortedModules : list Module) :
  NoDup (map name (modules mgr)) ->
  sortModulesByDependencies mgr = Ok sortedModules ->
  sortedModules ≡ₚ modules mgr.
Proof.
  intros Hnd Hsort.
  pose proof (sort_spec (modules mgr) mgr eq_refl) as Hspec.
  rewrite Hsort in Hspec. destruct Hspec as (_ & Hnames & Hreg & Hall).
  apply NoDup_Permutation.
  - eapply NoDup_fmap_1. exact Hnames.
  - eapply NoDup_fmap_1. exact Hnd.
  - intros m. split.
    + intros Hin. apply Hreg in Hin.
      apply (modules_get_Some (modules mgr)) in Hin. apply Hin.
    + intros Hin. pose proof (Hall m Hin) as Hn.
      apply list_elem_of_fmap in Hn as (m' & Hname & Hin').
      pose proof (Hreg m' Hin') as Hget.
      rewrite <- Hname in Hget.
      rewrite (modules_get_unique _ _ Hnd Hin) in Hget.
      injection Hget as ->. exact Hin'.
Qed.

Lemma sort_is_a_permutation_witness :
  exists l, sortModulesByDependencies scenario1 = Ok l
            /\ l ≡ₚ modules scenario1.
Proof.
  exists [module_C; module_B; module_A]. split; [ reflexivity | ].
  apply (sort_is_a_permutation scenario1); [ | reflexivity ].
  simpl. distinct_names.
Defined.

(** ** What the passes do to the registry *)

Lemma same_but_state_refl (m : Module) : same_but_state m m.
Proof. split; reflexivity. Qed.

Lemma same_but_state_trans (m1 m2 m3 : Module) :
  same_but_state m1 m2 -> same_but_state m2 m3 -> same_but_state m1 m3.
Proof. intros [] []. split; congruence. Qed.

Lemma same_but_state_name (m m' : Module) :
  same_but_state m m' -> name m' = name m.
Proof. intros [H _ _ _ _ _]. apply meta_name, H. Qed.

Lemma same_but_state_list_refl (l : list Module) :
  Forall2 same_but_state l l.
Proof. induction l; constructor; [ apply same_but_state_refl | assumption ]. Qed.

Lemma same_but_state_list_trans (l1 l2 l3 : list Module) :
  Forall2 same_but_state l1 l2 -> Forall2 same_but_state l2 l3 ->
  Forall2 same_but_state l1 l3.
Proof.
  intros H1. revert l3. induction H1 as [ | x y l1 l2 Hxy _ IH ];
    intros l3 H2; inversion H2 as [ | y' z l2' l3' Hyz Hrest ]; subst.
  - constructor.
  - constructor; [ eapply same_but_state_trans; eassumption | apply IH, Hrest ].
Qed.

Lemma same_but_state_list_names (l l' : list Module) :
  Forall2 same_but_state l l' -> map name l' = map name l.
Proof.
  induction 1 as [ | m m' l l' Hm _ IH ]; simpl; [ reflexivity | ].
  rewrite (same_but_state_name _ _ Hm), IH. reflexivity.
Qed.

Lemma same_but_state_list_metadata (l l' : list Module) :
  Forall2 same_but_state l l' -> same_metadata l l'.
Proof.
  induction 1 as [ | m m' l l' Hm _ IH ]; constructor; [ | exact IH ].
  symmetry. apply Hm.
Qed.

Lemma same_but_state_initialize (h : Hook) (m : Module) :
  same_but_state m (initialize h m).1.2.
Proof.
  unfold initialize. destruct (decide _); [ apply same_but_state_refl | ].
  destruct h; split; reflexivity.
Qed.

Lemma same_but_state_start (h : Hook) (m : Module) :
  same_but_state m (start h m).1.2.
Proof.
  unfold start. destruct (decide _); [ apply same_but_state_refl | ].
  destruct h; split; reflexivity.
Qed.

Lemma same_but_state_stop (h : Hook) (m : Module) :
  same_but_state m (stop h m).1.2.
Proof.
  unfold stop. destruct (decide _); [ apply same_but_state_refl | ].
  destruct h; split; reflexivity.
Qed.

Lemma modules_set_self (m : Module) (reg : list Module) :
  modules_get (name m) reg = Some m -> modules_set m reg = reg.
Proof.
  unfold modules_get. induction reg as [ | x reg IH ]; simpl;
    [ discriminate | ].
  destruct (bool_decide (name x = name m)).
  - intros H. injection H as ->. reflexivity.
  - intros H. rewrite (IH H). reflexivity.
Qed.

Lemma modules_set_same_but_state (reg : list Module) (m m' : Module) :
  modules_get (name m) reg = Some m -> same_but_state m m' ->
  Forall2 same_but_state reg (modules_set m' reg).
Proof.
  intros Hget Hm. induction reg as [ | x reg IH ]; [ discriminate Hget | ].
  unfold modules_get in Hget. simpl in Hget. simpl.
  rewrite (same_but_state_name _ _ Hm).
  destruct (bool_decide (name x = name m)).
  - injection Hget as ->. constructor; [ exact Hm | ].
    apply same_but_state_list_refl.
  - constructor; [ apply same_but_state_refl | ]. apply IH, Hget.
Qed.

Lemma same_flags_refl (mgr : ModuleManager) : same_flags mgr mgr.
Proof. split; reflexivity. Qed.

Lemma same_flags_trans (mgr1 mgr2 mgr3 : ModuleManager) :
  same_flags mgr1 mgr2 -> same_flags mgr2 mgr3 -> same_flags mgr1 mgr3.
Proof. intros [] []. split; congruence. Qed.

Lemma same_flags_emit_moduleError (err n op : string) (mgr : ModuleManager) :
  same_flags mgr (emit_moduleError err n op mgr).
Proof.
  unfold emit_moduleError, attemptModuleRecovery.
  destruct (_ && _); [ | split; reflexivity ].
  destruct (decide _); split; reflexivity.
Qed.

Lemma same_flags_deliver (m : Module) (effects : list Effect) :
  forall mgr, same_flags mgr (deliver m effects mgr).
Proof.
  induction effects as [ | e effects IH ]; intros mgr; simpl.
  - apply same_flags_refl.
  - destruct e as [ s1 s2 | err op | msg ]; try apply IH.
    eapply same_flags_trans; [ | apply IH ].
    induction (errorListeners m) as [ | k IHk ]; simpl.
    + apply same_flags_refl.
    + eapply same_flags_trans; [ exact IHk | ].
      apply same_flags_emit_moduleError.
Qed.

Lemma invoke_modules (op : string)
  (method : Module -> Outcome * Module * list Effect) (m : Module)
  (mgr : ModuleManager) :
  (invoke op method m mgr).1 = (method m).1.1
  /\ modules (invoke op method m mgr).2
     = modules_set (method m).1.2 (modules mgr)
  /\ same_flags mgr (invoke op method m mgr).2.
Proof.
  unfold invoke. destruct (method m) as [[r m'] effects]. simpl.
  rewrite modules_deliver. split_and!; [ reflexivity | reflexivity | ].
  eapply same_flags_trans; [ | apply same_flags_deliver ].
  split; reflexivity.
Qed.

Lemma initialize_step_modules (h : string -> Hook) (m : Module)
  (mgr : ModuleManager) :
  getModule (name m) mgr = Some m ->
  modules (initialize_step h m mgr)
  = modules_set (initialize (h (name m)) m).1.2 (modules mgr)
  /\ same_flags mgr (initialize_step h m mgr).
Proof.
  intros Hget. unfold initialize_step.
  destruct (decide (getState m = INITIALIZED)) as [Hs | Hs].
  - unfold initialize. unfold getState in Hs. rewrite Hs. simpl.
    rewrite modules_set_self by exact Hget.
    split; [ reflexivity | apply same_flags_refl ].
  - destruct (invoke_modules "initialize" (initialize (h (name m))) m mgr)
      as (_ & Hm & Hi).
    destruct (invoke "initialize" _ m mgr) as [r mgr1]. simpl in Hm, Hi.
    destruct r; rewrite ?modules_emit_moduleError; split; try assumption.
    eapply same_flags_trans; [ exact Hi | apply same_flags_emit_moduleError ].
Qed.

Lemma start_step_modules (h : string -> Hook) (m : Module)
  (mgr : ModuleManager) :
  getModule (name m) mgr = Some m ->
  modules (start_step h m mgr)
  = modules_set (start (h (name m)) m).1.2 (modules mgr)
  /\ same_flags mgr (start_step h m mgr).
Proof.
  intros Hget. unfold start_step.
  destruct (decide (getState m = RUNNING)) as [Hs | Hs].
  { unfold start. unfold getState in Hs. rewrite Hs. simpl.
    rewrite modules_set_self by exact Hget.
    split; [ reflexivity | apply same_flags_refl ]. }
  destruct (decide (getState m ≠ INITIALIZED ∧ getState m ≠ STOPPED))
    as [Hs' | Hs'].
  { unfold start. unfold getState in Hs'.
    rewrite decide_True by exact Hs'. simpl.
    rewrite modules_set_self by exact Hget.
    split; [ reflexivity | apply same_flags_refl ]. }
  destruct (invoke_modules "start" (start (h (name m))) m mgr)
    as (_ & Hm & Hi).
  destruct (invoke "start" _ m mgr) as [r mgr1]. simpl in Hm, Hi.
  destruct r.
  - destruct (getModule (name m) mgr1) as [m' | ]; [ | auto ].
    destruct (decide _); rewrite ?modules_emit_moduleError;
      split; try assumption.
    eapply same_flags_trans; [ exact Hi | apply same_flags_emit_moduleError ].
  - rewrite ?modules_emit_moduleError; split; try assumption.
    eapply same_flags_trans; [ exact Hi | apply same_flags_emit_moduleError ].
Qed.

Lemma stop_step_modules (h : string -> Hook) (m : Module)
  (mgr : ModuleManager) :
  getModule (name m) mgr = Some m ->
  modules (stop_step h m mgr)
  = modules_set (stop (h (name m)) m).1.2 (modules mgr)
  /\ same_flags mgr (stop_step h m mgr).
Proof.
  intros Hget. unfold stop_step.
  destruct (decide (getState m ≠ RUNNING)) as [Hs | Hs].
  - unfold stop. unfold getState in Hs.
    rewrite decide_True by exact Hs. simpl.
    rewrite modules_set_self by exact Hget.
    split; [ reflexivity | apply same_flags_refl ].
  - destruct (invoke_modules "stop" (stop (h (name m))) m mgr)
      as (_ & Hm & Hi).
    destruct (invoke "stop" _ m mgr) as [r mgr1]. simpl in Hm, Hi.
    destruct r; rewrite ?modules_emit_moduleError; split; try assumption.
    eapply same_flags_trans; [ exact Hi | apply same_flags_emit_moduleError ].
Qed.

Lemma step_changes_intro (T : ModuleState -> ModuleState -> Prop)
  (step : Module -> ModuleManager -> ModuleManager) (f : Module -> Module) :
  (forall m mgr, getModule (name m) mgr = Some m ->
     modules (step m mgr) = modules_set (f m) (modules mgr)
     /\ same_flags mgr (step m mgr)) ->
  (forall m, same_but_state m (f m) /\ T (_state m) (_state (f m))) ->
  step_changes T step.
Proof.
  intros Hstep Hf m mgr Hget. destruct (Hstep m mgr Hget) as [Hm Hi].
  destruct (Hf m) as [Hsame HT].
  pose proof (same_but_state_name _ _ Hsame) as Hname.
  split_and!.
  - exact Hi.
  - intros n Hn. unfold getModule. rewrite Hm.
    apply modules_get_set_ne. congruence.
  - exists (f m). split_and!; [ | exact Hsame | exact HT ].
    unfold getModule. rewrite Hm, <- Hname. apply modules_get_set_eq.
  - rewrite Hm. apply (modules_set_same_but_state _ m); assumption.
Qed.

Lemma initialize_pass_fold (h : string -> Hook) (l : list Module) :
  forall mgr,
    initialize_pass h l mgr = fold_left (pass_step (initialize_step h)) l mgr.
Proof.
  induction l as [ | x l IH ]; intros mgr; simpl; [ reflexivity | ].
  unfold pass_step at 2, initialize_step.
  destruct (getModule (name x) mgr) as [m | ]; [ | apply IH ].
  destruct (decide _); [ apply IH | ].
  destruct (invoke _ _ m mgr) as [r mgr1]. apply IH.
Qed.

Lemma start_pass_fold (h : string -> Hook) (l : list Module) :
  forall mgr,
    start_pass h l mgr = fold_left (pass_step (start_step h)) l mgr.
Proof.
  induction l as [ | x l IH ]; intros mgr; simpl; [ reflexivity | ].
  unfold pass_step at 2, start_step.
  destruct (getModule (name x) mgr) as [m | ]; [ | apply IH ].
  destruct (decide _); [ apply IH | ].
  destruct (decide _); [ apply IH | ].
  destruct (invoke _ _ m mgr) as [r mgr1]. apply IH.
Qed.

Lemma stop_pass_fold (h : string -> Hook) (l : list Module) :
  forall mgr,
    stop_pass h l mgr = fold_left (pass_step (stop_step h)) l mgr.
Proof.
  induction l as [ | x l IH ]; intros mgr; simpl; [ reflexivity | ].
  unfold pass_step at 2, stop_step.
  destruct (getModule (name x) mgr) as [m | ]; [ | apply IH ].
  destruct (decide _); [ apply IH | ].
  destruct (invoke _ _ m mgr) as [r mgr1]. apply IH.
Qed.

Section Pass.

Variable T : ModuleState -> ModuleState -> Prop.
Variable step : Module -> ModuleManager -> ModuleManager.
Hypothesis Hstep : step_changes T step.

Lemma pass_step_changes (x : Module) (mgr : ModuleManager) :
  same_flags mgr (pass_step step mgr x)
  /\ Forall2 same_but_state (modules mgr) (modules (pass_step step mgr x))
  /\ (forall n m, getModule n mgr = Some m ->
        exists m', getModule n (pass_step step mgr x) = Some m'
                   /\ (n <> name x -> m' = m)
                   /\ (n = name x -> T (_state m) (_state m'))
                   /\ (m' = m \/ T (_state m) (_state m'))).
Proof.
  unfold pass_step.
  destruct (getModule (name x) mgr) as [mx | ] eqn:Hx.
  - pose proof (modules_get_Some _ _ _ Hx) as [Hname _].
    destruct (Hstep mx mgr (getModule_self _ _ _ Hx))
      as (Hi & Hother & (m' & Hget' & Hsame & HT) & Hall).
    split_and!; [ exact Hi | exact Hall | ].
    intros n m Hn. destruct (decide (n = name x)) as [-> | Hne].
    + rewrite Hx in Hn. injection Hn as <-.
      rewrite Hname in Hget'. exists m'.
      split_and!; [ exact Hget' | congruence | auto | auto ].
    + exists m. rewrite Hother by congruence.
      split_and!; [ exact Hn | auto | congruence | auto ].
  - split_and!; [ apply same_flags_refl | apply same_but_state_list_refl | ].
    intros n m Hn. exists m.
    split_and!; [ exact Hn | auto | intros ->; congruence | auto ].
Qed.

Lemma pass_changes (l : list Module) :
  forall mgr,
    let mgr' := fold_left (pass_step step) l mgr in
    same_flags mgr mgr'
    /\ Forall2 same_but_state (modules mgr) (modules mgr')
    /\ (forall I : ModuleState -> Prop,
          (forall s s', I s -> T s s' -> I s') ->
          forall n m, getModule n mgr = Some m -> I (_state m) ->
          exists m', getModule n mgr' = Some m' /\ I (_state m'))
    /\ (forall Pre Post : ModuleState -> Prop,
          (forall s s', Pre s -> T s s' -> Post s') ->
          (forall s s', Post s -> T s s' -> Post s') ->
          forall n m, n ∈ map name l -> getModule n mgr = Some m ->
          Pre (_state m) ->
          exists m', getModule n mgr' = Some m' /\ Post (_state m')).
Proof.
  induction l as [ | x l IH ]; intros mgr; cbv zeta; simpl.
  - split_and!; [ apply same_flags_refl | apply same_but_state_list_refl | | ].
    + intros I _ n m Hn Hm. exists m. auto.
    + intros Pre Post _ _ n m Hn. inversion Hn.
  - destruct (pass_step_changes x mgr) as (Hi & Hall & Hone).
    destruct (IH (pass_step step mgr x)) as (Hi' & Hall' & HI' & HP').
    split_and!.
    + eapply same_flags_trans; eassumption.
    + eapply same_but_state_list_trans; eassumption.
    + intros I HIT n m Hn Hm.
      destruct (Hone n m Hn) as (m1 & Hn1 & _ & _ & Hor).
      apply (HI' I HIT n m1 Hn1).
      destruct Hor as [-> | HT]; [ exact Hm | eapply HIT; eassumption ].
    + intros Pre Post HPre HPost n m Hin Hn Hm.
      destruct (Hone n m Hn) as (m1 & Hn1 & Hne & Heq & _).
      destruct (decide (n = name x)) as [Hx | Hx].
      * apply (HI' Post HPost n m1 Hn1).
        eapply HPre; [ exact Hm | apply Heq, Hx ].
      * apply (HP' Pre Post HPre HPost n m1); [ | exact Hn1 | ].
        -- apply elem_of_cons in Hin as [Hin | Hin]; [ contradiction | exact Hin ].
        -- rewrite (Hne Hx). exact Hm.
Qed.

End Pass.

Lemma initialize_step_changes (h : string -> Hook) :
  step_changes (fun _ _ => True) (initialize_step h).
Proof.
  apply (step_changes_intro _ _ (fun m => (initialize (h (name m)) m).1.2)).
  - apply initialize_step_modules.
  - intros m. split; [ apply same_but_state_initialize | exact I ].
Qed.

Lemma start_step_changes (h : string -> Hook) :
  step_changes (fun _ _ => True) (start_step h).
Proof.
  apply (step_changes_intro _ _ (fun m => (start (h (name m)) m).1.2)).
  - apply start_step_modules.
  - intros m. split; [ apply same_but_state_start | exact I ].
Qed.

Lemma stop_step_changes (h : string -> Hook) :
  step_changes stopped_from (stop_step h).
Proof.
  apply (step_changes_intro _ _ (fun m => (stop (h (name m)) m).1.2)).
  - apply stop_step_modules.
  - intros m. split; [ apply same_but_state_stop | ].
    unfold stopped_from. destruct m as [md s e p mm el sl cp]. simpl.
    destruct s, (h (name _)); cbn; first [ left; split; [ discriminate | reflexivity ] | right; split; [ reflexivity | tauto ] ].
Qed.

Lemma initialize_step_ok_changes :
  step_changes initialized_from (initialize_step hooks_ok).
Proof.
  apply (step_changes_intro _ _ (fun m => (initialize None m).1.2)).
  - apply (initialize_step_modules hooks_ok).
  - intros m. split; [ apply same_but_state_initialize | ].
    unfold initialized_from. destruct m as [md s e p mm el sl cp]. simpl.
    destruct s; reflexivity.
Qed.

Lemma start_step_ok_changes :
  step_changes started_from (start_step hooks_ok).
Proof.
  apply (step_changes_intro _ _ (fun m => (start None m).1.2)).
  - apply (start_step_modules hooks_ok).
  - intros m. split; [ apply same_but_state_start | ].
    unfold started_from. destruct m as [md s e p mm el sl cp]. simpl.
    destruct s; reflexivity.
Qed.

Lemma registry_ok_same_but_state (mgr mgr' : ModuleManager) :
  Forall2 same_but_state (modules mgr) (modules mgr') ->
  registry_ok mgr -> registry_ok mgr'.
Proof.
  intros Hall [Hnd Hen Hw]. split.
  - rewrite (same_but_state_list_names _ _ Hall). exact Hnd.
  - intros m' Hin. apply list_elem_of_lookup in Hin as [i Hi].
    destruct (Forall2_lookup_r _ _ _ _ _ Hall Hi) as (m & Hm & Hsame).
    apply list_elem_of_lookup_2 in Hm. pose proof (Hen m Hm) as Hd.
    unfold disabled in *. rewrite (sbs_metadata _ _ Hsame). exact Hd.
  - intros m' Hin. apply list_elem_of_lookup in Hin as [i Hi].
    destruct (Forall2_lookup_r _ _ _ _ _ Hall Hi) as (m & Hm & Hsame).
    apply list_elem_of_lookup_2 in Hm. pose proof (Hw m Hm) as Hd.
    rewrite (sbs_moduleManager _ _ Hsame), (sbs_errorListeners _ _ Hsame),
      (sbs_stateChangeListeners _ _ Hsame). exact Hd.
Qed.

Lemma startModules_changes (h : string -> Hook) (mgr : ModuleManager) :
  exists r mgr',
    startModules h mgr = Some (r, mgr')
    /\ same_flags mgr mgr'
    /\ Forall2 same_but_state (modules mgr) (modules mgr').
Proof.
  unfold startModules. destruct (initialized mgr).
  - simpl. pose proof (sort_total mgr) as Htot.
    destruct (sortModulesByDependencies mgr) as [l | e | ];
      [ | | contradiction ].
    + eexists _, _. split; [ reflexivity | ].
      rewrite start_pass_fold.
      destruct (pass_changes _ _ (start_step_changes h) l mgr)
        as (Hf & Hall & _).
      split; [ | exact Hall ]. destruct Hf. split; assumption.
    + eexists _, _. split; [ reflexivity | ].
      split; [ apply same_flags_refl | apply same_but_state_list_refl ].
  - simpl. eexists _, _. split; [ reflexivity | ].
    split; [ apply same_flags_refl | apply same_but_state_list_refl ].
Qed.

Lemma initializeModules_changes (hI hS : string -> Hook)
  (mgr : ModuleManager) :
  exists r mgr',
    initializeModules hI hS mgr = Some (r, mgr')
    /\ Forall2 same_but_state (modules mgr) (modules mgr')
    /\ (r = Returned -> initialized mgr' = true).
Proof.
  unfold initializeModules. destruct (initialized mgr) eqn:Hinit.
  - eexists _, _. split; [ reflexivity | ].
    split; [ apply same_but_state_list_refl | auto ].
  - pose proof (sort_total mgr) as Htot.
    destruct (sortModulesByDependencies mgr) as [l | e | ];
      [ | | contradiction ].
    + rewrite initialize_pass_fold.
      destruct (pass_changes _ _ (initialize_step_changes hI) l mgr)
        as (Hf & Hall & _).
      set (mgr1 := with_initialized true
                     (fold_left (pass_step (initialize_step hI)) l mgr)).
      destruct (autoStart mgr1).
      * destruct (startModules_changes hS mgr1)
          as (r & mgr' & Heq & [Hi _ _ _] & Hall').
        exists r, mgr'. split; [ exact Heq | ].
        split; [ | intros _; rewrite Hi; reflexivity ].
        eapply same_but_state_list_trans; [ exact Hall | exact Hall' ].
      * exists Returned, mgr1. split; [ reflexivity | ].
        split; [ exact Hall | reflexivity ].
    + eexists _, _. split; [ reflexivity | ].
      split; [ apply same_but_state_list_refl | discriminate ].
Qed.

Lemma stopModules_changes (h : string -> Hook) (mgr : ModuleManager) :
  exists r mgr',
    stopModules h mgr = Some (r, mgr')
    /\ Forall2 same_but_state (modules mgr) (modules mgr').
Proof.
  unfold stopModules. pose proof (sort_total mgr) as Htot.
  destruct (sortModulesByDependencies mgr) as [l | e | ];
    [ | | contradiction ].
  - eexists _, _. split; [ reflexivity | ].
    rewrite stop_pass_fold.
    destruct (pass_changes _ _ (stop_step_changes h) (reverse l) mgr)
      as (_ & Hall & _).
    exact Hall.
  - eexists _, _. split; [ reflexivity | apply same_but_state_list_refl ].
Qed.

(** X11. [initializeModules] is idempotent: once it has returned, a
    further call, with whatever hooks, returns at once and changes
    nothing (the manager is marked initialized, and the call calls no
    module). *)
Theorem initializeModules_is_idempotent (hI hS hI' hS' : string -> Hook)
  (mgr mgr' : ModuleManager) :
  initializeModules hI hS mgr = Some (Returned, mgr') ->
  initialized mgr' = true
  /\ initializeModules hI' hS' mgr' = Some (Returned, mgr').
Proof.
  intros H.
  destruct (initializeModules_changes hI hS mgr) as (r & mgr1 & H1 & _ & Hi).
  rewrite H in H1. injection H1 as <- <-.
  split; [ apply Hi; reflexivity | ].
  unfold initializeModules. rewrite (Hi eq_refl). reflexivity.
Qed.

Lemma initializeModules_is_idempotent_witness :
  initializeModules scenario4_hooks scenario4_hooks scenario1_started
  = Some (Returned, scenario1_started).
Proof.
  refine (proj2 (initializeModules_is_idempotent hooks_ok hooks_ok
                   scenario4_hooks scenario4_hooks scenario1
                   scenario1_started _)).
  vm_compute. reflexivity.
Defined.

Lemma filter_none {A : Type} (P : A -> Prop) `{forall x, Decision (P x)}
  (l : list A) :
  (forall x, x ∈ l -> ~ P x) -> filter P l = [].
Proof.
  induction l as [ | x l IH ]; intros Hl; [ reflexivity | ].
  rewrite filter_cons_False by (apply Hl; left).
  apply IH. intros y Hy. apply Hl. right. exact Hy.
Qed.

Lemma filter_all {A : Type} (P : A -> Prop) `{forall x, Decision (P x)}
  (l : list A) :
  (forall x, x ∈ l -> P x) -> filter P l = l.
Proof.
  induction l as [ | x l IH ]; intros Hl; [ reflexivity | ].
  rewrite filter_cons_True by (apply Hl; left).
  f_equal. apply IH. intros y Hy. apply Hl. right. exact Hy.
Qed.

Lemma registered_lookup (mgr mgr' : ModuleManager) (m' : Module) :
  NoDup (map name (modules mgr)) ->
  Forall2 same_but_state (modules mgr) (modules mgr') ->
  m' ∈ modules mgr' ->
  getModule (name m') mgr' = Some m'
  /\ exists m, m ∈ modules mgr /\ getModule (name m') mgr = Some m
               /\ same_but_state m m'.
Proof.
  intros Hnd Hall Hin. split.
  - apply modules_get_unique; [ | exact Hin ].
    rewrite (same_but_state_list_names _ _ Hall). exact Hnd.
  - apply list_elem_of_lookup in Hin as [i Hi].
    destruct (Forall2_lookup_r _ _ _ _ _ Hall Hi) as (m & Hm & Hsame).
    apply list_elem_of_lookup_2 in Hm. exists m.
    split_and!; [ exact Hm | | exact Hsame ].
    rewrite (same_but_state_name _ _ Hsame).
    apply modules_get_unique; assumption.
Qed.

Lemma unsupervised_emit_moduleError (err n op : string)
  (mgr : ModuleManager) :
  enabled (recoveryOptions mgr) = false ->
  unsupervised mgr (emit_moduleError err n op mgr).
Proof.
  intros Hoff. unfold emit_moduleError.
  change (recoveryOptions (record (ModuleError err n op) mgr))
    with (recoveryOptions mgr).
  rewrite Hoff. simpl. split; reflexivity.
Qed.

Lemma unsupervised_deliver (m : Module) (effects : list Effect) :
  forall mgr,
    enabled (recoveryOptions mgr) = false ->
    unsupervised mgr (deliver m effects mgr).
Proof.
  induction effects as [ | e effects IH ]; intros mgr Hoff; simpl.
  - split; reflexivity.
  - destruct e as [ s1 s2 | err op | msg ]; try (apply IH, Hoff).
    assert (unsupervised mgr
              (Nat.iter (errorListeners m) (emit_moduleError err (name m) op)
                 mgr)) as [Ho Ht].
    { induction (errorListeners m) as [ | k [IHo IHt] ]; simpl.
      - split; reflexivity.
      - destruct (unsupervised_emit_moduleError err (name m) op
                    (Nat.iter k (emit_moduleError err (name m) op) mgr))
          as [Ho Ht].
        + rewrite IHo. exact Hoff.
        + split; congruence. }
    destruct (IH (Nat.iter (errorListeners m)
                    (emit_moduleError err (name m) op) mgr)) as [Ho' Ht'].
    + rewrite Ho. exact Hoff.
    + split; congruence.
Qed.

Lemma unsupervised_invoke (op : string)
  (method : Module -> Outcome * Module * list Effect) (m : Module)
  (mgr : ModuleManager) :
  enabled (recoveryOptions mgr) = false ->
  unsupervised mgr (invoke op method m mgr).2.
Proof.
  intros Hoff. unfold invoke. destruct (method m) as [[r m'] effects].
  simpl. apply (unsupervised_deliver m' effects
                  (put m' (record (Invoke op (name m)) mgr))).
  exact Hoff.
Qed.

Lemma unsupervised_stop_pass (h : string -> Hook) (l : list Module) :
  forall mgr,
    enabled (recoveryOptions mgr) = false ->
    unsupervised mgr (stop_pass h l mgr).
Proof.
  induction l as [ | x l IH ]; intros mgr Hoff; simpl.
  - split; reflexivity.
  - destruct (getModule (name x) mgr) as [m | ]; [ | apply IH, Hoff ].
    destruct (decide _); [ apply IH, Hoff | ].
    pose proof (unsupervised_invoke "stop" (stop (h (name m))) m mgr Hoff)
      as [Ho Ht].
    destruct (invoke "stop" (stop (h (name m))) m mgr) as [r mgr1].
    simpl in Ho, Ht.
    assert (enabled (recoveryOptions mgr1) = false) as Hoff1
      by (rewrite Ho; exact Hoff).
    destruct r as [ | err ].
    + destruct (IH mgr1 Hoff1) as [Ho' Ht']. split; congruence.
    + destruct (unsupervised_emit_moduleError err (name m) "stop" mgr1 Hoff1)
        as [Ho2 Ht2].
      destruct (IH (emit_moduleError err (name m) "stop" mgr1)) as [Ho' Ht'].
      * rewrite Ho2. exact Hoff1.
      * split; congruence.
Qed.

(** X12. With recovery disabled and no recovery timer pending, so that
    nothing but the pass itself runs while it awaits a hook, and hooks
    that resolve or throw: after [stopModules] has returned, no
    registered module is RUNNING. A module that was RUNNING is STOPPED,
    or in ERROR when its hook threw, and every other module has the
    state it had; still no timer is pending. The manager is no longer
    marked initialized, so that [startModules] is refused until
    [initializeModules] is called again. Registered names are taken to
    be distinct. *)
Theorem stopModules_leaves_nothing_running (h hS : string -> Hook)
  (mgr mgr' : ModuleManager) :
  NoDup (map name (modules mgr)) ->
  enabled (recoveryOptions mgr) = false ->
  timers mgr = [] ->
  stopModules h mgr = Some (Returned, mgr') ->
  getModulesByState RUNNING mgr' = []
  /\ (forall n m, getModule n mgr = Some m ->
        exists m', getModule n mgr' = Some m'
                   /\ stopped_from (_state m) (_state m'))
  /\ timers mgr' = []
  /\ enabled (recoveryOptions mgr') = false
  /\ initialized mgr' = false
  /\ startModules hS mgr'
     = Some (Thrown "ModuleManager must be initialized before starting modules",
             mgr').
Proof.
  intros Hnd Hoff Htimers Hstop. unfold stopModules in Hstop.
  pose proof (sort_spec (modules mgr) mgr eq_refl) as Hspec.
  destruct (sortModulesByDependencies mgr) as [l | e | ];
    [ | discriminate Hstop | discriminate Hstop ].
  destruct Hspec as (_ & _ & _ & Hcover).
  injection Hstop as <-.
  destruct (unsupervised_stop_pass h (reverse l) mgr Hoff) as [Ho Ht].
  rewrite stop_pass_fold in *.
  destruct (pass_changes _ _ (stop_step_changes h) (reverse l) mgr)
    as (_ & Hall & _ & Hpost).
  set (mgr1 := fold_left (pass_step (stop_step h)) (reverse l) mgr) in *.
  assert (forall n m, getModule n mgr = Some m ->
            exists m', getModule n mgr1 = Some m'
                       /\ stopped_from (_state m) (_state m')) as Hstates.
  { intros n m Hget.
    refine (Hpost (fun s => s = _state m) (stopped_from (_state m))
              _ _ n m _ Hget eq_refl).
    - intros s s' -> HT. exact HT.
    - unfold stopped_from. intros s s' H1 H2.
      destruct H1 as [[? ->] | [? [-> | ->]]], H2 as [[? ->] | [? ?]];
        first [ congruence | tauto ].
    - destruct (modules_get_Some _ _ _ Hget) as [<- Hin].
      change (map name (reverse l)) with (name <$> reverse l).
      rewrite fmap_reverse. apply elem_of_reverse. apply Hcover, Hin. }
  split_and!.
  - unfold getModulesByState, getAllModules. simpl.
    apply filter_none. intros m' Hin Hrun.
    destruct (registered_lookup mgr mgr1 m' Hnd Hall Hin)
      as (Hget' & m & _ & Hget & _).
    destruct (Hstates _ _ Hget) as (m'' & Hget'' & Hst).
    rewrite Hget' in Hget''. injection Hget'' as <-.
    unfold getState in Hrun. unfold stopped_from in Hst.
    destruct Hst as [[? ?] | [_ [? | ?]]]; congruence.
  - exact Hstates.
  - simpl. rewrite Ht. exact Htimers.
  - simpl. rewrite Ho. exact Hoff.
  - reflexivity.
  - reflexivity.
Qed.

Lemma stopModules_leaves_nothing_running_witness :
  getModulesByState RUNNING scenario1_stopped = [].
Proof.
  refine (proj1 (stopModules_leaves_nothing_running hooks_ok hooks_ok
                   scenario1_started scenario1_stopped _ _ _ _)).
  - vm_compute. distinct_names.
  - reflexivity.
  - reflexivity.
  - vm_compute. reflexivity.
Defined.

(** X13. When every registered module is UNINITIALIZED, INITIALIZED,
    STOPPED or RUNNING, all hooks resolve and [autoStart] is set, a call
    of [initializeModules] on a manager not yet initialized that returns
    leaves every registered module RUNNING, so that
    [areAllModulesRunning] holds. *)
Theorem initializeModules_starts_everything (mgr mgr' : ModuleManager) :
  NoDup (map name (modules mgr)) ->
  initialized mgr = false -> autoStart mgr = true ->
  (forall m, m ∈ modules mgr ->
             _state m = UNINITIALIZED \/ _state m = INITIALIZED
             \/ _state m = STOPPED \/ _state m = RUNNING) ->
  initializeModules hooks_ok hooks_ok mgr = Some (Returned, mgr') ->
  (forall m', m' ∈ modules mgr' -> _state m' = RUNNING)
  /\ areAllModulesRunning mgr' = true
  /\ getModulesByState RUNNING mgr' = getAllModules mgr'.
Proof.
  intros Hnd Hinit Hauto Hstates Hrun.
  assert (forall m', m' ∈ modules mgr' -> _state m' = RUNNING) as Hall.
  { unfold initializeModules in Hrun. rewrite Hinit in Hrun.
    pose proof (sort_spec (modules mgr) mgr eq_refl) as Hspec.
    destruct (sortModulesByDependencies mgr) as [l | e | ];
      [ | discriminate Hrun | discriminate Hrun ].
    destruct Hspec as (_ & _ & _ & Hcover).
    rewrite initialize_pass_fold in Hrun.
    destruct (pass_changes _ _ initialize_step_ok_changes l mgr)
      as ([_ Hauto1 _ _] & Hall1 & _ & Hpost1).
    set (mgr1 := fold_left (pass_step (initialize_step hooks_ok)) l mgr) in *.
    simpl in Hrun. rewrite Hauto1, Hauto in Hrun.
    unfold startModules in Hrun. simpl in Hrun.
    pose proof (sort_spec (modules mgr1) (with_initialized true mgr1) eq_refl)
      as Hspec2.
    destruct (sortModulesByDependencies (with_initialized true mgr1))
      as [l2 | e | ]; [ | discriminate Hrun | discriminate Hrun ].
    destruct Hspec2 as (_ & _ & _ & Hcover2).
    injection Hrun as <-. rewrite start_pass_fold.
    destruct (pass_changes _ _ start_step_ok_changes l2
                (with_initialized true mgr1))
      as (_ & Hall2 & _ & Hpost2).
    set (mgr2 := fold_left (pass_step (start_step hooks_ok)) l2
                   (with_initialized true mgr1)) in *.
    intros m' Hin. change (m' ∈ modules mgr2) in Hin.
    assert (NoDup (map name (modules mgr1))) as Hnd1
      by (rewrite (same_but_state_list_names _ _ Hall1); exact Hnd).
    destruct (registered_lookup (with_initialized true mgr1) mgr2 m'
                Hnd1 Hall2 Hin) as (Hget2 & m1 & Hin1 & Hget1 & Hs12).
    change (m1 ∈ modules mgr1) in Hin1.
    destruct (registered_lookup mgr mgr1 m1 Hnd Hall1 Hin1)
      as (Hget1' & m0 & Hin0 & Hget0 & Hs01).
    pose proof (same_but_state_name _ _ Hs12) as Hn12.
    pose proof (same_but_state_name _ _ Hs01) as Hn01.
    destruct (Hpost1
                (fun s => s = UNINITIALIZED \/ s = INITIALIZED
                          \/ s = STOPPED \/ s = RUNNING)
                (fun s => s = INITIALIZED \/ s = STOPPED \/ s = RUNNING)
                ltac:(unfold initialized_from; intros s s' Hs ->;
                      destruct Hs as [-> | [-> | [-> | ->]]]; simpl; tauto)
                ltac:(unfold initialized_from; intros s s' Hs ->;
                      destruct Hs as [-> | [-> | ->]]; simpl; tauto)
                (name m1) m0) as (m1' & Hget1'' & HQ1).
    { rewrite Hn01. apply Hcover, Hin0. }
    { exact Hget0. }
    { apply Hstates, Hin0. }
    rewrite Hget1' in Hget1''. injection Hget1'' as <-.
    destruct (Hpost2
                (fun s => s = INITIALIZED \/ s = STOPPED \/ s = RUNNING)
                (fun s => s = RUNNING)
                ltac:(unfold started_from; intros s s' Hs ->;
                      destruct Hs as [-> | [-> | ->]]; reflexivity)
                ltac:(unfold started_from; intros s s' -> ->; reflexivity)
                (name m') m1) as (m2' & Hget2' & HQ2).
    { rewrite Hn12. apply Hcover2, Hin1. }
    { exact Hget1. }
    { exact HQ1. }
    rewrite Hget2 in Hget2'. injection Hget2' as <-. exact HQ2. }
  split_and!.
  - exact Hall.
  - unfold areAllModulesRunning, getAllModules.
    apply forallb_forall. intros m' Hin. apply list_elem_of_In in Hin.
    unfold getState. rewrite (Hall m' Hin). reflexivity.
  - unfold getModulesByState, getAllModules.
    apply filter_all. intros m' Hin. apply Hall, Hin.
Qed.

Lemma initializeModules_starts_everything_witness :
  areAllModulesRunning scenario1_started = true.
Proof.
  refine (proj1 (proj2 (initializeModules_starts_everything scenario1
                          scenario1_started _ _ _ _ _))).
  - simpl. distinct_names.
  - reflexivity.
  - reflexivity.
  - intros m Hm. simpl in Hm.
    repeat (apply elem_of_cons in Hm as [-> | Hm]; [ left; reflexivity | ]).
    inversion Hm.
  - vm_compute. reflexivity.
Defined.

(** ** Loading, again *)

Lemma loadModuleFromPath_spec (imported : ImportResult) (dir : string)
  (mgr : ModuleManager) :
  let '(result, mgr1) := loadModuleFromPath imported dir mgr in
  moduleLoadPromises mgr1 = moduleLoadPromises mgr
  /\ exists new, modules mgr1 = modules mgr ++ new
                 /\ length new = match result with
                                 | Fulfilled Loaded => 1
                                 | _ => 0
                                 end.
Proof.
  unfold loadModuleFromPath.
  destruct imported as [err | | instance].
  - split; [ reflexivity | ]. exists []. rewrite app_nil_r. auto.
  - split; [ reflexivity | ]. exists []. rewrite app_nil_r. auto.
  - destruct (_ || _) eqn:Hdis.
    + split; [ reflexivity | ]. exists []. rewrite app_nil_r. auto.
    + apply orb_false_iff in Hdis as [Hdis _].
      unfold registerModule.
      destruct (modules_has _ (modules mgr)) eqn:Hhas.
      * split; [ reflexivity | ]. exists []. rewrite app_nil_r. auto.
      * rewrite Hdis. split; [ reflexivity | ]. simpl.
        rewrite modules_set_fresh by exact Hhas.
        eexists [_]. auto.
Qed.

(** A call that finds a settled promise for every directory only waits
    for them: it starts no load. *)
Lemma waiting_start (dirs : list string) (mgr : ModuleManager) :
  (forall dir, dir ∈ dirs -> moduleLoadPromises mgr !! dir <> None) ->
  waits_only (start_callbacks dirs mgr).
Proof.
  intros Hall. unfold start_callbacks, waits_only.
  assert (forall ld,
            manager ld = mgr -> waits_only ld ->
            waits_only (fold_left start_callback dirs ld)) as H.
  { induction dirs as [ | dir dirs IH ]; intros ld Hm Hw; simpl;
      [ exact Hw | ].
    apply IH.
    - intros d Hd. apply Hall. right. exact Hd.
    - exact Hm.
    - unfold waits_only, start_callback. simpl.
      apply Forall_app. split; [ exact Hw | ]. apply Forall_singleton.
      simpl. unfold has_loadPromise. rewrite Hm.
      rewrite bool_decide_eq_true_2; [ reflexivity | ].
      specialize (Hall dir ltac:(left)).
      destruct (moduleLoadPromises mgr !! dir); [ eauto | congruence ]. }
  apply H; [ reflexivity | apply Forall_nil_2 ].
Qed.

Lemma waiting_resume (fs : ModulesDir) (i : nat) (ld : Loading) :
  waits_only ld ->
  waits_only (resume fs i ld)
  /\ manager (resume fs i ld) = manager ld
  /\ loadedCount (counts (resume fs i ld)) = loadedCount (counts ld)
  /\ disabledCount (counts (resume fs i ld)) = disabledCount (counts ld).
Proof.
  intros Hw. unfold resume.
  destruct (callbacks ld !! i) as [[dir st] | ] eqn:Hi; [ | auto ].
  pose proof (Forall_lookup_1 _ _ _ _ Hw Hi) as Ho. simpl in Ho.
  destruct st as [ | r | s | | [ | ] s ]; try discriminate Ho; [ | auto ].
  destruct (moduleLoadPromises (manager ld) !! dir) as [s | ]; [ | auto ].
  split_and!; try reflexivity.
  - unfold waits_only, finish. simpl. apply Forall_insert; [ exact Hw | ].
    reflexivity.
  - simpl. destruct s as [[ | ] | err]; reflexivity.
  - simpl. destruct s as [[ | ] | err]; reflexivity.
Qed.

Lemma waiting_resume_all (fs : ModulesDir) (order : list nat) :
  forall ld,
    waits_only ld ->
    manager (resume_all fs order ld) = manager ld
    /\ loadedCount (counts (resume_all fs order ld)) = loadedCount (counts ld)
    /\ disabledCount (counts (resume_all fs order ld))
       = disabledCount (counts ld).
Proof.
  unfold resume_all.
  induction order as [ | i order IH ]; intros ld Hw; simpl; [ auto | ].
  destruct (waiting_resume fs i ld Hw) as (Hw' & Hm & Hl & Hd).
  destruct (IH _ Hw') as (Hm' & Hl' & Hd').
  split_and!; congruence.
Qed.

(** X14. Loading is remembered by directory. Once a call of
    [loadModules] has settled and the callbacks still waiting then have
    ended, a second call on the same module tree starts no load: at the
    moment it settles the manager is what it was, and the second call
    has counted nothing as loaded or disabled. It returns exactly when
    the first call returned; when it throws, the error is that of the
    configuration or of the directory listing, or the rejection of one
    of the directories' promises. *)
Theorem loadModules_twice (fs : ModulesDir) (mgr : ModuleManager)
  (schedule1 schedule2 : list Turn) (order : list nat) (r1 r2 : Outcome)
  (ld1 ld2 : Loading) :
  loadModules fs schedule1 mgr = Some (r1, ld1) ->
  all_finished (resume_all fs order ld1) = true ->
  loadModules fs schedule2 (manager (resume_all fs order ld1))
  = Some (r2, ld2) ->
  manager ld2 = manager (resume_all fs order ld1)
  /\ loadedCount (counts ld2) = 0
  /\ disabledCount (counts ld2) = 0
  /\ (r2 = Returned <-> r1 = Returned)
  /\ (forall err,
        r2 = Thrown err ->
        loadAllConfigs fs = Some err \/ readdir fs = Some err
        \/ exists dir,
             dir ∈ validDirectories fs
             /\ moduleLoadPromises (manager (resume_all fs order ld1)) !! dir
                = Some (Rejected err)).
Proof.
  intros H1 Hall H2.
  destruct (loadModules_reaches fs schedule1 mgr r1 ld1 H1)
    as [(err & Herr & -> & ->) | (Hcfg & Hdir & Hld1 & Hdirs1 & Hp1)].
  - (* the configuration or the listing fails, both times *)
    unfold loadModules in H2.
    destruct Herr as [Herr | [Hcfg Herr]].
    + rewrite Herr in H2. injection H2 as <- <-.
      split_and!; try reflexivity.
      intros e He. injection He as <-. auto.
    + rewrite Hcfg, Herr in H2. injection H2 as <- <-.
      split_and!; try reflexivity.
      intros e He. injection He as <-. auto.
  - set (ld := resume_all fs order ld1) in *.
    assert (loading fs mgr ld) as Hld by apply loading_resume_all, Hld1.
    assert (map fst (callbacks ld) = validDirectories fs) as Hdirs
      by (unfold ld; rewrite resume_all_dirs; exact Hdirs1).
    pose proof (promised_loading _ _ _ Hld) as Hpr.
    assert (forall dir, dir ∈ validDirectories fs ->
                        moduleLoadPromises (manager ld) !! dir <> None)
      as Hsettled.
    { intros dir Hin. rewrite <- Hdirs in Hin.
      destruct (callback_of ld dir Hin) as (i & st & Hi).
      destruct (all_finished_lookup ld i dir st Hall Hi) as (o & s & ->).
      rewrite (p_settled _ _ Hpr i dir _ s Hi eq_refl). discriminate. }
    unfold loadModules in H2. rewrite Hcfg, Hdir in H2.
    destruct (await_all_reaches _ _ _ _ _ H2) as (Hp2 & order2 & ->).
    pose proof (waiting_start _ _ Hsettled) as Hw.
    destruct (waiting_resume_all fs order2 _ Hw) as (Hm & Hl & Hd).
    destruct (start_callbacks_spec (validDirectories fs) (manager ld))
      as (Hdirs0 & Hm0 & Hc0 & _).
    set (ld2 := resume_all fs order2
                  (start_callbacks (validDirectories fs) (manager ld))) in *.
    assert (loading fs (manager ld) ld2) as Hld2
      by apply loading_resume_all, loading_start_callbacks.
    assert (map fst (callbacks ld2) = validDirectories fs) as Hdirs2
      by (unfold ld2; rewrite resume_all_dirs; exact Hdirs0).
    assert (manager ld2 = manager ld) as Hsame by congruence.
    assert (forall err,
              promise_all ld2 = Some (Thrown err) ->
              exists dir, dir ∈ validDirectories fs
                          /\ moduleLoadPromises (manager ld) !! dir
                             = Some (Rejected err)) as Hthrown.
    { intros err Hp.
      destruct (promise_all_Thrown _ _ ld2 err Hld2 Hp)
        as (_ & i & dir & o & Hi & Hs).
      exists dir. rewrite <- Hsame. split; [ | exact Hs ].
      rewrite <- Hdirs2. apply list_elem_of_fmap.
      exists (dir, Finished o (Rejected err)).
      split; [ reflexivity | eapply list_elem_of_lookup_2, Hi ]. }
    split_and!.
    + exact Hsame.
    + rewrite Hl, Hc0. reflexivity.
    + rewrite Hd, Hc0. reflexivity.
    + split.
      * intros ->. destruct r1 as [ | e ]; [ reflexivity | exfalso ].
        destruct (promise_all_Thrown _ _ ld1 e Hld1 Hp1)
          as (_ & i & dir & o & Hi & Hs).
        pose proof (promise_kept fs mgr ld1 order dir _ Hld1 Hs) as Hs'.
        fold ld in Hs'.
        assert (dir ∈ map fst (callbacks ld2)) as Hin.
        { rewrite Hdirs2, <- Hdirs1. apply list_elem_of_fmap.
          exists (dir, Finished o (Rejected e)).
          split; [ reflexivity | eapply list_elem_of_lookup_2, Hi ]. }
        destruct (callback_of ld2 dir Hin) as (j & st & Hj).
        destruct (promise_all_Returned _ _ ld2 Hld2 Hp2) as [_ Hful].
        destruct (Hful j dir st Hj) as (o' & v & _ & Hv).
        rewrite Hsame in Hv. congruence.
      * intros ->. destruct r2 as [ | e ]; [ reflexivity | exfalso ].
        destruct (Hthrown e Hp2) as (dir & Hin & Hs).
        rewrite <- Hdirs1 in Hin.
        destruct (callback_of ld1 dir Hin) as (j & st & Hj).
        destruct (promise_all_Returned _ _ ld1 Hld1 Hp1) as [_ Hful].
        destruct (Hful j dir st Hj) as (o' & v & _ & Hv).
        pose proof (promise_kept fs mgr ld1 order dir _ Hld1 Hv) as Hv'.
        fold ld in Hv'. congruence.
    + intros err ->. right. right. apply Hthrown, Hp2.
Qed.

Lemma loadModules_twice_witness :
  second_call <> None
  /\ manager (settled_state fresh_manager second_call)
     = manager (resume_all one_bad_one_good [1; 1; 1]
                  (settled_state fresh_manager bad_first))
  /\ loadedCount (counts (settled_state fresh_manager second_call)) = 0.
Proof.
  split; [ vm_compute; discriminate | ].
  destruct (loadModules_twice one_bad_one_good fresh_manager
              (then_caller [0; 0]) (then_caller [1; 0]) [1; 1; 1]
              (Thrown "Invalid module in bad: Not a Module subclass")
              (Thrown "Invalid module in bad: Not a Module subclass")
              (settled_state fresh_manager bad_first)
              (settled_state fresh_manager second_call))
    as (H1 & H2 & _).
  - vm_compute. reflexivity.
  - vm_compute. reflexivity.
  - vm_compute. reflexivity.
  - split; assumption.
Defined.

Lemma sum_list_with_le {A : Type} (f g : A -> nat) (l : list A) :
  (forall x, x ∈ l -> f x <= g x) ->
  sum_list_with f l <= sum_list_with g l.
Proof.
  induction l as [ | a l IH ]; intros H; simpl; [ lia | ].
  pose proof (H a ltac:(left)).
  assert (sum_list_with f l <= sum_list_with g l)
    by (apply IH; intros x Hx; apply H; right; exact Hx).
  lia.
Qed.

Lemma sum_list_with_ones {A : Type} (f : A -> nat) (l : list A) :
  (forall x, x ∈ l -> f x <= 1) -> sum_list_with f l <= length l.
Proof.
  induction l as [ | a l IH ]; intros H; simpl; [ lia | ].
  pose proof (H a ltac:(left)).
  assert (sum_list_with f l <= length l)
    by (apply IH; intros x Hx; apply H; right; exact Hx).
  lia.
Qed.

Lemma sum_list_with_add {A : Type} (f g : A -> nat) (l : list A) :
  sum_list_with (fun x => f x + g x) l
  = sum_list_with f l + sum_list_with g l.
Proof. induction l as [ | a l IH ]; simpl; lia. Qed.

(** X15. The count of loaded modules follows the growth of the
    registry. At every moment of a [loadModules], in whatever order the
    loads settle, the registry is the one before the call followed by
    the modules the loads have registered; the count of loaded modules
    is at most their number, a module being counted after it is
    registered, and is their number once all callbacks have ended, so
    also when [loadModules] returns; and loaded + disabled + failed
    never exceeds the number of module directories. *)
Theorem loadModules_counts_what_it_registers (fs : ModulesDir)
  (mgr : ModuleManager) :
  (forall order,
      let ld := resume_all fs order
                  (start_callbacks (validDirectories fs) mgr) in
      exists added,
        modules (manager ld) = modules mgr ++ added
        /\ loadedCount (counts ld) <= length added
        /\ (all_finished ld = true -> loadedCount (counts ld) = length added)
        /\ loadedCount (counts ld) + disabledCount (counts ld)
           + errorCount (counts ld)
           <= length (validDirectories fs))
  /\ (forall schedule ld,
        loadModules fs schedule mgr = Some (Returned, ld) ->
        exists added,
          modules (manager ld) = modules mgr ++ added
          /\ length added = loadedCount (counts ld)
          /\ errorCount (counts ld) = 0).
Proof.
  assert (forall ld,
            loading fs mgr ld ->
            exists added,
              modules (manager ld) = modules mgr ++ added
              /\ loadedCount (counts ld) <= length added
              /\ (all_finished ld = true ->
                  loadedCount (counts ld) = length added)
              /\ loadedCount (counts ld) + disabledCount (counts ld)
                 + errorCount (counts ld)
                 <= length (callbacks ld)) as Hgen.
  { intros ld Hld.
    destruct (counting_loading _ _ _ Hld)
      as [Hl Hd Hf (added & Hadd & Hlen) _ _ _].
    exists added. rewrite Hl, Hd, Hf, Hlen. split_and!.
    - exact Hadd.
    - apply sum_list_with_le. intros [d st] _.
      unfold counted_loaded, registered. simpl.
      destruct st as [ | [ | ] | [[ | ] | ] | | [ | ] [[ | ] | ] ]; lia.
    - intros Hall. apply Nat.le_antisymm.
      + apply sum_list_with_le. intros [d st] _.
        unfold counted_loaded, registered. simpl.
        destruct st as [ | [ | ] | [[ | ] | ] | | [ | ] [[ | ] | ] ]; lia.
      + apply sum_list_with_le. intros [d st] Hin.
        apply list_elem_of_lookup in Hin as [i Hi].
        destruct (all_finished_lookup ld i d st Hall Hi) as (o & s & ->).
        unfold counted_loaded, registered. simpl.
        destruct o, s as [[ | ] | ]; lia.
    - rewrite <- !sum_list_with_add. apply sum_list_with_ones.
      intros [d st] _.
      unfold counted_loaded, counted_disabled, counted_failed. simpl.
      destruct st as [ | [ | ] | [[ | ] | ] | | [ | ] [[ | ] | ] ]; lia. }
  split.
  - intros order. cbv zeta.
    destruct (Hgen (resume_all fs order
                      (start_callbacks (validDirectories fs) mgr)))
      as (added & H1 & H2 & H3 & H4).
    + apply loading_resume_all, loading_start_callbacks.
    + exists added. split_and!; try assumption.
      rewrite <- (length_map fst), resume_all_dirs in H4.
      destruct (start_callbacks_spec (validDirectories fs) mgr) as [Hd _].
      rewrite Hd in H4. exact H4.
  - intros schedule ld H.
    destruct (loadModules_reaches fs schedule mgr _ ld H)
      as [(err & _ & Heq & _) | (_ & _ & Hld & _ & Hp)];
      [ discriminate Heq | ].
    destruct (Hgen ld Hld) as (added & H1 & _ & H3 & _).
    destruct (promise_all_Returned fs mgr ld Hld Hp) as [Hzero _].
    exists added. split_and!; [ exact H1 | | exact Hzero ].
    symmetry. apply H3. unfold promise_all in Hp.
    destruct (rejection ld); [ discriminate Hp | ].
    destruct (all_finished ld); [ reflexivity | discriminate Hp ].
Qed.

(** ** Operations on one module *)

Lemma invoke_object_registered (op : string)
  (method : Module -> Outcome * Module * list Effect) (m : Module)
  (mgr : ModuleManager) :
  getModule (name m) mgr = Some m ->
  same_but_state m (method m).1.2 ->
  let '(r, m', mgr') := invoke_object op method m mgr in
  r = (method m).1.1 /\ m' = (method m).1.2
  /\ getModule (name m) mgr' = Some m'
  /\ (forall n, n <> name m -> getModule n mgr' = getModule n mgr)
  /\ Forall2 same_but_state (modules mgr) (modules mgr').
Proof.
  intros Hget Hsame. unfold invoke_object.
  destruct (method m) as [[r m'] effects]. simpl in Hsame.
  pose proof (same_but_state_name _ _ Hsame) as Hname.
  unfold getModule in *. unfold modules_has. rewrite Hget.
  rewrite modules_deliver. simpl. split_and!; try reflexivity.
  - rewrite <- Hname. apply modules_get_set_eq.
  - intros n Hn. apply modules_get_set_ne. congruence.
  - apply (modules_set_same_but_state _ m); assumption.
Qed.

Lemma reset_registered (m : Module) (mgr : ModuleManager) :
  getModule (name m) mgr = Some m ->
  let m1 := with_state UNINITIALIZED (with_error None m) in
  let mgr1 := deliver (reset m).1 (reset m).2 (put (reset m).1 mgr) in
  (reset m).1 = m1
  /\ getModule (name m) mgr1 = Some m1
  /\ (forall n, n <> name m -> getModule n mgr1 = getModule n mgr)
  /\ Forall2 same_but_state (modules mgr) (modules mgr1).
Proof.
  intros Hget. cbv zeta.
  assert ((reset m).1 = with_state UNINITIALIZED (with_error None m)) as ->
    by reflexivity.
  set (m1 := with_state UNINITIALIZED (with_error None m)).
  assert (same_but_state m m1) as Hsame by (split; reflexivity).
  unfold getModule in *. rewrite modules_deliver. simpl.
  split_and!; [ reflexivity | | | ].
  - change (name m) with (name m1). apply modules_get_set_eq.
  - intros n Hn. apply modules_get_set_ne. exact Hn.
  - apply (modules_set_same_but_state _ m); assumption.
Qed.

Lemma invoke_registered (op : string)
  (method : Module -> Outcome * Module * list Effect) (m : Module)
  (mgr : ModuleManager) :
  getModule (name m) mgr = Some m ->
  same_but_state m (method m).1.2 ->
  getModule (name m) (invoke op method m mgr).2 = Some (method m).1.2
  /\ Forall2 same_but_state (modules mgr) (modules (invoke op method m mgr).2).
Proof.
  intros Hget Hsame.
  destruct (invoke_modules op method m mgr) as (_ & Hm & _).
  unfold getModule. rewrite Hm. split.
  - rewrite <- (same_but_state_name _ _ Hsame). apply modules_get_set_eq.
  - apply (modules_set_same_but_state _ m); assumption.
Qed.

Lemma recovery_timer_modules (hI hS : Hook) (n : string) (k : nat)
  (mgr : ModuleManager) :
  Forall2 same_but_state (modules mgr)
    (modules (recovery_timer hI hS n k mgr)).
Proof.
  unfold recovery_timer.
  destruct (getModule n mgr) as [module | ] eqn:Hg;
    [ | apply same_but_state_list_refl ].
  destruct (negb (hasError module)); [ apply same_but_state_list_refl | ].
  pose proof (reset_registered module (record (Attempting n (k + 1)) mgr)
                (getModule_self _ _ _ Hg)) as Hreset.
  cbv zeta in Hreset. destruct Hreset as (Hm1 & Hg1 & _ & Hall1).
  destruct (reset module) as [m1 e1]. simpl in Hm1, Hg1, Hall1. subst m1.
  set (m1 := with_state UNINITIALIZED (with_error None module)) in *.
  set (mgr1 := deliver m1 e1 (put m1 (record (Attempting n (k + 1)) mgr)))
    in *.
  destruct (invoke_registered "initialize" (initialize hI) m1 mgr1 Hg1
              (same_but_state_initialize hI m1)) as [Hg2 Hall2].
  destruct (invoke "initialize" (initialize hI) m1 mgr1) as [r mgr2].
  simpl in Hg2, Hall2.
  assert (Forall2 same_but_state (modules mgr) (modules mgr2)) as Hall12
    by (eapply same_but_state_list_trans; eassumption).
  destruct r; [ | exact Hall12 ].
  destruct (getModule n mgr2) as [m2 | ] eqn:Hgn; [ | exact Hall12 ].
  destruct (invoke_registered "start" (start hS) m2 mgr2
              (getModule_self _ _ _ Hgn) (same_but_state_start hS m2))
    as [_ Hall3].
  destruct (invoke "start" (start hS) m2 mgr2) as [r3 mgr3].
  simpl in Hall3.
  assert (Forall2 same_but_state (modules mgr) (modules mgr3)) as Hall13
    by (eapply same_but_state_list_trans; eassumption).
  destruct r3; exact Hall13.
Qed.

Lemma run_events_modules (evs : list Event) :
  forall mgr,
    Forall2 same_but_state (modules mgr) (modules (run_events evs mgr)).
Proof.
  unfold run_events.
  induction evs as [ | ev evs IH ]; intros mgr; simpl.
  - apply same_but_state_list_refl.
  - eapply same_but_state_list_trans; [ | apply IH ].
    destruct ev as [ err n op | hI hS ]; simpl.
    + rewrite modules_emit_moduleError. apply same_but_state_list_refl.
    + destruct (timers mgr) as [ | [n k] rest ];
        [ apply same_but_state_list_refl | ].
      apply (recovery_timer_modules hI hS n k (with_timers rest mgr)).
Qed.

(** X10. Whenever [initializeModules], [startModules] or [stopModules]
    settles, with hooks that resolve or throw and do not call back into
    the manager, it has changed nothing of the registry but the state
    and the recorded error of modules: no module is added, removed,
    moved or replaced, and metadata, permissions, listeners and
    back-references stay as they were, so the registry keeps the shape
    that registration gives it. The same holds of every single
    iteration of their loops and of every run of the recovery
    supervisor (a [moduleError] reaching the manager, a recovery timer
    firing), hence also when timers fire between the iterations of a
    pass. *)
Theorem passes_change_only_states (hI hS hT : string -> Hook)
  (mgr : ModuleManager) :
  (forall r mgr', initializeModules hI hS mgr = Some (r, mgr') ->
     Forall2 same_but_state (modules mgr) (modules mgr')
     /\ (registry_ok mgr -> registry_ok mgr'))
  /\ (forall r mgr', startModules hS mgr = Some (r, mgr') ->
        Forall2 same_but_state (modules mgr) (modules mgr')
        /\ (registry_ok mgr -> registry_ok mgr'))
  /\ (forall r mgr', stopModules hT mgr = Some (r, mgr') ->
        Forall2 same_but_state (modules mgr) (modules mgr')
        /\ (registry_ok mgr -> registry_ok mgr'))
  /\ (forall module,
        Forall2 same_but_state (modules mgr)
          (modules (pass_step (initialize_step hI) mgr module))
        /\ Forall2 same_but_state (modules mgr)
             (modules (pass_step (start_step hS) mgr module))
        /\ Forall2 same_but_state (modules mgr)
             (modules (pass_step (stop_step hT) mgr module)))
  /\ (forall evs,
        Forall2 same_but_state (modules mgr) (modules (run_events evs mgr))
        /\ (registry_ok mgr -> registry_ok (run_events evs mgr))).
Proof.
  split_and!.
  - intros r mgr' H.
    destruct (initializeModules_changes hI hS mgr) as (r1 & mgr1 & H1 & H2 & _).
    rewrite H in H1. injection H1 as <- <-.
    split; [ exact H2 | apply registry_ok_same_but_state, H2 ].
  - intros r mgr' H.
    destruct (startModules_changes hS mgr) as (r1 & mgr1 & H1 & _ & H2).
    rewrite H in H1. injection H1 as <- <-.
    split; [ exact H2 | apply registry_ok_same_but_state, H2 ].
  - intros r mgr' H.
    destruct (stopModules_changes hT mgr) as (r1 & mgr1 & H1 & H2).
    rewrite H in H1. injection H1 as <- <-.
    split; [ exact H2 | apply registry_ok_same_but_state, H2 ].
  - intros module. split_and!.
    + apply (pass_step_changes _ _ (initialize_step_changes hI)).
    + apply (pass_step_changes _ _ (start_step_changes hS)).
    + apply (pass_step_changes _ _ (stop_step_changes hT)).
  - intros evs. pose proof (run_events_modules evs mgr) as H.
    split; [ exact H | apply registry_ok_same_but_state, H ].
Qed.

(** X16. [recoverModule(name)] does nothing and answers [false] when
    no module of that name is registered or the module has no error.
    For a registered module with an error it resets the module and
    calls [initialize] and [start]: it answers [true] exactly when both
    hooks resolve, and then the module is RUNNING without error and its
    recovery counter is cleared, and a recovery timer still pending for
    it does nothing when it fires; otherwise the module is in ERROR
    again. In both cases the other modules are untouched, and nothing
    of the module changes but its state and error. *)
Theorem recoverModule_spec (hI hS : Hook) (n : string) (mgr : ModuleManager) :
  (getModule n mgr = None -> recoverModule hI hS n mgr = (false, mgr))
  /\ (forall m, getModule n mgr = Some m -> hasError m = false ->
        recoverModule hI hS n mgr = (false, mgr))
  /\ (forall m, getModule n mgr = Some m -> hasError m = true ->
        let '(b, mgr') := recoverModule hI hS n mgr in
        (b = true <-> hI = None /\ hS = None)
        /\ (exists m', getModule n mgr' = Some m'
                       /\ same_but_state m m'
                       /\ _state m' = (if b then RUNNING else ERROR)
                       /\ hasError m' = negb b)
        /\ (forall n', n' <> n -> getModule n' mgr' = getModule n' mgr)
        /\ (b = true ->
            recoveryAttempts mgr' !! n = None
            /\ forall h1 h2 k, recovery_timer h1 h2 n k mgr' = mgr')).
Proof.
  split_and!.
  - intros Hget. unfold recoverModule. rewrite Hget. reflexivity.
  - intros m Hget Herr. unfold recoverModule. rewrite Hget, Herr. reflexivity.
  - intros m Hget Herr. unfold recoverModule. rewrite Hget, Herr. simpl negb.
    cbv iota.
    destruct (modules_get_Some _ _ _ Hget) as [Hname _]. subst n.
    destruct (reset_registered m mgr Hget) as (Hm1 & Hget1 & Hother1 & Hall1).
    destruct (reset m) as [m1 e1] eqn:Hreset. simpl in Hm1, Hget1, Hother1, Hall1.
    set (mgr1 := deliver m1 e1 (put m1 mgr)) in *.
    assert (name m1 = name m) as Hn1 by (rewrite Hm1; reflexivity).
    assert (same_but_state m m1) as Hs1 by (rewrite Hm1; split; reflexivity).
    rewrite <- Hm1 in Hget1. rewrite <- Hn1 in Hget1.
    pose proof (invoke_object_registered "initialize" (initialize hI) m1 mgr1
                  Hget1 (same_but_state_initialize hI m1)) as Hstep1.
    destruct (invoke_object "initialize" (initialize hI) m1 mgr1)
      as [[r2 m2] mgr2].
    destruct Hstep1 as (Hr2 & Hm2 & Hget2 & Hother2 & Hall2).
    assert (same_but_state m1 m2) as Hs2
      by (rewrite Hm2; apply same_but_state_initialize).
    assert (name m2 = name m1) as Hn2 by (apply same_but_state_name, Hs2).
    destruct hI as [errI | ].
    + (* onInitialize throws *)
      assert (r2 = Thrown errI) as -> by (rewrite Hr2, Hm1; reflexivity).
      split_and!.
      * split; [ discriminate | intros [H _]; discriminate H ].
      * exists m2. rewrite <- Hn1. split_and!.
        -- exact Hget2.
        -- eapply same_but_state_trans; eassumption.
        -- rewrite Hm2, Hm1. reflexivity.
        -- rewrite Hm2, Hm1. reflexivity.
      * intros n' Hn'. rewrite Hother2 by congruence. apply Hother1. congruence.
      * discriminate.
    + assert (r2 = Returned) as -> by (rewrite Hr2, Hm1; reflexivity).
      rewrite <- Hn2 in Hget2.
      pose proof (invoke_object_registered "start" (start hS) m2 mgr2
                    Hget2 (same_but_state_start hS m2)) as Hstep2.
      destruct (invoke_object "start" (start hS) m2 mgr2) as [[r3 m3] mgr3].
      destruct Hstep2 as (Hr3 & Hm3 & Hget3 & Hother3 & Hall3).
      assert (same_but_state m2 m3) as Hs3
        by (rewrite Hm3; apply same_but_state_start).
      assert (same_but_state m m3) as Hs
        by (eapply same_but_state_trans; [ | exact Hs3 ];
            eapply same_but_state_trans; eassumption).
      destruct hS as [errS | ].
      * assert (r3 = Thrown errS) as ->
          by (rewrite Hr3, Hm2, Hm1; reflexivity).
        split_and!.
        -- split; [ discriminate | intros [_ H]; discriminate H ].
        -- exists m3. rewrite <- Hn1, <- Hn2. split_and!.
           ++ exact Hget3.
           ++ exact Hs.
           ++ rewrite Hm3, Hm2, Hm1. reflexivity.
           ++ rewrite Hm3, Hm2, Hm1. reflexivity.
        -- intros n' Hn'. rewrite Hother3 by congruence.
           rewrite Hother2 by congruence. apply Hother1. congruence.
        -- discriminate.
      * assert (r3 = Returned) as ->
          by (rewrite Hr3, Hm2, Hm1; reflexivity).
        split_and!.
        -- split; auto.
        -- exists m3. rewrite <- Hn1, <- Hn2. split_and!.
           ++ exact Hget3.
           ++ exact Hs.
           ++ rewrite Hm3, Hm2, Hm1. reflexivity.
           ++ rewrite Hm3, Hm2, Hm1. reflexivity.
        -- intros n' Hn'. unfold getModule. simpl.
           change (modules_get n' (modules mgr3)) with (getModule n' mgr3).
           rewrite Hother3 by congruence.
           rewrite Hother2 by congruence. apply Hother1. congruence.
        -- intros _. split; [ simpl; apply lookup_delete_eq | ].
           intros h1 h2 k. unfold recovery_timer, getModule. simpl.
           unfold getModule in Hget3. rewrite <- Hn1, <- Hn2, Hget3.
           assert (hasError m3 = false) as ->
             by (rewrite Hm3, Hm2, Hm1; reflexivity).
           reflexivity.
Qed.

Lemma invoke_object_unregistered (op : string)
  (method : Module -> Outcome * Module * list Effect) (m : Module)
  (mgr : ModuleManager) :
  modules_has (name m) (modules mgr) = false ->
  let '(r, m', mgr') := invoke_object op method m mgr in
  r = (method m).1.1 /\ m' = (method m).1.2
  /\ modules mgr' = modules mgr.
Proof.
  intros Hhas. unfold invoke_object.
  destruct (method m) as [[r m'] effects].
  rewrite Hhas, modules_deliver. auto.
Qed.

Lemma same_but_state_restart (hT hS : Hook) (m : Module) :
  same_but_state m (restart hT hS m).1.2.
Proof.
  unfold restart.
  pose proof (same_but_state_stop hT m) as H1.
  destruct (stop hT m) as [[r1 m1] e1]. simpl in H1.
  destruct r1; [ | exact H1 ].
  pose proof (same_but_state_start hS m1) as H2.
  destruct (start hS m1) as [[r2 m2] e2]. simpl in *.
  eapply same_but_state_trans; eassumption.
Qed.

(** X17. [restartModule(name)] throws "Module ... not found" and
    changes nothing when no module of that name is registered.
    Otherwise it stops the module, then starts it: a RUNNING module
    whose hooks resolve is RUNNING again, and when its [onStop] throws
    [start] is not attempted and the module is in ERROR with that error;
    a module that is INITIALIZED or STOPPED is started, the refused
    [stop] only logging a warning; in any other state nothing changes
    and the call returns. The other modules are untouched. *)
Theorem restartModule_spec (hT hS : Hook) (n : string) (mgr : ModuleManager) :
  (getModule n mgr = None ->
   restartModule hT hS n mgr
   = (Thrown ("Module " +:+ n +:+ " not found"), mgr))
  /\ (forall m, getModule n mgr = Some m ->
        let '(r, mgr') := restartModule hT hS n mgr in
        exists m',
          getModule n mgr' = Some m'
          /\ same_but_state m m'
          /\ (forall n', n' <> n -> getModule n' mgr' = getModule n' mgr)
          /\ match _state m with
             | RUNNING =>
                 match hT, hS with
                 | Some err, _ | None, Some err =>
                     r = Thrown err /\ _state m' = ERROR
                     /\ _error m' = Some err
                 | None, None => r = Returned /\ _state m' = RUNNING
                 end
             | INITIALIZED | STOPPED =>
                 match hS with
                 | Some err =>
                     r = Thrown err /\ _state m' = ERROR
                     /\ _error m' = Some err
                 | None => r = Returned /\ _state m' = RUNNING
                 end
             | _ => r = Returned /\ m' = m
             end).
Proof.
  split.
  - intros Hget. unfold restartModule. rewrite Hget. reflexivity.
  - intros m Hget. unfold restartModule. rewrite Hget.
    destruct (modules_get_Some _ _ _ Hget) as [Hname _]. subst n.
    pose proof (invoke_object_registered "restart" (restart hT hS) m mgr
                  Hget (same_but_state_restart hT hS m)) as Hstep.
    destruct (invoke_object "restart" (restart hT hS) m mgr)
      as [[r m'] mgr'].
    destruct Hstep as (Hr & Hm & Hget' & Hother & _).
    exists m'. split_and!; [ exact Hget' | | exact Hother | ].
    + rewrite Hm. apply same_but_state_restart.
    + rewrite Hr, Hm. clear.
      destruct m as [md s e p mm el sl cp]. simpl.
      destruct s, hT, hS; cbn; auto.
Qed.

(** X18. [createModule] registers the new module and, when the manager
    is already initialized, initializes and starts it at once. For a
    module under a free name, newly constructed: on a manager not yet
    initialized an enabled module is registered and left UNINITIALIZED;
    on an initialized manager, with hooks that resolve, it is registered
    and RUNNING. A disabled module is not registered, yet on an
    initialized manager it is initialized and started all the same:
    the module returned is RUNNING and the registry does not hold it. *)
Theorem createModule_spec (instance : Module) (mgr : ModuleManager) :
  getModule (name instance) mgr = None ->
  _state instance = UNINITIALIZED ->
  let module := setModuleManager (on_stateChange (on_error instance)) in
  (disabled instance = false -> initialized mgr = false ->
   forall hI hS,
     createModule instance hI hS mgr
     = (Returned, with_modules (modules mgr ++ [module]) mgr, module))
  /\ (disabled instance = false -> initialized mgr = true ->
      let '(r, mgr', m') := createModule instance None None mgr in
      r = Returned /\ _state m' = RUNNING /\ same_but_state module m'
      /\ getModule (name instance) mgr' = Some m'
      /\ map name (modules mgr') = map name (modules mgr) ++ [name instance])
  /\ (disabled instance = true -> initialized mgr = true ->
      let '(r, mgr', m') := createModule instance None None mgr in
      r = Returned /\ _state m' = RUNNING /\ same_but_state instance m'
      /\ modules mgr' = modules mgr
      /\ getModule (name instance) mgr' = None).
Proof.
  intros Hfree Hstate. cbv zeta.
  assert (modules_has (name instance) (modules mgr) = false) as Hhas.
  { unfold modules_has. unfold getModule in Hfree. rewrite Hfree.
    reflexivity. }
  split_and!.
  - intros Hdis Hinit hI hS. unfold createModule, registerModule.
    rewrite Hhas, Hdis. simpl. rewrite Hinit.
    rewrite modules_set_fresh by exact Hhas. reflexivity.
  - intros Hdis Hinit.
    destruct (registerModule_fresh instance mgr Hdis Hfree) as [Hreg Hget].
    unfold createModule. rewrite Hreg. cbv zeta. simpl initialized.
    rewrite Hinit.
    set (module := setModuleManager (on_stateChange (on_error instance))) in *.
    set (mgr1 := with_modules (modules mgr ++ [module]) mgr) in *.
    pose proof (invoke_object_registered "initialize" (initialize None)
                  module mgr1 Hget (same_but_state_initialize None module))
      as Hstep1.
    destruct (invoke_object "initialize" (initialize None) module mgr1)
      as [[r2 m2] mgr2].
    destruct Hstep1 as (Hr2 & Hm2 & Hget2 & _ & Hall2).
    assert (_state module = UNINITIALIZED) as Hs0 by exact Hstate.
    assert (r2 = Returned /\ _state m2 = INITIALIZED) as [-> Hs2].
    { rewrite Hr2, Hm2. unfold initialize. rewrite Hs0. split; reflexivity. }
    assert (same_but_state module m2) as Hsame2
      by (rewrite Hm2; apply same_but_state_initialize).
    pose proof (same_but_state_name _ _ Hsame2) as Hn2.
    change (name module) with (name instance) in *.
    rewrite <- Hn2 in Hget2.
    pose proof (invoke_object_registered "start" (start None) m2 mgr2
                  Hget2 (same_but_state_start None m2)) as Hstep2.
    destruct (invoke_object "start" (start None) m2 mgr2)
      as [[r3 m3] mgr3].
    destruct Hstep2 as (Hr3 & Hm3 & Hget3 & _ & Hall3).
    assert (r3 = Returned /\ _state m3 = RUNNING) as [-> Hs3].
    { rewrite Hr3, Hm3. unfold start. rewrite Hs2. split; reflexivity. }
    split_and!.
    + reflexivity.
    + exact Hs3.
    + eapply same_but_state_trans; [ exact Hsame2 | ].
      rewrite Hm3. apply same_but_state_start.
    + rewrite <- Hn2. exact Hget3.
    + rewrite (same_but_state_list_names _ _ Hall3),
        (same_but_state_list_names _ _ Hall2).
      simpl. rewrite map_app. reflexivity.
  - intros Hdis Hinit. unfold createModule, registerModule.
    rewrite Hhas, Hdis, Hinit.
    pose proof (invoke_object_unregistered "initialize" (initialize None)
                  instance mgr Hhas) as Hstep1.
    destruct (invoke_object "initialize" (initialize None) instance mgr)
      as [[r2 m2] mgr2].
    destruct Hstep1 as (Hr2 & Hm2 & Hmod2).
    assert (r2 = Returned /\ _state m2 = INITIALIZED) as [-> Hs2].
    { rewrite Hr2, Hm2. unfold initialize. rewrite Hstate.
      split; reflexivity. }
    assert (same_but_state instance m2) as Hsame2
      by (rewrite Hm2; apply same_but_state_initialize).
    pose proof (same_but_state_name _ _ Hsame2) as Hn2.
    assert (modules_has (name m2) (modules mgr2) = false) as Hhas2
      by (rewrite Hn2, Hmod2; exact Hhas).
    pose proof (invoke_object_unregistered "start" (start None) m2 mgr2
                  Hhas2) as Hstep2.
    destruct (invoke_object "start" (start None) m2 mgr2)
      as [[r3 m3] mgr3].
    destruct Hstep2 as (Hr3 & Hm3 & Hmod3).
    assert (r3 = Returned /\ _state m3 = RUNNING) as [-> Hs3].
    { rewrite Hr3, Hm3. unfold start. rewrite Hs2. split; reflexivity. }
    split_and!.
    + reflexivity.
    + exact Hs3.
    + eapply same_but_state_trans; [ exact Hsame2 | ].
      rewrite Hm3. apply same_but_state_start.
    + congruence.
    + unfold getModule in *. rewrite Hmod3, Hmod2. exact Hfree.
Qed.

Lemma createModule_spec_witness :
  let instance := new_Module (disabled_metadata "Z") in
  let '(r, mgr', m') := createModule instance None None scenario1_started in
  r = Returned /\ _state m' = RUNNING
  /\ getModule "Z" mgr' = None.
Proof.
  cbv zeta.
  pose proof (proj2 (proj2 (createModule_spec
                              (new_Module (disabled_metadata "Z"))
                              scenario1_started eq_refl eq_refl))
                eq_refl eq_refl) as H.
  destruct (createModule _ None None scenario1_started) as [[r mgr'] m'].
  destruct H as (H1 & H2 & _ & _ & H5). auto.
Defined.

(** ** The cache of the manager *)

(** X19. What [setCachedData] stores is read back by [getCachedData]
    as long as its age does not exceed [maxAge] (60000 ms when absent),
    the cache being left as it is. A read at a greater age answers
    undefined and removes the entry, so that every later read of the
    key answers undefined, also one that allows a greater age, until the
    key is set again. Reading a key never changes what is stored under
    another key. *)
Theorem cache_expiry {A : Type} (key : string) (data : A) (t0 t1 t2 : Z)
  (maxAge maxAge' : option Z) (moduleCache : gmap string (Z * A)) :
  let cache0 := setCachedData t0 key data moduleCache in
  ((t1 - t0 <= default 60000 maxAge)%Z ->
   getCachedData t1 key maxAge cache0 = (Some data, cache0))
  /\ ((default 60000 maxAge < t1 - t0)%Z ->
      getCachedData t1 key maxAge cache0 = (None, delete key moduleCache)
      /\ (getCachedData t2 key maxAge' (getCachedData t1 key maxAge cache0).2).1
         = None)
  /\ (forall key', key' <> key ->
        (getCachedData t1 key maxAge cache0).2 !! key' = moduleCache !! key').
Proof.
  cbv zeta. unfold getCachedData, setCachedData.
  rewrite lookup_insert_eq. simpl.
  destruct (Z.ltb_spec (default 60000%Z maxAge) (t1 - t0)) as [Hlt | Hle].
  - split_and!.
    + lia.
    + intros _. rewrite delete_insert_eq. simpl.
      rewrite lookup_delete_eq. auto.
    + intros key' Hk. simpl. rewrite lookup_delete_ne by congruence.
      apply lookup_insert_ne. congruence.
  - split_and!.
    + reflexivity.
    + lia.
    + intros key' Hk. simpl. apply lookup_insert_ne. congruence.
Qed.

(** ** The memory inspector, again *)

Section InspectorSnapshots.

Context {F : Type} {ops : NumberOps F}.

Lemma snapshot_module_other (now : Z) (mu : MemoryUsage)
  (all : list Module) (insp : ModuleMemoryInspector F) (module : Module)
  (k : string) :
  (name module = k -> disabled module = true) ->
  snapshots_get k (snapshots (snapshot_module now mu all insp module))
  = snapshots_get k (snapshots insp).
Proof.
  intros Hk. unfold snapshot_module.
  destruct (disabled module) eqn:Hdis; [ reflexivity | ].
  simpl. rewrite snapshots_get_set.
  destruct (decide (name module = k)) as [Heq | ]; [ | reflexivity ].
  specialize (Hk Heq). discriminate Hk.
Qed.

Lemma snapshot_each_other (now : nat -> Z) (mu : MemoryUsage)
  (all ms : list Module) (k : string) :
  (forall m, m ∈ ms -> name m = k -> disabled m = true) ->
  forall (i : nat) (insp : ModuleMemoryInspector F),
    snapshots_get k (snapshots (snapshot_each now mu all i ms insp))
    = snapshots_get k (snapshots insp).
Proof.
  induction ms as [ | m ms IH ]; intros Hk i insp; simpl; [ reflexivity | ].
  rewrite IH by (intros m' Hm'; apply Hk; right; exact Hm').
  apply snapshot_module_other. apply Hk. left.
Qed.

(** X20. [takeSnapshot] leaves the ring of a name alone unless an
    enabled module of that name is among the modules it is given: a
    disabled module is never snapshotted, and no ring is created for
    it. *)
Theorem takeSnapshot_skips_disabled (now : nat -> Z) (mu : MemoryUsage)
  (modules : list Module) (insp : ModuleMemoryInspector F) (k : string) :
  (forall m, m ∈ modules -> name m = k -> disabled m = true) ->
  snapshots_get k (snapshots (takeSnapshot now mu modules insp))
  = snapshots_get k (snapshots insp).
Proof. intros Hk. apply snapshot_each_other, Hk. Qed.

Lemma snapshot_module_last (now : Z) (mu : MemoryUsage)
  (all : list Module) (insp : ModuleMemoryInspector F) (module : Module) :
  0 < maxSnapshots (options insp) -> disabled module = false ->
  exists ring,
    snapshots_get (name module)
      (snapshots (snapshot_module now mu all insp module)) = Some ring
    /\ last ring = Some (snapshot_for now mu all module).
Proof.
  intros Hmax Hdis. unfold snapshot_module. rewrite Hdis. simpl.
  rewrite snapshots_get_set. rewrite decide_True by reflexivity.
  eexists. split; [ reflexivity | ].
  fold (snapshot_for now mu all module).
  set (ring := default [] (snapshots_get (name module) (snapshots insp))).
  destruct (decide _) as [Hgt | Hle]; [ | apply last_snoc ].
  rewrite length_app in Hgt. simpl in Hgt.
  destruct ring as [ | s ring ]; [ simpl in Hgt; lia | ].
  simpl tail. apply last_snoc.
Qed.

Lemma snapshot_each_last (now : nat -> Z) (mu : MemoryUsage)
  (all ms : list Module) (m : Module) :
  NoDup (map name ms) -> disabled m = false ->
  forall (j i : nat) (insp : ModuleMemoryInspector F),
    ms !! j = Some m ->
    0 < maxSnapshots (options insp) ->
    exists ring,
      snapshots_get (name m)
        (snapshots (snapshot_each now mu all i ms insp))
      = Some ring
      /\ last ring = Some (snapshot_for (now (i + j)) mu all m).
Proof.
  intros Hnd Hdis.
  induction ms as [ | x ms IH ]; intros j i insp Hj Hmax.
  - discriminate Hj.
  - simpl in Hnd. apply NoDup_cons in Hnd as [Hx Hnd]. simpl.
    destruct j as [ | j ]; simpl in Hj.
    + injection Hj as ->. rewrite snapshot_each_other.
      * rewrite Nat.add_0_r. apply snapshot_module_last; assumption.
      * intros m' Hm' Hname. exfalso. apply Hx. rewrite <- Hname.
        apply list_elem_of_fmap. exists m'. auto.
    + replace (i + S j) with (S i + j) by lia.
      apply IH; [ exact Hnd | exact Hj | ].
      rewrite snapshot_module_options. exact Hmax.
Qed.

Lemma countReferences_dependents (m : Module) (all : list Module) :
  countReferences m all = dependents (name m) all.
Proof.
  unfold countReferences.
  induction all as [ | x all IH ]; [ reflexivity | ].
  simpl dependents. destruct (decide _) as [Hyes | Hno].
  - rewrite filter_cons_True by exact Hyes. simpl. rewrite IH. reflexivity.
  - rewrite filter_cons_False by exact Hno. rewrite IH. reflexivity.
Qed.

Lemma dependents_bound (n : string) (all : list Module) :
  dependents n all + length (filter (fun m => name m = n) all)
  <= length all.
Proof.
  induction all as [ | x all IH ]; [ simpl; lia | ].
  simpl dependents. simpl length.
  destruct (decide (name x = n)) as [Heq | Hne].
  - rewrite filter_cons_True by exact Heq.
    rewrite decide_False by (intros [H _]; contradiction). simpl. lia.
  - rewrite filter_cons_False by exact Hne.
    destruct (decide _); simpl; lia.
Qed.

Lemma dependents_zero (n : string) (all : list Module) :
  dependents n all = 0
  <-> forall other, other ∈ all -> name other <> n ->
                    n ∉ dependencies other.
Proof.
  induction all as [ | x all IH ]; simpl.
  - split; [ intros _ other H; inversion H | reflexivity ].
  - destruct (decide _) as [[Hne Hdep] | Hno]; split.
    + discriminate.
    + intros H. exfalso. apply (H x); [ left | exact Hne | exact Hdep ].
    + intros H other Hin Hother. simpl in H.
      apply elem_of_cons in Hin as [-> | Hin].
      * intros Hdep. apply Hno. split; assumption.
      * apply (proj1 IH H other Hin Hother).
    + intros H. simpl. apply IH. intros other Hin. apply H. right. exact Hin.
Qed.

(** X21. With room for at least one snapshot per ring and distinct
    module names, after [takeSnapshot] the newest snapshot of every
    enabled module it was given is the one pushed for it by this call:
    its timestamp is the reading of the clock in the iteration for that
    module, its heap counters are those read once at the start of the
    call ([arrayBuffers] being 0 when absent), and its reference count
    is the number of modules of other names that declare the module
    among their dependencies, which is less than the number of modules
    and is 0 exactly when no such module declares it. *)
Theorem takeSnapshot_pushes_current (now : nat -> Z) (mu : MemoryUsage)
  (modules : list Module) (insp : ModuleMemoryInspector F) (m : Module)
  (i : nat) :
  0 < maxSnapshots (options insp) ->
  NoDup (map name modules) ->
  modules !! i = Some m -> disabled m = false ->
  exists ring newest,
    snapshots_get (name m) (snapshots (takeSnapshot now mu modules insp))
    = Some ring
    /\ last ring = Some newest
    /\ timestamp newest = now i
    /\ heapUsed newest = mu_heapUsed mu
    /\ heapTotal newest = mu_heapTotal mu
    /\ external newest = mu_external mu
    /\ arrayBuffers newest = default 0%Z (mu_arrayBuffers mu)
    /\ references newest = dependents (name m) modules
    /\ references newest < length modules
    /\ (references newest = 0
        <-> forall other, other ∈ modules -> name other <> name m ->
                          name m ∉ dependencies other).
Proof.
  intros Hmax Hnd Hi Hdis. unfold takeSnapshot.
  destruct (snapshot_each_last now mu modules modules m Hnd Hdis i 0 insp
              Hi Hmax) as (ring & Hget & Hlast).
  exists ring, (snapshot_for (now i) mu modules m).
  assert (references (snapshot_for (now i) mu modules m)
          = dependents (name m) modules) as Href
    by apply countReferences_dependents.
  split_and!; try reflexivity; try assumption.
  - rewrite Href.
    pose proof (dependents_bound (name m) modules) as Hb.
    assert (0 < length (filter (fun x => name x = name m) modules)) as Hpos.
    { apply list_elem_of_lookup_2 in Hi.
      assert (m ∈ filter (fun x => name x = name m) modules) as Hin
        by (apply list_elem_of_filter; split; [ reflexivity | exact Hi ]).
      destruct (filter _ modules); [ inversion Hin | simpl; lia ]. }
    lia.
  - rewrite Href. apply dependents_zero.
Qed.

Lemma snapshots_get_None (k : string)
  (t : list (string * list ModuleMemorySnapshot)) :
  k ∉ map fst t -> snapshots_get k t = None.
Proof.
  induction t as [ | [k' v] t IH ]; intros Hk; simpl; [ reflexivity | ].
  apply not_elem_of_cons in Hk as [Hne Hk]. simpl in Hne.
  destruct (decide (k' = k)); [ congruence | apply IH, Hk ].
Qed.

Lemma snapshots_set_elem (n : string) (v : list ModuleMemorySnapshot)
  (t : list (string * list ModuleMemorySnapshot)) (e : string * list ModuleMemorySnapshot) :
  e ∈ snapshots_set n v t -> e = (n, v) \/ e ∈ t.
Proof.
  induction t as [ | [k' v'] t IH ]; simpl.
  - intros H. apply list_elem_of_singleton in H. left. exact H.
  - destruct (decide (k' = n)) as [-> | Hne]; intros H;
      apply elem_of_cons in H as [H | H].
    + left. exact H.
    + right. right. exact H.
    + right. rewrite H. left.
    + destruct (IH H) as [H' | H']; [ left; exact H' | right; right; exact H' ].
Qed.

Lemma snapshots_set_keys (n : string) (v : list ModuleMemorySnapshot)
  (t : list (string * list ModuleMemorySnapshot)) (k : string) :
  k ∈ map fst (snapshots_set n v t) -> k = n \/ k ∈ map fst t.
Proof.
  intros H. apply list_elem_of_fmap in H as (e & -> & He).
  apply snapshots_set_elem in He as [-> | He]; [ left; reflexivity | ].
  right. apply list_elem_of_fmap. exists e. auto.
Qed.

Lemma snapshot_each_single (now : nat -> Z) (mu : MemoryUsage)
  (all ms : list Module) :
  NoDup (map name ms) ->
  forall (i : nat) (insp : ModuleMemoryInspector F),
    (forall e, e ∈ snapshots insp -> length e.2 <= 1) ->
    (forall k, k ∈ map fst (snapshots insp) -> k ∉ map name ms) ->
    forall e,
      e ∈ snapshots (snapshot_each now mu all i ms insp) ->
      length e.2 <= 1.
Proof.
  induction ms as [ | m ms IH ]; intros Hnd i insp Hlen Hkeys; simpl.
  - exact Hlen.
  - simpl in Hnd. apply NoDup_cons in Hnd as [Hm Hnd].
    apply IH; [ exact Hnd | | ].
    + unfold snapshot_module. destruct (disabled m); [ exact Hlen | ].
      simpl. intros e He. apply snapshots_set_elem in He as [-> | He];
        [ | apply Hlen, He ].
      rewrite snapshots_get_None by (intros H; apply (Hkeys _ H); left).
      simpl. destruct (decide _); simpl; lia.
    + unfold snapshot_module. destruct (disabled m).
      * intros k Hk Hin. apply (Hkeys k Hk). right. exact Hin.
      * simpl. intros k Hk Hin.
        apply snapshots_set_keys in Hk as [-> | Hk]; [ contradiction | ].
        apply (Hkeys k Hk). right. exact Hin.
Qed.

(** X22. One snapshot is not enough for the analysis: after
    [clearSnapshots], as for a new inspector, a single [takeSnapshot]
    leaves at most one snapshot in each ring, and
    [analyzeMemoryUsage] reports nothing, whatever the thresholds and
    the heap counters. Module names are taken to be distinct. *)
Theorem analysis_needs_two_snapshots (now : nat -> Z) (mu : MemoryUsage)
  (modules : list Module) (insp : ModuleMemoryInspector F) :
  NoDup (map name modules) ->
  let insp' := takeSnapshot now mu modules (clearSnapshots insp) in
  (forall n ring, snapshots_get n (snapshots insp') = Some ring ->
                  length ring <= 1)
  /\ analyzeMemoryUsage insp' = [].
Proof.
  intros Hnd. cbv zeta. unfold takeSnapshot.
  pose proof (snapshot_each_single now mu modules modules Hnd 0
                (clearSnapshots insp)
                ltac:(intros e He; inversion He)
                ltac:(intros k Hk; inversion Hk)) as Hlen.
  set (insp' := snapshot_each now mu modules 0 modules
                  (clearSnapshots insp)) in *.
  split.
  - intros n ring Hget.
    assert ((n, ring) ∈ snapshots insp') as Hin.
    { clear Hlen. induction (snapshots insp') as [ | [k v] t IH ];
        [ discriminate Hget | ].
      simpl in Hget. destruct (decide (k = n)) as [-> | Hne].
      - injection Hget as ->. left.
      - right. apply IH, Hget. }
    apply (Hlen _ Hin).
  - unfold analyzeMemoryUsage.
    induction (snapshots insp') as [ | [k v] t IH ]; [ reflexivity | ].
    rewrite omap_cons_match.
    assert (analyze_entry (thresholds (options insp')) (k, v) = None) as ->.
    { unfold analyze_entry.
      pose proof (Hlen (k, v) ltac:(left)) as Hv. simpl in Hv.
      rewrite decide_True by lia. reflexivity. }
    apply IH. intros e He. apply Hlen. right. exact He.
Qed.

End InspectorSnapshots.

Lemma takeSnapshot_skips_disabled_witness :
  snapshots_get "Z"
    (snapshots (takeSnapshot (ticking 0) sample_usage
                  [new_Module (disabled_metadata "Z")] small_inspector))
  = None.
Proof.
  rewrite (takeSnapshot_skips_disabled (ticking 0) sample_usage
             [new_Module (disabled_metadata "Z")] small_inspector "Z").
  - reflexivity.
  - intros m Hm _. apply list_elem_of_singleton in Hm. subst m. reflexivity.
Defined.

Lemma takeSnapshot_pushes_current_witness :
  exists ring newest,
    snapshots_get "C"
      (snapshots (takeSnapshot (ticking 1700000000000) sample_usage
                    (modules scenario1) small_inspector)) = Some ring
    /\ last ring = Some newest
    /\ timestamp newest = 1700000000002%Z
    /\ heapUsed newest = 100%Z
    /\ references newest = 2.
Proof.
  destruct (takeSnapshot_pushes_current (ticking 1700000000000) sample_usage
              (modules scenario1) small_inspector module_C 2)
    as (ring & newest & H1 & H2 & H3 & H4 & _ & _ & _ & H5 & _).
  - simpl. lia.
  - simpl. distinct_names.
  - reflexivity.
  - reflexivity.
  - exists ring, newest. split_and!; try assumption.
Defined.

Lemma analysis_needs_two_snapshots_witness :
  analyzeMemoryUsage
    (takeSnapshot (ticking 0) sample_usage (modules scenario1)
       (clearSnapshots scenario5)) = [].
Proof.
  apply (analysis_needs_two_snapshots (ticking 0) sample_usage
           (modules scenario1) scenario5).
  simpl. distinct_names.
Defined.

(** ** The health tracker *)

Section HealthTracker.

Context {T : Type} {dops : DurationOps T}.

Lemma metrics_get_Some (n : string) (m : ModuleMetrics T)
  (ms : list (ModuleMetrics T)) :
  metrics_get n ms = Some m -> mm_name m = n /\ m ∈ ms.
Proof.
  unfold metrics_get. intros H. apply find_some in H as [Hin Hn].
  apply bool_decide_eq_true in Hn. split; [ exact Hn | ].
  apply list_elem_of_In, Hin.
Qed.

Lemma metrics_get_None (n : string) (ms : list (ModuleMetrics T)) :
  metrics_get n ms = None <-> n ∉ map mm_name ms.
Proof.
  unfold metrics_get. induction ms as [ | x ms IH ]; simpl.
  - split; [ intros _ H; inversion H | reflexivity ].
  - destruct (bool_decide (mm_name x = n)) eqn:E.
    + apply bool_decide_eq_true in E. split; [ discriminate | ].
      intros H. exfalso. apply H. rewrite E. left.
    + apply bool_decide_eq_false in E. rewrite IH. split.
      * intros H H'. apply elem_of_cons in H' as [H' | H']; [ congruence | tauto ].
      * intros H H'. apply H. right. exact H'.
Qed.

Lemma metrics_get_set_eq (m : ModuleMetrics T) (ms : list (ModuleMetrics T)) :
  metrics_get (mm_name m) (metrics_set m ms) = Some m.
Proof.
  unfold metrics_get. induction ms as [ | x ms IH ]; simpl.
  - rewrite bool_decide_eq_true_2 by reflexivity. reflexivity.
  - destruct (bool_decide (mm_name x = mm_name m)) eqn:E; simpl.
    + rewrite bool_decide_eq_true_2 by reflexivity. reflexivity.
    + rewrite E. exact IH.
Qed.

Lemma metrics_set_names (m : ModuleMetrics T) (ms : list (ModuleMetrics T)) :
  map mm_name (metrics_set m ms)
  = if decide (mm_name m ∈ map mm_name ms) then map mm_name ms
    else map mm_name ms ++ [mm_name m].
Proof.
  induction ms as [ | x ms IH ].
  - destruct (decide _) as [H | H]; [ inversion H | reflexivity ].
  - cbn [metrics_set map].
    destruct (bool_decide (mm_name x = mm_name m)) eqn:E; cbn [map].
    + apply bool_decide_eq_true in E.
      rewrite decide_True by (rewrite E; left). rewrite E. reflexivity.
    + apply bool_decide_eq_false in E. rewrite IH.
      destruct (decide (mm_name m ∈ map mm_name ms)) as [Hin | Hnin].
      * rewrite decide_True by (right; exact Hin). reflexivity.
      * rewrite decide_False; [ reflexivity | ].
        intros H. apply elem_of_cons in H as [H | H]; [ congruence | tauto ].
Qed.

Lemma metrics_set_elem (m x : ModuleMetrics T) (ms : list (ModuleMetrics T)) :
  x ∈ metrics_set m ms -> x = m \/ x ∈ ms.
Proof.
  induction ms as [ | y ms IH ]; simpl.
  - intros H. apply list_elem_of_singleton in H. left. exact H.
  - destruct (bool_decide (mm_name y = mm_name m)); intros H;
      apply elem_of_cons in H as [H | H].
    + left. exact H.
    + right. right. exact H.
    + right. rewrite H. left.
    + destruct (IH H) as [H' | H']; [ left; exact H' | right; right; exact H' ].
Qed.

Lemma metrics_set_inv (m : ModuleMetrics T) (ms : list (ModuleMetrics T)) :
  NoDup (map mm_name ms) -> (forall x, x ∈ ms -> metrics_ok x) ->
  metrics_ok m ->
  NoDup (map mm_name (metrics_set m ms))
  /\ (forall x, x ∈ metrics_set m ms -> metrics_ok x).
Proof.
  intros Hnd Hok Hm. split.
  - rewrite metrics_set_names. destruct (decide _) as [Hin | Hnin];
      [ exact Hnd | ].
    apply NoDup_app. split_and!; [ exact Hnd | | apply NoDup_singleton ].
    intros n Hn Hn'. apply list_elem_of_singleton in Hn'. congruence.
  - intros x Hx. apply metrics_set_elem in Hx as [-> | Hx]; auto.
Qed.

Lemma new_metrics_ok (n : string) (s : ModuleState) :
  metrics_ok {| mm_name := n; mm_initialize := new_OperationMetrics;
                mm_start := new_OperationMetrics;
                mm_stop := new_OperationMetrics; mm_lastState := s;
                mm_errorCount := 0; mm_lastErrorTime := None |}.
Proof.
  split.
  - intros []; simpl; lia.
  - simpl. lia.
  - intros []; simpl; split; split; reflexivity.
Qed.

Lemma getOrCreateMetrics_inv (module : Module) (ms0 : list (ModuleMetrics T)) :
  NoDup (map mm_name ms0) -> (forall x, x ∈ ms0 -> metrics_ok x) ->
  let '(m, ms) := getOrCreateMetrics module ms0 in
  mm_name m = name module /\ metrics_ok m
  /\ NoDup (map mm_name ms) /\ (forall x, x ∈ ms -> metrics_ok x)
  /\ match metrics_get (name module) ms0 with
     | Some m0 =>
         m = m0 /\ ms = ms0
     | None =>
         om_count (mm_initialize m) = 0 /\ om_count (mm_start m) = 0
         /\ om_count (mm_stop m) = 0
         /\ om_failures (mm_initialize m) = 0 /\ om_failures (mm_start m) = 0
         /\ om_failures (mm_stop m) = 0 /\ mm_errorCount m = 0
     end.
Proof.
  intros Hnd Hok. unfold getOrCreateMetrics.
  destruct (metrics_get (name module) ms0) as [m | ] eqn:Hget.
  - destruct (metrics_get_Some _ _ _ Hget) as [Hn Hin].
    split_and!; auto.
  - pose proof (new_metrics_ok (name module) (getState module)) as Hnew.
    destruct (metrics_set_inv _ ms0 Hnd Hok Hnew) as [H1 H2].
    split_and!; auto.
Qed.

Lemma trackEnd_metrics_ok (success : bool) (dateNow : Z) (s : ModuleState)
  (operation : Operation) (duration avg : T) (total : T)
  (m : ModuleMetrics T) :
  metrics_ok m ->
  let o := operations m operation in
  let o' := {| om_count := S (om_count o);
               om_totalDuration := total;
               om_failures := if success then om_failures o
                              else S (om_failures o);
               om_lastDuration := Some duration;
               om_avgDuration := Some avg |} in
  let m1 := with_operation operation o' m in
  metrics_ok
    {| mm_name := mm_name m1; mm_initialize := mm_initialize m1;
       mm_start := mm_start m1; mm_stop := mm_stop m1;
       mm_lastState := s;
       mm_errorCount := if success then mm_errorCount m1
                        else S (mm_errorCount m1);
       mm_lastErrorTime := if success then mm_lastErrorTime m1
                           else Some dateNow |}.
Proof.
  intros [Hf He Hd]. cbv zeta.
  pose proof (Hf op_initialize) as Hfi. pose proof (Hf op_start) as Hfs.
  pose proof (Hf op_stop) as Hft.
  pose proof (Hd op_initialize) as Hdi. pose proof (Hd op_start) as Hds.
  pose proof (Hd op_stop) as Hdt.
  simpl in Hfi, Hfs, Hft, Hdi, Hds, Hdt.
  split.
  - intros op. destruct operation, op, success; simpl; lia.
  - destruct operation, success; simpl; lia.
  - intros op.
    destruct operation, op; simpl; try assumption;
      split; split; discriminate.
Qed.

Lemma health_call_inv (c : HealthCall T) (h : ModuleHealth T) :
  NoDup (map mm_name (metrics h)) ->
  (forall x, x ∈ metrics h -> metrics_ok x) ->
  NoDup (map mm_name (metrics (health_call c h)))
  /\ (forall x, x ∈ metrics (health_call c h) -> metrics_ok x).
Proof.
  intros Hnd Hok.
  destruct c as [now module operation
                | now dateNow module operation success
                | dateNow module]; simpl.
  - split; assumption.
  - unfold trackEnd.
    destruct (startTimes h !! start_key module operation) as [startTime | ];
      [ | split; assumption ].
    destruct (falsy startTime); [ split; assumption | ].
    pose proof (getOrCreateMetrics_inv module (metrics h) Hnd Hok) as Hg.
    destruct (getOrCreateMetrics module (metrics h)) as [m ms].
    destruct Hg as (_ & Hm & Hnd' & Hok' & _).
    simpl. apply metrics_set_inv; [ exact Hnd' | exact Hok' | ].
    apply trackEnd_metrics_ok, Hm.
  - unfold trackError.
    pose proof (getOrCreateMetrics_inv module (metrics h) Hnd Hok) as Hg.
    destruct (getOrCreateMetrics module (metrics h)) as [m ms].
    destruct Hg as (_ & [Hf He Hd] & Hnd' & Hok' & _).
    simpl. apply metrics_set_inv; [ exact Hnd' | exact Hok' | ].
    split.
    + intros op. specialize (Hf op). destruct op; exact Hf.
    + simpl. lia.
    + intros op. specialize (Hd op). destruct op; exact Hd.
Qed.

(** X23. The counters of the health tracker stay consistent under any
    sequence of [trackStart], [trackEnd] and [trackError] calls on a
    new tracker, or after [resetMetrics]: there is one entry per module
    name; in each entry an operation has failed no more often than it
    was counted, the failures of the three operations together do not
    exceed the error count of the module, and an operation has an
    average and a last duration exactly when its count is not 0. *)
Theorem health_counters_consistent (h0 : ModuleHealth T)
  (calls : list (HealthCall T)) :
  let h := track_all calls (resetMetrics h0) in
  NoDup (map mm_name (getMetrics h))
  /\ (forall m, m ∈ getMetrics h -> metrics_ok m).
Proof.
  cbv zeta. unfold track_all, getMetrics.
  induction calls as [ | c calls IH ] using rev_ind.
  - simpl. split; [ apply NoDup_nil_2 | intros m Hm; inversion Hm ].
  - rewrite fold_left_app. simpl. destruct IH as [H1 H2].
    apply health_call_inv; assumption.
Qed.

Lemma trackEnd_started (h : ModuleHealth T) (module : Module)
  (operation : Operation) (t0 t1 : T) (dateNow : Z) (success : bool) :
  startTimes h !! start_key module operation = Some t0 ->
  falsy t0 = false ->
  let h1 := trackEnd t1 dateNow module operation success h in
  startTimes h1 = delete (start_key module operation) (startTimes h)
  /\ counters h1 (name module) operation
     = (let '(count, failures, errors) :=
          counters h (name module) operation in
        (S count,
         failures + (if success then 0 else 1),
         errors + (if success then 0 else 1)))
  /\ (exists m, getModuleMetrics (name module) h1 = Some m
                /\ om_lastDuration (operations m operation)
                   = Some (fsub t1 t0)).
Proof.
  intros Hkey Ht0. cbv zeta. unfold trackEnd. rewrite Hkey, Ht0.
  unfold counters, getModuleMetrics, getOrCreateMetrics.
  destruct (metrics_get (name module) (metrics h)) as [m | ] eqn:Hget.
  - destruct (metrics_get_Some _ _ _ Hget) as [Hn _]. simpl.
    set (m2 := {| mm_name := _ |}).
    assert (metrics_get (name module) (metrics_set m2 (metrics h))
            = Some m2) as Hget2.
    { rewrite <- Hn. change (mm_name m) with (mm_name m2).
      apply metrics_get_set_eq. }
    rewrite Hget2. split_and!.
    + reflexivity.
    + destruct operation, success; simpl; repeat f_equal; lia.
    + exists m2. split; [ reflexivity | ].
      destruct operation; reflexivity.
  - simpl.
    set (m2 := {| mm_name := _ |}).
    set (m0 := {| mm_name := name module;
                  mm_initialize := new_OperationMetrics |}).
    assert (metrics_get (name module)
              (metrics_set m2 (metrics_set m0 (metrics h)))
            = Some m2) as Hget2.
    { change (name module) with (mm_name m2) at 1.
      apply metrics_get_set_eq. }
    rewrite Hget2. split_and!.
    + reflexivity.
    + destruct operation, success; reflexivity.
    + exists m2. split; [ reflexivity | ].
      destruct operation; reflexivity.
Qed.

(** X24. An operation is counted once per [trackStart]: [trackEnd]
    without a pending start time for the module and operation does
    nothing. After [trackStart] at a time that is not 0, [trackEnd]
    adds one to the count of the operation, records the duration as the
    difference of the two times, and on failure adds one to the
    failures of the operation and to the errors of the module; a second
    [trackEnd] for the same start then does nothing. *)
Theorem trackEnd_counts_once (h : ModuleHealth T) (module : Module)
  (operation : Operation) (t0 t1 t2 : T) (dateNow dateNow' : Z)
  (success success' : bool) :
  (startTimes h !! start_key module operation = None ->
   trackEnd t1 dateNow module operation success h = h)
  /\ (falsy t0 = false ->
      let h1 := trackEnd t1 dateNow module operation success
                  (trackStart t0 module operation h) in
      counters h1 (name module) operation
      = (let '(count, failures, errors) :=
           counters h (name module) operation in
         (S count,
          failures + (if success then 0 else 1),
          errors + (if success then 0 else 1)))
      /\ (exists m, getModuleMetrics (name module) h1 = Some m
                    /\ om_lastDuration (operations m operation)
                       = Some (fsub t1 t0))
      /\ trackEnd t2 dateNow' module operation success' h1 = h1).
Proof.
  split.
  - intros Hnone. unfold trackEnd. rewrite Hnone. reflexivity.
  - intros Ht0. cbv zeta.
    destruct (trackEnd_started (trackStart t0 module operation h) module
                operation t0 t1 dateNow success
                ltac:(apply lookup_insert_eq) Ht0) as (Hst & Hc & Hm).
    split_and!; [ exact Hc | exact Hm | ].
    set (h1 := trackEnd t1 dateNow module operation success
                 (trackStart t0 module operation h)) in *.
    unfold trackEnd. rewrite Hst, lookup_delete_eq. reflexivity.
Qed.

Lemma insert_by_errorCount_perm (x : ModuleMetrics T)
  (l : list (ModuleMetrics T)) :
  insert_by_errorCount x l ≡ₚ x :: l.
Proof.
  induction l as [ | y l IH ]; simpl; [ reflexivity | ].
  destruct (_ <? _)%nat; [ | reflexivity ].
  rewrite IH. apply Permutation_swap.
Qed.

Lemma ranking_perm (l : list (ModuleMetrics T)) :
  foldr insert_by_errorCount [] l ≡ₚ l.
Proof.
  induction l as [ | x l IH ]; simpl; [ reflexivity | ].
  rewrite insert_by_errorCount_perm, IH. reflexivity.
Qed.

Lemma insert_by_errorCount_sorted (x : ModuleMetrics T)
  (l : list (ModuleMetrics T)) :
  StronglySorted (fun a b => mm_errorCount b <= mm_errorCount a) l ->
  StronglySorted (fun a b => mm_errorCount b <= mm_errorCount a)
    (insert_by_errorCount x l).
Proof.
  induction 1 as [ | y l Hs IH Hy ]; simpl.
  - repeat constructor.
  - destruct (Nat.ltb_spec (mm_errorCount x) (mm_errorCount y)) as [Hlt | Hge].
    + constructor; [ exact IH | ].
      rewrite insert_by_errorCount_perm. constructor; [ lia | exact Hy ].
    + constructor; [ constructor; assumption | ].
      constructor; [ exact Hge | ].
      eapply Forall_impl; [ exact Hy | ]. simpl. intros z Hz. lia.
Qed.

Lemma total_errors (l : list (ModuleMetrics T)) :
  forall a, fold_left (fun sum m => sum + mm_errorCount m) l a = 0
            <-> a = 0 /\ forall m, m ∈ l -> mm_errorCount m = 0.
Proof.
  induction l as [ | x l IH ]; intros a; simpl.
  - split; [ intros ->; split; [ reflexivity | intros m H; inversion H ]
           | intros [-> _]; reflexivity ].
  - rewrite IH. split.
    + intros [Ha Hl]. split; [ lia | ].
      intros m Hm. apply elem_of_cons in Hm as [-> | Hm]; [ lia | auto ].
    + intros [-> Hl]. split.
      * rewrite (Hl x) by left. reflexivity.
      * intros m Hm. apply Hl. right. exact Hm.
Qed.

(** X25. [getMostErrorProneModules] lists exactly the entries with at
    least one error, each once, in order of descending error count; and
    the system is reported healthy exactly when that list is empty,
    that is when no entry has an error. *)
Theorem error_ranking (h : ModuleHealth T) :
  getMostErrorProneModules h
  ≡ₚ filter (fun m => 0 < mm_errorCount m) (getMetrics h)
  /\ StronglySorted (fun a b => mm_errorCount b <= mm_errorCount a)
       (getMostErrorProneModules h)
  /\ (forall m, m ∈ getMostErrorProneModules h
                <-> m ∈ getMetrics h /\ 0 < mm_errorCount m)
  /\ (healthy (getSystemHealth h) = true
      <-> getMostErrorProneModules h = []).
Proof.
  unfold getMostErrorProneModules.
  pose proof (ranking_perm
                (filter (fun m => 0 < mm_errorCount m) (getMetrics h)))
    as Hperm.
  split_and!.
  - exact Hperm.
  - induction (filter _ (getMetrics h)) as [ | x l IH ]; simpl.
    + constructor.
    + apply insert_by_errorCount_sorted, IH.
      apply ranking_perm.
  - intros m. rewrite Hperm. rewrite list_elem_of_filter. tauto.
  - unfold getSystemHealth. simpl. rewrite bool_decide_eq_true.
    rewrite total_errors. split.
    + intros [_ Hall]. rewrite filter_none; [ reflexivity | ].
      intros m Hm. rewrite (Hall m Hm). lia.
    + intros Hnil. split; [ reflexivity | ]. intros m Hm.
      rewrite Hnil in Hperm. symmetry in Hperm.
      apply Permutation_nil_r in Hperm.
      pose proof (filter_nil_not_elem_of _ _ m Hperm) as Hno.
      destruct (mm_errorCount m) eqn:E; [ reflexivity | ].
      exfalso. apply Hno; [ simpl; lia | exact Hm ].
Qed.

End HealthTracker.

(** ** Priorities *)

Lemma for_deps_unregistered
  (rec : string -> SortState -> Result SortState) (reg : list Module)
  (deps : list string) (st : SortState) :
  (forall d, d ∈ deps -> modules_has d reg = false) ->
  for_deps rec reg deps st = Ok st.
Proof.
  induction deps as [ | d deps IH ]; intros Hd; simpl; [ reflexivity | ].
  rewrite (Hd d) by left. apply IH. intros d' Hd'. apply Hd. right. exact Hd'.
Qed.

Lemma visit_independent (reg : list Module) (fuel : nat) (n : string)
  (m : Module) (st : SortState) :
  n ∉ visited st -> visiting st = [] ->
  modules_get n reg = Some m ->
  (forall d, d ∈ dependencies m -> modules_has d reg = false) ->
  visit reg (S fuel) n st
  = Ok {| visited := {[n]} ∪ visited st; visiting := [];
          sorted := sorted st ++ [m] |}.
Proof.
  intros Hv Hvis Hget Hdeps. rewrite visit_unfold.
  rewrite decide_False by exact Hv.
  rewrite Hvis. rewrite decide_False by (intros H; inversion H).
  rewrite Hget, for_deps_unregistered by exact Hdeps. simpl.
  rewrite set_add_fresh by (intros H; inversion H).
  rewrite (set_delete_snoc n []) by (intros H; inversion H). reflexivity.
Qed.

Lemma seed_independent (reg : list Module) (fuel : nat) (l : list Module) :
  NoDup (map name l) ->
  (forall m, m ∈ l ->
     modules_get (name m) reg = Some m
     /\ forall d, d ∈ dependencies m -> modules_has d reg = false) ->
  forall st,
    (forall m, m ∈ l -> name m ∉ visited st) -> visiting st = [] ->
    exists st', seed reg (S fuel) (map name l) st = Ok st'
                /\ sorted st' = sorted st ++ l.
Proof.
  induction l as [ | x l IH ]; intros Hnd Hl st Hv Hvis.
  - exists st. split; [ reflexivity | ]. rewrite app_nil_r. reflexivity.
  - simpl in Hnd. apply NoDup_cons in Hnd as [Hx Hnd].
    cbn [map seed]. rewrite decide_False by (apply Hv; left).
    destruct (Hl x ltac:(left)) as [Hget Hdeps].
    rewrite (visit_independent reg fuel (name x) x st
               ltac:(apply Hv; left) Hvis Hget Hdeps).
    destruct (IH Hnd ltac:(intros m Hm; apply Hl; right; exact Hm)
                {| visited := {[name x]} ∪ visited st; visiting := [];
                   sorted := sorted st ++ [x] |}) as (st' & Hseed & Hsorted).
    + intros m Hm. simpl. intros Hin.
      apply elem_of_union in Hin as [Hin | Hin].
      * apply elem_of_singleton in Hin. apply Hx. rewrite <- Hin.
        apply list_elem_of_fmap. exists m. auto.
      * apply (Hv m); [ right; exact Hm | exact Hin ].
    + reflexivity.
    + exists st'. split; [ exact Hseed | ].
      rewrite Hsorted. simpl. rewrite <- app_assoc. reflexivity.
Qed.

Lemma priority_or_0_priority (m : Module) : priority_or_0 m = priority m.
Proof. unfold priority_or_0. destruct (decide _); congruence. Qed.

Lemma insert_by_priority_sorted (x : Module) (l : list Module) :
  StronglySorted (fun a b => (priority b <= priority a)%Z) l ->
  StronglySorted (fun a b => (priority b <= priority a)%Z)
    (insert_by_priority x l).
Proof.
  induction 1 as [ | y l Hs IH Hy ]; simpl.
  - repeat constructor.
  - rewrite !priority_or_0_priority.
    destruct (Z.gtb_spec (priority y - priority x) 0) as [Hgt | Hle].
    + constructor; [ exact IH | ].
      rewrite insert_by_priority_perm. constructor; [ lia | exact Hy ].
    + constructor; [ constructor; assumption | ].
      constructor; [ lia | ].
      eapply Forall_impl; [ exact Hy | ]. simpl. intros z Hz. lia.
Qed.

(** X26. Among modules that wait for no registered module, the priority
    alone decides: when no dependency that a module declares is
    registered (in particular when no module declares any), the order
    [sortModulesByDependencies] returns is the registry sorted by
    descending priority, a module without priority counting as 50.
    Module names are taken to be distinct. *)
Theorem priority_orders_independent_modules (mgr : ModuleManager) :
  NoDup (map name (modules mgr)) ->
  (forall m d, m ∈ modules mgr -> d ∈ dependencies m ->
               modules_has d (modules mgr) = false) ->
  sortModulesByDependencies mgr = Ok (modulesByPriority (modules mgr))
  /\ modulesByPriority (modules mgr) ≡ₚ modules mgr
  /\ StronglySorted (fun a b => (priority b <= priority a)%Z)
       (modulesByPriority (modules mgr)).
Proof.
  intros Hnd Hdeps. split_and!.
  - unfold sortModulesByDependencies.
    pose proof (modulesByPriority_perm (modules mgr)) as Hperm.
    assert (NoDup (map name (modulesByPriority (modules mgr)))) as Hnd'.
    { change (map name (modulesByPriority (modules mgr)))
        with (name <$> modulesByPriority (modules mgr)).
      rewrite Hperm. exact Hnd. }
    assert (forall m, m ∈ modulesByPriority (modules mgr) ->
              modules_get (name m) (modules mgr) = Some m
              /\ forall d, d ∈ dependencies m ->
                           modules_has d (modules mgr) = false) as Hl.
    { intros m Hm. rewrite Hperm in Hm. split.
      - apply modules_get_unique; assumption.
      - intros d Hd. apply (Hdeps m d); assumption. }
    destruct (seed_independent (modules mgr) (length (modules mgr))
                (modulesByPriority (modules mgr)) Hnd' Hl
                {| visited := ∅; visiting := []; sorted := [] |}
                ltac:(intros m _; simpl; apply not_elem_of_empty) eq_refl)
      as (st' & Hseed & Hsorted).
    rewrite Hseed, Hsorted. reflexivity.
  - apply modulesByPriority_perm.
  - unfold modulesByPriority. clear Hnd Hdeps.
    induction (modules mgr) as [ | x l IH ]; simpl.
    + constructor.
    + apply insert_by_priority_sorted, IH.
Qed.

Lemma priority_orders_independent_modules_witness :
  let high := {| md_name := "high"; md_version := "1.0.0";
                 md_dependencies := Some ["absent"]; md_disabled := None;
                 md_priority := Some 90%Z |} in
  let mgr := registry_of [new_Module (demo_metadata "plain" []);
                          new_Module high] in
  map name (modulesByPriority (modules mgr)) = ["high"; "plain"]
  /\ sortModulesByDependencies mgr = Ok (modulesByPriority (modules mgr)).
Proof.
  cbv zeta. split; [ reflexivity | ].
  apply priority_orders_independent_modules.
  - simpl. distinct_names.
  - intros m d Hm Hd. simpl in Hm.
    apply elem_of_cons in Hm as [-> | Hm].
    + inversion Hd.
    + apply list_elem_of_singleton in Hm. subst m. simpl in Hd.
      apply list_elem_of_singleton in Hd. subst d. reflexivity.
Defined.

(** ** A failure is reported twice *)

Lemma name_nonempty (m : Module) : name m <> "".
Proof. unfold name. destruct (decide _); [ discriminate | assumption ]. Qed.

Lemma attemptModuleRecovery_spec (n : string) (mgr : ModuleManager) :
  let c := counter mgr n in
  let k := maxAttempts (recoveryOptions mgr) in
  let mgr' := attemptModuleRecovery n mgr in
  recoveryOptions mgr' = recoveryOptions mgr
  /\ counter mgr' n = (if decide (k <= c) then c else S c)
  /\ exists a, trace mgr' = trace mgr ++ [a]
               /\ module_errors n [a] = 0
               /\ scheduled n [a] = (if decide (k <= c) then 0 else 1).
Proof.
  cbv zeta. unfold attemptModuleRecovery, counter.
  destruct (decide _) as [Hle | Hgt].
  - split_and!; [ reflexivity | reflexivity | ].
    eexists. split_and!; reflexivity.
  - split_and!; [ reflexivity | | ].
    + simpl. rewrite lookup_insert_eq. simpl. lia.
    + eexists. split_and!; [ reflexivity | reflexivity | ].
      simpl. rewrite decide_True by reflexivity. reflexivity.
Qed.

Lemma emit_moduleError_spec (err n op : string) (mgr : ModuleManager) :
  n <> "" -> op <> "initialization" ->
  let c := counter mgr n in
  let k := maxAttempts (recoveryOptions mgr) in
  let mgr' := emit_moduleError err n op mgr in
  recoveryOptions mgr' = recoveryOptions mgr
  /\ exists new,
       trace mgr' = trace mgr ++ new
       /\ module_errors n new = 1
       /\ if enabled (recoveryOptions mgr)
          then counter mgr' n = (if decide (k <= c) then c else S c)
               /\ scheduled n new = (if decide (k <= c) then 0 else 1)
          else counter mgr' n = c /\ scheduled n new = 0.
Proof.
  intros Hn Hop. cbv zeta. unfold emit_moduleError.
  change (enabled (recoveryOptions (record (ModuleError err n op) mgr)))
    with (enabled (recoveryOptions mgr)).
  destruct (enabled (recoveryOptions mgr)) eqn:Hen.
  - rewrite !bool_decide_eq_true_2 by assumption. simpl.
    destruct (attemptModuleRecovery_spec n
                (record (ModuleError err n op) mgr))
      as (Ho & Hc & a & Ht & Ha & Hs).
    split; [ exact Ho | ].
    exists [ModuleError err n op; a]. split_and!.
    + rewrite Ht. simpl. rewrite <- app_assoc. reflexivity.
    + simpl in *. rewrite decide_True by reflexivity. lia.
    + exact Hc.
    + simpl in *. exact Hs.
  - simpl. split; [ reflexivity | ].
    exists [ModuleError err n op]. split_and!; try reflexivity.
    simpl. rewrite decide_True by reflexivity. reflexivity.
Qed.

Lemma module_errors_app (n : string) (t1 t2 : list Action) :
  module_errors n (t1 ++ t2) = module_errors n t1 + module_errors n t2.
Proof.
  induction t1 as [ | a t1 IH ]; [ reflexivity | ].
  simpl. destruct a; rewrite ?IH; try reflexivity. lia.
Qed.

Lemma start_pass_failed (h : string -> Hook) (m : Module)
  (mgr : ModuleManager) (err : string) :
  getModule (name m) mgr = Some m ->
  errorListeners m = 1 ->
  _state m = INITIALIZED \/ _state m = STOPPED ->
  h (name m) = Some err ->
  start_pass h [m] mgr
  = emit_moduleError err (name m) "start"
      (emit_moduleError err (name m) "start"
         (put (start (Some err) m).1.2
            (record (Invoke "start" (name m)) mgr))).
Proof.
  intros Hget Hel Hs Hh. unfold start_pass. rewrite Hget.
  unfold getState.
  rewrite decide_False by (destruct Hs as [-> | ->]; discriminate).
  rewrite decide_False by (destruct Hs as [-> | ->]; intros [H1 H2]; congruence).
  unfold invoke. rewrite Hh.
  unfold start.
  rewrite decide_False by (destruct Hs as [-> | ->]; intros [H1 H2]; congruence).
  destruct m as [md s e p mm el sl cp]. simpl in Hel, Hs. subst el.
  destruct Hs as [-> | ->]; reflexivity.
Qed.

(** X27. A failed start is reported to the manager twice: when
    [startModules] reaches a registered module that is INITIALIZED or
    STOPPED and its [onStart] throws, the manager emits [moduleError]
    once through the module's error listener and once more from the
    loop itself. With recovery enabled each of them asks for a recovery
    attempt, so the one failure uses up two attempts of the module's
    budget (or what is left of it); with recovery disabled nothing is
    scheduled. *)
Theorem failed_start_is_reported_twice (h : string -> Hook) (m : Module)
  (mgr : ModuleManager) (err : string) :
  getModule (name m) mgr = Some m ->
  errorListeners m = 1 ->
  _state m = INITIALIZED \/ _state m = STOPPED ->
  h (name m) = Some err ->
  let n := name m in
  let c := counter mgr n in
  let k := maxAttempts (recoveryOptions mgr) in
  let mgr' := start_pass h [m] mgr in
  exists new,
    trace mgr' = trace mgr ++ new
    /\ invoked "start" new = [n]
    /\ module_errors n new = 2
    /\ (if enabled (recoveryOptions mgr)
        then counter mgr' n = Nat.min (c + 2) (Nat.max c k)
             /\ scheduled n new = Nat.min 2 (k - c)
        else counter mgr' n = c /\ scheduled n new = 0).
Proof.
  intros Hget Hel Hs Hh. cbv zeta.
  rewrite (start_pass_failed h m mgr err Hget Hel Hs Hh).
  set (n := name m).
  set (mgr0 := put (start (Some err) m).1.2 (record (Invoke "start" n) mgr)).
  assert (n <> "") as Hn by apply name_nonempty.
  assert ("start" <> "initialization") as Hop by discriminate.
  destruct (emit_moduleError_spec err n "start" mgr0 Hn Hop)
    as (Ho1 & new1 & Ht1 & He1 & Hc1).
  set (mgr1 := emit_moduleError err n "start" mgr0) in *.
  destruct (emit_moduleError_spec err n "start" mgr1 Hn Hop)
    as (Ho2 & new2 & Ht2 & He2 & Hc2).
  set (mgr2 := emit_moduleError err n "start" mgr1) in *.
  assert (trace mgr0 = trace mgr ++ [Invoke "start" n]) as Ht0 by reflexivity.
  assert (recoveryOptions mgr0 = recoveryOptions mgr) as Ho0 by reflexivity.
  assert (counter mgr0 n = counter mgr n) as Hc0 by reflexivity.
  exists (Invoke "start" n :: new1 ++ new2).
  assert (trace mgr2 = trace mgr ++ Invoke "start" n :: new1 ++ new2) as Ht.
  { rewrite Ht2, Ht1, Ht0, <- !app_assoc. reflexivity. }
  split_and!.
  - exact Ht.
  - pose proof (silent_emit_moduleError err n "start" mgr1 "start") as H2.
    pose proof (silent_emit_moduleError err n "start" mgr0 "start") as H1.
    fold mgr1 in H1. fold mgr2 in H2.
    rewrite H1, Ht0, invoked_app in H2. rewrite Ht, invoked_app in H2.
    apply app_inv_head in H2. rewrite H2. reflexivity.
  - change (Invoke "start" n :: new1 ++ new2)
      with ([Invoke "start" n] ++ new1 ++ new2).
    rewrite !module_errors_app, He1, He2. reflexivity.
  - rewrite Ho1, Ho0 in Hc2. rewrite Ho0 in Hc1. rewrite Hc0 in Hc1.
    change (Invoke "start" n :: new1 ++ new2)
      with ([Invoke "start" n] ++ new1 ++ new2).
    rewrite !scheduled_app. simpl scheduled at 1.
    destruct (enabled (recoveryOptions mgr)).
    + destruct Hc1 as [Hc1 Hs1], Hc2 as [Hc2 Hs2].
      rewrite Hc2, Hs1, Hs2, Hc1.
      repeat destruct (decide _); lia.
    + destruct Hc1 as [Hc1 Hs1], Hc2 as [Hc2 Hs2].
      rewrite Hc2, Hs1, Hs2, Hc1. auto.
Qed.

Lemma failed_start_is_reported_twice_witness :
  let m := setModuleManager
             (on_stateChange (on_error
                (with_state INITIALIZED (new_Module (demo_metadata "A" [])))))
  in
  let mgr := with_modules [m]
               (new_ModuleManager None (Some true) (Some 2) (Some 10)) in
  counter (start_pass scenario4_hooks [m] mgr) "A" = 2.
Proof.
  cbv zeta.
  destruct (failed_start_is_reported_twice scenario4_hooks
              (setModuleManager
                 (on_stateChange (on_error
                    (with_state INITIALIZED
                       (new_Module (demo_metadata "A" []))))))
              (with_modules
                 [setModuleManager
                    (on_stateChange (on_error
                       (with_state INITIALIZED
                          (new_Module (demo_metadata "A" [])))))]
                 (new_ModuleManager None (Some true) (Some 2) (Some 10)))
              "boom" eq_refl eq_refl (or_introl eq_refl) eq_refl)
    as (new & _ & _ & _ & H).
  simpl in H. destruct H as [H _]. exact H.
Defined.

(** ** Loading a module whose name is taken *)

Lemma loadModuleFromPath_configDisabled (imported : ImportResult)
  (dir : string) (mgr : ModuleManager) :
  configDisabled (loadModuleFromPath imported dir mgr).2 = configDisabled mgr.
Proof.
  unfold loadModuleFromPath.
  destruct imported as [err | | instance]; try reflexivity.
  destruct (_ || _); [ reflexivity | ].
  unfold registerModule. destruct (modules_has _ _); [ reflexivity | ].
  destruct (disabled _); reflexivity.
Qed.

(** The load of a directory whose enabled module has a name that was
    registered before the call can only be rejected. *)
Lemma registered_name_rejects (fs : ModulesDir) (mgr : ModuleManager)
  (ld : Loading) (dir : string) (instance : Module)
  (s : Settled LoadResult) :
  loading fs mgr ld ->
  moduleLoadPromises mgr !! dir = None ->
  import fs dir = ModuleClass instance ->
  disabled instance = false ->
  name instance ∉ configDisabled mgr ->
  modules_has (name instance) (modules mgr) = true ->
  moduleLoadPromises (manager ld) !! dir = Some s ->
  s = Rejected (already_registered instance).
Proof.
  intros Hld Hnone Himp Hdis Hcfg Hhas Hs.
  destruct (settled_from_import fs mgr ld dir s Hld Hnone Hs)
    as (_ & _ & _ & _ & _ & Hf).
  unfold from_import in Hf. simpl in Hf. rewrite Himp in Hf.
  rewrite Hdis, bool_decide_eq_false_2 in Hf by exact Hcfg. simpl in Hf.
  destruct Hf as [[-> | [-> _]] Hnot]; [ | reflexivity ].
  destruct (Hnot Hhas eq_refl).
Qed.

(** The load of an enabled module is fulfilled with "loaded" or
    rejected, so a fulfilled promise says "loaded". *)
Lemma enabled_fulfilled (fs : ModulesDir) (mgr : ModuleManager)
  (ld : Loading) (dir : string) (instance : Module) (v : LoadResult) :
  loading fs mgr ld ->
  moduleLoadPromises mgr !! dir = None ->
  import fs dir = ModuleClass instance ->
  disabled instance = false ->
  name instance ∉ configDisabled mgr ->
  moduleLoadPromises (manager ld) !! dir = Some (Fulfilled v) ->
  v = Loaded
  /\ exists i st, callbacks ld !! i = Some (dir, st)
                  /\ registers fs (dir, st) (name instance).
Proof.
  intros Hld Hnone Himp Hdis Hcfg Hs.
  destruct (settled_from_import fs mgr ld dir _ Hld Hnone Hs)
    as (i & st & Hi & Ho & Hst & Hf).
  unfold from_import in Hf. simpl in Hf. rewrite Himp in Hf.
  rewrite Hdis, bool_decide_eq_false_2 in Hf by exact Hcfg. simpl in Hf.
  destruct Hf as [[Heq | [Heq _]] _]; [ | discriminate Heq ].
  injection Heq as ->. split; [ reflexivity | ].
  exists i, st. split; [ exact Hi | ]. split.
  - unfold registered. simpl.
    destruct st as [ | r | s' | | [ | ] s' ]; simpl in Ho, Hst;
      try discriminate; injection Hst as ->; reflexivity.
  - exists instance. auto.
Qed.

Lemma loadModules_throws_if_registered (fs : ModulesDir)
  (mgr : ModuleManager) (dir : string) (instance : Module) :
  dir ∈ validDirectories fs ->
  moduleLoadPromises mgr !! dir = None ->
  import fs dir = ModuleClass instance ->
  disabled instance = false ->
  name instance ∉ configDisabled mgr ->
  modules_has (name instance) (modules mgr) = true ->
  forall schedule r ld,
    loadModules fs schedule mgr = Some (r, ld) -> exists err, r = Thrown err.
Proof.
  intros Hin Hp Himp Hdis Hcfg Hhas schedule r ld H.
  destruct (loadModules_reaches fs schedule mgr r ld H)
    as [(err & _ & -> & _) | (_ & _ & Hld & Hdirs & Hpa)];
    [ exists err; reflexivity | ].
  destruct r as [ | err ]; [ exfalso | exists err; reflexivity ].
  rewrite <- Hdirs in Hin.
  destruct (callback_of ld dir Hin) as (i & st & Hi).
  destruct (promise_all_Returned fs mgr ld Hld Hpa) as [_ Hful].
  destruct (Hful i dir st Hi) as (o & v & _ & Hv).
  pose proof (registered_name_rejects fs mgr ld dir instance _ Hld Hp Himp
                Hdis Hcfg Hhas Hv) as Heq.
  discriminate Heq.
Qed.

Lemma thrown_counts_a_failure (fs : ModulesDir) (schedule : list Turn)
  (mgr : ModuleManager) (err : string) (ld : Loading) :
  loadModules fs schedule mgr = Some (Thrown err, ld) ->
  loadAllConfigs fs = None -> readdir fs = None ->
  0 < errorCount (counts ld).
Proof.
  intros H Hcfg Hdir.
  destruct (loadModules_reaches fs schedule mgr _ ld H)
    as [(e & [He | [_ He]] & _) | (_ & _ & Hld & _ & Hpa)];
    [ congruence | congruence | ].
  apply (promise_all_Thrown fs mgr ld err Hld Hpa).
Qed.

(** X28. A name is registered once. Take a directory not loaded before
    whose module is enabled.
    - When the name of the module is registered before the call, by
      hand or on demand, the module registered under the name stays
      the one it was all through the load, the load promise of the
      directory, once settled, is rejected with "Module ... is already
      registered", and [loadModules] throws whenever it settles,
      having counted a failure unless it is the reading of the
      configurations or of the directory that failed.
    - When another directory, not loaded before either, holds an
      enabled module of the same name, the two loads are never both
      fulfilled with "loaded", whichever import settles first, and
      [loadModules] throws in the same way whenever it settles.
    And [loadModules] does settle once the callbacks have taken enough
    turns. *)
Theorem loadModules_rejects_a_registered_name (fs : ModulesDir)
  (mgr : ModuleManager) (dir : string) (instance : Module) :
  dir ∈ validDirectories fs ->
  moduleLoadPromises mgr !! dir = None ->
  import fs dir = ModuleClass instance ->
  disabled instance = false ->
  name instance ∉ configDisabled mgr ->
  (forall m,
      getModule (name instance) mgr = Some m ->
      (forall order,
          let ld := resume_all fs order
                      (start_callbacks (validDirectories fs) mgr) in
          getModule (name instance) (manager ld) = Some m
          /\ forall s, moduleLoadPromises (manager ld) !! dir = Some s ->
                       s = Rejected ("Module " +:+ name instance
                                     +:+ " is already registered"))
      /\ (forall schedule r ld,
            loadModules fs schedule mgr = Some (r, ld) ->
            exists err,
              r = Thrown err
              /\ (loadAllConfigs fs = None -> readdir fs = None ->
                  0 < errorCount (counts ld))))
  /\ (forall dir' instance',
        dir' <> dir ->
        dir' ∈ validDirectories fs ->
        moduleLoadPromises mgr !! dir' = None ->
        import fs dir' = ModuleClass instance' ->
        disabled instance' = false ->
        name instance' = name instance ->
        (forall order,
            let ld := resume_all fs order
                        (start_callbacks (validDirectories fs) mgr) in
            ~ (moduleLoadPromises (manager ld) !! dir
               = Some (Fulfilled Loaded)
               /\ moduleLoadPromises (manager ld) !! dir'
                  = Some (Fulfilled Loaded)))
        /\ (forall schedule r ld,
              loadModules fs schedule mgr = Some (r, ld) ->
              exists err,
                r = Thrown err
                /\ (loadAllConfigs fs = None -> readdir fs = None ->
                    0 < errorCount (counts ld))))
  /\ (forall schedule,
        exists order,
          loadModules fs (schedule ++ then_caller order) mgr <> None).
Proof.
  intros Hin Hp Himp Hdis Hcfg. split_and!.
  - intros m Hget.
    assert (modules_has (name instance) (modules mgr) = true) as Hhas.
    { unfold modules_has. unfold getModule in Hget. rewrite Hget.
      reflexivity. }
    split.
    + intros order. cbv zeta.
      set (ld := resume_all fs order
                   (start_callbacks (validDirectories fs) mgr)).
      assert (loading fs mgr ld) as Hld
        by apply loading_resume_all, loading_start_callbacks.
      split.
      * destruct (c_added _ _ (counting_loading _ _ _ Hld))
          as (added & Hadd & _).
        unfold getModule in *. rewrite Hadd, modules_get_app, Hget.
        reflexivity.
      * intros s Hs.
        apply (registered_name_rejects fs mgr ld dir instance s);
          assumption.
    + intros schedule r ld H.
      destruct (loadModules_throws_if_registered fs mgr dir instance Hin Hp
                  Himp Hdis Hcfg Hhas schedule r ld H) as [err ->].
      exists err. split; [ reflexivity | ].
      apply (thrown_counts_a_failure fs schedule mgr err ld H).
  - intros dir' instance' Hne Hin' Hp' Himp' Hdis' Hname.
    assert (forall ld,
              loading fs mgr ld ->
              ~ (moduleLoadPromises (manager ld) !! dir
                 = Some (Fulfilled Loaded)
                 /\ moduleLoadPromises (manager ld) !! dir'
                    = Some (Fulfilled Loaded))) as Hnot.
    { intros ld Hld [H1 H2].
      destruct (enabled_fulfilled fs mgr ld dir instance _ Hld Hp Himp Hdis
                  Hcfg H1) as (_ & i & st & Hi & Hr).
      destruct (enabled_fulfilled fs mgr ld dir' instance' _ Hld Hp' Himp'
                  Hdis' ltac:(rewrite Hname; exact Hcfg) H2)
        as (_ & j & st' & Hj & Hr').
      rewrite Hname in Hr'.
      pose proof (n_distinct _ _ _ (named_loading _ _ _ Hld) i j _ _ _
                    Hi Hj Hr Hr') as ->.
      rewrite Hi in Hj. injection Hj as Hd _. congruence. }
    split.
    + intros order. cbv zeta.
      apply Hnot, loading_resume_all, loading_start_callbacks.
    + intros schedule r ld H.
      destruct r as [ | err ];
        [ exfalso
        | exists err; split;
          [ reflexivity
          | apply (thrown_counts_a_failure fs schedule mgr err ld H) ] ].
      destruct (loadModules_reaches fs schedule mgr _ ld H)
        as [(err & _ & Heq & _) | (_ & _ & Hld & Hdirs & Hpa)];
        [ discriminate Heq | ].
      destruct (promise_all_Returned fs mgr ld Hld Hpa) as [_ Hful].
      rewrite <- Hdirs in Hin, Hin'.
      destruct (callback_of ld dir Hin) as (i & st & Hi).
      destruct (callback_of ld dir' Hin') as (j & st' & Hj).
      destruct (Hful i dir st Hi) as (o & v & _ & Hv).
      destruct (Hful j dir' st' Hj) as (o' & v' & _ & Hv').
      destruct (enabled_fulfilled fs mgr ld dir instance _ Hld Hp Himp Hdis
                  Hcfg Hv) as [-> _].
      destruct (enabled_fulfilled fs mgr ld dir' instance' _ Hld Hp' Himp'
                  Hdis' ltac:(rewrite Hname; exact Hcfg) Hv') as [-> _].
      apply (Hnot ld Hld). split; assumption.
  - intros schedule. apply loadModules_settles.
Qed.

Lemma loadModules_rejects_a_registered_name_witness :
  exists err,
    option_map fst
      (loadModules twins (then_caller [1; 1; 1; 0; 0; 0]) fresh_manager)
    = Some (Thrown err).
Proof.
  pose proof (loadModules_rejects_a_registered_name twins fresh_manager
                "one" (new_Module (demo_metadata "same" []))) as H.
  destruct H as (_ & H & _).
  - left.
  - reflexivity.
  - reflexivity.
  - reflexivity.
  - apply not_elem_of_empty.
  - destruct (H "two" (new_Module (demo_metadata "same" []))) as [_ H2];
      try reflexivity; try discriminate.
    + right. left.
    + destruct (loadModules twins (then_caller [1; 1; 1; 0; 0; 0])
                  fresh_manager) as [[r ld] | ] eqn:E.
      * destruct (H2 _ r ld E) as (err & -> & _). exists err. reflexivity.
      * exfalso. revert E. vm_compute. discriminate.
Defined.

Lemma invoke_object_flags (op : string)
  (method : Module -> Outcome * Module * list Effect) (m : Module)
  (mgr : ModuleManager) :
  same_flags mgr (invoke_object op method m mgr).2.
Proof.
  unfold invoke_object. destruct (method m) as [[r m'] effects]. simpl.
  eapply same_flags_trans; [ | apply same_flags_deliver ].
  destruct (modules_has _ _); split; reflexivity.
Qed.

(** X29. [loadModuleOnDemand(name)] answers with the registered module,
    changing nothing, when the name is registered. Otherwise, for a
    directory of that name whose module is enabled and not yet
    registered, the module is registered under its own name, whatever
    its hooks do afterwards, and the load promises are left as they
    were: the directory is not remembered as loaded, so a later
    [loadModules] that finds the directory tries it again and throws
    on the name already registered. When the module's own name differs
    from the directory's, the answer is undefined although the module
    has been registered, and the module is not initialized. *)
Theorem loadModuleOnDemand_spec (fs : ModulesDir) (hI hS : Hook)
  (dir : string) (mgr : ModuleManager) :
  (forall m, getModule dir mgr = Some m ->
             loadModuleOnDemand fs hI hS dir mgr = (Some m, mgr))
  /\ (forall instance,
        getModule dir mgr = None ->
        import fs dir = ModuleClass instance ->
        disabled instance = false ->
        name instance ∉ configDisabled mgr ->
        getModule (name instance) mgr = None ->
        let module :=
          setModuleManager
            (on_stateChange (on_error (setModuleManager instance))) in
        let '(found, mgr1) := loadModuleOnDemand fs hI hS dir mgr in
        (exists m, getModule (name instance) mgr1 = Some m
                   /\ same_but_state module m)
        /\ moduleLoadPromises mgr1 = moduleLoadPromises mgr
        /\ (name instance <> dir ->
            found = None
            /\ mgr1 = with_modules (modules mgr ++ [module]) mgr)
        /\ (dir ∈ validDirectories fs ->
            moduleLoadPromises mgr !! dir = None ->
            (forall schedule r ld,
                loadModules fs schedule mgr1 = Some (r, ld) ->
                exists err, r = Thrown err)
            /\ (forall schedule,
                  exists order,
                    loadModules fs (schedule ++ then_caller order) mgr1
                    <> None))).
Proof.
  split.
  - intros m Hget. unfold loadModuleOnDemand, modules_has.
    unfold getModule in Hget. rewrite Hget. unfold getModule.
    rewrite Hget. reflexivity.
  - intros instance Hnone Himp Hdis Hcfg Hfree. cbv zeta.
    set (module := setModuleManager
                     (on_stateChange (on_error (setModuleManager instance)))).
    assert (name module = name instance) as Hname by reflexivity.
    assert (same_but_state module module) as Hrefl
      by apply same_but_state_refl.
    (* what is established once the module is registered *)
    assert (forall mgr1 m,
              getModule (name instance) mgr1 = Some m ->
              same_but_state module m ->
              same_flags mgr mgr1 ->
              (exists m0, getModule (name instance) mgr1 = Some m0
                          /\ same_but_state module m0)
              /\ moduleLoadPromises mgr1 = moduleLoadPromises mgr
              /\ (dir ∈ validDirectories fs ->
                  moduleLoadPromises mgr !! dir = None ->
                  (forall schedule r ld,
                      loadModules fs schedule mgr1 = Some (r, ld) ->
                      exists err, r = Thrown err)
                  /\ (forall schedule,
                        exists order,
                          loadModules fs (schedule ++ then_caller order) mgr1
                          <> None)))
      as Hdone.
    { intros mgr1 m Hget Hsame [_ _ Hprom Hconf]. split_and!.
      - exists m. auto.
      - exact Hprom.
      - intros Hin Hp.
        split; [ | intros schedule; apply loadModules_settles ].
        apply (loadModules_throws_if_registered fs mgr1 dir instance);
          try assumption.
        + rewrite Hprom. exact Hp.
        + rewrite Hconf. exact Hcfg.
        + unfold modules_has. unfold getModule in Hget. rewrite Hget.
          reflexivity. }
    destruct (registerModule_fresh (setModuleManager instance) mgr Hdis Hfree)
      as [Hreg Hget]. fold module in Hreg, Hget.
    change (name (setModuleManager instance)) with (name instance) in Hget.
    set (mgr0 := with_modules (modules mgr ++ [module]) mgr) in *.
    assert (same_flags mgr mgr0) as Hflags0 by (split; reflexivity).
    unfold loadModuleOnDemand, modules_has.
    unfold getModule in Hnone. rewrite Hnone. rewrite Himp.
    unfold loadModuleFromPath.
    change (disabled (setModuleManager instance)) with (disabled instance).
    change (name (setModuleManager instance)) with (name instance).
    rewrite Hdis, bool_decide_eq_false_2 by exact Hcfg. simpl orb. cbv iota.
    rewrite Hreg.
    destruct (decide (name instance = dir)) as [Heq | Hne].
    + subst dir. rewrite Hget.
      change (initialized mgr0) with (initialized mgr).
      destruct (initialized mgr).
      * rewrite <- Hname in Hget.
        pose proof (invoke_object_registered "initialize" (initialize hI)
                      module mgr0 Hget (same_but_state_initialize hI module))
          as Hstep1.
        pose proof (invoke_object_flags "initialize" (initialize hI)
                      module mgr0) as Hf1.
        destruct (invoke_object "initialize" (initialize hI) module mgr0)
          as [[r2 m2] mgr2].
        destruct Hstep1 as (_ & Hm2 & Hget2 & _ & _). simpl in Hf1.
        assert (same_but_state module m2) as Hs2
          by (rewrite Hm2; apply same_but_state_initialize).
        assert (same_flags mgr mgr2) as Hflags2
          by (eapply same_flags_trans; eassumption).
        rewrite Hname in Hget2.
        destruct r2.
        -- destruct (autoStart mgr2).
           ++ rewrite <- Hname, <- (same_but_state_name _ _ Hs2) in Hget2.
              pose proof (invoke_object_registered "start" (start hS)
                            m2 mgr2 Hget2 (same_but_state_start hS m2))
                as Hstep2.
              pose proof (invoke_object_flags "start" (start hS) m2 mgr2)
                as Hf2.
              destruct (invoke_object "start" (start hS) m2 mgr2)
                as [[r3 m3] mgr3].
              destruct Hstep2 as (_ & Hm3 & Hget3 & _ & _). simpl in Hf2.
              assert (same_but_state module m3) as Hs3.
              { eapply same_but_state_trans; [ exact Hs2 | ].
                rewrite Hm3. apply same_but_state_start. }
              rewrite (same_but_state_name _ _ Hs2), Hname in Hget3.
              assert (same_flags mgr mgr3) as Hflags3
                by (eapply same_flags_trans; eassumption).
              destruct (Hdone mgr3 m3 Hget3 Hs3 Hflags3) as (H1 & H2 & H3).
              destruct r3; split_and!; try assumption; intros; congruence.
           ++ destruct (Hdone mgr2 m2 Hget2 Hs2 Hflags2) as (H1 & H2 & H3).
              split_and!; try assumption; intros; congruence.
        -- destruct (Hdone mgr2 m2 Hget2 Hs2 Hflags2) as (H1 & H2 & H3).
           split_and!; try assumption; intros; congruence.
      * destruct (Hdone mgr0 module Hget Hrefl Hflags0) as (H1 & H2 & H3).
        split_and!; try assumption; intros; congruence.
    + assert (getModule dir mgr0 = None) as Hd.
      { unfold getModule, mgr0. simpl. rewrite modules_get_app, Hnone.
        unfold modules_get. simpl. rewrite Hname.
        rewrite bool_decide_eq_false_2 by exact Hne. reflexivity. }
      rewrite Hd.
      destruct (Hdone mgr0 module Hget Hrefl Hflags0) as (H1 & H2 & H3).
      split_and!; try assumption. intros _. split; reflexivity.
Qed.
